(** * Ranking and unranking of unordered leaf-labelled trees

    A shallow embedding of [tskit/combinatorics.py] and the verification of
    its specification.  Python integers are unbounded, so they are modelled
    by [Z]; exceptions are modelled by the [result] type below; loops whose
    trip count is not syntactically bounded are run on fuel computed from
    their inputs, and running out of fuel is reported as [OutOfFuel] so that
    a theorem of the form [f x = Ok v] also establishes termination. *)

From Stdlib Require Import String ZArith List Lia Bool Sorted Permutation.
Import ListNotations.
Open Scope Z_scope.

(** ** Exceptions *)

Inductive exn : Type :=
| AssertionError
| IndexError
| ValueError (msg : string)
| TypeError
| ZeroDivisionError
| OutOfFuel.

Inductive result (A : Type) : Type :=
| Ok (a : A)
| Raise (e : exn).
Arguments Ok {A} a.
Arguments Raise {A} e.

Definition bind {A B} (c : result A) (f : A -> result B) : result B :=
  match c with
  | Ok a => f a
  | Raise e => Raise e
  end.

Declare Scope result_scope.
Delimit Scope result_scope with result.
Notation "x <- c1 ;; c2" := (bind c1 (fun x => c2))
  (at level 61, c1 at next level, right associativity) : result_scope.
Notation "' pat <- c1 ;; c2" := (bind c1 (fun x => match x with pat => c2 end))
  (at level 61, pat pattern, c1 at next level, right associativity) : result_scope.
Open Scope result_scope.

(** [assert cond] *)
Definition assert (b : bool) : result unit :=
  if b then Ok tt else Raise AssertionError.

(** The value of a computation that is known not to raise. *)
Definition value {A} (d : A) (c : result A) : A :=
  match c with
  | Ok a => a
  | Raise _ => d
  end.

Definition fails {A} (c : result A) : Prop := exists e, c = Raise e.

(** [[f(x) for x in l]], evaluated left to right. *)
Fixpoint mapM {A B} (f : A -> result B) (l : list A) : result (list B) :=
  match l with
  | [] => Ok []
  | x :: l' => y <- f x ;; ys <- mapM f l' ;; Ok (y :: ys)
  end.

(** ** Python list and integer primitives *)

Definition len {A} (l : list A) : Z := Z.of_nat (length l).
Arguments len : simpl never.

(** [range(a, b)] *)
Definition range (a b : Z) : list Z :=
  map (fun i => a + Z.of_nat i) (seq 0 (Z.to_nat (b - a))).

(** [sum(l)] *)
Definition sum (l : list Z) : Z := fold_left Z.add l 0.

(** [a // b]: floor division, which agrees with [Z.div] for a non-zero
    divisor of either sign. *)
Definition floordiv (a b : Z) : result Z :=
  if b =? 0 then Raise ZeroDivisionError else Ok (a / b).

(** [a % b] *)
Definition pymod (a b : Z) : result Z :=
  if b =? 0 then Raise ZeroDivisionError else Ok (a mod b).

(** [l[i]] with Python's negative indices. *)
Definition py_get {A} (l : list A) (i : Z) : result A :=
  let j := if i <? 0 then len l + i else i in
  if j <? 0 then Raise IndexError
  else match nth_error l (Z.to_nat j) with
       | Some v => Ok v
       | None => Raise IndexError
       end.

Fixpoint update {A} (l : list A) (i : nat) (v : A) : list A :=
  match l, i with
  | [], _ => []
  | _ :: l', O => v :: l'
  | x :: l', S i' => x :: update l' i' v
  end.

(** [l[i] = v] *)
Definition py_set {A} (l : list A) (i : Z) (v : A) : result (list A) :=
  let j := if i <? 0 then len l + i else i in
  if (j <? 0) || (len l <=? j) then Raise IndexError
  else Ok (update l (Z.to_nat j) v).

(** [l[i:]] and [l[:i]] for a non-negative [i] (every slice bound in the
    module is a literal, a length or a loop counter). *)
Definition slice_from {A} (i : Z) (l : list A) : list A := skipn (Z.to_nat i) l.
Definition slice_to {A} (i : Z) (l : list A) : list A := firstn (Z.to_nat i) l.

(** ** class Combination *)

Module Combination.

(** [Combination.comb], statement by statement. *)
Fixpoint comb_loop (n k : Z) (ixs : list Z) (res : Z) : result Z :=
  match ixs with
  | [] => Ok res
  | i :: ixs' =>
      let res := res * (n - k + i) in
      res <- floordiv res i ;;
      comb_loop n k ixs' res
  end.

Definition comb_checked (n k : Z) : result Z :=
  let k := Z.min k (n - k) in
  comb_loop n k (range 1 (k + 1)) 1.

(** The integer returned by [Combination.comb]. *)
Definition comb (n k : Z) : Z := value 0 (comb_checked n k).

Definition comb_with_replacement_checked (n k : Z) : result Z :=
  comb_checked (n + k - 1) k.

Definition comb_with_replacement (n k : Z) : Z := comb (n + k - 1) k.

Section Elements.
Context {A : Type} (eqb : A -> A -> bool).

(** [elements.index(x)] *)
Fixpoint index (x : A) (elements : list A) : result Z :=
  match elements with
  | [] => Raise (ValueError "x is not in list")
  | y :: elements' =>
      if eqb y x then Ok 0 else i <- index x elements' ;; Ok (i + 1)
  end.

(** [Combination.unrank].  Every call drops an element of [elements],
    until none is left; from then on it decrements [k] or [rank]. *)
Fixpoint unrank_fuel (fuel : nat) (rank : Z) (elements : list A) (k : Z)
  : result (list A) :=
  match fuel with
  | O => Raise OutOfFuel
  | S fuel =>
      let n := len elements in
      if k =? 0 then Ok []
      else
        let n_rest_combs := comb (n - 1) (k - 1) in
        if rank <? n_rest_combs then
          rest <- unrank_fuel fuel rank (slice_from 1 elements) (k - 1) ;;
          Ok (slice_to 1 elements ++ rest)
        else unrank_fuel fuel (rank - n_rest_combs) (slice_from 1 elements) k
  end.

Definition unrank (rank : Z) (elements : list A) (k : Z) : result (list A) :=
  unrank_fuel (length elements + Z.to_nat k + Z.to_nat rank + 1) rank elements k.
End Elements.

(** [Combination.from_range_rank].  [n] decreases at every call, and every
    element of [combination] with it. *)
Fixpoint from_range_rank_fuel (fuel : nat) (combination : list Z) (n : Z)
  : result Z :=
  match fuel with
  | O => Raise OutOfFuel
  | S fuel =>
      let k := len combination in
      if (k =? 0) || (k =? n) then Ok 0
      else
        j <- py_get combination 0 ;;
        let combination := map (fun x => x - 1) combination in
        if j =? 0 then from_range_rank_fuel fuel (slice_from 1 combination) (n - 1)
        else
          let first_rank := comb (n - 1) (k - 1) in
          rest_rank <- from_range_rank_fuel fuel combination (n - 1) ;;
          Ok (first_rank + rest_rank)
  end.

Definition from_range_rank (combination : list Z) (n : Z) : result Z :=
  from_range_rank_fuel
    (Z.to_nat n + Z.to_nat (last combination 0) + 2) combination n.

(** [Combination.rank] *)
Definition rank {A} (eqb : A -> A -> bool) (combination elements : list A)
  : result Z :=
  indices <- mapM (fun x => index eqb x elements) combination ;;
  from_range_rank indices (len elements).

(** [Combination.with_replacement_rank]: every call is on a strictly shorter
    list, so the length of the list is the exact fuel. *)
Fixpoint with_replacement_rank_fuel (fuel : nat) (combination : list Z) (n : Z)
  : result Z :=
  match fuel with
  | O => Raise OutOfFuel
  | S fuel =>
      let k := len combination in
      if k =? 0 then Ok 0
      else
        j <- py_get combination 0 ;;
        if k =? 1 then Ok j
        else if j =? 0 then
          with_replacement_rank_fuel fuel (slice_from 1 combination) n
        else
          let rest := map (fun x => x - j) (slice_from 1 combination) in
          let preceding :=
            fold_left (fun preceding i =>
                         preceding + comb_with_replacement (n - i) (k - 1))
                      (range 0 j) 0 in
          r <- with_replacement_rank_fuel fuel rest (n - j) ;;
          Ok (preceding + r)
  end.

Definition with_replacement_rank_checked (combination : list Z) (n : Z)
  : result Z :=
  with_replacement_rank_fuel (length combination + 1) combination n.

Definition with_replacement_rank (combination : list Z) (n : Z) : Z :=
  value 0 (with_replacement_rank_checked combination n).

(** The [while rank >= preceding] loop of [with_replacement_unrank]; it
    returns the final [rank] and [i]. *)
Fixpoint with_replacement_unrank_loop
  (fuel : nat) (n k rank i preceding : Z) : result (Z * Z) :=
  match fuel with
  | O => Raise OutOfFuel
  | S fuel =>
      if preceding <=? rank then
        let rank := rank - preceding in
        let i := i + 1 in
        let preceding := comb_with_replacement (n - i) (k - 1) in
        with_replacement_unrank_loop fuel n k rank i preceding
      else Ok (rank, i)
  end.

(** [Combination.with_replacement_unrank] *)
Fixpoint with_replacement_unrank_fuel (fuel : nat) (rank n k : Z)
  : result (list Z) :=
  match fuel with
  | O => Raise OutOfFuel
  | S fuel =>
      if k =? 0 then Ok []
      else
        let preceding := comb_with_replacement n (k - 1) in
        '(rank, i) <-
          with_replacement_unrank_loop (Z.to_nat rank + 1) n k rank 0 preceding ;;
        rest <- with_replacement_unrank_fuel fuel rank (n - i) (k - 1) ;;
        Ok (i :: map (fun x => x + i) rest)
  end.

Definition with_replacement_unrank (rank n k : Z) : result (list Z) :=
  with_replacement_unrank_fuel (Z.to_nat k + 1) rank n k.

End Combination.

(** ** Helpers *)

(** [set_minus] *)
Definition set_minus {A} (eqb : A -> A -> bool) (arr subset : list A) : list A :=
  filter (fun x => negb (existsb (eqb x) subset)) arr.

(** The inner [while x <= y] loop of [rule_asc]; it returns the final
    [a], [k] and [y].  [k] grows at every iteration, so the loop ends within
    [len(a) + 1] iterations, by its exit or by an [IndexError]. *)
Fixpoint rule_asc_inner (fuel : nat) (a : list Z) (k x y : Z)
  : result (list Z * Z * Z) :=
  match fuel with
  | O => Raise OutOfFuel
  | S fuel =>
      if x <=? y then
        a <- py_set a k x ;;
        rule_asc_inner fuel a (k + 1) x (y - x)
      else Ok (a, k, y)
  end.

(** The outer [while k != 0] loop of [rule_asc]; the list of the values the
    generator yields until it returns. *)
Fixpoint rule_asc_outer (fuel : nat) (a : list Z) (k : Z)
  : result (list (list Z)) :=
  match fuel with
  | O => Raise OutOfFuel
  | S fuel =>
      if k =? 0 then Ok []
      else
        ak1 <- py_get a (k - 1) ;;
        let x := ak1 + 1 in
        ak <- py_get a k ;;
        let y := ak - 1 in
        let k := k - 1 in
        '(a, k, y) <- rule_asc_inner (length a + 1) a k x y ;;
        a <- py_set a k (x + y) ;;
        if k =? 0 then Ok []
        else
          rest <- rule_asc_outer fuel a k ;;
          Ok (slice_to (k + 1) a :: rest)
  end.

(** [rule_asc].  There are at most [2^n] compositions of [n]. *)
Definition rule_asc (n : Z) : result (list (list Z)) :=
  let a := map (fun _ => 0) (range 0 (n + 1)) in
  let k := 1 in
  a <- py_set a 1 n ;;
  rule_asc_outer (2 ^ Z.to_nat n) a k.

(** [partition] *)
Definition partition_checked (n : Z) : result (list (list Z)) :=
  if 0 <? n then rule_asc n else Ok [].

(** The list of the partitions that [partition] generates. *)
Definition partition (n : Z) : list (list Z) := value [] (partition_checked n).

(** [group_by] *)
Definition group_by_step {A} (equal : A -> A -> bool)
  (st : list (list A) * list A) (x : A) : list (list A) * list A :=
  let '(groups, curr_group) := st in
  match curr_group with
  | [] => (groups, curr_group ++ [x])
  | c0 :: _ =>
      if equal x c0 then (groups, curr_group ++ [x])
      else (groups ++ [curr_group], [x])
  end.

Definition group_by {A} (values : list A) (equal : A -> A -> bool)
  : list (list A) :=
  let '(groups, curr_group) := fold_left (group_by_step equal) values ([], []) in
  match curr_group with
  | [] => groups
  | _ :: _ => groups ++ [curr_group]
  end.

(** [group_partition] *)
Definition group_partition (part : list Z) : list (list Z) :=
  group_by part Z.eqb.

(** ** Counting tree shapes *)

(** [num_tree_pairings], over the function it calls for [num_shapes].  A
    group produced by [group_by] is never empty, so [g[0]] is its head. *)
Definition num_tree_pairings_with (num_shapes : Z -> Z) (part : list Z) : Z :=
  fold_left
    (fun total g =>
       let k := hd 0 g in
       total * Combination.comb_with_replacement (num_shapes k) (len g))
    (group_partition part) 1.

(** [num_shapes]: the recursion goes through the parts of the partitions of
    [n], all smaller than [n], so [n] levels of recursion are enough. *)
Fixpoint num_shapes_fuel (fuel : nat) (n : Z) : Z :=
  if n <=? 1 then n
  else match fuel with
       | O => 0
       | S fuel =>
           sum (map (num_tree_pairings_with (num_shapes_fuel fuel)) (partition n))
       end.

Definition num_shapes (n : Z) : Z := num_shapes_fuel (Z.to_nat n) n.

Definition num_tree_pairings (part : list Z) : Z :=
  num_tree_pairings_with num_shapes part.

(** ** Labels, [heapq.merge] and [sorted] *)

(** A leaf label: an integer, or [None] in a tree that is not labelled. *)
Definition label : Type := option Z.

(** [a == b] on labels. *)
Definition label_eqb (a b : label) : bool :=
  match a, b with
  | None, None => true
  | Some x, Some y => x =? y
  | _, _ => false
  end.

(** The comparison [heapq.merge] makes between the heads [a] and [b] of two
    of its inputs, [a] from the earlier one: the entries are the lists
    [[a, i]] and [[b, j]] with [i < j], and Python compares lists by [==]
    up to the first difference and by [<] there, so the earlier entry is the
    lesser one when [a == b], and [a < b] decides otherwise; [None < 3] is a
    [TypeError]. *)
Definition label_le (a b : label) : result bool :=
  match a, b with
  | None, None => Ok true
  | Some x, Some y => Ok (x <=? y)
  | _, _ => Raise TypeError
  end.

(** The position of the least of the heads, the earliest one among equals. *)
Fixpoint least (heads : list label) : result nat :=
  match heads with
  | [] => Raise IndexError
  | h :: hs =>
      match hs with
      | [] => Ok O
      | _ :: _ =>
          j <- least hs ;;
          b <- label_le h (nth j hs None) ;;
          Ok (if b then O else S j)
      end
  end.

Definition is_nil {A} (l : list A) : bool :=
  match l with
  | [] => true
  | _ :: _ => false
  end.

(** [heapq.merge] over the lists [ls], as a list: while more than one input is left, the least
    head is yielded and its input advanced; an input that is exhausted is
    dropped, and the last input left is yielded as it is. *)
Fixpoint heapq_merge_fuel (fuel : nat) (ls : list (list label))
  : result (list label) :=
  match fuel with
  | O => Raise OutOfFuel
  | S fuel =>
      let ls := filter (fun l => negb (is_nil l)) ls in
      match ls with
      | [] => Ok []
      | [l] => Ok l
      | _ :: _ :: _ =>
          j <- least (map (hd None) ls) ;;
          let l := nth j ls [] in
          rest <- heapq_merge_fuel fuel (update ls j (tl l)) ;;
          Ok (hd None l :: rest)
      end
  end.

Definition heapq_merge (ls : list (list label)) : result (list label) :=
  heapq_merge_fuel (length (concat ls) + 1) ls.

(** ** class RankTree *)

(** The fields of a [RankTree] object.  [_shape_rank] is always set by
    [__init__]; [_label_rank] is [None] until it is given or computed. *)
Inductive RankTree : Type :=
| mkRankTree (children : list RankTree) (num_leaves : Z) (labels : list label)
             (_shape_rank : Z) (_label_rank : option Z).

Definition children (t : RankTree) : list RankTree :=
  match t with mkRankTree c _ _ _ _ => c end.
Definition num_leaves (t : RankTree) : Z :=
  match t with mkRankTree _ n _ _ _ => n end.
Definition labels (t : RankTree) : list label :=
  match t with mkRankTree _ _ l _ _ => l end.
Definition _shape_rank (t : RankTree) : Z :=
  match t with mkRankTree _ _ _ s _ => s end.
Definition _label_rank (t : RankTree) : option Z :=
  match t with mkRankTree _ _ _ _ r => r end.

(** [is_leaf] *)
Definition is_leaf (t : RankTree) : bool := len (children t) =? 0.

(** [min_label], and the property [label]: [self.labels[0]] *)
Definition min_label (t : RankTree) : result label := py_get (labels t) 0.

(** [leaf_partition] *)
Definition leaf_partition (t : RankTree) : list Z := map num_leaves (children t).

Definition same_num_leaves (c1 c2 : RankTree) : bool :=
  num_leaves c1 =? num_leaves c2.

Definition same_shape (c1 c2 : RankTree) : bool :=
  (num_leaves c1 =? num_leaves c2) && (_shape_rank c1 =? _shape_rank c2).

(** [group_children_by_num_leaves] and [group_children_by_shape] *)
Definition group_children_by_num_leaves (t : RankTree) : list (list RankTree) :=
  group_by (children t) same_num_leaves.

Definition group_children_by_shape (t : RankTree) : list (list RankTree) :=
  group_by (children t) same_shape.

(** The tree that stands for [g[0]] of an empty list; [group_by] returns no
    empty group, and the functions below are called on its groups. *)
Definition no_tree : RankTree := mkRankTree [] 0 [] 0 None.

(** [g[0]] *)
Definition first (g : list RankTree) : RankTree := hd no_tree g.

(** The first loop of [compute_shape_rank]: the pairings of the partitions
    generated before [part]. *)
Fixpoint prior_pairings (part : list Z) (parts : list (list Z)) : Z :=
  match parts with
  | [] => 0
  | prev_part :: parts' =>
      if list_eq_dec Z.eq_dec prev_part part then 0
      else num_tree_pairings prev_part + prior_pairings part parts'
  end.

(** The second loop of [compute_shape_rank], from the state [total],
    [next_child_idx]. *)
Fixpoint shape_rank_groups (part : list Z) (child_groups : list (list RankTree))
  (next_child_idx total : Z) : Z :=
  match child_groups with
  | [] => total
  | g :: child_groups' =>
      let next_child_idx := next_child_idx + len g in
      let k := num_leaves (first g) in
      let S_k := num_shapes k in
      let child_ranks := map _shape_rank g in
      let g_rank := Combination.with_replacement_rank child_ranks S_k in
      let rest_part := slice_from next_child_idx part in
      let total_rest := num_tree_pairings rest_part in
      shape_rank_groups part child_groups' next_child_idx (total + g_rank * total_rest)
  end.

(** [compute_shape_rank], on the fields it reads. *)
Definition compute_shape_rank_of (kids : list RankTree) (n : Z) : Z :=
  let part := map num_leaves kids in
  let total := prior_pairings part (partition n) in
  let child_groups := group_by kids same_num_leaves in
  shape_rank_groups part child_groups 0 total.

Definition compute_shape_rank (t : RankTree) : Z :=
  compute_shape_rank_of (children t) (num_leaves t).

(** [RankTree.__init__] *)
Definition RankTree_init (shape_rank label_rank : option Z)
  (kids : option (list RankTree)) (lbl : label) : result RankTree :=
  let kids' := match kids with Some c => c | None => [] end in
  '(n, ls) <-
    match kids with
    | None => Ok (1, [lbl])
    | Some c =>
        ls <- heapq_merge (map labels c) ;;
        Ok (sum (map num_leaves c), ls)
    end ;;
  let shape_rank :=
    match shape_rank with
    | Some r => r
    | None => compute_shape_rank_of kids' n
    end in
  Ok (mkRankTree kids' n ls shape_rank label_rank).

(** ** Counting labellings *)

(** [range(start, stop, step)] for a step other than [0]. *)
Definition range_step (start stop step : Z) : list Z :=
  let count :=
    if 0 <? step then (stop - start + step - 1) / step
    else (start - stop - step - 1) / (- step) in
  map (fun i => start + i * step) (range 0 count).

(** [num_assignments_in_group] *)
Definition num_assignments_in_group (g : list RankTree) : result Z :=
  if len g =? 0 then Ok 1
  else
    let k := num_leaves (first g) in
    if k =? 0 then Raise (ValueError "range() arg 3 must not be zero")
    else
      Ok (fold_left (fun total n => total * Combination.comb (n - 1) (k - 1))
                    (range_step (k * len g) 0 (- k)) 1).

(** [num_group_labellings], over the method [num_labellings] it calls. *)
Definition num_group_labellings_with (num_labellings : RankTree -> result Z)
  (g : list RankTree) : result Z :=
  y <- num_labellings (first g) ;;
  let num_tree_labelings := y ^ len g in
  a <- num_assignments_in_group g ;;
  Ok (a * num_tree_labelings).

(** The loop of [num_list_of_group_labellings]. *)
Fixpoint num_list_of_group_labellings_loop
  (num_labellings : RankTree -> result Z)
  (groups : list (list RankTree)) (remaining_leaves total : Z) : result Z :=
  match groups with
  | [] => Ok total
  | g :: groups' =>
      let k := num_leaves (first g) in
      let x := len g in
      let num_label_choices := Combination.comb remaining_leaves (x * k) in
      ngl <- num_group_labellings_with num_labellings g ;;
      num_list_of_group_labellings_loop num_labellings groups'
        (remaining_leaves - x * k) (total * (num_label_choices * ngl))
  end.

Definition num_list_of_group_labellings_with
  (num_labellings : RankTree -> result Z) (groups : list (list RankTree))
  : result Z :=
  let remaining_leaves :=
    sum (map (fun g => len g * num_leaves (first g)) groups) in
  num_list_of_group_labellings_loop num_labellings groups remaining_leaves 1.

(** The number of nodes on the longest path from [t] down to a leaf. *)
Fixpoint depth (t : RankTree) : nat :=
  match t with
  | mkRankTree cs _ _ _ _ => S (fold_right (fun c d => Nat.max (depth c) d) O cs)
  end.

(** [RankTree.num_labellings]: the recursion goes through [g[0]] of the
    groups of children, so [depth t] levels are enough. *)
Fixpoint num_labellings_fuel (fuel : nat) (t : RankTree) : result Z :=
  match fuel with
  | O => Raise OutOfFuel
  | S fuel =>
      if is_leaf t then Ok 1
      else
        let child_groups := group_children_by_shape t in
        num_list_of_group_labellings_with (num_labellings_fuel fuel) child_groups
  end.

Definition RankTree_num_labellings (t : RankTree) : result Z :=
  num_labellings_fuel (depth t) t.

Definition num_group_labellings : list RankTree -> result Z :=
  num_group_labellings_with RankTree_num_labellings.

Definition num_list_of_group_labellings : list (list RankTree) -> result Z :=
  num_list_of_group_labellings_with RankTree_num_labellings.

(** ** Ranking the labelling *)

(** [t._label_rank] where an integer is needed. *)
Definition label_rank_int (t : RankTree) : result Z :=
  match _label_rank t with
  | Some r => Ok r
  | None => Raise TypeError
  end.

(** The loop [for j in range(curr_trees - 1)] of [group_rank]. *)
Definition num_rest_combs_of (remaining_leaves k curr_trees : Z) : Z :=
  fold_left
    (fun num_rest_combs j =>
       num_rest_combs * Combination.comb (remaining_leaves - j * k - 1) (k - 1))
    (range 0 (curr_trees - 1)) 1.

(** The loop of [group_rank] from the tree of index [i] on. *)
Fixpoint group_rank_loop (lg k n y : Z) (ts : list RankTree) (i : Z)
  (all_labels : list label) (rank : Z) : result Z :=
  match ts with
  | [] => Ok rank
  | t :: ts' =>
      let u_labels := labels t in
      let curr_trees := lg - i in
      comb_rank <- Combination.rank label_eqb u_labels all_labels ;;
      let remaining_leaves := n - (i + 1) * k in
      let num_rest_combs := num_rest_combs_of remaining_leaves k curr_trees in
      let preceding_combs := comb_rank * num_rest_combs * y ^ curr_trees in
      lr <- label_rank_int t ;;
      let curr_comb := lr * num_rest_combs * y ^ (curr_trees - 1) in
      group_rank_loop lg k n y ts' (i + 1)
        (set_minus label_eqb all_labels u_labels) (rank + (preceding_combs + curr_comb))
  end.

(** [group_rank] *)
Definition group_rank (g : list RankTree) : result Z :=
  let k := num_leaves (first g) in
  let n := len g * k in
  y <- RankTree_num_labellings (first g) ;;
  all_labels <- heapq_merge (map labels g) ;;
  group_rank_loop (len g) k n y g 0 all_labels 0.

(** The loop of [add_label_ranks] over the groups of children. *)
Fixpoint add_label_ranks_loop (child_groups : list (list RankTree))
  (all_labels : list label) (total : Z) : result Z :=
  match child_groups with
  | [] => Ok total
  | g :: rest_groups =>
      g_labels <- heapq_merge (map labels g) ;;
      num_rest_labellings <- num_list_of_group_labellings rest_groups ;;
      comb_rank <- Combination.rank label_eqb g_labels all_labels ;;
      num_g_labellings <- num_group_labellings g ;;
      let preceding_comb := comb_rank * num_g_labellings * num_rest_labellings in
      gr <- group_rank g ;;
      let rank_from_g := gr * num_rest_labellings in
      add_label_ranks_loop rest_groups (set_minus label_eqb all_labels g_labels)
        (total + (preceding_comb + rank_from_g))
  end.

(** [add_label_ranks]: the tree with [_label_rank] set, in it and in all
    the nodes below it. *)
Fixpoint add_label_ranks (t : RankTree) : result RankTree :=
  match t with
  | mkRankTree cs n ls sr _ =>
      cs' <- (fix go (cs : list RankTree) : result (list RankTree) :=
                match cs with
                | [] => Ok []
                | c :: cs0 =>
                    c' <- add_label_ranks c ;;
                    cs0' <- go cs0 ;;
                    Ok (c' :: cs0')
                end) cs ;;
      let child_groups := group_by cs' same_shape in
      total <- add_label_ranks_loop child_groups ls 0 ;;
      Ok (mkRankTree cs' n ls sr (Some total))
  end.

(** [RankTree.shape_rank], [RankTree.label_rank] and [RankTree.rank] *)
Definition RankTree_shape_rank (t : RankTree) : Z := _shape_rank t.

Definition RankTree_label_rank (t : RankTree) : result Z :=
  match _label_rank t with
  | Some r => Ok r
  | None => t' <- add_label_ranks t ;; label_rank_int t'
  end.

Definition RankTree_rank (t : RankTree) : result (Z * Z) :=
  lr <- RankTree_label_rank t ;;
  Ok (RankTree_shape_rank t, lr).

(** ** Unranking *)

(** The first loop of [children_shape_ranks]: the partition that holds
    [rank], with the number of trees of the partitions before it. *)
Fixpoint find_part (parts : list (list Z)) (rank num_prior_trees : Z)
  : option (list Z) * Z :=
  match parts with
  | [] => (None, num_prior_trees)
  | prev_part :: parts' =>
      let num_trees_with_part := num_tree_pairings prev_part in
      if rank <? num_prior_trees + num_trees_with_part then
        (Some prev_part, num_prior_trees)
      else find_part parts' rank (num_prior_trees + num_trees_with_part)
  end.

(** The second loop of [children_shape_ranks]. *)
Fixpoint children_shape_ranks_loop (part : list Z) (grouped_part : list (list Z))
  (rank next_child : Z) (child_ranks : list Z) : result (list Z) :=
  match grouped_part with
  | [] => Ok child_ranks
  | g :: grouped_part' =>
      let next_child := next_child + len g in
      let k := hd 0 g in
      let rest_children := slice_from next_child part in
      let rest_num_pairings := num_tree_pairings rest_children in
      shapes_comb_rank <- floordiv rank rest_num_pairings ;;
      g_shape_ranks <-
        Combination.with_replacement_unrank shapes_comb_rank (num_shapes k) (len g) ;;
      rank <- pymod rank rest_num_pairings ;;
      children_shape_ranks_loop part grouped_part' rank next_child
        (child_ranks ++ g_shape_ranks)
  end.

(** [children_shape_ranks] *)
Definition children_shape_ranks (rank n : Z) : result (list Z * list Z) :=
  _ <- assert (1 <? n) ;;
  _ <- assert ((0 <=? rank) && (rank <? num_shapes n)) ;;
  let '(part, num_prior_trees) := find_part (partition n) rank 0 in
  match part with
  | None => Raise AssertionError
  | Some part =>
      let rank := rank - num_prior_trees in
      let grouped_part := group_partition part in
      child_ranks <- children_shape_ranks_loop part grouped_part rank 0 [] ;;
      Ok (part, child_ranks)
  end.

(** [RankTree.shape_unrank]: every child has fewer leaves than its parent,
    so [n] levels of recursion below the first are enough. *)
Fixpoint shape_unrank_fuel (fuel : nat) (shape_rank n : Z) : result RankTree :=
  match fuel with
  | O => Raise OutOfFuel
  | S fuel =>
      if n =? 1 then
        _ <- assert (shape_rank =? 0) ;;
        RankTree_init (Some 0) None None None
      else
        '(part, child_shape_ranks) <- children_shape_ranks shape_rank n ;;
        kids <- mapM (fun '(rk, k) => shape_unrank_fuel fuel rk k)
                  (combine child_shape_ranks part) ;;
        RankTree_init (Some shape_rank) None (Some kids) None
  end.

Definition RankTree_shape_unrank (shape_rank n : Z) : result RankTree :=
  shape_unrank_fuel (S (Z.to_nat n)) shape_rank n.

(** The loop of [group_label_ranks]. *)
Fixpoint group_label_ranks_loop (child_group : list RankTree) (rank : Z)
  (labels : list Z) (child_labels : list (list Z)) (child_label_ranks : list Z)
  : result (list (list Z) * list Z) :=
  match child_group with
  | [] => Ok (child_labels, child_label_ranks)
  | rank_tree :: rest_trees =>
      let k := num_leaves rank_tree in
      num_t_labellings <- RankTree_num_labellings rank_tree ;;
      num_rest_assignments <- num_assignments_in_group rest_trees ;;
      let num_rest_labellings :=
        num_rest_assignments * num_t_labellings ^ len rest_trees in
      let num_labellings_per_label_comb := num_t_labellings * num_rest_labellings in
      comb_rank <- floordiv rank num_labellings_per_label_comb ;;
      rank_given_comb <- pymod rank num_labellings_per_label_comb ;;
      t_rank <- floordiv rank_given_comb num_rest_labellings ;;
      rank <- pymod rank num_rest_labellings ;;
      min_label <- py_get labels 0 ;;
      rest_labels <- Combination.unrank comb_rank (slice_from 1 labels) (k - 1) ;;
      let t_labels := [min_label] ++ rest_labels in
      let labels := set_minus Z.eqb labels t_labels in
      group_label_ranks_loop rest_trees rank labels
        (child_labels ++ [t_labels]) (child_label_ranks ++ [t_rank])
  end.

(** [group_label_ranks] *)
Definition group_label_ranks (rank : Z) (child_group : list RankTree)
  (labels : list Z) : result (list (list Z) * list Z) :=
  group_label_ranks_loop child_group rank labels [] [].

(** The loop of [children_label_ranks]. *)
Fixpoint children_label_ranks_loop (child_groups : list (list RankTree))
  (rank : Z) (labels : list Z) (child_labels : list (list Z))
  (child_label_ranks : list Z) : result (list (list Z) * list Z) :=
  match child_groups with
  | [] => Ok (child_labels, child_label_ranks)
  | g :: rest_groups =>
      let k := num_leaves (first g) in
      let g_num_leaves := k * len g in
      num_g_labellings <- num_group_labellings g ;;
      num_rest_labellings <- num_list_of_group_labellings rest_groups ;;
      let num_labellings_per_label_comb := num_g_labellings * num_rest_labellings in
      comb_rank <- floordiv rank num_labellings_per_label_comb ;;
      rank_given_label_comb <- pymod rank num_labellings_per_label_comb ;;
      g_rank <- floordiv rank_given_label_comb num_rest_labellings ;;
      g_labels <- Combination.unrank comb_rank labels g_num_leaves ;;
      '(g_child_labels, g_child_ranks) <- group_label_ranks g_rank g g_labels ;;
      let labels := set_minus Z.eqb labels g_labels in
      rank <- pymod rank num_rest_labellings ;;
      children_label_ranks_loop rest_groups rank labels
        (child_labels ++ g_child_labels) (child_label_ranks ++ g_child_ranks)
  end.

(** [children_label_ranks] *)
Definition children_label_ranks (child_groups : list (list RankTree))
  (rank : Z) (labels : list Z) : result (list (list Z) * list Z) :=
  children_label_ranks_loop child_groups rank labels [] [].

(** [zip(children, child_label_ranks, child_labels)] *)
Fixpoint zip3 {A B C} (la : list A) (lb : list B) (lc : list C)
  : list (A * B * C) :=
  match la, lb, lc with
  | a :: la', b :: lb', c :: lc' => (a, b, c) :: zip3 la' lb' lc'
  | _, _, _ => []
  end.

(** [RankTree.label_unrank] with its list of labels given. *)
Fixpoint label_unrank_on (t : RankTree) (label_rank : Z) (labels : list Z)
  : result RankTree :=
  if is_leaf t then
    _ <- assert (label_rank =? 0) ;;
    _ <- assert (len labels =? 1) ;;
    l0 <- py_get labels 0 ;;
    RankTree_init None (Some label_rank) None (Some l0)
  else
    let child_groups := group_children_by_shape t in
    '(child_labels, child_label_ranks) <-
      children_label_ranks child_groups label_rank labels ;;
    match t with
    | mkRankTree cs _ _ shape_rank _ =>
        labelled_children <-
          (fix go (cs : list RankTree) (rks : list Z) (lss : list (list Z))
             : result (list RankTree) :=
             match cs, rks, lss with
             | c :: cs', c_rank :: rks', c_labels :: lss' =>
                 c' <- label_unrank_on c c_rank c_labels ;;
                 rest <- go cs' rks' lss' ;;
                 Ok (c' :: rest)
             | _, _, _ => Ok []
             end) cs child_label_ranks child_labels ;;
        RankTree_init (Some shape_rank) (Some label_rank) (Some labelled_children) None
    end.

(** [RankTree.label_unrank] *)
Definition RankTree_label_unrank (t : RankTree) (label_rank : Z)
  (labels : option (list Z)) : result RankTree :=
  let labels :=
    match labels with
    | Some l => l
    | None => range 0 (num_leaves t)
    end in
  label_unrank_on t label_rank labels.

(** [RankTree.unrank] *)
Definition RankTree_unrank (rank : Z * Z) (n : Z) : result RankTree :=
  let '(shape_rank, label_rank) := rank in
  unlabelled <- RankTree_shape_unrank shape_rank n ;;
  RankTree_label_unrank unlabelled label_rank None.

(** ** Canonical order and equality *)

(** [RankTree.canonical_order] *)
Definition canonical_order (c : RankTree) : result (Z * Z * label) :=
  m <- min_label c ;;
  Ok (num_leaves c, _shape_rank c, m).

(** [k1 < k2] on the tuples of [canonical_order]: the first components
    that differ decide; [None] against an integer is a [TypeError]. *)
Definition key_lt (k1 k2 : Z * Z * label) : result bool :=
  let '(n1, s1, l1) := k1 in
  let '(n2, s2, l2) := k2 in
  if negb (n1 =? n2) then Ok (n1 <? n2)
  else if negb (s1 =? s2) then Ok (s1 <? s2)
  else match l1, l2 with
       | None, None => Ok false
       | Some x, Some y => Ok (x <? y)
       | _, _ => Raise TypeError
       end.

(** [sorted(ts, key=RankTree.canonical_order)]: the keys are computed
    first; the sort is stable, which determines its result.  It is run here
    as an insertion sort, every element going before the first element of
    the sorted rest that is not less than it. *)
Fixpoint insert_by_key (kx : Z * Z * label * RankTree)
  (l : list (Z * Z * label * RankTree)) : result (list (Z * Z * label * RankTree)) :=
  match l with
  | [] => Ok [kx]
  | ky :: l' =>
      b <- key_lt (fst ky) (fst kx) ;;
      if b then r <- insert_by_key kx l' ;; Ok (ky :: r)
      else Ok (kx :: ky :: l')
  end.

Fixpoint sort_by_key (l : list (Z * Z * label * RankTree))
  : result (list (Z * Z * label * RankTree)) :=
  match l with
  | [] => Ok []
  | kx :: l' => r <- sort_by_key l' ;; insert_by_key kx r
  end.

Definition sorted_canonical (ts : list RankTree) : result (list RankTree) :=
  keys <- mapM canonical_order ts ;;
  r <- sort_by_key (combine keys ts) ;;
  Ok (map snd r).

(** The loop [for c1, c2 in zip(children, children[1:])] of [is_canonical]:
    whether it ends without returning [False]. *)
Fixpoint pairs_in_order (cs : list RankTree) : result bool :=
  match cs with
  | c1 :: cs' =>
      match cs' with
      | c2 :: _ =>
          k1 <- canonical_order c1 ;;
          k2 <- canonical_order c2 ;;
          gt <- key_lt k2 k1 ;;
          if gt then Ok false else pairs_in_order cs'
      | [] => Ok true
      end
  | [] => Ok true
  end.

(** [RankTree.is_canonical] *)
Fixpoint is_canonical (t : RankTree) : result bool :=
  if is_leaf t then Ok true
  else
    match t with
    | mkRankTree cs _ _ _ _ =>
        ordered <- pairs_in_order cs ;;
        if ordered then
          (fix all_canonical (cs : list RankTree) : result bool :=
             match cs with
             | [] => Ok true
             | c :: cs' =>
                 b <- is_canonical c ;;
                 if b then all_canonical cs' else Ok false
             end) cs
        else Ok false
    end.

(** [RankTree.shape_equal] *)
Fixpoint shape_equal (t other : RankTree) : bool :=
  if is_leaf t && is_leaf other then true
  else if negb (len (children t) =? len (children other)) then false
  else
    match t with
    | mkRankTree cs _ _ _ _ =>
        (fix all_equal (cs os : list RankTree) : bool :=
           match cs, os with
           | c1 :: cs', c2 :: os' =>
               if shape_equal c1 c2 then all_equal cs' os' else false
           | _, _ => true
           end) cs (children other)
    end.

(** [RankTree.equal] *)
Fixpoint equal (t other : RankTree) : result bool :=
  if is_leaf t && is_leaf other then
    l1 <- min_label t ;;
    l2 <- min_label other ;;
    Ok (label_eqb l1 l2)
  else if negb (len (children t) =? len (children other)) then Ok false
  else
    match t with
    | mkRankTree cs _ _ _ _ =>
        (fix all_equal (cs os : list RankTree) : result bool :=
           match cs, os with
           | c1 :: cs', c2 :: os' =>
               b <- equal c1 c2 ;;
               if b then all_equal cs' os' else Ok false
           | _, _ => Ok true
           end) cs (children other)
    end.

(** ** Trees of [tskit] *)

(** What the module reads of a [tskit.Tree]: its roots, and below each node
    [u] its children, none for a leaf. *)
Inductive TskNode : Type :=
| tsk_node (u : Z) (kids : list TskNode).

Record TskTree : Type := { roots : list TskNode }.

(** [RankTree.from_tsk_tree_node] *)
Fixpoint from_tsk_tree_node (node : TskNode) : result RankTree :=
  match node with
  | tsk_node u kids =>
      if len kids =? 0 then RankTree_init None None None (Some u)
      else
        cs <- (fix go (kids : list TskNode) : result (list RankTree) :=
                 match kids with
                 | [] => Ok []
                 | c :: kids' =>
                     t <- from_tsk_tree_node c ;;
                     ts <- go kids' ;;
                     Ok (t :: ts)
                 end) kids ;;
        cs <- sorted_canonical cs ;;
        RankTree_init None None (Some cs) None
  end.

(** [RankTree.from_tsk_tree] *)
Definition from_tsk_tree (tree : TskTree) : result RankTree :=
  if negb (len (roots tree) =? 1) then
    Raise (ValueError "Can't rank trees with multiple roots")
  else
    root <- py_get (roots tree) 0 ;;
    rank_tree <- from_tsk_tree_node root ;;
    add_label_ranks rank_tree.

(** ** The functions of the module *)

(** [rank], [shape_rank] and [label_rank] *)
Definition rank (tree : TskTree) : result (Z * Z) :=
  t <- from_tsk_tree tree ;;
  RankTree_rank t.

Definition shape_rank (tree : TskTree) : result Z :=
  t <- from_tsk_tree tree ;;
  Ok (RankTree_shape_rank t).

Definition label_rank (tree : TskTree) : result Z :=
  t <- from_tsk_tree tree ;;
  RankTree_label_rank t.

(** [unrank], [shape_unrank] and [label_unrank], up to the conversion
    [to_tsk_tree] of their result, which is made by [tskit]'s tables. *)
Definition unrank (rank : Z * Z) (num_leaves : Z) : result RankTree :=
  RankTree_unrank rank num_leaves.

Definition shape_unrank (shape_rank num_leaves : Z) : result RankTree :=
  RankTree_unrank (shape_rank, 0) num_leaves.

Definition label_unrank (tree : TskTree) (label_rank : Z) : result RankTree :=
  t <- from_tsk_tree tree ;;
  RankTree_label_unrank t label_rank None.

(** [num_labellings(shape_rk, n)] *)
Definition num_labellings (shape_rk n : Z) : result Z :=
  t <- RankTree_shape_unrank shape_rk n ;;
  RankTree_num_labellings t.

(** The labels of the leaves of a tree, from left to right. *)
Fixpoint leaf_labels (t : RankTree) : list label :=
  match t with
  | mkRankTree cs _ ls _ _ =>
      match cs with
      | [] => ls
      | _ :: _ => flat_map leaf_labels cs
      end
  end.

(** * Reference notions that the code is compared to *)

(** ** Binomial coefficients *)

(** Pascal's triangle, the reference that [Combination.comb] is compared to. *)
Fixpoint binom (n k : nat) : Z :=
  match k with
  | O => 1
  | S k' =>
      match n with
      | O => 0
      | S n' => binom n' k' + binom n' k
      end
  end.

(** [C n k] is the binomial coefficient at integer arguments, [0] outside of
    the triangle. *)
Definition C (n k : Z) : Z :=
  if (0 <=? k) && (k <=? n) then binom (Z.to_nat n) (Z.to_nat k) else 0.

(** ** Combinations as lists of positions *)

(** [within lo hi c]: [c] is strictly increasing with all its elements in
    [[lo, hi)]. *)
Fixpoint within (lo hi : Z) (c : list Z) : Prop :=
  match c with
  | [] => True
  | j :: c' => lo <= j < hi /\ within (j + 1) hi c'
  end.

(** The elements of [E] at the positions [c]. *)
Definition select {A} (E : list A) (c : list Z) : list A :=
  flat_map (fun i => match nth_error E (Z.to_nat i) with
                     | Some v => [v]
                     | None => []
                     end) c.

(** [x] is a combination of [E]: it picks elements of [E] at increasing
    positions. *)
Inductive subseq {A} : list A -> list A -> Prop :=
| subseq_nil : subseq [] []
| subseq_skip x e l : subseq x l -> subseq x (e :: l)
| subseq_take x e l : subseq x l -> subseq (e :: x) (e :: l).

(** [c] is a multiset over [[lo, hi)] written in non-decreasing order. *)
Fixpoint nondecreasing (lo hi : Z) (c : list Z) : Prop :=
  match c with
  | [] => True
  | j :: c' => lo <= j < hi /\ nondecreasing j hi c'
  end.

(** ** Combinations with replacement *)

(** The running sum [preceding] of [with_replacement_rank]: the number of
    multisets of size [k] over [[0, n)] whose least element is below [j]. *)
Definition preceding (n k j : Z) : Z :=
  fold_left (fun p i => p + Combination.comb_with_replacement (n - i) (k - 1))
            (range 0 j) 0.

(** ** Ascending compositions *)

(** [ascL x r]: the ascending compositions of [r] whose parts are at least
    [x], in lexicographic order, without the last of them, [[r]].  The first
    part [f] of a composition with at least two parts satisfies [2 * f <= r];
    it is followed by an ascending composition of [r - f] with parts at least
    [f]. *)
Fixpoint ascL_fuel (fuel : nat) (x r : Z) : list (list Z) :=
  match fuel with
  | O => []
  | S fuel =>
      if (1 <=? x) && (2 * x <=? r) then
        map (cons x) (ascL_fuel fuel x (r - x) ++ [[r - x]])
          ++ ascL_fuel fuel (x + 1) r
      else []
  end.

Definition ascL (x r : Z) : list (list Z) := ascL_fuel (Z.to_nat (2 * r - x)) x r.

(** An ascending composition of [n] with all parts at least [x]. *)
Fixpoint ascending (x : Z) (c : list Z) : Prop :=
  match c with
  | [] => True
  | p :: c' => x <= p /\ ascending p c'
  end.

Definition asc_composition (x n : Z) (c : list Z) : Prop :=
  c <> [] /\ ascending x c /\ sum c = n.

(** Python's [<] on lists of integers: the lexicographic order. *)
Fixpoint lex_ltb (c d : list Z) : bool :=
  match c, d with
  | _, [] => false
  | [], _ :: _ => true
  | a :: c', b :: d' => (a <? b) || ((a =? b) && lex_ltb c' d')
  end.

Definition lex_lt (c d : list Z) : Prop := lex_ltb c d = true.

(** One iteration of the outer loop of [rule_asc] from its inner loop on:
    the inner loop at [k], [x] and [y], the assignment [a[k] = x + y], and
    the rest of the run. *)
Definition rule_asc_body (g fuel : nat) (a : list Z) (k x y : Z)
  : result (list (list Z)) :=
  '(a, k, y) <- rule_asc_inner g a k x y ;;
  a <- py_set a k (x + y) ;;
  if k =? 0 then Ok []
  else
    rest <- rule_asc_outer fuel a k ;;
    Ok (slice_to (k + 1) a :: rest).

(** What one iteration of the outer loop leads to.  Entered with the array
    holding the parts [p] below index [K] and with [x + y = r] left to
    distribute in parts of at least [x], the run yields [p ++ c] for every
    [c] of [ascL x r], in order, then stores [r] at index [K] and, unless
    [K] is [0], yields [p ++ [r]] and goes on from there. *)
Definition rule_asc_block (x r : Z) : Prop :=
  x <= r ->
  forall g a (K : nat) p,
    length p = K -> firstn K a = p ->
    Z.of_nat K + r < len a ->
    (Z.to_nat (r - x) + 1 <= g)%nat ->
    exists a',
      length a' = length a /\
      firstn (S K) a' = p ++ [r] /\
      forall fuel,
        rule_asc_body g (fuel + length (ascL x r)) a (Z.of_nat K) x (r - x) =
        (tail <- (if Z.of_nat K =? 0 then Ok []
                  else rest <- rule_asc_outer fuel a' (Z.of_nat K) ;;
                       Ok ((p ++ [r]) :: rest)) ;;
         Ok (map (app p) (ascL x r) ++ tail)).

(** ** Grouping *)

(** The groups that [group_by] returns when its loop is entered with an
    empty list of groups and the current group [c], on the values [l]. *)
Definition grp {A} (equal : A -> A -> bool) (c l : list A) : list (list A) :=
  let '(groups, curr_group) := fold_left (group_by_step equal) l ([], c) in
  match curr_group with
  | [] => groups
  | _ :: _ => groups ++ [curr_group]
  end.

(** ** Errors *)

(** The error of [from_tsk_tree]. *)
Definition multiple_roots : exn :=
  ValueError "Can't rank trees with multiple roots".

(** A computation that does not end in the error of [from_tsk_tree]. *)
Definition safe {A} (c : result A) : Prop := c <> Raise multiple_roots.

(** ** Runs *)

(** [maximal_runs equal gs]: every list of [gs] is non-empty with all its
    elements [equal] to its first, and the first element of every list but
    the first is not [equal] to the first element of the list before it. *)
Fixpoint maximal_runs {A} (equal : A -> A -> bool) (gs : list (list A)) : Prop :=
  match gs with
  | [] => True
  | g :: gs' =>
      match g with
      | [] => False
      | c0 :: c' =>
          Forall (fun x => equal x c0 = true) c' /\
          match gs' with
          | (x :: _) :: _ => equal x c0 = false
          | _ => True
          end
      end /\ maximal_runs equal gs'
  end.

(** ** Equality of shapes *)

(** The conjunction [all(c1.shape_equal(c2) for c1, c2 in zip(cs, os))] of
    [shape_equal]. *)
Fixpoint all_shape_equal (cs os : list RankTree) : bool :=
  match cs, os with
  | c1 :: cs', c2 :: os' =>
      if shape_equal c1 c2 then all_shape_equal cs' os' else false
  | _, _ => true
  end.

(** ** Unranked shapes *)

(** [t] is what [RankTree.shape_unrank(r, n)] returns, at every depth of
    recursion that is enough for [n] leaves. *)
Definition unranks_to (r n : Z) (t : RankTree) : Prop :=
  forall fuel, (Z.to_nat n < fuel)%nat -> shape_unrank_fuel fuel r n = Ok t.

(** The order of [canonical_order] on trees without labels, from the tree
    with [k0] leaves and shape rank [r0] on: more leaves, or as many and a
    shape rank that is not less. *)
Fixpoint shape_ordered (k0 r0 : Z) (cs : list RankTree) : Prop :=
  match cs with
  | [] => True
  | c :: cs' =>
      (k0 < num_leaves c \/ (k0 = num_leaves c /\ r0 <= _shape_rank c)) /\
      shape_ordered (num_leaves c) (_shape_rank c) cs'
  end.

(** The fields of an unlabelled tree of [n] leaves with shape rank [r]. *)
Definition shape_fields (r n : Z) (t : RankTree) : Prop :=
  num_leaves t = n /\ _shape_rank t = r /\
  labels t = repeat None (Z.to_nat n) /\ _label_rank t = None.

(** The trees that [RankTree.shape_unrank] returns: a leaf, or a node over
    unranked children whose numbers of leaves are a generated partition
    [part] of [n], whose shape ranks are those that [children_shape_ranks]
    gives, non-decreasing within every group of equal parts of [part]; it
    is the tree of its shape rank [r], which [compute_shape_rank] finds. *)
Inductive unranked : RankTree -> Prop :=
| unranked_leaf : unranked (mkRankTree [] 1 [None] 0 None)
| unranked_node kids n r part rss :
    2 <= n -> 0 <= r < num_shapes n ->
    In part (partition n) ->
    children_shape_ranks r n = Ok (part, concat rss) ->
    Forall2 (fun g rg => length rg = length g /\
                         nondecreasing 0 (num_shapes (hd 0 g)) rg)
            (group_partition part) rss ->
    map num_leaves kids = part ->
    map _shape_rank kids = concat rss ->
    Forall unranked kids ->
    unranks_to r n (mkRankTree kids n (repeat None (Z.to_nat n)) r None) ->
    compute_shape_rank_of kids n = r ->
    unranked (mkRankTree kids n (repeat None (Z.to_nat n)) r None).

(** ** Counting labellings *)

(** The numbers that [num_labellings], [num_assignments_in_group],
    [num_group_labellings] and [num_list_of_group_labellings] return, [0]
    standing for an error. *)
Definition count_labellings (t : RankTree) : Z :=
  value 0 (RankTree_num_labellings t).

Definition count_assignments (g : list RankTree) : Z :=
  value 0 (num_assignments_in_group g).

Definition count_group (g : list RankTree) : Z :=
  value 0 (num_group_labellings g).

Definition count_groups (groups : list (list RankTree)) : Z :=
  value 0 (num_list_of_group_labellings groups).

(** The number of leaves of the trees of [groups], as
    [num_list_of_group_labellings] counts them. *)
Definition leaves_of (groups : list (list RankTree)) : Z :=
  sum (map (fun g => len g * num_leaves (first g)) groups).

(** The ways to divide [k * x] labels among [x] trees of [k] leaves each,
    the least label left going to the next tree. *)
Fixpoint assignments (k : Z) (x : nat) : Z :=
  match x with
  | O => 1
  | S x' => Combination.comb (k * Z.of_nat x - 1) (k - 1) * assignments k x'
  end.

(** A group of copies of one unranked shape. *)
Definition identical (g : list RankTree) : Prop :=
  g <> [] /\ Forall (eq (first g)) g /\ unranked (first g).

(** ** Labelled trees *)

(** The least label of a labelled tree, [0] standing for none. *)
Definition min_of (t : RankTree) : Z :=
  match labels t with
  | Some m :: _ => m
  | _ => 0
  end.

(** The key [(num_leaves, shape_rank, min_label)] of [canonical_order]. *)
Definition key_of (t : RankTree) : Z * Z * Z :=
  (num_leaves t, _shape_rank t, min_of t).

(** Keys that increase strictly in the lexicographic order, from the key
    [(k0, r0, m0)] on. *)
Fixpoint key_chain (k0 r0 m0 : Z) (keys : list (Z * Z * Z)) : Prop :=
  match keys with
  | [] => True
  | (k, r, m) :: keys' =>
      (k0 < k \/ (k0 = k /\ r0 < r) \/ (k0 = k /\ r0 = r /\ m0 < m)) /\
      key_chain k r m keys'
  end.

(** Trees that differ by their labels and label ranks only: the same
    number of leaves and shape rank at every node. *)
Inductive relabelled : RankTree -> RankTree -> Prop :=
| relabelled_node cs cs' n ls ls' sr lr lr' :
    Forall2 relabelled cs cs' ->
    relabelled (mkRankTree cs n ls sr lr) (mkRankTree cs' n ls' sr lr').

(** A labelled tree as [RankTree.__init__] builds it from children in the
    canonical order, whatever its label ranks: a leaf has one leaf, its
    label and the shape rank [0]; at an inner node the keys of the children
    increase strictly, the labels are the merged labels of the children, the
    number of leaves is the sum of theirs and the shape rank is the computed
    one. *)
Inductive built : RankTree -> Prop :=
| built_leaf l lr : built (mkRankTree [] 1 [Some l] 0 lr)
| built_node cs n ls sr lr :
    cs <> [] ->
    Forall built cs ->
    key_chain 0 0 0 (map key_of cs) ->
    Forall (fun c => exists m ls', labels c = Some m :: ls') cs ->
    heapq_merge (map labels cs) = Ok ls ->
    sum (map num_leaves cs) = n ->
    compute_shape_rank_of cs n = sr ->
    built (mkRankTree cs n ls sr lr).

(** What [label_unrank] makes of the unlabelled tree [t], the labels [L]
    and the label rank [rank]: a tree [t'] of the same shape and shape rank
    with that label rank and those labels, canonical, whose leaves carry
    the labels of [L], in the order of [L] when the rank is [0], on which
    [add_label_ranks] finds the label ranks again, and which is built as
    the constructor builds it. *)
Definition labelled_as (t : RankTree) (L : list Z) (rank : Z) (t' : RankTree)
  : Prop :=
  num_leaves t' = num_leaves t /\
  _shape_rank t' = _shape_rank t /\
  _label_rank t' = Some rank /\
  labels t' = map Some L /\
  shape_equal t t' = true /\
  is_canonical t' = Ok true /\
  Permutation (leaf_labels t') (map Some L) /\
  (rank = 0 -> leaf_labels t' = map Some L) /\
  relabelled t t' /\
  add_label_ranks t' = Ok t' /\
  built t'.

(** The tree [t] without its cached label ranks, at every node. *)
Fixpoint forget_label_ranks (t : RankTree) : RankTree :=
  match t with
  | mkRankTree cs n ls sr _ => mkRankTree (map forget_label_ranks cs) n ls sr None
  end.

(** The outcome of a call that returns a value satisfying [P] or raises one
    of the two errors of a rejected argument: the failed assertion of a leaf,
    or the index error of a list of labels that ran out. *)
Definition returns_or_rejects {A} (P : A -> Prop) (c : result A) : Prop :=
  (exists a, c = Ok a /\ P a) \/ c = Raise AssertionError \/ c = Raise IndexError.

(** The tree [t] with [lr] as the cached label rank of its root. *)
Definition with_label_rank (lr : Z) (t : RankTree) : RankTree :=
  match t with
  | mkRankTree cs n ls sr _ => mkRankTree cs n ls sr (Some lr)
  end.

(** The nodes of a [tskit] tree that present the labelled tree [t]: a node
    without children, which is the label, for a leaf; for an inner node a
    node whose children present the children of [t], in any order. *)
Inductive presents : TskNode -> RankTree -> Prop :=
| presents_leaf u n sr lr :
    presents (tsk_node u []) (mkRankTree [] n [Some u] sr lr)
| presents_node u ks cs cs' n ls sr lr :
    cs <> [] -> Permutation cs cs' -> Forall2 presents ks cs' ->
    presents (tsk_node u ks) (mkRankTree cs n ls sr lr).

(** The strict lexicographic order of the keys of [canonical_order]. *)
Definition key_before (a b : Z * Z * Z) : Prop :=
  let '(k1, r1, m1) := a in
  let '(k2, r2, m2) := b in
  k1 < k2 \/ (k1 = k2 /\ r1 < r2) \/ (k1 = k2 /\ r1 = r2 /\ m1 < m2).

(** A labelled tree with its key, as [sorted] pairs them. *)
Definition keyed (c : RankTree) : Z * Z * label * RankTree :=
  (num_leaves c, _shape_rank c, Some (min_of c), c).

(** * Facts about the model *)

Section CombinationFacts.
Import Combination.

(** * Binomial coefficients *)

(** * Basic lemmas on the primitives *)

Lemma bind_ok {A B} (c : result A) (f : A -> result B) a :
  c = Ok a -> bind c f = f a.
Proof. intros ->; reflexivity. Qed.

Lemma bind_inv {A B} (c : result A) (f : A -> result B) b :
  bind c f = Ok b -> exists a, c = Ok a /\ f a = Ok b.
Proof. destruct c; simpl; intros H; [eauto | discriminate]. Qed.

Lemma len_nil {A} : len (@nil A) = 0.
Proof. reflexivity. Qed.

Lemma len_cons {A} (x : A) l : len (x :: l) = len l + 1.
Proof. unfold len; simpl length; lia. Qed.

Lemma len_nonneg {A} (l : list A) : 0 <= len l.
Proof. unfold len; lia. Qed.

Lemma len_app {A} (l1 l2 : list A) : len (l1 ++ l2) = len l1 + len l2.
Proof. unfold len; rewrite length_app; lia. Qed.

Lemma len_map {A B} (f : A -> B) l : len (map f l) = len l.
Proof. unfold len; now rewrite length_map. Qed.

Lemma len_zero_inv {A} (l : list A) : len l = 0 -> l = [].
Proof. destruct l; [reflexivity | rewrite len_cons; pose proof (len_nonneg l); lia]. Qed.

Lemma range_empty a b : b <= a -> range a b = [].
Proof. intros H; unfold range; replace (Z.to_nat (b - a)) with O by lia; reflexivity. Qed.

Lemma range_cons a b : a < b -> range a b = a :: range (a + 1) b.
Proof.
  intros H; unfold range.
  replace (Z.to_nat (b - a)) with (S (Z.to_nat (b - (a + 1)))) by lia.
  simpl; f_equal; [lia |].
  rewrite <- seq_shift, map_map.
  apply map_ext; intros; lia.
Qed.

Lemma range_snoc a b : a <= b -> range a (b + 1) = range a b ++ [b].
Proof.
  intros H; unfold range.
  replace (Z.to_nat (b + 1 - a)) with (Z.to_nat (b - a) + 1)%nat by lia.
  rewrite seq_app, map_app; simpl; repeat f_equal; lia.
Qed.

Lemma range_length a b : length (range a b) = Z.to_nat (b - a).
Proof. unfold range; now rewrite length_map, length_seq. Qed.

Lemma in_range x a b : In x (range a b) <-> a <= x < b.
Proof.
  unfold range; rewrite in_map_iff; split.
  - intros (i & <- & Hi); apply in_seq in Hi; lia.
  - intros H; exists (Z.to_nat (x - a)); split; [lia | apply in_seq; lia].
Qed.

Lemma sum_cons x l : sum (x :: l) = x + sum l.
Proof.
  unfold sum; simpl.
  assert (G : forall l a b, fold_left Z.add l (a + b) = a + fold_left Z.add l b).
  { clear; induction l as [|y l IH]; intros; simpl; [reflexivity |].
    rewrite <- IH; f_equal; lia. }
  rewrite <- G; f_equal; lia.
Qed.

Lemma sum_nil : sum [] = 0.
Proof. reflexivity. Qed.

Lemma sum_app l1 l2 : sum (l1 ++ l2) = sum l1 + sum l2.
Proof.
  induction l1 as [|x l1 IH]; [reflexivity |].
  simpl app; rewrite !sum_cons, IH; lia.
Qed.

(** * Pascal's triangle *)

Lemma binom_0_r n : binom n 0 = 1.
Proof. destruct n; reflexivity. Qed.

Lemma binom_S n k : binom (S n) (S k) = binom n k + binom n (S k).
Proof. reflexivity. Qed.

Lemma binom_lt n : forall k, (n < k)%nat -> binom n k = 0.
Proof.
  induction n as [|n IH]; intros [|k] H; try lia; [reflexivity |].
  rewrite binom_S, !IH by lia; reflexivity.
Qed.

Lemma binom_diag n : binom n n = 1.
Proof.
  induction n as [|n IH]; [reflexivity |].
  rewrite binom_S, IH, binom_lt by lia; reflexivity.
Qed.

Lemma binom_nonneg n : forall k, 0 <= binom n k.
Proof.
  induction n as [|n IH]; intros [|k]; simpl; try lia.
  pose proof (IH k); pose proof (IH (S k)); lia.
Qed.

Lemma binom_pos n : forall k, (k <= n)%nat -> 0 < binom n k.
Proof.
  induction n as [|n IH]; intros [|k] H; simpl; try lia.
  pose proof (IH k ltac:(lia)); pose proof (binom_nonneg n (S k)); lia.
Qed.

Lemma binom_1_r n : binom n 1 = Z.of_nat n.
Proof.
  induction n as [|n IH]; [reflexivity |].
  rewrite binom_S, IH, binom_0_r; lia.
Qed.

(** The absorption identity, which makes the division of the product form
    exact. *)
Lemma binom_absorb n : forall k,
  Z.of_nat (S k) * binom (S n) (S k) = Z.of_nat (S n) * binom n k.
Proof.
  induction n as [|n IH]; intros k.
  - destruct k as [|k]; [reflexivity |].
    rewrite binom_S, !binom_lt by lia; lia.
  - destruct k as [|k].
    + rewrite binom_1_r, binom_0_r; lia.
    + rewrite (binom_S (S n) (S k)).
      pose proof (IH k) as H1; pose proof (IH (S k)) as H2.
      rewrite (binom_S n k) in *.
      set (a := binom n k) in *; set (b := binom n (S k)) in *.
      set (c := binom (S n) (S (S k))) in *.
      rewrite !Nat2Z.inj_succ in *; lia.
Qed.

Lemma binom_sym n : forall k, (k <= n)%nat -> binom n k = binom n (n - k).
Proof.
  induction n as [|n IH]; intros k H.
  - replace k with O by lia; reflexivity.
  - destruct k as [|k].
    + rewrite Nat.sub_0_r, binom_diag, binom_0_r; reflexivity.
    + destruct (Nat.eq_dec k n) as [->|Hne].
      * rewrite Nat.sub_diag, binom_diag, binom_0_r; reflexivity.
      * replace (S n - S k)%nat with (S (n - S k)) by lia.
        rewrite !binom_S.
        rewrite (IH k), (IH (S k)) by lia.
        replace (n - k)%nat with (S (n - S k)) by lia; lia.
Qed.

Lemma C_binom n k : (k <= n)%nat -> C (Z.of_nat n) (Z.of_nat k) = binom n k.
Proof.
  intros H; unfold C.
  replace ((0 <=? Z.of_nat k) && (Z.of_nat k <=? Z.of_nat n)) with true
    by (symmetry; apply andb_true_intro; split; lia).
  now rewrite !Nat2Z.id.
Qed.

Lemma C_nonneg n k : 0 <= C n k.
Proof. unfold C; destruct (_ && _); [apply binom_nonneg | lia]. Qed.

Lemma C_pos n k : 0 <= k <= n -> 0 < C n k.
Proof.
  intros H; unfold C.
  replace ((0 <=? k) && (k <=? n)) with true
    by (symmetry; apply andb_true_intro; split; lia).
  apply binom_pos; lia.
Qed.

Lemma C_out n k : k < 0 \/ n < k -> C n k = 0.
Proof.
  intros H; unfold C.
  replace ((0 <=? k) && (k <=? n)) with false; [reflexivity |].
  symmetry; apply andb_false_iff; lia.
Qed.

Lemma C_0_r n : 0 <= n -> C n 0 = 1.
Proof.
  intros H; unfold C.
  replace ((0 <=? 0) && (0 <=? n)) with true
    by (symmetry; apply andb_true_intro; split; lia).
  apply binom_0_r.
Qed.

Lemma C_diag n : 0 <= n -> C n n = 1.
Proof.
  intros H; unfold C.
  replace ((0 <=? n) && (n <=? n)) with true
    by (symmetry; apply andb_true_intro; split; lia).
  apply binom_diag.
Qed.

(** Pascal's rule at integer arguments. *)
Lemma C_pascal n k : 0 <= n -> 0 <= k -> C (n + 1) (k + 1) = C n k + C n (k + 1).
Proof.
  intros Hn Hk.
  destruct (Z_le_gt_dec k n) as [Hle|Hgt].
  - destruct (Z.eq_dec k n) as [->|Hne].
    + rewrite !C_diag, (C_out n (n + 1)) by lia; lia.
    + unfold C.
      replace ((0 <=? k + 1) && (k + 1 <=? n + 1)) with true
        by (symmetry; apply andb_true_intro; split; lia).
      replace ((0 <=? k) && (k <=? n)) with true
        by (symmetry; apply andb_true_intro; split; lia).
      replace ((0 <=? k + 1) && (k + 1 <=? n)) with true
        by (symmetry; apply andb_true_intro; split; lia).
      replace (Z.to_nat (n + 1)) with (S (Z.to_nat n)) by lia.
      replace (Z.to_nat (k + 1)) with (S (Z.to_nat k)) by lia.
      apply binom_S.
  - rewrite !C_out by lia; lia.
Qed.

Lemma C_sym n k : 0 <= k <= n -> C n k = C n (n - k).
Proof.
  intros H; unfold C.
  replace ((0 <=? k) && (k <=? n)) with true
    by (symmetry; apply andb_true_intro; split; lia).
  replace ((0 <=? n - k) && (n - k <=? n)) with true
    by (symmetry; apply andb_true_intro; split; lia).
  rewrite binom_sym by lia; f_equal; lia.
Qed.

(** * [Combination.comb] *)

(** The loop invariant of [comb]: after the iteration for [i], [res] is
    the binomial coefficient of [m + i] over [i], with [m = n - k]. *)
Lemma comb_loop_binom n k (m : nat) (j : nat) : forall (i : nat),
  n - k = Z.of_nat m ->
  comb_loop n k (range (Z.of_nat i + 1) (Z.of_nat (i + j) + 1)) (binom (m + i) i)
  = Ok (binom (m + (i + j)) (i + j)).
Proof.
  induction j as [|j IH]; intros i Hm.
  - rewrite Nat.add_0_r, range_empty by lia; reflexivity.
  - rewrite range_cons by lia; simpl.
    unfold floordiv.
    destruct (Z.eqb_spec (Z.of_nat i + 1) 0) as [E|_]; [lia |]; simpl.
    replace (binom (m + i) i * (n - k + (Z.of_nat i + 1)) / (Z.of_nat i + 1))
      with (binom (m + S i) (S i)).
    + replace (Z.of_nat i + 1 + 1) with (Z.of_nat (S i) + 1) by lia.
      replace (i + S j)%nat with (S i + j)%nat by lia.
      apply IH; assumption.
    + pose proof (binom_absorb (m + i) i) as H.
      replace (m + S i)%nat with (S (m + i)) by lia.
      apply Z.div_unique_exact; [lia |].
      rewrite Hm.
      replace (Z.of_nat m + (Z.of_nat i + 1)) with (Z.of_nat (S (m + i))) by lia.
      replace (Z.of_nat i + 1) with (Z.of_nat (S i)) by lia.
      lia.
Qed.

(** [comb] never raises: it returns the binomial coefficient inside the
    triangle and [1] everywhere else. *)
Lemma comb_checked_spec n k :
  comb_checked n k = Ok (if (0 <=? k) && (k <=? n) then C n k else 1).
Proof.
  unfold comb_checked.
  destruct (Z_lt_ge_dec (Z.min k (n - k)) 0) as [Hneg|Hpos].
  - rewrite range_empty by lia; simpl.
    replace ((0 <=? k) && (k <=? n)) with false; [reflexivity |].
    symmetry; apply andb_false_iff; lia.
  - replace ((0 <=? k) && (k <=? n)) with true
      by (symmetry; apply andb_true_intro; split; lia).
    set (k' := Z.min k (n - k)).
    pose proof (comb_loop_binom n k' (Z.to_nat (n - k')) (Z.to_nat k') 0
                  ltac:(lia)) as H.
    simpl Z.of_nat in H at 1; simpl Z.add in H at 1.
    rewrite Nat.add_0_l, Nat.add_0_r, binom_0_r in H.
    replace (Z.of_nat (Z.to_nat k') + 1) with (k' + 1) in H by lia.
    rewrite H; f_equal.
    replace (Z.to_nat (n - k') + Z.to_nat k')%nat with (Z.to_nat n) by lia.
    destruct (Z_le_gt_dec k (n - k)) as [Hle|Hgt].
    + replace k' with k by lia.
      unfold C.
      replace ((0 <=? k) && (k <=? n)) with true
        by (symmetry; apply andb_true_intro; split; lia).
      reflexivity.
    + replace k' with (n - k) by lia.
      rewrite (C_sym n k) by lia.
      unfold C.
      replace ((0 <=? n - k) && (n - k <=? n)) with true
        by (symmetry; apply andb_true_intro; split; lia).
      reflexivity.
Qed.

Lemma comb_checked_ok n k : comb_checked n k = Ok (comb n k).
Proof. unfold comb; rewrite comb_checked_spec; reflexivity. Qed.

Lemma comb_C n k : 0 <= k <= n -> comb n k = C n k.
Proof.
  intros H; unfold comb; rewrite comb_checked_spec; simpl.
  replace ((0 <=? k) && (k <=? n)) with true
    by (symmetry; apply andb_true_intro; split; lia).
  reflexivity.
Qed.

Lemma comb_out n k : k < 0 \/ n < k -> comb n k = 1.
Proof.
  intros H; unfold comb; rewrite comb_checked_spec; simpl.
  replace ((0 <=? k) && (k <=? n)) with false; [reflexivity |].
  symmetry; apply andb_false_iff; lia.
Qed.

Lemma comb_pos n k : 0 < comb n k.
Proof.
  destruct (Z_lt_ge_dec k 0); [rewrite comb_out by lia; lia |].
  destruct (Z_lt_ge_dec n k); [rewrite comb_out by lia; lia |].
  rewrite comb_C by lia; apply C_pos; lia.
Qed.

Lemma comb_0_r n : comb n 0 = 1.
Proof.
  destruct (Z_lt_ge_dec n 0); [apply comb_out; lia |].
  rewrite comb_C, C_0_r; lia.
Qed.

Lemma comb_with_replacement_checked_ok n k :
  comb_with_replacement_checked n k = Ok (comb_with_replacement n k).
Proof. apply comb_checked_ok. Qed.

Lemma comb_with_replacement_pos n k : 0 < comb_with_replacement n k.
Proof. apply comb_pos. Qed.

(** * Combinations as lists of positions *)

Lemma within_weaken lo lo' hi c : lo' <= lo -> within lo hi c -> within lo' hi c.
Proof. destruct c; simpl; [tauto | intros ? [? ?]; split; [lia | assumption]]. Qed.

Lemma within_shift d hi c : forall lo,
  within lo hi c -> within (lo - d) (hi - d) (map (fun x => x - d) c).
Proof.
  induction c as [|j c IH]; simpl; intros lo H; [exact I |].
  destruct H as [H1 H2]; split; [lia |].
  replace (j - d + 1) with (j + 1 - d) by lia; apply IH; assumption.
Qed.

Lemma within_len hi c : forall lo, within lo hi c -> c = [] \/ len c <= hi - lo.
Proof.
  induction c as [|j c IH]; simpl; intros lo H; [now left | right].
  destruct H as [H1 H2]; rewrite len_cons.
  destruct (IH _ H2) as [-> | Hl]; [change (@len Z []) with 0; lia | lia].
Qed.

Lemma within_Forall hi c : forall lo, within lo hi c -> Forall (fun x => lo <= x < hi) c.
Proof.
  induction c as [|j c IH]; simpl; intros lo H; constructor.
  - tauto.
  - destruct H as [H1 H2]; apply IH in H2.
    eapply Forall_impl; [| exact H2]; simpl; intros; lia.
Qed.

Lemma select_nil {A} (E : list A) : select E [] = [].
Proof. reflexivity. Qed.

Lemma select_cons_0 {A} (e : A) E c :
  select (e :: E) (0 :: c) = e :: select (e :: E) c.
Proof. reflexivity. Qed.

Lemma select_shift {A} (e : A) E c : forall lo,
  1 <= lo -> within lo (len E + 1) c ->
  select (e :: E) c = select E (map (fun x => x - 1) c).
Proof.
  induction c as [|j c IH]; simpl; intros lo Hlo H; [reflexivity |].
  destruct H as [H1 H2].
  unfold select in *; simpl.
  replace (Z.to_nat j) with (S (Z.to_nat (j - 1))) by lia; simpl.
  f_equal; apply (IH (j + 1)); [lia | assumption].
Qed.

Lemma select_length {A} (E : list A) c : forall lo,
  0 <= lo -> within lo (len E) c -> len (select E c) = len c.
Proof.
  induction c as [|j c IH]; simpl; intros lo Hlo H; [reflexivity |].
  destruct H as [H1 H2].
  unfold select in *; simpl.
  destruct (nth_error E (Z.to_nat j)) eqn:En.
  - simpl; rewrite !len_cons; f_equal; apply (IH (j + 1)); [lia | assumption].
  - apply nth_error_None in En; unfold len in H1; lia.
Qed.

Lemma slice_from_1 {A} (e : A) E : slice_from 1 (e :: E) = E.
Proof. reflexivity. Qed.

Lemma slice_to_1 {A} (e : A) E : slice_to 1 (e :: E) = [e].
Proof. reflexivity. Qed.

Lemma slice_from_1_nil {A} : slice_from 1 (@nil A) = [].
Proof. reflexivity. Qed.

Lemma slice_to_1_nil {A} : slice_to 1 (@nil A) = [].
Proof. reflexivity. Qed.

Lemma py_get_0 {A} (x : A) l : py_get (x :: l) 0 = Ok x.
Proof. reflexivity. Qed.

(** * [Combination.from_range_rank] and [Combination.unrank] on positions *)

(** One step of [unrank_fuel], unfolded. *)
Lemma unrank_fuel_S {A} fuel rank (E : list A) k :
  unrank_fuel (S fuel) rank E k =
  if k =? 0 then Ok []
  else if rank <? comb (len E - 1) (k - 1) then
         rest <- unrank_fuel fuel rank (slice_from 1 E) (k - 1) ;;
         Ok (slice_to 1 E ++ rest)
       else unrank_fuel fuel (rank - comb (len E - 1) (k - 1)) (slice_from 1 E) k.
Proof. reflexivity. Qed.

Lemma from_range_rank_fuel_S fuel c n :
  from_range_rank_fuel (S fuel) c n =
  if (len c =? 0) || (len c =? n) then Ok 0
  else
    j <- py_get c 0 ;;
    if j =? 0 then
      from_range_rank_fuel fuel (slice_from 1 (map (fun x => x - 1) c)) (n - 1)
    else
      rest_rank <- from_range_rank_fuel fuel (map (fun x => x - 1) c) (n - 1) ;;
      Ok (comb (n - 1) (len c - 1) + rest_rank).
Proof. reflexivity. Qed.

(** Ranking a valid list of positions gives a rank below the number of
    combinations, and unranking that rank selects the same positions. *)
Lemma from_range_rank_unrank {A} (E : list A) : forall c fuel fuel',
  within 0 (len E) c ->
  (length E + 1 <= fuel)%nat -> (length E + 1 <= fuel')%nat ->
  exists r,
    from_range_rank_fuel fuel c (len E) = Ok r /\
    0 <= r < C (len E) (len c) /\
    unrank_fuel fuel' r E (len c) = Ok (select E c).
Proof.
  induction E as [|e E IH]; intros c fuel fuel' Hc Hf Hf'.
  - destruct c as [|j c]; [| simpl in Hc; unfold len in Hc; simpl in Hc; lia].
    destruct fuel as [|fuel]; [simpl in Hf; lia |].
    destruct fuel' as [|fuel']; [simpl in Hf'; lia |].
    exists 0; repeat split; try reflexivity; try lia.
  - destruct fuel as [|fuel]; [simpl in Hf; lia |].
    destruct fuel' as [|fuel']; [simpl in Hf'; lia |].
    simpl length in Hf, Hf'.
    rewrite len_cons in *.
    pose proof (len_nonneg E) as HE.
    destruct c as [|j c].
    + exists 0; change (@len Z []) with 0.
      repeat split; try reflexivity; try lia.
      rewrite C_0_r by lia; lia.
    + simpl in Hc; destruct Hc as [Hj Hc].
      pose proof (len_nonneg c) as Hlc.
      rewrite from_range_rank_fuel_S, !len_cons.
      destruct (Z.eqb_spec (len c + 1) 0) as [E0|_]; [lia |].
      replace (len E + 1 - 1) with (len E) by lia.
      replace (len c + 1 - 1) with (len c) by lia.
      assert (Hlen : len c <= len E).
      { destruct (within_len _ _ _ Hc) as [-> | ?]; [change (@len Z []) with 0 |]; lia. }
      assert (Hstep : forall r,
                 unrank_fuel (S fuel') r (e :: E) (len c + 1) =
                 if r <? C (len E) (len c) then
                   rest <- unrank_fuel fuel' r E (len c) ;; Ok (e :: rest)
                 else unrank_fuel fuel' (r - C (len E) (len c)) E (len c + 1)).
      { intros r; rewrite unrank_fuel_S, len_cons.
        destruct (Z.eqb_spec (len c + 1) 0) as [E0|_]; [lia |].
        replace (len E + 1 - 1) with (len E) by lia.
        replace (len c + 1 - 1) with (len c) by lia.
        rewrite slice_from_1, slice_to_1, comb_C by lia; reflexivity. }
      rewrite comb_C by lia.
      destruct (Z.eq_dec j 0) as [-> | Hj0].
      * (* the first position is taken *)
        assert (Hc' : within 0 (len E) (map (fun x => x - 1) c)).
        { apply (within_shift 1) in Hc; simpl in Hc.
          replace (len E + 1 - 1) with (len E) in Hc by lia; exact Hc. }
        destruct (IH _ fuel fuel' Hc' ltac:(lia) ltac:(lia)) as (r & Hr & Hb & Hu).
        rewrite len_map in *.
        assert (Hr0 : len c = len E -> r = 0).
        { intros El; rewrite El, C_diag in Hb by lia; lia. }
        exists r; split; [| split].
        -- simpl orb.
           destruct (Z.eqb_spec (len c + 1) (len E + 1)) as [El|Hne].
           ++ rewrite Hr0 by lia; reflexivity.
           ++ simpl map; rewrite py_get_0; simpl bind.
              rewrite slice_from_1; exact Hr.
        -- rewrite C_pascal by lia.
           pose proof (C_nonneg (len E) (len c + 1)); lia.
        -- rewrite Hstep.
           destruct (Z.ltb_spec r (C (len E) (len c))) as [_|Hge]; [| lia].
           rewrite Hu; simpl.
           f_equal; f_equal.
           symmetry; apply (select_shift e E c 1); [lia | exact Hc].
      * (* the first position is skipped *)
        assert (Hw : within 1 (len E + 1) (j :: c)) by (simpl; split; [lia | exact Hc]).
        assert (Hc' : within 0 (len E) (map (fun x => x - 1) (j :: c))).
        { apply (within_shift 1) in Hw.
          replace (len E + 1 - 1) with (len E) in Hw by lia; exact Hw. }
        destruct (IH _ fuel fuel' Hc' ltac:(lia) ltac:(lia)) as (r & Hr & Hb & Hu).
        rewrite len_map, len_cons in *.
        assert (Hlt : len c + 1 <= len E).
        { destruct (Z_le_gt_dec (len c + 1) (len E)); [assumption |].
          rewrite C_out in Hb by lia; lia. }
        exists (C (len E) (len c) + r); split; [| split].
        -- simpl orb.
           destruct (Z.eqb_spec (len c + 1) (len E + 1)) as [El|_]; [lia |].
           rewrite py_get_0; simpl bind.
           destruct (Z.eqb_spec j 0) as [|_]; [lia |].
           simpl map in Hr; rewrite Hr; reflexivity.
        -- rewrite C_pascal by lia.
           pose proof (C_nonneg (len E) (len c)); lia.
        -- rewrite Hstep.
           destruct (Z.ltb_spec (C (len E) (len c) + r) (C (len E) (len c))) as [|_]; [lia |].
           replace (C (len E) (len c) + r - C (len E) (len c)) with r by lia.
           rewrite Hu.
           f_equal; symmetry.
           apply (select_shift e E (j :: c) 1); [lia | exact Hw].
Qed.

(** Unranking a rank below the number of combinations gives a valid list of
    positions, and ranking it gives the rank back. *)
Lemma unrank_from_range_rank {A} (E : list A) : forall k r fuel',
  0 <= k <= len E -> 0 <= r < C (len E) k ->
  (length E + 1 <= fuel')%nat ->
  exists c,
    unrank_fuel fuel' r E k = Ok (select E c) /\
    within 0 (len E) c /\ len c = k /\
    forall fuel, (length E + 1 <= fuel)%nat ->
                 from_range_rank_fuel fuel c (len E) = Ok r.
Proof.
  induction E as [|e E IH]; intros k r fuel' Hk Hr Hf'.
  - change (@len A []) with 0 in *.
    assert (k = 0) by lia; subst k.
    destruct fuel' as [|fuel']; [simpl in Hf'; lia |].
    rewrite C_0_r in Hr by lia.
    exists []; repeat split.
    intros [|fuel] Hf; [simpl in Hf; lia |].
    simpl; f_equal; lia.
  - destruct fuel' as [|fuel']; [simpl in Hf'; lia |].
    simpl length in Hf'.
    rewrite len_cons in *.
    pose proof (len_nonneg E) as HE.
    rewrite unrank_fuel_S, len_cons.
    destruct (Z.eqb_spec k 0) as [-> | Hk0].
    + rewrite C_0_r in Hr by lia.
      exists []; repeat split.
      intros [|fuel] Hf; [simpl in Hf; lia |].
      simpl; f_equal; lia.
    + replace (len E + 1 - 1) with (len E) by lia.
      rewrite slice_from_1, slice_to_1.
      rewrite comb_C by lia.
      replace (C (len E + 1) k) with (C (len E) (k - 1) + C (len E) k) in Hr
        by (replace k with (k - 1 + 1) at 3 by lia; rewrite C_pascal by lia;
            now replace (k - 1 + 1) with k by lia).
      destruct (Z.ltb_spec r (C (len E) (k - 1))) as [Hlt | Hge].
      * destruct (IH (k - 1) r fuel' ltac:(lia) ltac:(lia) ltac:(lia))
          as (c & Hu & Hc & Hl & Hrk).
        exists (0 :: map (fun x => x + 1) c).
        assert (Hw : within 1 (len E + 1) (map (fun x => x + 1) c)).
        { apply (within_shift (-1)) in Hc.
          replace (0 - -1) with 1 in Hc by lia.
          replace (len E - -1) with (len E + 1) in Hc by lia.
          erewrite map_ext; [exact Hc | intros; simpl; lia]. }
        assert (Hmm : map (fun x => x - 1) (map (fun x => x + 1) c) = c).
        { rewrite map_map; erewrite map_ext; [apply map_id | intros; simpl; lia]. }
        split; [| split; [| split]].
        -- rewrite Hu; simpl; f_equal; f_equal.
           symmetry.
           rewrite (select_shift e E _ 1) by (lia || assumption).
           now rewrite Hmm.
        -- simpl; split; [lia | exact Hw].
        -- rewrite len_cons, len_map; lia.
        -- intros [|fuel] Hf; [simpl in Hf; lia |]; simpl length in Hf.
           rewrite from_range_rank_fuel_S, len_cons, len_map, Hl.
           replace (k - 1 + 1) with k by lia.
           destruct (Z.eqb_spec k 0) as [|_]; [lia |]; simpl orb.
           destruct (Z.eqb_spec k (len E + 1)) as [Ek | Hne].
           ++ f_equal; subst k.
              replace (len E + 1 - 1) with (len E) in Hlt by lia.
              rewrite C_diag in Hlt by lia; lia.
           ++ rewrite py_get_0; simpl bind.
              simpl map; rewrite slice_from_1, Hmm.
              replace (len E + 1 - 1) with (len E) by lia.
              apply Hrk; lia.
      * assert (Hkl : k <= len E).
        { destruct (Z_le_gt_dec k (len E)); [assumption |].
          rewrite (C_out (len E) k) in Hr by lia; lia. }
        destruct (IH k (r - C (len E) (k - 1)) fuel'
                    ltac:(lia) ltac:(lia) ltac:(lia))
          as (c & Hu & Hc & Hl & Hrk).
        exists (map (fun x => x + 1) c).
        assert (Hw : within 1 (len E + 1) (map (fun x => x + 1) c)).
        { apply (within_shift (-1)) in Hc.
          replace (0 - -1) with 1 in Hc by lia.
          replace (len E - -1) with (len E + 1) in Hc by lia.
          erewrite map_ext; [exact Hc | intros; simpl; lia]. }
        assert (Hmm : map (fun x => x - 1) (map (fun x => x + 1) c) = c).
        { rewrite map_map; erewrite map_ext; [apply map_id | intros; simpl; lia]. }
        split; [| split; [| split]].
        -- rewrite Hu; f_equal.
           rewrite (select_shift e E _ 1) by (lia || assumption).
           now rewrite Hmm.
        -- eapply within_weaken; [| exact Hw]; lia.
        -- rewrite len_map; exact Hl.
        -- intros [|fuel] Hf; [simpl in Hf; lia |]; simpl length in Hf.
           rewrite from_range_rank_fuel_S, len_map, Hl.
           destruct (Z.eqb_spec k 0) as [|_]; [lia |]; simpl orb.
           destruct (Z.eqb_spec k (len E + 1)) as [Ek | Hne]; [lia |].
           destruct c as [|j c]; [change (@len Z []) with 0 in Hl; lia |].
           rewrite Hmm.
           change (py_get (map (fun x => x + 1) (j :: c)) 0) with (Ok (j + 1)).
           simpl in Hc; simpl bind.
           destruct (Z.eqb_spec (j + 1) 0) as [|_]; [lia |].
           replace (len E + 1 - 1) with (len E) by lia.
           rewrite Hrk, comb_C by lia; simpl; f_equal; lia.
Qed.

(** * [Combination.rank] and [Combination.unrank] on lists of elements *)

Lemma mapM_ok_length {A B} (f : A -> result B) l l' :
  mapM f l = Ok l' -> len l' = len l.
Proof.
  revert l'; induction l as [|x l IH]; simpl; intros l' H.
  - injection H as <-; reflexivity.
  - destruct (f x); simpl in H; [| discriminate].
    destruct (mapM f l) eqn:Em; simpl in H; [| discriminate].
    injection H as <-; rewrite !len_cons, (IH _ eq_refl); reflexivity.
Qed.

Lemma subseq_nil_l {A} (E : list A) : subseq [] E.
Proof. induction E; constructor; assumption. Qed.

Lemma subseq_In {A} (x E : list A) : subseq x E -> forall a, In a x -> In a E.
Proof.
  induction 1; simpl; intros a Ha; [assumption | right; auto |].
  destruct Ha as [-> | Ha]; [left; reflexivity | right; auto].
Qed.

Lemma subseq_len {A} (x E : list A) : subseq x E -> len x <= len E.
Proof. induction 1; rewrite ?len_cons; lia. Qed.

Lemma subseq_refl {A} (E : list A) : subseq E E.
Proof. induction E; constructor; assumption. Qed.

(** A combination is the selection of its elements' positions. *)
Lemma subseq_select {A} (x E : list A) :
  subseq x E -> exists c, within 0 (len E) c /\ select E c = x /\ len c = len x.
Proof.
  induction 1 as [| x e l H (c & Hc & Hs & Hl) | x e l H (c & Hc & Hs & Hl)].
  - exists []; repeat split.
  - exists (map (fun i => i + 1) c).
    assert (Hw : within 1 (len l + 1) (map (fun i => i + 1) c)).
    { apply (within_shift (-1)) in Hc.
      replace (0 - -1) with 1 in Hc by lia.
      replace (len l - -1) with (len l + 1) in Hc by lia.
      erewrite map_ext; [exact Hc | intros; simpl; lia]. }
    rewrite len_cons, len_map; repeat split; [| | assumption].
    + eapply within_weaken; [| exact Hw]; lia.
    + rewrite (select_shift e l _ 1) by (lia || assumption).
      rewrite map_map; erewrite map_ext; [rewrite map_id; exact Hs |].
      intros; simpl; lia.
  - exists (0 :: map (fun i => i + 1) c).
    assert (Hw : within 1 (len l + 1) (map (fun i => i + 1) c)).
    { apply (within_shift (-1)) in Hc.
      replace (0 - -1) with 1 in Hc by lia.
      replace (len l - -1) with (len l + 1) in Hc by lia.
      erewrite map_ext; [exact Hc | intros; simpl; lia]. }
    rewrite !len_cons, len_map; repeat split; try lia.
    + pose proof (len_nonneg l); lia.
    + exact Hw.
    + rewrite select_cons_0; f_equal.
      rewrite (select_shift e l _ 1) by (lia || assumption).
      rewrite map_map; erewrite map_ext; [rewrite map_id; exact Hs |].
      intros; simpl; lia.
Qed.

Lemma select_subseq {A} (E : list A) : forall c,
  within 0 (len E) c -> subseq (select E c) E.
Proof.
  induction E as [|e E IH]; intros c Hc.
  - destruct c as [|j c]; [constructor |].
    simpl in Hc; change (@len A []) with 0 in Hc; lia.
  - rewrite len_cons in Hc.
    destruct c as [|j c]; [apply subseq_nil_l |].
    simpl in Hc; destruct Hc as [Hj Hc].
    destruct (Z.eq_dec j 0) as [-> | Hj0].
    + rewrite select_cons_0; apply subseq_take.
      rewrite (select_shift e E c 1) by (lia || assumption).
      apply IH.
      apply (within_shift 1) in Hc.
      replace (len E + 1 - 1) with (len E) in Hc by lia; exact Hc.
    + apply subseq_skip.
      assert (Hw : within 1 (len E + 1) (j :: c)) by (simpl; split; [lia | exact Hc]).
      rewrite (select_shift e E _ 1) by (lia || assumption).
      apply IH.
      apply (within_shift 1) in Hw.
      replace (len E + 1 - 1) with (len E) in Hw by lia; exact Hw.
Qed.

Section Elements.
Context {A : Type} (eqb : A -> A -> bool).
Hypothesis eqb_eq : forall x y, eqb x y = true <-> x = y.

Lemma index_hd e E : index eqb e (e :: E) = Ok 0.
Proof.
  simpl; destruct (eqb e e) eqn:Ee; [reflexivity |].
  assert (eqb e e = true) by (apply eqb_eq; reflexivity); congruence.
Qed.

Lemma index_tl e E x :
  e <> x -> index eqb x (e :: E) = (i <- index eqb x E ;; Ok (i + 1)).
Proof.
  intros Hne; simpl; destruct (eqb e x) eqn:Ee; [| reflexivity].
  apply eqb_eq in Ee; contradiction.
Qed.

Lemma mapM_index_cons e E xs :
  (forall a, In a xs -> e <> a) ->
  mapM (fun x => index eqb x (e :: E)) xs =
  (l <- mapM (fun x => index eqb x E) xs ;; Ok (map (fun i => i + 1) l)).
Proof.
  induction xs as [|x xs IH]; intros Hall; [reflexivity |].
  cbn [mapM].
  rewrite index_tl by (apply Hall; left; reflexivity).
  rewrite IH by (intros; apply Hall; right; assumption).
  destruct (index eqb x E); simpl; [| reflexivity].
  destruct (mapM (fun x0 => index eqb x0 E) xs); reflexivity.
Qed.

(** In a list without duplicates, the index of the element at a position
    is that position. *)
Lemma mapM_index_select (E : list A) : NoDup E -> forall c,
  within 0 (len E) c ->
  mapM (fun x => index eqb x E) (select E c) = Ok c.
Proof.
  induction 1 as [|e E Hnin Hnd IH]; intros c Hc.
  - destruct c as [|j c]; [reflexivity |].
    simpl in Hc; change (@len A []) with 0 in Hc; lia.
  - rewrite len_cons in Hc.
    assert (Hsh : forall c, within 1 (len E + 1) c ->
              mapM (fun x => index eqb x (e :: E)) (select (e :: E) c) = Ok c).
    { intros c' Hw.
      rewrite (select_shift e E c' 1) by (lia || assumption).
      assert (Hc' : within 0 (len E) (map (fun x => x - 1) c')).
      { apply (within_shift 1) in Hw.
        replace (len E + 1 - 1) with (len E) in Hw by lia; exact Hw. }
      rewrite mapM_index_cons.
      - rewrite (IH _ Hc'); simpl; f_equal.
        rewrite map_map; erewrite map_ext; [apply map_id | intros; simpl; lia].
      - intros a Ha ->; apply Hnin.
        eapply subseq_In; [apply select_subseq; exact Hc' | exact Ha]. }
    destruct c as [|j c]; [reflexivity |].
    simpl in Hc; destruct Hc as [Hj Hc].
    destruct (Z.eq_dec j 0) as [-> | Hj0].
    + rewrite select_cons_0; cbn [mapM].
      rewrite index_hd, (Hsh c Hc); reflexivity.
    + apply Hsh; simpl; split; [lia | exact Hc].
Qed.

Lemma mapM_index_incl (E xs : list A) :
  (forall a, In a xs -> In a E) ->
  exists l, mapM (fun x => index eqb x E) xs = Ok l.
Proof.
  assert (Hi : forall a, In a E -> exists i, index eqb a E = Ok i).
  { induction E as [|e E IH]; simpl; intros a Ha; [contradiction |].
    destruct (eqb e a) eqn:Ee; [eauto |].
    destruct Ha as [-> | Ha].
    - assert (eqb a a = true) by (apply eqb_eq; reflexivity); congruence.
    - destruct (IH _ Ha) as [i ->]; simpl; eauto. }
  induction xs as [|x xs IH]; intros Hall; [exists []; reflexivity |].
  destruct (Hi x (Hall _ (or_introl eq_refl))) as [i Hx].
  destruct IH as [l Hl]; [intros; apply Hall; right; assumption |].
  exists (i :: l); cbn [mapM]; rewrite Hx, Hl; reflexivity.
Qed.

(** First half of the inverse property: unranking the rank of a
    combination gives the combination back. *)
Lemma unrank_rank (E x : list A) :
  NoDup E -> subseq x E ->
  exists r,
    rank eqb x E = Ok r /\
    0 <= r < comb (len E) (len x) /\
    unrank r E (len x) = Ok x.
Proof.
  intros Hnd Hsub.
  destruct (subseq_select _ _ Hsub) as (c & Hc & Hs & Hl).
  pose proof (subseq_len _ _ Hsub) as Hle.
  pose proof (len_nonneg x) as Hx.
  subst x.
  unfold rank, unrank, from_range_rank.
  rewrite (mapM_index_select E Hnd c Hc); simpl bind.
  destruct (from_range_rank_unrank E c
              (Z.to_nat (len E) + Z.to_nat (last c 0) + 2)
              (length E + 1)
              Hc) as (r & Hr & Hb & Hu); [unfold len; lia | lia |].
  exists r; rewrite Hr, comb_C, <- Hl by lia.
  repeat split; try tauto.
  destruct (from_range_rank_unrank E c
              (Z.to_nat (len E) + Z.to_nat (last c 0) + 2)
              (length E + Z.to_nat (len c) + Z.to_nat r + 1)
              Hc) as (r' & Hr' & _ & Hu'); [unfold len; lia | lia |].
  rewrite Hr in Hr'; injection Hr' as <-.
  exact Hu'.
Qed.

(** Second half: ranking the combination unranked from [r] gives [r]
    back. *)
Lemma rank_unrank (E : list A) k r :
  NoDup E -> 0 <= k <= len E -> 0 <= r < comb (len E) k ->
  exists x,
    unrank r E k = Ok x /\ subseq x E /\ len x = k /\
    rank eqb x E = Ok r.
Proof.
  intros Hnd Hk Hr.
  rewrite comb_C in Hr by lia.
  unfold rank, unrank, from_range_rank.
  destruct (unrank_from_range_rank E k r
              (length E + Z.to_nat k + Z.to_nat r + 1)
              Hk Hr) as (c & Hu & Hc & Hl & Hrk); [lia |].
  exists (select E c); rewrite Hu.
  repeat split.
  - apply select_subseq; exact Hc.
  - rewrite (select_length E c 0); [exact Hl | lia | exact Hc].
  - rewrite (mapM_index_select E Hnd c Hc); simpl bind.
    apply Hrk; unfold len; lia.
Qed.
End Elements.

(** Rank [0] is the combination of the first [k] elements, whatever [k]. *)
Lemma unrank_fuel_zero {A} : forall fuel (E : list A) k,
  0 <= k -> (Z.to_nat k + 1 <= fuel)%nat ->
  unrank_fuel fuel 0 E k = Ok (firstn (Z.to_nat k) E).
Proof.
  induction fuel as [|fuel IH]; intros E k Hk Hf; [lia |].
  rewrite unrank_fuel_S.
  destruct (Z.eqb_spec k 0) as [-> | Hk0]; [reflexivity |].
  pose proof (comb_pos (len E - 1) (k - 1)) as Hp.
  destruct (Z.ltb_spec 0 (comb (len E - 1) (k - 1))) as [_ | ?]; [| lia].
  rewrite IH by lia; simpl.
  replace (Z.to_nat k) with (S (Z.to_nat (k - 1))) by lia.
  destruct E as [|e E]; [| reflexivity].
  rewrite slice_from_1_nil, slice_to_1_nil, firstn_nil; reflexivity.
Qed.

Lemma unrank_zero {A} (E : list A) k :
  0 <= k -> unrank 0 E k = Ok (firstn (Z.to_nat k) E).
Proof. intros Hk; unfold unrank; apply unrank_fuel_zero; lia. Qed.

Lemma rank_all {A} (eqb : A -> A -> bool) (E : list A) :
  (forall x y, eqb x y = true <-> x = y) -> rank eqb E E = Ok 0.
Proof.
  intros Heq; unfold rank.
  destruct (mapM_index_incl eqb Heq E E (fun a H => H)) as [l Hl].
  rewrite Hl; simpl bind.
  apply mapM_ok_length in Hl.
  unfold from_range_rank.
  replace (Z.to_nat (len E) + Z.to_nat (last l 0%Z) + 2)%nat
    with (S (Z.to_nat (len E) + Z.to_nat (last l 0%Z) + 1)) by lia.
  rewrite from_range_rank_fuel_S, Hl, Z.eqb_refl, orb_true_r; reflexivity.
Qed.

(** * [Combination.unrank] on any rank *)

(** [unrank] returns for every rank, in range or not: a combination of the
    elements with [k] elements at most. *)
Lemma unrank_fuel_total {A} : forall (m : nat) fuel rank (E : list A) k,
  0 <= k -> (Z.to_nat k + Z.to_nat rank <= m)%nat -> (m < fuel)%nat ->
  exists x, unrank_fuel fuel rank E k = Ok x /\ subseq x E /\ len x <= k.
Proof.
  induction m as [|m IH]; intros fuel rank E k Hk Hm Hf;
    (destruct fuel as [|fuel]; [lia |]); rewrite unrank_fuel_S.
  - assert (k = 0) as -> by lia; simpl.
    exists []; repeat split; [apply subseq_nil_l | change (@len A []) with 0; lia].
  - destruct (Z.eqb_spec k 0) as [-> | Hk0].
    + exists []; repeat split; [apply subseq_nil_l | change (@len A []) with 0; lia].
    + pose proof (comb_pos (len E - 1) (k - 1)) as Hp.
      destruct (Z.ltb_spec rank (comb (len E - 1) (k - 1))) as [Hlt | Hge].
      * destruct (IH fuel rank (slice_from 1 E) (k - 1)) as (x & Hx & Hs & Hl);
          try lia.
        rewrite Hx; cbn [bind].
        exists (slice_to 1 E ++ x); split; [reflexivity |].
        destruct E as [|e E].
        -- rewrite slice_to_1_nil; rewrite slice_from_1_nil in Hs; simpl.
           split; [assumption | lia].
        -- rewrite slice_to_1, slice_from_1 in *; simpl.
           split; [apply subseq_take; assumption | rewrite len_cons; lia].
      * destruct (IH fuel (rank - comb (len E - 1) (k - 1)) (slice_from 1 E) k)
          as (x & Hx & Hs & Hl); try lia.
        exists x; split; [assumption | split; [| assumption]].
        destruct E as [|e E].
        -- rewrite slice_from_1_nil in Hs; assumption.
        -- rewrite slice_from_1 in Hs; apply subseq_skip; assumption.
Qed.

Lemma unrank_fuel_subseq {A} : forall fuel rank (E : list A) k x,
  unrank_fuel fuel rank E k = Ok x -> subseq x E.
Proof.
  induction fuel as [|fuel IH]; intros rank E k x Hx; [discriminate |].
  rewrite unrank_fuel_S in Hx.
  destruct (k =? 0); [injection Hx as <-; apply subseq_nil_l |].
  destruct (rank <? comb (len E - 1) (k - 1)).
  - apply bind_inv in Hx; destruct Hx as (y & Hy & Hx).
    injection Hx as <-; apply IH in Hy.
    destruct E as [|e E].
    + rewrite slice_to_1_nil; rewrite slice_from_1_nil in Hy; exact Hy.
    + rewrite slice_to_1; rewrite slice_from_1 in Hy; simpl.
      apply subseq_take; exact Hy.
  - apply IH in Hx.
    destruct E as [|e E].
    + rewrite slice_from_1_nil in Hx; exact Hx.
    + rewrite slice_from_1 in Hx; apply subseq_skip; exact Hx.
Qed.

(** A rank that is not below the number of combinations gives fewer than
    [k] elements, and no error. *)
Lemma unrank_fuel_short {A} : forall (E : list A) fuel rank k x,
  1 <= k -> C (len E) k <= rank ->
  unrank_fuel fuel rank E k = Ok x -> len x < k.
Proof.
  induction E as [|e E IH]; intros fuel rank k x Hk Hr Hx.
  - apply unrank_fuel_subseq in Hx; inversion Hx; subst.
    change (@len A []) with 0; lia.
  - destruct (Z_lt_ge_dec (len (e :: E)) k) as [Hlt | Hge].
    + apply unrank_fuel_subseq in Hx; pose proof (subseq_len _ _ Hx); lia.
    + rewrite len_cons in *.
      destruct fuel as [|fuel]; [discriminate |].
      rewrite unrank_fuel_S, len_cons, slice_from_1, slice_to_1 in Hx.
      destruct (Z.eqb_spec k 0) as [|_]; [lia |].
      replace (len E + 1 - 1) with (len E) in Hx by lia.
      pose proof (len_nonneg E) as HE.
      rewrite comb_C in Hx by lia.
      replace k with (k - 1 + 1) in Hr at 1 by lia.
      rewrite C_pascal in Hr by lia.
      replace (k - 1 + 1) with k in Hr by lia.
      pose proof (C_nonneg (len E) k) as Hn.
      destruct (Z.ltb_spec rank (C (len E) (k - 1))) as [? | Hge']; [lia |].
      apply (IH fuel (rank - C (len E) (k - 1)) k x); try assumption; lia.
Qed.

(** * The depth of [Combination.unrank] on a rank out of range *)

(** A rank that is not below the number of combinations is never taken for
    a combination that starts with the first element; the recursion goes on
    past the end of the elements, and is deeper than the excess of the
    rank. *)
Lemma unrank_fuel_deep {A} : forall fuel rank (E : list A) k,
  1 <= k -> Z.of_nat fuel <= rank - C (len E) k ->
  unrank_fuel fuel rank E k = Raise OutOfFuel.
Proof.
  induction fuel as [|fuel IH]; intros rank E k Hk Hr; [reflexivity |].
  rewrite unrank_fuel_S.
  destruct (Z.eqb_spec k 0) as [? | _]; [lia |].
  pose proof (len_nonneg E) as HE.
  pose proof (C_nonneg (len E) k) as HC.
  destruct E as [|e E].
  - rewrite len_nil in *.
    rewrite (comb_out (0 - 1) (k - 1)) by lia.
    destruct (Z.ltb_spec rank 1) as [? | _]; [lia |].
    rewrite slice_from_1_nil; apply IH; [lia |].
    rewrite len_nil; lia.
  - rewrite len_cons in *; rewrite slice_from_1.
    replace (len E + 1 - 1) with (len E) by lia.
    pose proof (len_nonneg E) as HE'.
    destruct (Z_le_gt_dec k (len E + 1)) as [Hle | Hgt].
    + rewrite comb_C by lia.
      replace k with (k - 1 + 1) in Hr, HC by lia.
      rewrite C_pascal in Hr, HC by lia.
      replace (k - 1 + 1) with k in Hr, HC by lia.
      pose proof (C_nonneg (len E) k) as HC'.
      pose proof (C_nonneg (len E) (k - 1)) as HC''.
      destruct (Z.ltb_spec rank (C (len E) (k - 1))) as [? | _]; [lia |].
      apply IH; lia.
    + rewrite (comb_out (len E) (k - 1)) by lia.
      rewrite (C_out (len E + 1) k) in Hr by lia.
      destruct (Z.ltb_spec rank 1) as [? | _]; [lia |].
      apply IH; [lia |].
      rewrite (C_out (len E) k) by lia; lia.
Qed.

(** [Combination.unrank] raises no error of its own. *)
Lemma unrank_fuel_raises {A} : forall fuel rank (E : list A) k e,
  unrank_fuel fuel rank E k = Raise e -> e = OutOfFuel.
Proof.
  induction fuel as [|fuel IH]; intros rank E k e H;
    [injection H as <-; reflexivity |].
  rewrite unrank_fuel_S in H.
  destruct (k =? 0); [discriminate |].
  destruct (rank <? _).
  - destruct (unrank_fuel fuel rank (slice_from 1 E) (k - 1)) as [y | e'] eqn:Ey;
      cbn [bind] in H; [discriminate |].
    injection H as <-; exact (IH _ _ _ _ Ey).
  - exact (IH _ _ _ _ H).
Qed.

(** * Combinations with replacement *)

Lemma preceding_0 n k j : j <= 0 -> preceding n k j = 0.
Proof. intros H; unfold preceding; rewrite range_empty by lia; reflexivity. Qed.

Lemma preceding_S n k j :
  0 <= j ->
  preceding n k (j + 1) = preceding n k j + comb_with_replacement (n - j) (k - 1).
Proof.
  intros H; unfold preceding.
  rewrite range_snoc, fold_left_app by lia; reflexivity.
Qed.

Lemma comb_with_replacement_C n k :
  1 <= n -> 0 <= k -> comb_with_replacement n k = C (n + k - 1) k.
Proof. intros; unfold comb_with_replacement; apply comb_C; lia. Qed.

Lemma comb_with_replacement_0_r n : comb_with_replacement n 0 = 1.
Proof. unfold comb_with_replacement; apply comb_0_r. Qed.

Lemma preceding_ge n k j : 0 <= j -> j <= preceding n k j.
Proof.
  intros Hj; pattern j; apply natlike_ind; [| | exact Hj].
  - rewrite preceding_0; lia.
  - intros x Hx IH.
    replace (Z.succ x) with (x + 1) by lia.
    rewrite preceding_S by lia.
    pose proof (comb_with_replacement_pos (n - x) (k - 1)); lia.
Qed.

(** The hockey-stick identity, in the form the ranking needs. *)
Lemma preceding_C n k j :
  1 <= k -> 0 <= j <= n ->
  preceding n k j + C (n - j + k - 1) k = C (n + k - 1) k.
Proof.
  intros Hk [Hj Hn]; revert Hn; pattern j; apply natlike_ind; [| | exact Hj].
  - intros _; rewrite preceding_0 by lia.
    replace (n - 0 + k - 1) with (n + k - 1) by lia; lia.
  - intros x Hx IH Hn.
    replace (Z.succ x) with (x + 1) in * by lia.
    rewrite preceding_S, <- IH by lia.
    rewrite comb_with_replacement_C by lia.
    replace (n - x + (k - 1) - 1) with (n - x + k - 2) by lia.
    replace (n - (x + 1) + k - 1) with (n - x + k - 2) by lia.
    replace (n - x + k - 1) with (n - x + k - 2 + 1) by lia.
    replace (C (n - x + k - 2 + 1) k) with (C (n - x + k - 2 + 1) (k - 1 + 1))
      by (f_equal; lia).
    rewrite C_pascal by lia.
    replace (k - 1 + 1) with k by lia.
    lia.
Qed.

Lemma preceding_le n k j :
  1 <= k -> 0 <= j <= n -> preceding n k j <= C (n + k - 1) k.
Proof.
  intros Hk Hj; rewrite <- (preceding_C n k j) by lia.
  pose proof (C_nonneg (n - j + k - 1) k); lia.
Qed.

Lemma preceding_all n k : 1 <= k -> 0 <= n -> preceding n k n = C (n + k - 1) k.
Proof.
  intros Hk Hn; rewrite <- (preceding_C n k n) by lia.
  rewrite (C_out (n - n + k - 1) k) by lia; lia.
Qed.

Lemma nondecreasing_shift d hi c : forall lo,
  nondecreasing lo hi c -> nondecreasing (lo - d) (hi - d) (map (fun x => x - d) c).
Proof.
  induction c as [|j c IH]; simpl; intros lo H; [exact I |].
  destruct H as [H1 H2]; split; [lia |]; apply IH; assumption.
Qed.

Lemma nondecreasing_weaken lo lo' hi c :
  lo' <= lo -> nondecreasing lo hi c -> nondecreasing lo' hi c.
Proof. destruct c; simpl; [tauto | intros ? [? ?]; split; [lia | assumption]]. Qed.

Lemma with_replacement_rank_fuel_S fuel c n :
  with_replacement_rank_fuel (S fuel) c n =
  if len c =? 0 then Ok 0
  else
    j <- py_get c 0 ;;
    if len c =? 1 then Ok j
    else if j =? 0 then with_replacement_rank_fuel fuel (slice_from 1 c) n
    else
      r <- with_replacement_rank_fuel fuel
             (map (fun x => x - j) (slice_from 1 c)) (n - j) ;;
      Ok (preceding n (len c) j + r).
Proof. reflexivity. Qed.

(** The three cases of [with_replacement_rank] on a non-empty list are one. *)
Lemma with_replacement_rank_step fuel j c n :
  0 <= j -> (1 <= fuel)%nat ->
  with_replacement_rank_fuel (S fuel) (j :: c) n =
  (r <- with_replacement_rank_fuel fuel (map (fun x => x - j) c) (n - j) ;;
   Ok (preceding n (len c + 1) j + r)).
Proof.
  intros Hj Hf.
  rewrite with_replacement_rank_fuel_S, len_cons, py_get_0, slice_from_1.
  pose proof (len_nonneg c) as Hc.
  destruct (Z.eqb_spec (len c + 1) 0) as [|_]; [lia |]; simpl bind.
  destruct (Z.eqb_spec (len c + 1) 1) as [E1 | Hne].
  - assert (c = []) as -> by (apply len_zero_inv; lia).
    destruct fuel as [|fuel]; [lia |]; simpl.
    f_equal.
    assert (G : forall j, 0 <= j -> preceding n 1 j = j).
    { clear; intros j Hj; pattern j; apply natlike_ind; [| | exact Hj].
      - apply preceding_0; lia.
      - intros x Hx IH; replace (Z.succ x) with (x + 1) by lia.
        rewrite preceding_S, IH by lia.
        replace (1 - 1) with 0 by lia.
        rewrite comb_with_replacement_0_r; reflexivity. }
    change (len (@nil Z) + 1) with 1.
    rewrite G by lia; lia.
  - destruct (Z.eqb_spec j 0) as [-> | Hj0]; [| reflexivity].
    replace (map (fun x => x - 0) c) with c
      by (erewrite map_ext; [symmetry; apply map_id | intros; simpl; lia]).
    replace (n - 0) with n by lia.
    rewrite preceding_0 by lia.
    destruct (with_replacement_rank_fuel fuel c n); reflexivity.
Qed.

Lemma with_replacement_unrank_loop_S fuel n k rank i p :
  with_replacement_unrank_loop (S fuel) n k rank i p =
  if p <=? rank then
    with_replacement_unrank_loop fuel n k (rank - p) (i + 1)
      (comb_with_replacement (n - (i + 1)) (k - 1))
  else Ok (rank, i).
Proof. reflexivity. Qed.

(** The loop of [with_replacement_unrank]: it stops at the least element
    [i + d] of the multiset, with the rank inside its block. *)
Lemma with_replacement_unrank_loop_spec n k (d : nat) : forall fuel i r rank,
  0 <= i ->
  rank = preceding n k (i + Z.of_nat d) - preceding n k i + r ->
  0 <= r < comb_with_replacement (n - (i + Z.of_nat d)) (k - 1) ->
  (d + 1 <= fuel)%nat ->
  with_replacement_unrank_loop fuel n k rank i
    (comb_with_replacement (n - i) (k - 1)) = Ok (r, i + Z.of_nat d).
Proof.
  induction d as [|d IH]; intros fuel i r rank Hi Hrank Hr Hf;
    (destruct fuel as [|fuel]; [lia |]); rewrite with_replacement_unrank_loop_S.
  - replace (i + Z.of_nat 0) with i in * by lia.
    destruct (Z.leb_spec (comb_with_replacement (n - i) (k - 1)) rank) as [Hle | Hgt]; [lia |].
    repeat f_equal; lia.
  - replace (i + Z.of_nat (S d)) with (i + 1 + Z.of_nat d) in * by lia.
    pose proof (preceding_S n k i Hi) as HS.
    assert (Hmono : preceding n k (i + 1) <= preceding n k (i + 1 + Z.of_nat d)).
    { clear - Hi; induction d as [|d IHd]; [replace (i + 1 + Z.of_nat 0) with (i + 1) by lia; lia |].
      replace (i + 1 + Z.of_nat (S d)) with ((i + 1 + Z.of_nat d) + 1) by lia.
      rewrite (preceding_S n k (i + 1 + Z.of_nat d)) by lia.
      pose proof (comb_with_replacement_pos (n - (i + 1 + Z.of_nat d)) (k - 1)); lia. }
    destruct (Z.leb_spec (comb_with_replacement (n - i) (k - 1)) rank) as [Hle | Hgt]; [| lia].
    apply IH; try lia.
Qed.

Lemma with_replacement_unrank_fuel_S fuel rank n k :
  with_replacement_unrank_fuel (S fuel) rank n k =
  if k =? 0 then Ok []
  else
    '(rank', i) <- with_replacement_unrank_loop (Z.to_nat rank + 1) n k rank 0
                     (comb_with_replacement n (k - 1)) ;;
    rest <- with_replacement_unrank_fuel fuel rank' (n - i) (k - 1) ;;
    Ok (i :: map (fun x => x + i) rest).
Proof. reflexivity. Qed.

(** First half of the inverse property for multisets. *)
Lemma with_replacement_unrank_rank : forall (m : nat) c n fuel fuel',
  (length c <= m)%nat ->
  nondecreasing 0 n c ->
  (length c + 1 <= fuel)%nat -> (length c + 1 <= fuel')%nat ->
  exists r,
    with_replacement_rank_fuel fuel c n = Ok r /\
    0 <= r < comb_with_replacement n (len c) /\
    with_replacement_unrank_fuel fuel' r n (len c) = Ok c.
Proof.
  induction m as [|m IH]; intros c n fuel fuel' Hm Hc Hf Hf'.
  - destruct c; [| simpl in Hm; lia].
    destruct fuel as [|fuel]; [simpl in Hf; lia |].
    destruct fuel' as [|fuel']; [simpl in Hf'; lia |].
    exists 0; change (len (@nil Z)) with 0.
    rewrite comb_with_replacement_0_r; repeat split; lia.
  - destruct c as [|j c].
    { destruct fuel as [|fuel]; [simpl in Hf; lia |].
      destruct fuel' as [|fuel']; [simpl in Hf'; lia |].
      exists 0; change (len (@nil Z)) with 0.
      rewrite comb_with_replacement_0_r; repeat split; lia. }
    simpl in Hc, Hm, Hf, Hf'; destruct Hc as [Hj Hc].
    destruct fuel as [|fuel]; [lia |].
    destruct fuel' as [|fuel']; [lia |].
    pose proof (len_nonneg c) as Hlc.
    assert (Hc' : nondecreasing 0 (n - j) (map (fun x => x - j) c)).
    { apply (nondecreasing_shift j) in Hc.
      replace (j - j) with 0 in Hc by lia; exact Hc. }
    destruct (IH (map (fun x => x - j) c) (n - j) fuel fuel')
      as (r & Hr & Hb & Hu); try (rewrite ?length_map; lia); [exact Hc' |].
    rewrite len_map in *.
    exists (preceding n (len c + 1) j + r).
    rewrite with_replacement_rank_step, Hr, len_cons by lia.
    pose proof (preceding_ge n (len c + 1) j ltac:(lia)) as Hge.
    split; [reflexivity | split].
    + split; [lia |].
      rewrite (comb_with_replacement_C n) by lia.
      pose proof (preceding_le n (len c + 1) (j + 1) ltac:(lia) ltac:(lia)) as Hle.
      rewrite preceding_S in Hle by lia.
      replace (len c + 1 - 1) with (len c) in Hle by lia.
      lia.
    + rewrite with_replacement_unrank_fuel_S.
      destruct (Z.eqb_spec (len c + 1) 0) as [|_]; [lia |].
      pose proof (with_replacement_unrank_loop_spec n (len c + 1) (Z.to_nat j)
                    (Z.to_nat (preceding n (len c + 1) j + r) + 1) 0 r
                    (preceding n (len c + 1) j + r)) as Hloop.
      replace (0 + Z.of_nat (Z.to_nat j)) with j in Hloop by lia.
      replace (n - 0) with n in Hloop by lia.
      replace (len c + 1 - 1) with (len c) in *  by lia.
      rewrite Hloop; try lia.
      * simpl bind; rewrite Hu; simpl; f_equal; f_equal.
        rewrite map_map; erewrite map_ext; [apply map_id | intros; simpl; lia].
      * rewrite (preceding_0 n _ 0) by lia; lia.
Qed.

(** The loop of [with_replacement_unrank] terminates on every rank below
    the number of multisets, at an element of the universe. *)
Lemma with_replacement_unrank_loop_total n k : forall (m : nat) i rank fuel,
  1 <= k -> 0 <= i <= n -> m = Z.to_nat (n - i) ->
  0 <= rank -> rank + preceding n k i < C (n + k - 1) k ->
  (Z.to_nat rank + 1 <= fuel)%nat ->
  exists i' r',
    with_replacement_unrank_loop fuel n k rank i
      (comb_with_replacement (n - i) (k - 1)) = Ok (r', i') /\
    i <= i' < n /\
    0 <= r' < comb_with_replacement (n - i') (k - 1) /\
    rank + preceding n k i = r' + preceding n k i'.
Proof.
  induction m as [|m IH]; intros i rank fuel Hk Hi Hm Hrank Hlt Hf.
  - assert (i = n) by lia; subst i.
    rewrite preceding_all in Hlt by lia; lia.
  - destruct fuel as [|fuel]; [lia |].
    rewrite with_replacement_unrank_loop_S.
    pose proof (comb_with_replacement_pos (n - i) (k - 1)) as Hpos.
    destruct (Z.leb_spec (comb_with_replacement (n - i) (k - 1)) rank) as [Hle | Hgt].
    + destruct (IH (i + 1) (rank - comb_with_replacement (n - i) (k - 1)) fuel)
        as (i' & r' & Hl & Hi' & Hr' & He); try lia.
      * rewrite preceding_S by lia; lia.
      * exists i', r'; repeat split; try lia; try assumption.
        rewrite preceding_S in He by lia; lia.
    + exists i, rank; repeat split; lia.
Qed.

(** Second half of the inverse property for multisets. *)
Lemma with_replacement_rank_unrank : forall (k : nat) n r fuel',
  1 <= n ->
  0 <= r < comb_with_replacement n (Z.of_nat k) ->
  (k + 1 <= fuel')%nat ->
  exists c,
    with_replacement_unrank_fuel fuel' r n (Z.of_nat k) = Ok c /\
    nondecreasing 0 n c /\ length c = k /\
    forall fuel, (k + 1 <= fuel)%nat ->
                 with_replacement_rank_fuel fuel c n = Ok r.
Proof.
  induction k as [|k IH]; intros n r fuel' Hn Hr Hf'.
  - destruct fuel' as [|fuel']; [lia |].
    simpl Z.of_nat in *; rewrite comb_with_replacement_0_r in Hr.
    exists []; repeat split.
    intros [|fuel] Hf; [lia |]; simpl; f_equal; lia.
  - destruct fuel' as [|fuel']; [lia |].
    rewrite with_replacement_unrank_fuel_S.
    destruct (Z.eqb_spec (Z.of_nat (S k)) 0) as [|_]; [lia |].
    rewrite comb_with_replacement_C in Hr by lia.
    destruct (with_replacement_unrank_loop_total n (Z.of_nat (S k)) (Z.to_nat n)
                0 r (Z.to_nat r + 1))
      as (i & r' & Hl & Hi & Hr' & He); try lia.
    { rewrite (preceding_0 n _ 0); lia. }
    replace (n - 0) with n in Hl by lia.
    rewrite Hl; cbn [bind].
    replace (Z.of_nat (S k) - 1) with (Z.of_nat k) in * by lia.
    destruct (IH (n - i) r' fuel' ltac:(lia) Hr' ltac:(lia))
      as (rest & Hu & Hnd & Hlen & Hrk).
    rewrite Hu; cbn [bind].
    exists (i :: map (fun x => x + i) rest).
    assert (Hmm : map (fun x => x - i) (map (fun x => x + i) rest) = rest).
    { rewrite map_map; erewrite map_ext; [apply map_id | intros; simpl; lia]. }
    split; [reflexivity | split; [| split]].
    + simpl; split; [lia |].
      apply (nondecreasing_shift (- i)) in Hnd.
      replace (0 - - i) with i in Hnd by lia.
      replace (n - i - - i) with n in Hnd by lia.
      erewrite map_ext; [exact Hnd | intros; simpl; lia].
    + simpl; rewrite length_map; lia.
    + intros [|fuel] Hf; [lia |].
      rewrite with_replacement_rank_step, Hmm by lia.
      rewrite Hrk by lia; cbn [bind].
      rewrite len_map.
      replace (len rest + 1) with (Z.of_nat (S k)) by (unfold len; lia).
      rewrite (preceding_0 n _ 0) in He by lia.
      f_equal; lia.
Qed.

(** Rank [0] is the list of [k] zeros, whatever [n] is: in particular when
    [n <= 0], where [comb_with_replacement n k] is [1] for the module. *)
Lemma with_replacement_unrank_zero : forall (k : nat) n fuel',
  (k + 1 <= fuel')%nat ->
  with_replacement_unrank_fuel fuel' 0 n (Z.of_nat k) = Ok (repeat 0 k).
Proof.
  induction k as [|k IH]; intros n fuel' Hf';
    (destruct fuel' as [|fuel']; [lia |]); [reflexivity |].
  rewrite with_replacement_unrank_fuel_S.
  destruct (Z.eqb_spec (Z.of_nat (S k)) 0) as [|_]; [lia |].
  change (Z.to_nat 0 + 1)%nat with 1%nat.
  rewrite with_replacement_unrank_loop_S.
  pose proof (comb_with_replacement_pos n (Z.of_nat (S k) - 1)) as Hp.
  destruct (Z.leb_spec (comb_with_replacement n (Z.of_nat (S k) - 1)) 0); [lia |].
  cbn [bind].
  replace (Z.of_nat (S k) - 1) with (Z.of_nat k) by lia.
  replace (n - 0) with n by lia.
  rewrite IH by lia; cbn [bind repeat]; f_equal; f_equal.
  erewrite map_ext; [apply map_id | intros; simpl; lia].
Qed.

Lemma comb_with_replacement_out n k : n <= 0 -> comb_with_replacement n k = 1.
Proof.
  intros Hn; unfold comb_with_replacement.
  destruct (Z.eq_dec k 0) as [-> | Hk]; [apply comb_0_r |].
  apply comb_out; lia.
Qed.

Lemma with_replacement_rank_zeros : forall (k : nat) n fuel,
  (k + 1 <= fuel)%nat ->
  with_replacement_rank_fuel fuel (repeat 0 k) n = Ok 0.
Proof.
  induction k as [|k IH]; intros n fuel Hf;
    (destruct fuel as [|fuel]; [lia |]); [reflexivity |].
  simpl repeat.
  destruct k as [|k]; [reflexivity |].
  rewrite with_replacement_rank_step by lia.
  replace (map (fun x => x - 0) (repeat 0 (S k))) with (repeat 0 (S k))
    by (erewrite map_ext; [symmetry; apply map_id | intros; simpl; lia]).
  rewrite IH by lia; cbn [bind].
  rewrite preceding_0 by lia; reflexivity.
Qed.

End CombinationFacts.

(** * The array of [rule_asc] *)

Lemma update_length {A} (l : list A) : forall i v, length (update l i v) = length l.
Proof.
  induction l as [|x l IH]; intros [|i] v; simpl; auto.
Qed.

Lemma firstn_update_lt {A} (l : list A) : forall i j v,
  (j <= i)%nat -> firstn j (update l i v) = firstn j l.
Proof.
  induction l as [|x l IH]; intros [|i] [|j] v H; simpl; auto; try lia.
  f_equal; apply IH; lia.
Qed.

Lemma firstn_update_snoc {A} (l : list A) : forall i v,
  (i < length l)%nat -> firstn (S i) (update l i v) = firstn i l ++ [v].
Proof.
  induction l as [|x l IH]; intros [|i] v H; simpl in *; try lia.
  - reflexivity.
  - f_equal; apply IH; lia.
Qed.

Lemma py_set_ok {A} (l : list A) (i : nat) v :
  (i < length l)%nat -> py_set l (Z.of_nat i) v = Ok (update l i v).
Proof.
  intros H; unfold py_set, len; cbv zeta.
  assert (E1 : (Z.of_nat i <? 0) = false) by (apply Z.ltb_ge; lia).
  assert (E2 : (Z.of_nat (length l) <=? Z.of_nat i) = false) by (apply Z.leb_gt; lia).
  rewrite !E1, E2, Nat2Z.id; reflexivity.
Qed.

Lemma py_get_nth {A} (l : list A) (i : nat) v :
  nth_error l i = Some v -> py_get l (Z.of_nat i) = Ok v.
Proof.
  intros H; unfold py_get; cbv zeta.
  assert (E1 : (Z.of_nat i <? 0) = false) by (apply Z.ltb_ge; lia).
  rewrite !E1, Nat2Z.id, H; reflexivity.
Qed.

Lemma py_get_firstn {A} (l p : list A) (i j : nat) v :
  firstn j l = p -> nth_error p i = Some v -> py_get l (Z.of_nat i) = Ok v.
Proof.
  intros Hp Hv; apply py_get_nth; subst p.
  assert (i < j)%nat.
  { destruct (Nat.lt_ge_cases i j); [assumption |].
    assert (nth_error (firstn j l) i = None); [| congruence].
    apply nth_error_None; rewrite length_firstn; lia. }
  rewrite nth_error_firstn in Hv.
  destruct (Nat.ltb_spec i j); [assumption | lia].
Qed.

Lemma nth_error_snoc {A} (p : list A) (j : nat) v :
  length p = j -> nth_error (p ++ [v]) j = Some v.
Proof.
  intros <-; rewrite nth_error_app2, Nat.sub_diag by lia; reflexivity.
Qed.

Lemma firstn_snoc_inv {A} (l p : list A) (j : nat) v :
  length p = j -> firstn (S j) l = p ++ [v] -> firstn j l = p.
Proof.
  intros Hl H.
  apply (f_equal (firstn j)) in H.
  rewrite firstn_firstn, firstn_app in H.
  replace (Nat.min j (S j)) with j in H by lia.
  rewrite Hl, Nat.sub_diag in H.
  rewrite (firstn_all2 p) in H by lia.
  simpl in H; rewrite app_nil_r in H; assumption.
Qed.

(** * The reference enumeration [ascL] *)

Lemma ascL_fuel_enough : forall fuel fuel' x r,
  (Z.to_nat (2 * r - x) <= fuel)%nat -> (Z.to_nat (2 * r - x) <= fuel')%nat ->
  ascL_fuel fuel x r = ascL_fuel fuel' x r.
Proof.
  induction fuel as [|fuel IH]; intros fuel' x r Hf Hf';
    destruct fuel' as [|fuel']; cbn [ascL_fuel]; [reflexivity | | |];
    destruct (Z.leb_spec 1 x), (Z.leb_spec (2 * x) r); cbn [andb]; auto; try lia.
  rewrite (IH fuel' x (r - x)), (IH fuel' (x + 1) r) by lia; reflexivity.
Qed.

Lemma ascL_eq x r :
  ascL x r =
  if (1 <=? x) && (2 * x <=? r) then
    map (cons x) (ascL x (r - x) ++ [[r - x]]) ++ ascL (x + 1) r
  else [].
Proof.
  unfold ascL at 1.
  destruct (Z.to_nat (2 * r - x)) as [|fuel] eqn:E; cbn [ascL_fuel];
    destruct (Z.leb_spec 1 x), (Z.leb_spec (2 * x) r); cbn [andb]; auto; try lia.
  unfold ascL.
  rewrite (ascL_fuel_enough fuel (Z.to_nat (2 * (r - x) - x)) x (r - x)),
    (ascL_fuel_enough fuel (Z.to_nat (2 * r - (x + 1))) (x + 1) r) by lia.
  reflexivity.
Qed.

Lemma ascL_step x r :
  1 <= x -> 2 * x <= r ->
  ascL x r = map (cons x) (ascL x (r - x) ++ [[r - x]]) ++ ascL (x + 1) r.
Proof.
  intros H1 H2; rewrite ascL_eq.
  destruct (Z.leb_spec 1 x), (Z.leb_spec (2 * x) r); simpl; auto; lia.
Qed.

Lemma ascL_stop x r : r < 2 * x -> ascL x r = [].
Proof.
  intros H; rewrite ascL_eq.
  destruct (Z.leb_spec 1 x), (Z.leb_spec (2 * x) r); simpl; auto; lia.
Qed.

(** Induction on the measure [2 * r - x] of [ascL]. *)
Lemma ascL_ind (P : Z -> Z -> Prop) :
  (forall x r, 1 <= x -> r < 2 * x -> P x r) ->
  (forall x r, 1 <= x -> 2 * x <= r -> P x (r - x) -> P (x + 1) r -> P x r) ->
  forall x r, 1 <= x -> P x r.
Proof.
  intros Hstop Hstep.
  assert (G : forall (m : nat) x r, 1 <= x -> (Z.to_nat (2 * r - x) <= m)%nat -> P x r).
  { induction m as [|m IH]; intros x r Hx Hm.
    - apply Hstop; lia.
    - destruct (Z_lt_ge_dec r (2 * x)); [apply Hstop; lia |].
      apply Hstep; try lia; apply IH; lia. }
  intros x r Hx; apply (G (Z.to_nat (2 * r - x))); auto.
Qed.

(** There are fewer ascending compositions than compositions. *)
Lemma ascL_length x r :
  1 <= x -> x <= r -> (length (ascL x r) + 1 <= 2 ^ Z.to_nat (r - x))%nat.
Proof.
  intros Hx; revert x r Hx.
  apply (ascL_ind (fun x r => x <= r ->
           (length (ascL x r) + 1 <= 2 ^ Z.to_nat (r - x))%nat)).
  - intros x r Hx Hr Hle; rewrite ascL_stop by lia; simpl.
    pose proof (Nat.pow_nonzero 2 (Z.to_nat (r - x))); lia.
  - intros x r Hx Hr IH1 IH2 Hle.
    rewrite ascL_step, length_app, length_map, length_app by lia; simpl.
    specialize (IH1 ltac:(lia)); specialize (IH2 ltac:(lia)).
    replace (Z.to_nat (r - x)) with (S (Z.to_nat (r - (x + 1)))) by lia.
    assert (2 ^ Z.to_nat (r - x - x) <= 2 ^ Z.to_nat (r - (x + 1)))%nat
      by (apply Nat.pow_le_mono_r; lia).
    rewrite Nat.pow_succ_r'; lia.
Qed.

(** * [rule_asc] generates [ascL 1 n] *)

Lemma rule_asc_inner_S g a k x y :
  rule_asc_inner (S g) a k x y =
  if x <=? y then a <- py_set a k x ;; rule_asc_inner g a (k + 1) x (y - x)
  else Ok (a, k, y).
Proof. reflexivity. Qed.

Lemma rule_asc_outer_S fuel a k :
  rule_asc_outer (S fuel) a k =
  if k =? 0 then Ok []
  else
    ak1 <- py_get a (k - 1) ;;
    ak <- py_get a k ;;
    rule_asc_body (length a + 1) fuel a (k - 1) (ak1 + 1) (ak - 1).
Proof. reflexivity. Qed.

Lemma rule_asc_body_stop g fuel a (K : nat) x y :
  y < x -> (K < length a)%nat ->
  rule_asc_body (S g) fuel a (Z.of_nat K) x y =
  if Z.of_nat K =? 0 then Ok []
  else
    rest <- rule_asc_outer fuel (update a K (x + y)) (Z.of_nat K) ;;
    Ok (firstn (S K) (update a K (x + y)) :: rest).
Proof.
  intros Hy HK; unfold rule_asc_body.
  rewrite rule_asc_inner_S.
  destruct (Z.leb_spec x y); [lia |].
  cbn [bind]; rewrite py_set_ok by assumption; cbn [bind].
  unfold slice_to.
  replace (Z.to_nat (Z.of_nat K + 1)) with (S K) by lia.
  reflexivity.
Qed.

Lemma rule_asc_body_step g fuel a (K : nat) x y :
  x <= y -> (K < length a)%nat ->
  rule_asc_body (S g) fuel a (Z.of_nat K) x y =
  rule_asc_body g fuel (update a K x) (Z.of_nat (S K)) x (y - x).
Proof.
  intros Hy HK; unfold rule_asc_body.
  rewrite rule_asc_inner_S.
  destruct (Z.leb_spec x y); [| lia].
  rewrite py_set_ok by assumption; cbn [bind].
  replace (Z.of_nat K + 1) with (Z.of_nat (S K)) by lia.
  reflexivity.
Qed.

Lemma rule_asc_block_stop x r : 1 <= x -> r < 2 * x -> rule_asc_block x r.
Proof.
  intros Hx Hr Hle g a K p Hp Ha HK Hg.
  assert (HKa : (K < length a)%nat) by (unfold len in HK; lia).
  exists (update a K r); split; [apply update_length | split].
  - rewrite firstn_update_snoc, Ha by assumption; reflexivity.
  - intros fuel.
    destruct g as [|g]; [lia |].
    rewrite ascL_stop by lia; simpl length; rewrite Nat.add_0_r.
    rewrite rule_asc_body_stop by (assumption || lia).
    replace (x + (r - x)) with r by lia.
    rewrite firstn_update_snoc, Ha by assumption.
    destruct (Z.of_nat K =? 0); [reflexivity |].
    destruct (rule_asc_outer fuel (update a K r) (Z.of_nat K)); reflexivity.
Qed.

Lemma rule_asc_block_step x r :
  1 <= x -> 2 * x <= r ->
  rule_asc_block x (r - x) -> rule_asc_block (x + 1) r -> rule_asc_block x r.
Proof.
  intros Hx Hr IH1 IH2 Hle g a K p Hp Ha HK Hg.
  assert (HKa : (K < length a)%nat) by (unfold len in HK; lia).
  destruct g as [|g]; [lia |].
  destruct (IH1 ltac:(lia) g (update a K x) (S K) (p ++ [x]))
    as (a1 & Hl1 & Hf1 & Hrun1).
  { rewrite length_app; simpl; lia. }
  { rewrite firstn_update_snoc, Ha by assumption; reflexivity. }
  { unfold len in *; rewrite update_length; lia. }
  { lia. }
  rewrite update_length in Hl1.
  assert (Hp1 : firstn (S K) a1 = p ++ [x]).
  { apply (firstn_snoc_inv _ _ _ (r - x)); [rewrite length_app; simpl; lia |].
    exact Hf1. }
  assert (Hp0 : firstn K a1 = p).
  { apply (firstn_snoc_inv _ _ _ x); assumption. }
  destruct (IH2 ltac:(lia) (length a1 + 1)%nat a1 K p Hp Hp0)
    as (a' & Hl' & Hf' & Hrun2).
  { unfold len in *; lia. }
  { unfold len in *; lia. }
  exists a'; split; [congruence | split; [assumption |]].
  intros fuel.
  rewrite rule_asc_body_step by (assumption || lia).
  set (L1 := ascL x (r - x)) in *.
  set (L2 := ascL (x + 1) r) in *.
  replace (fuel + length (ascL x r))%nat with (S (fuel + length L2) + length L1)%nat.
  2:{ rewrite (ascL_step x r), length_app, length_map, length_app by lia.
      fold L1 L2; simpl; lia. }
  rewrite Hrun1.
  replace (Z.of_nat (S K) =? 0) with false by (symmetry; apply Z.eqb_neq; lia).
  rewrite rule_asc_outer_S.
  replace (Z.of_nat (S K) =? 0) with false by (symmetry; apply Z.eqb_neq; lia).
  replace (Z.of_nat (S K) - 1) with (Z.of_nat K) by lia.
  rewrite (py_get_firstn a1 (p ++ [x]) K (S K) x Hp1)
    by (apply nth_error_snoc; assumption).
  rewrite (py_get_firstn a1 ((p ++ [x]) ++ [r - x]) (S K) (S (S K)) (r - x) Hf1)
    by (apply nth_error_snoc; rewrite length_app; simpl; lia).
  cbn [bind].
  replace (r - x - 1) with (r - (x + 1)) by lia.
  rewrite Hrun2.
  rewrite (ascL_step x r) by lia; fold L1 L2.
  destruct (if Z.of_nat K =? 0 then Ok []
            else rest <- rule_asc_outer fuel a' (Z.of_nat K) ;; Ok ((p ++ [r]) :: rest))
    as [tail | e]; cbn [bind]; [| reflexivity].
  f_equal.
  rewrite !map_app, map_map, <- !app_assoc; simpl.
  f_equal; apply map_ext; intros c; rewrite <- app_assoc; reflexivity.
Qed.

Lemma rule_asc_block_all x r : 1 <= x -> rule_asc_block x r.
Proof.
  revert x r; apply ascL_ind.
  - apply rule_asc_block_stop.
  - apply rule_asc_block_step.
Qed.

Lemma map_app_nil {A} (L : list (list A)) : map (app []) L = L.
Proof. induction L as [|c L IH]; simpl; [| f_equal; exact IH]; reflexivity. Qed.

(** The generator runs to its end and yields [ascL 1 n]. *)
Lemma rule_asc_ascL n : 1 <= n -> rule_asc n = Ok (ascL 1 n).
Proof.
  intros Hn; unfold rule_asc.
  rewrite (range_cons 0 (n + 1)), (range_cons (0 + 1) (n + 1)) by lia.
  cbn [map].
  set (tl := map (fun _ : Z => 0) (range (0 + 1 + 1) (n + 1))).
  assert (Htl : length tl = Z.to_nat (n - 1)).
  { unfold tl; rewrite length_map, range_length; lia. }
  pose proof (py_set_ok (0 :: 0 :: tl) 1 n ltac:(simpl; lia)) as Hset.
  change (Z.of_nat 1) with 1 in Hset; rewrite Hset; clear Hset.
  cbn [bind update].
  set (a := 0 :: n :: tl).
  pose proof (ascL_length 1 n ltac:(lia) Hn) as Hlen.
  assert (Hpow : (2 ^ Z.to_nat (n - 1) <= 2 ^ Z.to_nat n)%nat)
    by (apply Nat.pow_le_mono_r; lia).
  destruct (rule_asc_block_all 1 n ltac:(lia) Hn (length a + 1)%nat a O [])
    as (a' & _ & _ & Hrun); try reflexivity.
  { unfold len, a; simpl length; lia. }
  { unfold a; simpl length; lia. }
  replace (2 ^ Z.to_nat n)%nat
    with (S ((2 ^ Z.to_nat n - 1 - length (ascL 1 n)) + length (ascL 1 n)))
    by lia.
  rewrite rule_asc_outer_S.
  change (1 =? 0) with false; cbv iota.
  change (py_get a (1 - 1)) with (Ok 0).
  change (py_get a 1) with (Ok n).
  cbn [bind].
  change (1 - 1) with (Z.of_nat 0).
  change (0 + 1) with 1.
  rewrite Hrun; cbn [bind Z.of_nat Z.eqb].
  rewrite map_app_nil, app_nil_r; reflexivity.
Qed.

Lemma partition_checked_ascL n : 1 <= n -> partition_checked n = Ok (ascL 1 n).
Proof.
  intros Hn; unfold partition_checked.
  destruct (Z.ltb_spec 0 n); [apply rule_asc_ascL; assumption | lia].
Qed.

Lemma partition_checked_ok n : partition_checked n = Ok (partition n).
Proof.
  unfold partition.
  destruct (Z_lt_ge_dec n 1) as [H | H].
  - unfold partition_checked.
    destruct (Z.ltb_spec 0 n); [lia | reflexivity].
  - rewrite partition_checked_ascL by lia; reflexivity.
Qed.

Lemma partition_ascL n : 1 <= n -> partition n = ascL 1 n.
Proof. intros Hn; unfold partition; rewrite partition_checked_ascL by lia; reflexivity. Qed.

Lemma partition_nonpos n : n <= 0 -> partition n = [].
Proof.
  intros Hn; unfold partition, partition_checked.
  destruct (Z.ltb_spec 0 n); [lia | reflexivity].
Qed.

(** * [ascL] lists the ascending compositions, in order *)

Lemma ascending_weaken x x' c : x' <= x -> ascending x c -> ascending x' c.
Proof. destruct c; simpl; [tauto | intros ? [? ?]; split; [lia | assumption]]. Qed.

Lemma ascending_sum x c : 0 <= x -> ascending x c -> x * len c <= sum c.
Proof.
  revert x; induction c as [|p c IH]; intros x Hx H.
  - change (@len Z []) with 0; rewrite sum_nil; lia.
  - destruct H as [H1 H2]; rewrite len_cons, sum_cons.
    specialize (IH p ltac:(lia) H2).
    pose proof (len_nonneg c); nia.
Qed.

Lemma ascending_Forall x c : ascending x c -> Forall (fun p => x <= p) c.
Proof.
  revert x; induction c as [|p c IH]; intros x H; constructor.
  - apply H.
  - destruct H as [H1 H2]; apply IH in H2.
    eapply Forall_impl; [| exact H2]; simpl; intros; lia.
Qed.

Lemma ascL_sound x r : 1 <= x ->
  forall c, In c (ascL x r) -> (2 <= length c)%nat /\ ascending x c /\ sum c = r.
Proof.
  intros Hx; revert x r Hx.
  apply (ascL_ind (fun x r => forall c, In c (ascL x r) ->
                     (2 <= length c)%nat /\ ascending x c /\ sum c = r)).
  - intros x r Hx Hr c Hc; rewrite ascL_stop in Hc by lia; destruct Hc.
  - intros x r Hx Hr IH1 IH2 c Hc.
    rewrite ascL_step in Hc by lia.
    apply in_app_or in Hc; destruct Hc as [Hc | Hc].
    + apply in_map_iff in Hc; destruct Hc as (c' & <- & Hc').
      apply in_app_or in Hc'; destruct Hc' as [Hc' | [<- | []]].
      * destruct (IH1 _ Hc') as (Hl & Ha & Hs).
        simpl; rewrite sum_cons; repeat split; try lia; assumption.
      * simpl; rewrite !sum_cons, sum_nil; repeat split; lia.
    + destruct (IH2 _ Hc) as (Hl & Ha & Hs).
      repeat split; try assumption.
      apply ascending_weaken with (x + 1); [lia | assumption].
Qed.

Lemma ascL_complete x r : 1 <= x ->
  forall c, (2 <= length c)%nat -> ascending x c -> sum c = r -> In c (ascL x r).
Proof.
  intros Hx; revert x r Hx.
  apply (ascL_ind (fun x r => forall c, (2 <= length c)%nat -> ascending x c ->
                     sum c = r -> In c (ascL x r))).
  - intros x r Hx Hr c Hl Ha Hs.
    pose proof (ascending_sum x c ltac:(lia) Ha) as H.
    unfold len in H; nia.
  - intros x r Hx Hr IH1 IH2 c Hl Ha Hs.
    rewrite ascL_step by lia; apply in_or_app.
    destruct c as [|p c]; [simpl in Hl; lia |].
    destruct Ha as [Hp Ha]; rewrite sum_cons in Hs.
    destruct (Z.eq_dec p x) as [-> | Hne].
    + left; apply in_map; apply in_or_app.
      destruct c as [|q [|q' c]]; [simpl in Hl; lia | |].
      * right; left; rewrite sum_cons, sum_nil in Hs; f_equal; lia.
      * left; apply IH1; [simpl; lia | assumption | lia].
    + right; apply IH2; [assumption | simpl; split; [lia | assumption] |].
      rewrite sum_cons; assumption.
Qed.

Lemma StronglySorted_app {A} (R : A -> A -> Prop) l1 l2 :
  StronglySorted R l1 -> StronglySorted R l2 ->
  (forall a b, In a l1 -> In b l2 -> R a b) ->
  StronglySorted R (l1 ++ l2).
Proof.
  induction l1 as [|a l1 IH]; intros H1 H2 H12; simpl; [assumption |].
  inversion H1 as [|? ? Hs Hf]; subst.
  constructor.
  - apply IH; [assumption | assumption | intros; apply H12; simpl; auto].
  - apply Forall_app; split; [assumption |].
    apply Forall_forall; intros b Hb; apply H12; simpl; auto.
Qed.

Lemma StronglySorted_map {A B} (R : A -> A -> Prop) (R' : B -> B -> Prop) f l :
  (forall a b, R a b -> R' (f a) (f b)) ->
  StronglySorted R l -> StronglySorted R' (map f l).
Proof.
  intros Hf; induction 1 as [|a l Hs IH Hfa]; simpl; constructor; [assumption |].
  apply Forall_map; eapply Forall_impl; [| exact Hfa]; auto.
Qed.

Lemma lex_lt_cons_lt a b c d : a < b -> lex_lt (a :: c) (b :: d).
Proof.
  intros H; unfold lex_lt; simpl.
  destruct (Z.ltb_spec a b); [reflexivity | lia].
Qed.

Lemma lex_lt_cons_eq a c d : lex_lt c d -> lex_lt (a :: c) (a :: d).
Proof.
  unfold lex_lt; simpl; intros ->.
  rewrite Z.eqb_refl, orb_true_r; reflexivity.
Qed.

Lemma lex_lt_irrefl c : ~ lex_lt c c.
Proof.
  unfold lex_lt; induction c as [|a c IH]; simpl; [discriminate |].
  rewrite Z.ltb_irrefl, Z.eqb_refl; simpl; assumption.
Qed.

(** The generated list followed by [[r]] is strictly increasing. *)
Lemma ascL_sorted x r : 1 <= x -> x <= r -> StronglySorted lex_lt (ascL x r ++ [[r]]).
Proof.
  intros Hx; revert x r Hx.
  apply (ascL_ind (fun x r => x <= r -> StronglySorted lex_lt (ascL x r ++ [[r]]))).
  - intros x r Hx Hr Hle; rewrite ascL_stop by lia; simpl.
    repeat constructor.
  - intros x r Hx Hr IH1 IH2 Hle.
    rewrite ascL_step, <- app_assoc by lia.
    apply StronglySorted_app.
    + apply StronglySorted_map with (R := lex_lt); [| apply IH1; lia].
      intros a b; apply lex_lt_cons_eq.
    + apply IH2; lia.
    + intros a b Ha Hb.
      apply in_map_iff in Ha; destruct Ha as (a' & <- & _).
      apply in_app_or in Hb; destruct Hb as [Hb | [<- | []]].
      * destruct (ascL_sound (x + 1) r ltac:(lia) b Hb) as (Hl & Hasc & _).
        destruct b as [|q b]; [simpl in Hl; lia |].
        destruct Hasc as [Hq _]; apply lex_lt_cons_lt; lia.
      * apply lex_lt_cons_lt; lia.
Qed.

Lemma StronglySorted_app_l {A} (R : A -> A -> Prop) l1 l2 :
  StronglySorted R (l1 ++ l2) -> StronglySorted R l1.
Proof.
  induction l1 as [|a l1 IH]; simpl; intros H; [constructor |].
  inversion H as [|? ? Hs Hf]; subst; constructor; [auto |].
  apply Forall_app in Hf; tauto.
Qed.

Lemma StronglySorted_NoDup {A} (R : A -> A -> Prop) l :
  (forall a, ~ R a a) -> StronglySorted R l -> NoDup l.
Proof.
  intros Hirr; induction 1 as [|a l Hs IH Hf]; constructor; [| assumption].
  intros Hin; rewrite Forall_forall in Hf; exact (Hirr a (Hf a Hin)).
Qed.

(** * [partition] *)

Lemma partition_In n c :
  In c (partition n) <-> (2 <= length c)%nat /\ ascending 1 c /\ sum c = n.
Proof.
  destruct (Z_lt_ge_dec n 1) as [Hn | Hn].
  - rewrite partition_nonpos by lia; split; [intros [] |].
    intros (Hl & Ha & Hs).
    pose proof (ascending_sum 1 c ltac:(lia) Ha) as H.
    unfold len in H; lia.
  - rewrite partition_ascL by lia; split.
    + apply ascL_sound; lia.
    + intros (Hl & Ha & Hs); apply ascL_complete; auto; lia.
Qed.

Lemma partition_sorted n : StronglySorted lex_lt (partition n).
Proof.
  destruct (Z_lt_ge_dec n 1) as [Hn | Hn].
  - rewrite partition_nonpos by lia; constructor.
  - rewrite partition_ascL by lia.
    apply StronglySorted_app_l with (l2 := [[n]]).
    apply ascL_sorted; lia.
Qed.

Lemma partition_NoDup n : NoDup (partition n).
Proof.
  apply StronglySorted_NoDup with (R := lex_lt);
    [apply lex_lt_irrefl | apply partition_sorted].
Qed.

(** Every part of a generated partition of [n] is positive and below [n]. *)
Lemma partition_parts n c k : In c (partition n) -> In k c -> 1 <= k < n.
Proof.
  intros Hc Hk; apply partition_In in Hc; destruct Hc as (Hl & Ha & Hs).
  pose proof (ascending_Forall _ _ Ha) as Hall.
  rewrite Forall_forall in Hall.
  split; [apply Hall; assumption |].
  apply in_split in Hk; destruct Hk as (l1 & l2 & ->).
  rewrite sum_app, sum_cons in Hs.
  rewrite length_app in Hl; simpl in Hl.
  assert (G : forall l, (forall p, In p l -> 1 <= p) -> len l <= sum l).
  { induction l as [|p l IH]; intros H.
    - change (@len Z []) with 0; rewrite sum_nil; lia.
    - rewrite len_cons, sum_cons.
      specialize (IH (fun q Hq => H q (or_intror Hq))).
      specialize (H p (or_introl eq_refl)); lia. }
  pose proof (G l1 (fun p Hp => Hall p ltac:(apply in_or_app; auto))) as H1.
  pose proof (G l2 (fun p Hp => Hall p ltac:(apply in_or_app; simpl; auto))) as H2.
  unfold len in *; lia.
Qed.

(** * [group_by] *)

Lemma group_by_fold_prefix {A} (equal : A -> A -> bool) l : forall G c,
  fold_left (group_by_step equal) l (G, c) =
  (G ++ fst (fold_left (group_by_step equal) l ([], c)),
   snd (fold_left (group_by_step equal) l ([], c))).
Proof.
  induction l as [|x l IH]; intros G c; simpl.
  - rewrite app_nil_r; reflexivity.
  - destruct c as [|c0 c']; simpl.
    + apply IH.
    + destruct (equal x c0).
      * apply IH.
      * rewrite (IH (G ++ [c0 :: c'])), (IH [c0 :: c']); simpl.
        rewrite <- app_assoc; reflexivity.
Qed.

Lemma group_by_grp {A} (l : list A) equal : group_by l equal = grp equal [] l.
Proof. reflexivity. Qed.

Lemma grp_nil {A} (equal : A -> A -> bool) c :
  grp equal c [] = match c with [] => [] | _ :: _ => [c] end.
Proof. destruct c; reflexivity. Qed.

Lemma grp_start {A} (equal : A -> A -> bool) x l :
  grp equal [] (x :: l) = grp equal [x] l.
Proof. reflexivity. Qed.

Lemma grp_cons {A} (equal : A -> A -> bool) c0 c' x l :
  grp equal (c0 :: c') (x :: l) =
  if equal x c0 then grp equal ((c0 :: c') ++ [x]) l
  else (c0 :: c') :: grp equal [x] l.
Proof.
  unfold grp; simpl.
  destruct (equal x c0); [reflexivity |].
  rewrite group_by_fold_prefix.
  destruct (fold_left (group_by_step equal) l ([], [x])) as [G c]; simpl.
  destruct c; reflexivity.
Qed.

Lemma grp_concat {A} (equal : A -> A -> bool) l : forall c,
  concat (grp equal c l) = c ++ l.
Proof.
  induction l as [|x l IH]; intros c.
  - rewrite grp_nil; destruct c; simpl; rewrite ?app_nil_r; reflexivity.
  - destruct c as [|c0 c'].
    + rewrite grp_start, IH; reflexivity.
    + rewrite grp_cons; destruct (equal x c0).
      * rewrite IH, <- app_assoc; reflexivity.
      * simpl; rewrite IH; reflexivity.
Qed.

Lemma grp_nonempty {A} (equal : A -> A -> bool) l : forall c,
  Forall (fun g => g <> []) (grp equal c l).
Proof.
  induction l as [|x l IH]; intros c.
  - rewrite grp_nil; destruct c; repeat constructor; discriminate.
  - destruct c as [|c0 c'].
    + rewrite grp_start; apply IH.
    + rewrite grp_cons; destruct (equal x c0); [apply IH |].
      constructor; [discriminate | apply IH].
Qed.

Lemma group_by_concat {A} (l : list A) equal : concat (group_by l equal) = l.
Proof. rewrite group_by_grp; apply grp_concat. Qed.

Lemma group_by_nonempty {A} (l : list A) equal :
  Forall (fun g => g <> []) (group_by l equal).
Proof. rewrite group_by_grp; apply grp_nonempty. Qed.

Lemma group_by_In {A} (l : list A) equal g x :
  In g (group_by l equal) -> In x g -> In x l.
Proof.
  intros Hg Hx; rewrite <- (group_by_concat l equal).
  apply in_concat; exists g; auto.
Qed.

Lemma group_by_hd {A} (l : list A) equal g d :
  In g (group_by l equal) -> In (hd d g) l.
Proof.
  intros Hg; apply (group_by_In l equal g); [assumption |].
  pose proof (group_by_nonempty l equal) as H.
  rewrite Forall_forall in H; specialize (H g Hg).
  destruct g; [congruence | simpl; auto].
Qed.

(** * [num_shapes] *)

Lemma fold_left_ext_in {A B} (f g : A -> B -> A) l :
  (forall a b, In b l -> f a b = g a b) ->
  forall a, fold_left f l a = fold_left g l a.
Proof.
  induction l as [|b l IH]; intros H a; simpl; [reflexivity |].
  rewrite H by (simpl; auto); apply IH; intros; apply H; simpl; auto.
Qed.

Lemma num_tree_pairings_with_ext F G part :
  (forall k, In k part -> F k = G k) ->
  num_tree_pairings_with F part = num_tree_pairings_with G part.
Proof.
  intros H; unfold num_tree_pairings_with.
  apply fold_left_ext_in; intros total g Hg; cbv zeta.
  rewrite H; [reflexivity |].
  apply (group_by_hd part Z.eqb); assumption.
Qed.

Lemma num_shapes_fuel_enough : forall fuel fuel' n,
  (Z.to_nat (n - 1) <= fuel)%nat -> (Z.to_nat (n - 1) <= fuel')%nat ->
  num_shapes_fuel fuel n = num_shapes_fuel fuel' n.
Proof.
  induction fuel as [|fuel IH]; intros fuel' n Hf Hf'.
  - destruct fuel'; simpl; destruct (Z.leb_spec n 1); auto; lia.
  - destruct fuel' as [|fuel']; simpl; destruct (Z.leb_spec n 1); auto; try lia.
    f_equal; apply map_ext_in; intros part Hpart.
    apply num_tree_pairings_with_ext; intros k Hk.
    pose proof (partition_parts n part k Hpart Hk).
    apply IH; lia.
Qed.

Lemma num_shapes_base n : n <= 1 -> num_shapes n = n.
Proof.
  intros H; unfold num_shapes.
  destruct (Z.to_nat n); simpl; destruct (Z.leb_spec n 1); auto; lia.
Qed.

Lemma num_shapes_eq n :
  2 <= n -> num_shapes n = sum (map num_tree_pairings (partition n)).
Proof.
  intros Hn; unfold num_shapes.
  destruct (Z.to_nat n) as [|fuel] eqn:E; [lia |]; simpl.
  destruct (Z.leb_spec n 1); [lia |].
  f_equal; apply map_ext_in; intros part Hpart.
  apply num_tree_pairings_with_ext; intros k Hk.
  pose proof (partition_parts n part k Hpart Hk).
  apply num_shapes_fuel_enough; lia.
Qed.

(** * Induction on trees *)

Lemma RankTree_ind' (P : RankTree -> Prop) :
  (forall cs n ls sr lr, Forall P cs -> P (mkRankTree cs n ls sr lr)) ->
  forall t, P t.
Proof.
  intros H; fix IH 1; intros [cs n ls sr lr].
  apply H; induction cs as [|c cs IHcs]; constructor; [apply IH | exact IHcs].
Qed.

Lemma TskNode_ind' (P : TskNode -> Prop) :
  (forall u kids, Forall P kids -> P (tsk_node u kids)) ->
  forall node, P node.
Proof.
  intros H; fix IH 1; intros [u kids].
  apply H; induction kids as [|c kids IHkids]; constructor; [apply IH | exact IHkids].
Qed.

(** * Which errors the ranking functions raise *)

Lemma safe_Ok {A} (a : A) : safe (Ok a).
Proof. discriminate. Qed.

Lemma safe_Raise {A} e : e <> multiple_roots -> safe (@Raise A e).
Proof. intros H E; injection E; exact H. Qed.

Lemma safe_bind {A B} (c : result A) (f : A -> result B) :
  safe c -> (forall a, c = Ok a -> safe (f a)) -> safe (bind c f).
Proof.
  intros Hc Hf; destruct c as [a | e]; simpl; [apply Hf; reflexivity |].
  intros E; apply Hc; injection E as ->; reflexivity.
Qed.

Ltac safe_tac :=
  repeat match goal with
    | |- safe (Ok _) => apply safe_Ok
    | |- safe (Raise _) => apply safe_Raise; unfold multiple_roots; discriminate
    | |- safe (bind _ _) => apply safe_bind; [| intros ? ?]
    | |- safe (if ?b then _ else _) => destruct b
    | |- safe (match ?x with _ => _ end) => destruct x
    | H : safe ?c |- safe ?c => exact H
    end.

Lemma safe_py_get {A} (l : list A) i : safe (py_get l i).
Proof. unfold py_get; safe_tac. Qed.

Lemma safe_floordiv a b : safe (floordiv a b).
Proof. unfold floordiv; safe_tac. Qed.

Lemma safe_pymod a b : safe (pymod a b).
Proof. unfold pymod; safe_tac. Qed.

Lemma safe_assert b : safe (assert b).
Proof. unfold assert; safe_tac. Qed.

Lemma safe_mapM {A B} (f : A -> result B) l :
  (forall x, In x l -> safe (f x)) -> safe (mapM f l).
Proof.
  induction l as [|x l IH]; intros H; cbn [mapM]; safe_tac.
  - apply H; simpl; auto.
  - apply IH; intros; apply H; simpl; auto.
Qed.

Lemma safe_label_le a b : safe (label_le a b).
Proof. unfold label_le; safe_tac. Qed.

Lemma safe_least heads : safe (least heads).
Proof.
  induction heads as [|h hs IH]; cbn [least]; safe_tac.
  apply safe_label_le.
Qed.

Lemma safe_heapq_merge_fuel fuel : forall ls, safe (heapq_merge_fuel fuel ls).
Proof.
  induction fuel as [|fuel IH]; intros ls; cbn [heapq_merge_fuel]; safe_tac.
  - apply safe_least.
  - apply IH.
Qed.

Lemma safe_heapq_merge ls : safe (heapq_merge ls).
Proof. apply safe_heapq_merge_fuel. Qed.

Lemma safe_RankTree_init sr lr kids lbl : safe (RankTree_init sr lr kids lbl).
Proof.
  unfold RankTree_init; destruct kids; safe_tac; apply safe_heapq_merge.
Qed.

Lemma safe_canonical_order c : safe (canonical_order c).
Proof. unfold canonical_order, min_label; safe_tac; apply safe_py_get. Qed.

Lemma safe_key_lt k1 k2 : safe (key_lt k1 k2).
Proof.
  destruct k1 as [[n1 s1] l1], k2 as [[n2 s2] l2]; unfold key_lt; safe_tac.
Qed.

Lemma safe_insert_by_key kx l : safe (insert_by_key kx l).
Proof.
  induction l as [|ky l IH]; cbn [insert_by_key]; safe_tac; apply safe_key_lt.
Qed.

Lemma safe_sort_by_key l : safe (sort_by_key l).
Proof.
  induction l as [|kx l IH]; cbn [sort_by_key]; safe_tac; apply safe_insert_by_key.
Qed.

Lemma safe_sorted_canonical ts : safe (sorted_canonical ts).
Proof.
  unfold sorted_canonical; safe_tac.
  - apply safe_mapM; intros; apply safe_canonical_order.
  - apply safe_sort_by_key.
Qed.

Lemma safe_from_tsk_tree_node node : safe (from_tsk_tree_node node).
Proof.
  induction node as [u kids IH] using TskNode_ind'.
  cbn [from_tsk_tree_node].
  destruct (len kids =? 0); [apply safe_RankTree_init |].
  apply safe_bind; [| intros cs _].
  - induction IH as [|c kids Hc Hk IHk]; safe_tac.
  - safe_tac; [apply safe_sorted_canonical | apply safe_RankTree_init].
Qed.

Lemma safe_index {A} (eqb : A -> A -> bool) x l : safe (Combination.index eqb x l).
Proof. induction l as [|y l IH]; cbn [Combination.index]; safe_tac. Qed.

Lemma safe_from_range_rank_fuel fuel : forall c n,
  safe (Combination.from_range_rank_fuel fuel c n).
Proof.
  induction fuel as [|fuel IH]; intros c n; cbn [Combination.from_range_rank_fuel]; safe_tac;
    try apply safe_py_get; apply IH.
Qed.

Lemma safe_rank {A} (eqb : A -> A -> bool) c l : safe (Combination.rank eqb c l).
Proof.
  unfold Combination.rank, Combination.from_range_rank; safe_tac.
  - apply safe_mapM; intros; apply safe_index.
  - apply safe_from_range_rank_fuel.
Qed.

Lemma safe_num_assignments_in_group g : safe (num_assignments_in_group g).
Proof. unfold num_assignments_in_group; safe_tac. Qed.

Lemma safe_num_group_labellings_with nl g :
  (forall t, safe (nl t)) -> safe (num_group_labellings_with nl g).
Proof.
  intros H; unfold num_group_labellings_with; safe_tac;
    [apply H | apply safe_num_assignments_in_group].
Qed.

Lemma safe_num_list_of_group_labellings_loop nl groups :
  (forall t, safe (nl t)) ->
  forall r total, safe (num_list_of_group_labellings_loop nl groups r total).
Proof.
  intros H; induction groups as [|g groups IH]; intros r total;
    cbn [num_list_of_group_labellings_loop]; safe_tac.
  - apply safe_num_group_labellings_with; assumption.
  - apply IH.
Qed.

Lemma safe_num_labellings_fuel fuel : forall t, safe (num_labellings_fuel fuel t).
Proof.
  induction fuel as [|fuel IH]; intros t; cbn [num_labellings_fuel]; safe_tac.
  apply safe_num_list_of_group_labellings_loop; assumption.
Qed.

Lemma safe_RankTree_num_labellings t : safe (RankTree_num_labellings t).
Proof. apply safe_num_labellings_fuel. Qed.

Lemma safe_num_group_labellings g : safe (num_group_labellings g).
Proof.
  apply safe_num_group_labellings_with; apply safe_RankTree_num_labellings.
Qed.

Lemma safe_num_list_of_group_labellings groups :
  safe (num_list_of_group_labellings groups).
Proof.
  apply safe_num_list_of_group_labellings_loop; apply safe_RankTree_num_labellings.
Qed.

Lemma safe_label_rank_int t : safe (label_rank_int t).
Proof. unfold label_rank_int; safe_tac. Qed.

Lemma safe_group_rank_loop lg k n y ts : forall i all_labels rank,
  safe (group_rank_loop lg k n y ts i all_labels rank).
Proof.
  induction ts as [|t ts IH]; intros i all_labels rank; cbn [group_rank_loop]; safe_tac.
  - apply safe_rank.
  - apply safe_label_rank_int.
  - apply IH.
Qed.

Lemma safe_group_rank g : safe (group_rank g).
Proof.
  unfold group_rank; safe_tac.
  - apply safe_RankTree_num_labellings.
  - apply safe_heapq_merge.
  - apply safe_group_rank_loop.
Qed.

Lemma safe_add_label_ranks_loop groups : forall all_labels total,
  safe (add_label_ranks_loop groups all_labels total).
Proof.
  induction groups as [|g groups IH]; intros all_labels total;
    cbn [add_label_ranks_loop]; safe_tac.
  - apply safe_heapq_merge.
  - apply safe_num_list_of_group_labellings.
  - apply safe_rank.
  - apply safe_num_group_labellings.
  - apply safe_group_rank.
  - apply IH.
Qed.

Lemma safe_add_label_ranks t : safe (add_label_ranks t).
Proof.
  induction t as [cs n ls sr lr IH] using RankTree_ind'.
  cbn [add_label_ranks].
  apply safe_bind; [| intros cs' _].
  - induction IH as [|c cs Hc Hk IHk]; safe_tac.
  - safe_tac; apply safe_add_label_ranks_loop.
Qed.

Lemma safe_RankTree_label_rank t : safe (RankTree_label_rank t).
Proof.
  unfold RankTree_label_rank; safe_tac;
    [apply safe_add_label_ranks | apply safe_label_rank_int].
Qed.

Lemma safe_RankTree_rank t : safe (RankTree_rank t).
Proof. unfold RankTree_rank; safe_tac; apply safe_RankTree_label_rank. Qed.

Lemma safe_from_tsk_tree tree :
  len (roots tree) = 1 -> safe (from_tsk_tree tree).
Proof.
  intros H; unfold from_tsk_tree; rewrite H; cbn [Z.eqb Pos.eqb negb].
  safe_tac; [apply safe_py_get | apply safe_from_tsk_tree_node |
              apply safe_add_label_ranks].
Qed.

(** * More on [group_by] *)

Lemma grp_head {A} (equal : A -> A -> bool) l : forall c0 c',
  exists g rest, grp equal (c0 :: c') l = (c0 :: g) :: rest.
Proof.
  induction l as [|x l IH]; intros c0 c'.
  - rewrite grp_nil; eauto.
  - rewrite grp_cons; destruct (equal x c0); [apply IH | eauto].
Qed.

Lemma grp_maximal_runs {A} (equal : A -> A -> bool) l : forall c0 c',
  Forall (fun x => equal x c0 = true) c' ->
  maximal_runs equal (grp equal (c0 :: c') l).
Proof.
  induction l as [|x l IH]; intros c0 c' Hc.
  - rewrite grp_nil; simpl; auto.
  - rewrite grp_cons; destruct (equal x c0) eqn:E.
    + apply (IH c0 (c' ++ [x])).
      apply Forall_app; split; [assumption | repeat constructor; assumption].
    + destruct (grp_head equal l x []) as (g & rest & Hg).
      pose proof (IH x [] (Forall_nil _)) as IHx.
      rewrite Hg in *.
      split; [split; assumption | exact IHx].
Qed.

Lemma group_by_maximal_runs {A} (l : list A) equal :
  maximal_runs equal (group_by l equal).
Proof.
  rewrite group_by_grp; destruct l as [|x l]; [exact I |].
  rewrite grp_start; apply grp_maximal_runs; constructor.
Qed.

(** * [set_minus] *)

Section SetMinus.
Context {A : Type} (eqb : A -> A -> bool).
Hypothesis eqb_eq : forall x y, eqb x y = true <-> x = y.

Lemma eqb_dec (x y : A) : {x = y} + {x <> y}.
Proof.
  destruct (eqb x y) eqn:E; [left; apply eqb_eq; assumption |].
  right; intros ->; rewrite (proj2 (eqb_eq y y) eq_refl) in E; discriminate.
Qed.

Lemma existsb_eqb_In x l : existsb (eqb x) l = true <-> In x l.
Proof.
  rewrite existsb_exists; split.
  - intros (y & Hy & E); apply eqb_eq in E; subst; assumption.
  - intros H; exists x; split; [assumption | apply eqb_eq; reflexivity].
Qed.

Lemma set_minus_In arr subset x :
  In x (set_minus eqb arr subset) <-> In x arr /\ ~ In x subset.
Proof.
  unfold set_minus; rewrite filter_In, negb_true_iff, <- not_true_iff_false.
  rewrite (existsb_eqb_In x subset); reflexivity.
Qed.

Lemma set_minus_subseq arr subset : subseq (set_minus eqb arr subset) arr.
Proof.
  unfold set_minus; induction arr as [|a arr IH]; simpl; [constructor |].
  destruct (negb (existsb (eqb a) subset)); constructor; assumption.
Qed.

Lemma set_minus_NoDup arr subset : NoDup arr -> NoDup (set_minus eqb arr subset).
Proof. apply NoDup_filter. Qed.

Lemma set_minus_nil_r arr : set_minus eqb arr [] = arr.
Proof.
  unfold set_minus; induction arr as [|a arr IH]; simpl; [| f_equal; exact IH];
    reflexivity.
Qed.

(** Removing a duplicate-free part of a list shortens it by the length of
    the part. *)
Lemma set_minus_length arr subset :
  NoDup subset -> incl subset arr -> NoDup arr ->
  len (set_minus eqb arr subset) = len arr - len subset.
Proof.
  intros Hs Hi Ha.
  assert (P : Permutation arr (subset ++ set_minus eqb arr subset)).
  { apply NoDup_Permutation; [assumption | |].
    - apply NoDup_app; [assumption | apply set_minus_NoDup; assumption |].
      intros x Hx Hx'; apply set_minus_In in Hx'; tauto.
    - intros x; rewrite in_app_iff, set_minus_In; split.
      + intros Hx; destruct (in_dec eqb_dec x subset) as [? | ?]; auto.
      + intros [Hx | [Hx _]]; auto. }
  apply Permutation_length in P; rewrite length_app in P.
  unfold len; lia.
Qed.

(** Every occurrence of an element that is not in [subset] is kept: a
    subsequence of [arr] without elements of [subset] is a subsequence of
    the result. *)
Lemma set_minus_maximal arr subset r :
  subseq r arr -> (forall x, In x r -> ~ In x subset) ->
  subseq r (set_minus eqb arr subset).
Proof.
  unfold set_minus; induction 1 as [|r e l H IH|r e l H IH]; intros Hr.
  - constructor.
  - cbn [filter]; destruct (negb (existsb (eqb e) subset));
      [apply subseq_skip |]; apply IH; exact Hr.
  - cbn [filter].
    assert (E : existsb (eqb e) subset = false).
    { apply not_true_iff_false; rewrite existsb_eqb_In.
      apply Hr; simpl; auto. }
    rewrite E; cbn [negb]; apply subseq_take, IH.
    intros x Hx; apply Hr; simpl; auto.
Qed.

End SetMinus.

Lemma subseq_length_le {A} (x l : list A) : subseq x l -> (length x <= length l)%nat.
Proof. induction 1; simpl; lia. Qed.

Lemma subseq_same_length {A} (x l : list A) :
  subseq x l -> length x = length l -> x = l.
Proof.
  induction 1 as [|x e l H IH|x e l H IH]; intros Hl; [reflexivity | |].
  - apply subseq_length_le in H; simpl in Hl; lia.
  - f_equal; apply IH; simpl in Hl; lia.
Qed.

Lemma subseq_antisym {A} (x l : list A) : subseq x l -> subseq l x -> x = l.
Proof.
  intros H1 H2; apply subseq_same_length; [exact H1 |].
  apply subseq_length_le in H1, H2; lia.
Qed.

(** * [Combination.rank] and elements that are missing *)

Section Index.
Context {A : Type} (eqb : A -> A -> bool).
Hypothesis eqb_eq : forall x y, eqb x y = true <-> x = y.

Lemma index_In x E : In x E -> exists i, Combination.index eqb x E = Ok i.
Proof.
  induction E as [|y E IH]; intros H; [destruct H |]; simpl.
  destruct (eqb y x) eqn:Eq; [eauto |].
  destruct H as [-> | H]; [rewrite (proj2 (eqb_eq x x) eq_refl) in Eq; discriminate |].
  destruct (IH H) as [i ->]; simpl; eauto.
Qed.

Lemma index_not_In x E :
  ~ In x E -> Combination.index eqb x E = Raise (ValueError "x is not in list").
Proof.
  induction E as [|y E IH]; intros H; simpl; [reflexivity |].
  destruct (eqb y x) eqn:Eq.
  - apply eqb_eq in Eq; subst; exfalso; apply H; simpl; auto.
  - rewrite IH by (intros H'; apply H; simpl; auto); reflexivity.
Qed.

Lemma mapM_index_missing c E :
  ~ incl c E ->
  mapM (fun x => Combination.index eqb x E) c = Raise (ValueError "x is not in list").
Proof.
  induction c as [|x c IH]; intros H; [exfalso; apply H; intros ? [] |].
  cbn [mapM].
  destruct (in_dec (eqb_dec eqb eqb_eq) x E) as [Hin | Hout].
  - destruct (index_In x E Hin) as [i ->]; cbn [bind].
    rewrite IH; [reflexivity |].
    intros Hc; apply H; intros y [<- | Hy]; auto.
  - rewrite index_not_In by assumption; reflexivity.
Qed.

Lemma mapM_index_present c E :
  incl c E -> exists l, mapM (fun x => Combination.index eqb x E) c = Ok l.
Proof.
  induction c as [|x c IH]; intros H; [exists []; reflexivity |].
  cbn [mapM].
  destruct (index_In x E (H x (or_introl eq_refl))) as [i ->]; cbn [bind].
  destruct (IH (fun y Hy => H y (or_intror Hy))) as [l ->]; cbn [bind]; eauto.
Qed.

End Index.

Lemma from_range_rank_fuel_no_ValueError fuel : forall c n msg,
  Combination.from_range_rank_fuel fuel c n <> Raise (ValueError msg).
Proof.
  induction fuel as [|fuel IH]; intros c n msg; cbn [Combination.from_range_rank_fuel];
    [discriminate |].
  destruct ((len c =? 0) || (len c =? n)); [discriminate |].
  unfold py_get; cbv zeta.
  destruct (0 <? 0); destruct (_ <? 0); try discriminate;
    destruct (nth_error c _); cbn [bind]; try discriminate;
    (destruct (_ =? 0); [apply IH |]);
    (destruct (Combination.from_range_rank_fuel fuel _ _) eqn:E; cbn [bind];
     [discriminate | intros H; injection H as ->; exact (IH _ _ _ E)]).
Qed.

(** * Positive counts *)

Lemma fold_left_mul_pos {A} (f : A -> Z) l :
  (forall x, In x l -> 0 < f x) ->
  forall a, 0 < a -> 0 < fold_left (fun total x => total * f x) l a.
Proof.
  induction l as [|x l IH]; intros H a Ha; simpl; [assumption |].
  apply IH; [intros; apply H; simpl; auto |].
  apply Z.mul_pos_pos; [assumption | apply H; simpl; auto].
Qed.

Lemma num_tree_pairings_with_pos F part : 0 < num_tree_pairings_with F part.
Proof.
  unfold num_tree_pairings_with.
  apply (fold_left_mul_pos
           (fun g => Combination.comb_with_replacement (F (hd 0 g)) (len g)));
    [| lia].
  intros; apply comb_with_replacement_pos.
Qed.

Lemma num_tree_pairings_pos part : 0 < num_tree_pairings part.
Proof. apply num_tree_pairings_with_pos. Qed.

Lemma sum_map_pos {A} (f : A -> Z) l :
  (forall x, In x l -> 0 < f x) -> l <> [] -> 0 < sum (map f l).
Proof.
  induction l as [|x l IH]; intros H Hne; [congruence |].
  cbn [map]; rewrite sum_cons.
  pose proof (H x (or_introl eq_refl)).
  destruct l as [|y l]; [change (sum (map f [])) with 0; lia |].
  assert (0 < sum (map f (y :: l))); [| lia].
  apply IH; [intros; apply H; simpl; auto | discriminate].
Qed.

Lemma sum_map_nonneg {A} (f : A -> Z) l :
  (forall x, In x l -> 0 <= f x) -> 0 <= sum (map f l).
Proof.
  induction l as [|x l IH]; intros H; [change (sum (map f [])) with 0; lia |].
  cbn [map]; rewrite sum_cons.
  pose proof (H x (or_introl eq_refl)).
  assert (0 <= sum (map f l)); [| lia].
  apply IH; intros; apply H; simpl; auto.
Qed.

Lemma partition_nonempty n : 2 <= n -> partition n <> [].
Proof.
  intros Hn E.
  assert (H : In [1; n - 1] (partition n)).
  { apply partition_In; simpl; repeat split; try lia.
    rewrite !sum_cons, sum_nil; lia. }
  rewrite E in H; destruct H.
Qed.

Lemma num_shapes_pos n : 1 <= n -> 0 < num_shapes n.
Proof.
  intros Hn; destruct (Z.eq_dec n 1) as [-> | Hne]; [reflexivity |].
  rewrite num_shapes_eq by lia.
  apply sum_map_pos; [intros; apply num_tree_pairings_pos |].
  apply partition_nonempty; lia.
Qed.

(** * [shape_equal] *)

Lemma shape_equal_eq t other :
  shape_equal t other =
  if is_leaf t && is_leaf other then true
  else if negb (len (children t) =? len (children other)) then false
  else all_shape_equal (children t) (children other).
Proof. destruct t; reflexivity. Qed.

Lemma is_leaf_nil t : is_leaf t = true <-> children t = [].
Proof.
  unfold is_leaf; split.
  - intros H; apply Z.eqb_eq in H; apply len_zero_inv; assumption.
  - intros ->; reflexivity.
Qed.

Lemma all_shape_equal_refl cs :
  Forall (fun c => shape_equal c c = true) cs -> all_shape_equal cs cs = true.
Proof.
  induction 1 as [|c cs Hc Hcs IH]; simpl; [reflexivity |].
  rewrite Hc; assumption.
Qed.

Lemma shape_equal_refl t : shape_equal t t = true.
Proof.
  induction t as [cs n ls sr lr IH] using RankTree_ind'.
  rewrite shape_equal_eq; cbn [children].
  destruct (is_leaf _ && is_leaf _); [reflexivity |].
  rewrite Z.eqb_refl; cbn [negb].
  apply all_shape_equal_refl; assumption.
Qed.

Lemma all_shape_equal_sym cs : forall os,
  Forall (fun c => forall o, shape_equal c o = shape_equal o c) cs ->
  all_shape_equal cs os = all_shape_equal os cs.
Proof.
  induction cs as [|c cs IH]; intros [|o os] H; simpl; try reflexivity.
  inversion H as [|? ? Hc Hcs]; subst.
  rewrite Hc, (IH os Hcs); reflexivity.
Qed.

Lemma shape_equal_sym t : forall other, shape_equal t other = shape_equal other t.
Proof.
  induction t as [cs n ls sr lr IH] using RankTree_ind'; intros other.
  rewrite (shape_equal_eq (mkRankTree cs n ls sr lr)), (shape_equal_eq other).
  cbn [children].
  rewrite (andb_comm (is_leaf other)), (Z.eqb_sym (len (children other))).
  rewrite (all_shape_equal_sym cs (children other) IH); reflexivity.
Qed.

(** * Grouping a concatenation of runs *)

Lemma maximal_runs_tail {A} (equal : A -> A -> bool) g gs :
  maximal_runs equal (g :: gs) -> maximal_runs equal gs.
Proof. cbn [maximal_runs]; tauto. Qed.

Lemma grp_runs {A} (equal : A -> A -> bool) : forall rest c0 c'' done,
  maximal_runs equal ((c0 :: c'') :: rest) ->
  grp equal (c0 :: done) (c'' ++ concat rest) = (c0 :: done ++ c'') :: rest.
Proof.
  induction rest as [|g rest IH]; intros c0 c''.
  - induction c'' as [|x c'' IHc]; intros done H.
    + simpl; rewrite grp_nil, app_nil_r; reflexivity.
    + destruct H as [[Hf _] _]; inversion Hf as [|? ? Hx Hf']; subst.
      cbn [app]; rewrite grp_cons, Hx.
      change (c0 :: done) with ([c0] ++ done).
      rewrite <- app_assoc; cbn [app].
      rewrite (IHc (done ++ [x])) by (cbn [maximal_runs]; auto).
      rewrite <- app_assoc; reflexivity.
  - induction c'' as [|x c'' IHc]; intros done H.
    + destruct H as [[_ Hh] Hr].
      destruct g as [|y g]; [destruct Hr as [[] _] |].
      cbn [app concat]; rewrite grp_cons, Hh, app_nil_r.
      f_equal; rewrite (IH y g []) by exact Hr; reflexivity.
    + destruct H as [[Hf Hh] Hr]; inversion Hf as [|? ? Hx Hf']; subst.
      cbn [app]; rewrite grp_cons, Hx.
      change (c0 :: done) with ([c0] ++ done).
      rewrite <- app_assoc; cbn [app].
      rewrite (IHc (done ++ [x])) by (cbn [maximal_runs]; auto).
      rewrite <- app_assoc; reflexivity.
Qed.

(** Maximal runs are the groups of their concatenation. *)
Lemma group_by_of_runs {A} (equal : A -> A -> bool) gs :
  maximal_runs equal gs -> group_by (concat gs) equal = gs.
Proof.
  intros H; rewrite group_by_grp.
  destruct gs as [|g gs]; [reflexivity |].
  destruct g as [|c0 c'']; [destruct H as [[] _] |].
  cbn [concat app]; rewrite grp_start.
  rewrite (grp_runs equal gs c0 c'' []) by exact H; reflexivity.
Qed.

(** The groups of the rest of a list after its first group are the other
    groups. *)
Lemma group_by_skip_first {A} (equal : A -> A -> bool) l g gs :
  group_by l equal = g :: gs ->
  l = g ++ concat gs /\ group_by (concat gs) equal = gs.
Proof.
  intros H.
  pose proof (group_by_concat l equal) as Hc.
  pose proof (group_by_maximal_runs l equal) as Hm.
  rewrite H in Hc, Hm; split; [symmetry; exact Hc |].
  apply group_by_of_runs; eapply maximal_runs_tail; exact Hm.
Qed.

(** Grouping commutes with a map that the predicate factors through. *)
Lemma grp_map {A B} (f : A -> B) (equal : B -> B -> bool) l : forall c,
  grp equal (map f c) (map f l) =
  map (map f) (grp (fun a b => equal (f a) (f b)) c l).
Proof.
  induction l as [|x l IH]; intros c.
  - cbn [map]; rewrite !grp_nil; destruct c; reflexivity.
  - destruct c as [|c0 c'].
    + cbn [map]; rewrite !grp_start; apply (IH [x]).
    + cbn [map]; rewrite !grp_cons.
      destruct (equal (f x) (f c0)).
      * rewrite <- (IH ((c0 :: c') ++ [x])), map_app; reflexivity.
      * cbn [map]; f_equal; apply (IH [x]).
Qed.

Lemma group_by_map {A B} (f : A -> B) (equal : B -> B -> bool) l :
  group_by (map f l) equal =
  map (map f) (group_by l (fun a b => equal (f a) (f b))).
Proof. rewrite !group_by_grp; apply (grp_map f equal l []). Qed.

Lemma group_partition_leaf_partition cs :
  group_partition (map num_leaves cs) =
  map (map num_leaves) (group_by cs same_num_leaves).
Proof. unfold group_partition; apply (group_by_map num_leaves Z.eqb cs). Qed.

(** All the elements of a group are related to its first. *)
Lemma maximal_runs_In {A} (equal : A -> A -> bool) gs g c0 c' x :
  maximal_runs equal gs -> In g gs -> g = c0 :: c' -> In x c' -> equal x c0 = true.
Proof.
  induction gs as [|g' gs IH]; intros H Hg E Hx; [destruct Hg |].
  destruct Hg as [-> | Hg].
  - subst g; destruct H as [[Hf _] _].
    rewrite Forall_forall in Hf; auto.
  - apply IH; auto; eapply maximal_runs_tail; exact H.
Qed.

(** * Merging the labels of unlabelled trees *)

Lemma least_all_None hs :
  hs <> [] -> Forall (eq None) hs -> least hs = Ok O.
Proof.
  induction hs as [|h hs IH]; intros Hne H; [congruence |].
  cbn [least]; destruct hs as [|h' hs]; [reflexivity |].
  inversion H as [|? ? Hh Hhs]; subst.
  rewrite IH by (discriminate || assumption); cbn [bind nth].
  inversion Hhs; subst; reflexivity.
Qed.

Lemma filter_nonnil_concat {A} (ls : list (list A)) :
  concat (filter (fun l => negb (is_nil l)) ls) = concat ls.
Proof.
  induction ls as [|l ls IH]; [reflexivity |].
  cbn [filter]; destruct l as [|x l]; cbn [is_nil negb concat]; [exact IH |].
  rewrite IH; reflexivity.
Qed.

Lemma Forall_None_repeat (l : list label) :
  Forall (eq None) l -> l = repeat None (length l).
Proof.
  induction 1 as [|x l Hx Hl IH]; [reflexivity |].
  subst; cbn [length repeat]; f_equal; exact IH.
Qed.

Lemma heapq_merge_fuel_None : forall fuel ls,
  Forall (Forall (eq None)) ls ->
  (length (concat ls) < fuel)%nat ->
  heapq_merge_fuel fuel ls = Ok (repeat None (length (concat ls))).
Proof.
  induction fuel as [|fuel IH]; intros ls H Hf; [lia |].
  cbn [heapq_merge_fuel]; cbv zeta.
  rewrite <- (filter_nonnil_concat ls) in *.
  assert (H' : Forall (Forall (eq None)) (filter (fun l => negb (is_nil l)) ls)).
  { rewrite Forall_forall in *; intros l Hl; apply filter_In in Hl; apply H, Hl. }
  assert (Hn : Forall (fun l => l <> []) (filter (fun l : list label => negb (is_nil l)) ls)).
  { rewrite Forall_forall; intros l Hl; apply filter_In in Hl.
    destruct Hl as [_ Hl]; destruct l; [discriminate | discriminate]. }
  change (filter (fun l : list (option Z) => negb (is_nil l)) ls)
    with (filter (fun l : list label => negb (is_nil l)) ls) in *.
  generalize dependent (filter (fun l : list label => negb (is_nil l)) ls).
  clear H; intros ls' Hf H' Hn.
  destruct ls' as [|l1 [|l2 rest]]; [reflexivity | |].
  - cbn [concat]; rewrite app_nil_r.
    inversion H'; subst; f_equal; apply Forall_None_repeat; assumption.
  - rewrite least_all_None; [| discriminate |].
    + cbn [bind nth update].
      inversion Hn as [|? ? Hl1 _]; subst.
      destruct l1 as [|x l1]; [congruence |].
      inversion H' as [|? ? Hx Hrest]; subst.
      inversion Hx as [|? ? Hx0 Hx1]; subst.
      cbn [tl hd]; rewrite IH.
      * cbn [bind concat length app repeat]; reflexivity.
      * constructor; assumption.
      * cbn [concat length app] in *; lia.
    + rewrite Forall_forall; intros h Hh; apply in_map_iff in Hh.
      destruct Hh as (l & <- & Hl).
      rewrite Forall_forall in H'; specialize (H' l Hl).
      destruct l as [|y l]; [reflexivity |].
      inversion H'; subst; reflexivity.
Qed.

Lemma heapq_merge_None ls :
  Forall (Forall (eq None)) ls ->
  heapq_merge ls = Ok (repeat None (length (concat ls))).
Proof.
  intros H; unfold heapq_merge; apply heapq_merge_fuel_None; [exact H |].
  rewrite Nat.add_1_r; apply Nat.lt_succ_diag_r.
Qed.

(** * The partition of a shape rank *)

Lemma find_part_ok : forall parts rank acc,
  acc <= rank < acc + sum (map num_tree_pairings parts) ->
  exists part l1 l2,
    find_part parts rank acc = (Some part, acc + sum (map num_tree_pairings l1)) /\
    parts = l1 ++ part :: l2 /\
    acc + sum (map num_tree_pairings l1) <= rank
      < acc + sum (map num_tree_pairings l1) + num_tree_pairings part.
Proof.
  induction parts as [|p parts IH]; intros rank acc H.
  - change (sum (map num_tree_pairings [])) with 0 in H; lia.
  - cbn [find_part map] in *; rewrite sum_cons in H.
    destruct (Z.ltb_spec rank (acc + num_tree_pairings p)) as [Hlt | Hge].
    + exists p, [], parts; change (sum (map num_tree_pairings [])) with 0.
      rewrite Z.add_0_r; repeat split; lia.
    + destruct (IH rank (acc + num_tree_pairings p) ltac:(lia))
        as (part & l1 & l2 & Hf & -> & Hb).
      exists part, (p :: l1), l2; cbn [map]; rewrite sum_cons.
      rewrite Z.add_assoc; repeat split; try lia; exact Hf.
Qed.

Lemma prior_pairings_app part l1 l2 :
  ~ In part l1 ->
  prior_pairings part (l1 ++ part :: l2) = sum (map num_tree_pairings l1).
Proof.
  induction l1 as [|p l1 IH]; intros H; cbn [app prior_pairings map].
  - destruct (list_eq_dec Z.eq_dec part part); [reflexivity | congruence].
  - destruct (list_eq_dec Z.eq_dec p part) as [-> | _];
      [exfalso; apply H; simpl; auto |].
    rewrite sum_cons, IH; [reflexivity |].
    intros Hin; apply H; simpl; auto.
Qed.

(** * The pairings of a partition, group by group *)

Lemma fold_left_mul_factor {A} (f : A -> Z) l : forall a b,
  fold_left (fun total g => total * f g) l (a * b) =
  a * fold_left (fun total g => total * f g) l b.
Proof.
  induction l as [|x l IH]; intros a b; cbn [fold_left]; [reflexivity |].
  rewrite <- Z.mul_assoc; apply IH.
Qed.

Lemma num_tree_pairings_runs g gs :
  maximal_runs Z.eqb (g :: gs) ->
  num_tree_pairings (g ++ concat gs) =
  Combination.comb_with_replacement (num_shapes (hd 0 g)) (len g) *
  num_tree_pairings (concat gs).
Proof.
  intros H; unfold num_tree_pairings, num_tree_pairings_with, group_partition.
  change (g ++ concat gs) with (concat (g :: gs)).
  rewrite (group_by_of_runs Z.eqb (g :: gs) H).
  rewrite (group_by_of_runs Z.eqb gs (maximal_runs_tail _ _ _ H)).
  cbn [fold_left]; cbv zeta.
  rewrite Z.mul_comm, fold_left_mul_factor; reflexivity.
Qed.

Lemma num_tree_pairings_nil : num_tree_pairings [] = 1.
Proof. reflexivity. Qed.

Lemma slice_from_app {A} (l1 l2 : list A) : slice_from (len l1) (l1 ++ l2) = l2.
Proof.
  unfold slice_from, len; rewrite Nat2Z.id.
  rewrite skipn_app, skipn_all, Nat.sub_diag; reflexivity.
Qed.

Lemma first_num_leaves cg : num_leaves (first cg) = hd 0 (map num_leaves cg).
Proof. destruct cg; reflexivity. Qed.

(** * The second loop of [children_shape_ranks] *)

Lemma children_shape_ranks_loop_ok : forall gs pre rank acc,
  maximal_runs Z.eqb gs ->
  (forall g, In g gs -> 1 <= hd 0 g) ->
  0 <= rank < num_tree_pairings (concat gs) ->
  exists rss,
    children_shape_ranks_loop (pre ++ concat gs) gs rank (len pre) acc
      = Ok (acc ++ concat rss) /\
    Forall2 (fun g rg => length rg = length g /\
                         nondecreasing 0 (num_shapes (hd 0 g)) rg) gs rss /\
    forall cgs total,
      map (map num_leaves) cgs = gs ->
      map (map _shape_rank) cgs = rss ->
      shape_rank_groups (pre ++ concat gs) cgs (len pre) total = total + rank.
Proof.
  induction gs as [|g gs IH]; intros pre rank acc Hm Hk Hr.
  - exists []; cbn [children_shape_ranks_loop concat].
    rewrite !app_nil_r; split; [reflexivity | split; [constructor |]].
    intros cgs total Hc _; destruct cgs; [| discriminate].
    cbn [shape_rank_groups]; cbn [concat] in Hr; rewrite num_tree_pairings_nil in Hr; lia.
  - cbn [children_shape_ranks_loop]; cbv zeta.
    cbn [concat] in *.
    rewrite (num_tree_pairings_runs g gs Hm) in Hr.
    assert (Hs : slice_from (len pre + len g) (pre ++ g ++ concat gs) = concat gs).
    { rewrite <- len_app, app_assoc; apply slice_from_app. }
    rewrite Hs.
    pose proof (num_tree_pairings_pos (concat gs)) as Hpos.
    set (rest := num_tree_pairings (concat gs)) in *.
    set (k := hd 0 g) in *.
    unfold floordiv, pymod.
    destruct (Z.eqb_spec rest 0) as [E | _]; [lia |].
    cbn [bind].
    assert (Hk1 : 1 <= k) by (apply Hk; simpl; auto).
    pose proof (num_shapes_pos k Hk1) as HS.
    assert (Hq : 0 <= rank / rest <
                 Combination.comb_with_replacement (num_shapes k) (len g)).
    { split; [apply Z.div_pos; lia |].
      apply Z.div_lt_upper_bound; [lia |].
      rewrite Z.mul_comm; lia. }
    destruct (with_replacement_rank_unrank (length g) (num_shapes k) (rank / rest)
                (Z.to_nat (len g) + 1) ltac:(lia) Hq ltac:(unfold len; lia))
      as (c & Hu & Hnd & Hlen & Hrk).
    unfold Combination.with_replacement_unrank.
    change (Z.of_nat (length g)) with (len g) in Hu.
    rewrite Hu; cbn [bind].
    pose proof (Z.mod_pos_bound rank rest Hpos) as Hmod.
    destruct (IH (pre ++ g) (rank mod rest) (acc ++ c)
                (maximal_runs_tail _ _ _ Hm)
                (fun g' Hg' => Hk g' (or_intror Hg')) Hmod)
      as (rss & Hl & HF & Hrt).
    exists (c :: rss).
    rewrite len_app, <- app_assoc in Hl; rewrite Hl.
    cbn [concat]; rewrite <- app_assoc.
    split; [reflexivity | split; [constructor; [split |]; assumption |]].
    intros cgs total Hc Hs'.
    destruct cgs as [|cg cgs]; [discriminate |].
    cbn [map] in Hc, Hs'; injection Hc as Hg Hgs; injection Hs' as Hcg Hrss.
    cbn [shape_rank_groups]; cbv zeta.
    rewrite first_num_leaves, Hg, Hcg.
    replace (len cg) with (len g) by (rewrite <- Hg, len_map; reflexivity).
    rewrite Hs.
    fold k; fold rest.
    unfold Combination.with_replacement_rank, Combination.with_replacement_rank_checked.
    rewrite (Hrk (length c + 1)%nat) by lia; cbn [value].
    specialize (Hrt cgs (total + rank / rest * rest) Hgs Hrss).
    rewrite len_app, <- app_assoc in Hrt; rewrite Hrt.
    pose proof (Z_div_mod_eq_full rank rest); lia.
Qed.

(** * [children_shape_ranks] on the ranks of [n] leaves *)

Lemma children_shape_ranks_ok n r :
  2 <= n -> 0 <= r < num_shapes n ->
  exists part rss,
    children_shape_ranks r n = Ok (part, concat rss) /\
    In part (partition n) /\
    Forall2 (fun g rg => length rg = length g /\
                         nondecreasing 0 (num_shapes (hd 0 g)) rg)
            (group_partition part) rss /\
    forall cgs,
      map (map num_leaves) cgs = group_partition part ->
      map (map _shape_rank) cgs = rss ->
      shape_rank_groups part cgs 0 (prior_pairings part (partition n)) = r.
Proof.
  intros Hn Hr; unfold children_shape_ranks.
  destruct (Z.ltb_spec 1 n) as [_ | ?]; [| lia].
  destruct (Z.leb_spec 0 r) as [_ | ?]; [| lia].
  destruct (Z.ltb_spec r (num_shapes n)) as [_ | ?]; [| lia].
  cbn [assert andb bind].
  rewrite num_shapes_eq in Hr by lia.
  destruct (find_part_ok (partition n) r 0 ltac:(lia))
    as (part & l1 & l2 & Hf & Hp & Hb).
  rewrite Hf.
  assert (Hin : In part (partition n))
    by (rewrite Hp; apply in_or_app; right; simpl; auto).
  assert (Hprior : prior_pairings part (partition n) = sum (map num_tree_pairings l1)).
  { rewrite Hp; apply prior_pairings_app.
    pose proof (partition_NoDup n) as Hnd; rewrite Hp in Hnd.
    apply NoDup_remove_2 in Hnd; intros H; apply Hnd, in_or_app; auto. }
  pose proof (group_by_concat part Z.eqb) as Hc.
  fold (group_partition part) in Hc.
  destruct (children_shape_ranks_loop_ok (group_partition part) []
              (r - (0 + sum (map num_tree_pairings l1))) [])
    as (rss & Hl & HF & Hrt).
  - apply group_by_maximal_runs.
  - intros g Hg.
    pose proof (group_by_hd part Z.eqb g 0 Hg) as Hh.
    pose proof (partition_parts n part _ Hin Hh); lia.
  - rewrite Hc; lia.
  - cbn [app] in Hl, Hrt; rewrite Hc in Hl, Hrt.
    change (len (@nil Z)) with 0 in Hl, Hrt.
    rewrite Hl; cbn [bind app].
    exists part, rss; repeat split; try assumption.
    intros cgs H1 H2; rewrite (Hrt cgs _ H1 H2), Hprior; lia.
Qed.

(** * Lists *)

Lemma Forall2_exists {A B} (Q : A -> B -> Prop) l :
  (forall x, In x l -> exists y, Q x y) -> exists ys, Forall2 Q l ys.
Proof.
  induction l as [|x l IH]; intros H; [exists []; constructor |].
  destruct (H x (or_introl eq_refl)) as [y Hy].
  destruct (IH (fun x' Hx' => H x' (or_intror Hx'))) as [ys Hys].
  exists (y :: ys); constructor; assumption.
Qed.

Lemma mapM_Forall2 {A B} (f : A -> result B) l ys :
  Forall2 (fun x y => f x = Ok y) l ys -> mapM f l = Ok ys.
Proof.
  induction 1 as [|x y l ys Hx H IH]; [reflexivity |].
  cbn [mapM]; rewrite Hx, IH; reflexivity.
Qed.

Lemma Forall2_impl {A B} (P Q : A -> B -> Prop) l ys :
  (forall x y, P x y -> Q x y) -> Forall2 P l ys -> Forall2 Q l ys.
Proof. intros H; induction 1; constructor; auto. Qed.

Lemma concat_inj_lengths {A} (xs : list (list A)) : forall ys,
  Forall2 (fun a b => length a = length b) xs ys ->
  concat xs = concat ys -> xs = ys.
Proof.
  induction xs as [|x xs IH]; intros ys H E; inversion H as [|? y ? ys' Hl H']; subst;
    [reflexivity |].
  cbn [concat] in E.
  apply app_eq_app in E.
  destruct E as (l & [[E1 E2] | [E1 E2]]).
  - assert (l = []) by (destruct l; [reflexivity |];
      rewrite E1, length_app in Hl; simpl in Hl; lia).
    subst l; rewrite app_nil_r in E1; cbn [app] in E2; subst.
    f_equal; apply IH; [assumption | congruence].
  - assert (l = []) by (destruct l; [reflexivity |];
      rewrite E1, length_app in Hl; simpl in Hl; lia).
    subst l; rewrite app_nil_r in E1; cbn [app] in E2; subst.
    f_equal; apply IH; [assumption | congruence].
Qed.

Lemma map_fst_combine' {A B} (l1 : list A) : forall (l2 : list B),
  length l1 = length l2 -> map fst (combine l1 l2) = l1.
Proof.
  induction l1 as [|a l1 IH]; intros [|b l2] H; simpl in *; try lia; [reflexivity |].
  f_equal; apply IH; lia.
Qed.

Lemma map_snd_combine' {A B} (l1 : list A) : forall (l2 : list B),
  length l1 = length l2 -> map snd (combine l1 l2) = l2.
Proof.
  induction l1 as [|a l1 IH]; intros [|b l2] H; simpl in *; try lia; [reflexivity |].
  f_equal; apply IH; lia.
Qed.

Lemma Forall2_concat_length {A B} (gs : list (list A)) (rss : list (list B)) :
  Forall2 (fun g rg => length rg = length g) gs rss ->
  length (concat rss) = length (concat gs).
Proof.
  induction 1 as [|g rg gs rss H _ IH]; [reflexivity |].
  cbn [concat]; rewrite !length_app; lia.
Qed.

Lemma unlabelled_merge kids :
  Forall (fun c => labels c = repeat None (Z.to_nat (num_leaves c)) /\
                   0 <= num_leaves c) kids ->
  heapq_merge (map labels kids) =
    Ok (repeat None (Z.to_nat (sum (map num_leaves kids)))) /\
  0 <= sum (map num_leaves kids).
Proof.
  intros H.
  assert (G : length (concat (map labels kids)) = Z.to_nat (sum (map num_leaves kids))
              /\ 0 <= sum (map num_leaves kids)).
  { induction H as [|c kids [Hc Hn] _ [IH1 IH2]]; [split; [reflexivity | change (sum (map num_leaves [])) with 0; lia] |].
    cbn [map concat]; rewrite length_app, sum_cons, IH1, Hc, repeat_length; lia. }
  destruct G as [G1 G2]; split; [| exact G2].
  rewrite heapq_merge_None; [f_equal; f_equal; exact G1 |].
  rewrite Forall_forall in *; intros l Hl; apply in_map_iff in Hl.
  destruct Hl as (c & <- & Hc); destruct (H c Hc) as [-> _].
  rewrite Forall_forall; intros x Hx; apply repeat_spec in Hx; congruence.
Qed.

Lemma combine_app' {A B} (l1 : list A) : forall (l2 : list B) l1' l2',
  length l1 = length l2 ->
  combine (l1 ++ l1') (l2 ++ l2') = combine l1 l2 ++ combine l1' l2'.
Proof.
  induction l1 as [|a l1 IH]; intros [|b l2] l1' l2' H; simpl in *; try lia;
    [reflexivity |].
  f_equal; apply IH; lia.
Qed.

Lemma In_combine_groups {A B} (P : list A -> list B -> Prop) gs rss :
  Forall2 (fun g rg => length rg = length g /\ P g rg) gs rss ->
  forall rk k, In (rk, k) (combine (concat rss) (concat gs)) ->
  exists g rg, In g gs /\ P g rg /\ In rk rg /\ In k g.
Proof.
  induction 1 as [|g rg gs rss [Hl HP] _ IH]; intros rk k Hin; [destruct Hin |].
  cbn [concat] in Hin; rewrite combine_app' in Hin by assumption.
  apply in_app_or in Hin; destruct Hin as [Hin | Hin].
  - exists g, rg; repeat split; [simpl; auto | assumption | |].
    + eapply in_combine_l; exact Hin.
    + eapply in_combine_r; exact Hin.
  - destruct (IH rk k Hin) as (g' & rg' & Hg & HP' & H1 & H2).
    exists g', rg'; repeat split; simpl; auto.
Qed.

Lemma nondecreasing_In hi c : forall lo x,
  nondecreasing lo hi c -> In x c -> lo <= x < hi.
Proof.
  induction c as [|y c IH]; intros lo x H Hin; [destruct Hin |].
  destruct H as [Hy Hc]; destruct Hin as [-> | Hin]; [assumption |].
  specialize (IH y x Hc Hin); lia.
Qed.

Lemma group_partition_In part g k :
  In g (group_partition part) -> In k g -> k = hd 0 g.
Proof.
  intros Hg Hk.
  pose proof (group_by_maximal_runs part Z.eqb) as Hm.
  destruct g as [|c0 c']; [destruct Hk |].
  destruct Hk as [<- | Hk]; [reflexivity |].
  apply Z.eqb_eq.
  exact (maximal_runs_In Z.eqb _ (c0 :: c') c0 c' k Hm Hg eq_refl Hk).
Qed.

Lemma Forall2_map_eq {A B C} (f : B -> C) (g : A -> C) l ys :
  Forall2 (fun x y => f y = g x) l ys -> map f ys = map g l.
Proof. induction 1 as [|x y l ys H _ IH]; [reflexivity |]; simpl; congruence. Qed.

Lemma Forall2_Forall_r {A B} (Q : A -> B -> Prop) (P : B -> Prop) l ys :
  (forall x y, In x l -> Q x y -> P y) -> Forall2 Q l ys -> Forall P ys.
Proof.
  intros H; induction 1 as [|x y l ys Hx _ IH]; constructor.
  - apply (H x); simpl; auto.
  - apply IH; intros; eapply H; simpl; eauto.
Qed.

Lemma Forall2_group_lengths {A} (f g : A -> Z) (P : list Z -> list Z -> Prop) cgs :
  forall rss,
  Forall2 (fun g rg => length rg = length g /\ P g rg) (map (map g) cgs) rss ->
  Forall2 (fun a b => length a = length b) (map (map f) cgs) rss.
Proof.
  induction cgs as [|cg cgs IH]; intros rss H; inversion H as [|? ? ? ? [Hl _] H']; subst;
    constructor.
  - rewrite length_map in *; lia.
  - apply IH; assumption.
Qed.

(** * [RankTree.shape_unrank] on the ranks of [n] leaves *)

Lemma shape_unrank_ok : forall (m : nat) n r,
  (Z.to_nat n <= m)%nat -> 1 <= n -> 0 <= r < num_shapes n ->
  exists t,
    unranks_to r n t /\ shape_fields r n t /\
    (n = 1 -> children t = []) /\
    (2 <= n ->
     exists part rss,
       children_shape_ranks r n = Ok (part, concat rss) /\
       In part (partition n) /\
       Forall2 (fun g rg => length rg = length g /\
                            nondecreasing 0 (num_shapes (hd 0 g)) rg)
               (group_partition part) rss /\
       map num_leaves (children t) = part /\
       map _shape_rank (children t) = concat rss /\
       Forall (fun c => unranks_to (_shape_rank c) (num_leaves c) c /\
                        shape_fields (_shape_rank c) (num_leaves c) c /\
                        0 <= _shape_rank c < num_shapes (num_leaves c) /\
                        1 <= num_leaves c < n) (children t) /\
       compute_shape_rank_of (children t) n = r).
Proof.
  induction m as [|m IH]; intros n r Hm Hn Hr; [lia |].
  destruct (Z.eq_dec n 1) as [-> | Hn1].
  - change (num_shapes 1) with 1 in Hr.
    assert (r = 0) by lia; subst r.
    exists (mkRankTree [] 1 [None] 0 None).
    split; [| split; [repeat split | split; [reflexivity | lia]]].
    intros [|fuel] Hf; [lia | reflexivity].
  - destruct (children_shape_ranks_ok n r ltac:(lia) Hr)
      as (part & rss & Hc & Hin & HF & Hrt).
    pose proof (group_by_concat part Z.eqb) as Hcat.
    fold (group_partition part) in Hcat.
    assert (Hlen : length (concat rss) = length part).
    { transitivity (length (concat (group_partition part)));
        [| rewrite Hcat; reflexivity].
      apply Forall2_concat_length.
      eapply Forall2_impl; [| exact HF]; cbv beta; tauto. }
    set (Q := fun (x : Z * Z) (c : RankTree) =>
                unranks_to (fst x) (snd x) c /\
                shape_fields (fst x) (snd x) c /\
                0 <= fst x < num_shapes (snd x) /\ 1 <= snd x < n).
    destruct (Forall2_exists Q (combine (concat rss) part)) as [kids Hkids].
    { intros [rk k] Hx.
      assert (Hk : 1 <= k < n)
        by (apply (partition_parts n part k Hin); eapply in_combine_r; exact Hx).
      rewrite <- Hcat in Hx.
      destruct (In_combine_groups _ _ _ HF rk k Hx) as (g & rg & Hg & Hnd & H1 & H2).
      rewrite <- (group_partition_In part g k Hg H2) in Hnd.
      pose proof (nondecreasing_In _ _ _ _ Hnd H1) as Hrk.
      destruct (IH k rk ltac:(lia) ltac:(lia) Hrk) as (c & Hu & Hf & _).
      exists c; unfold Q; cbn [fst snd]; auto. }
    assert (Hnl : map num_leaves kids = part).
    { rewrite <- (map_snd_combine' (concat rss) part Hlen).
      apply Forall2_map_eq; eapply Forall2_impl; [| exact Hkids].
      intros x c (_ & (H & _) & _); exact H. }
    assert (Hsr : map _shape_rank kids = concat rss).
    { rewrite <- (map_fst_combine' (concat rss) part Hlen).
      apply Forall2_map_eq; eapply Forall2_impl; [| exact Hkids].
      intros x c (_ & (_ & H & _) & _); exact H. }
    assert (Hall : Forall (fun c => unranks_to (_shape_rank c) (num_leaves c) c /\
                        shape_fields (_shape_rank c) (num_leaves c) c /\
                        0 <= _shape_rank c < num_shapes (num_leaves c) /\
                        1 <= num_leaves c < n) kids).
    { eapply Forall2_Forall_r; [| exact Hkids].
      intros x c _ (H1 & H2 & H3 & H4).
      destruct H2 as (E1 & E2 & E3 & E4); rewrite E1, E2.
      repeat split; try assumption; try lia. }
    assert (Hsum : sum (map num_leaves kids) = n)
      by (rewrite Hnl; apply partition_In in Hin; tauto).
    destruct (unlabelled_merge kids) as [Hmerge _].
    { eapply Forall_impl; [| exact Hall].
      intros c (_ & (_ & _ & H & _) & _ & H'); split; [exact H | lia]. }
    rewrite Hsum in Hmerge.
    exists (mkRankTree kids n (repeat None (Z.to_nat n)) r None).
    split; [| split; [repeat split | split; [lia |]]].
    + intros [|fuel] Hf; [lia |].
      cbn [shape_unrank_fuel].
      destruct (Z.eqb_spec n 1) as [? | _]; [lia |].
      rewrite Hc; cbn [bind].
      rewrite (mapM_Forall2 _ _ kids).
      * cbn [bind]; unfold RankTree_init.
        rewrite Hmerge; cbn [bind]; rewrite Hsum; reflexivity.
      * eapply Forall2_impl; [| exact Hkids].
        intros [rk k] c (H & _ & _ & Hk); cbn [fst snd] in *.
        apply H; lia.
    + intros _; exists part, rss; cbn [children].
      repeat split; try assumption.
      unfold compute_shape_rank_of; cbv zeta; rewrite Hnl.
      apply Hrt.
      * rewrite <- Hnl; symmetry; apply group_partition_leaf_partition.
      * apply concat_inj_lengths.
        -- apply (Forall2_group_lengths _shape_rank num_leaves
                    (fun g rg => nondecreasing 0 (num_shapes (hd 0 g)) rg)).
           rewrite <- group_partition_leaf_partition, Hnl; exact HF.
        -- rewrite <- concat_map, group_by_concat; exact Hsr.
Qed.

(** * Unranked shapes *)

Lemma unranked_ind' (P : RankTree -> Prop) :
  P (mkRankTree [] 1 [None] 0 None) ->
  (forall kids n r part rss,
     2 <= n -> 0 <= r < num_shapes n ->
     In part (partition n) ->
     children_shape_ranks r n = Ok (part, concat rss) ->
     Forall2 (fun g rg => length rg = length g /\
                          nondecreasing 0 (num_shapes (hd 0 g)) rg)
             (group_partition part) rss ->
     map num_leaves kids = part ->
     map _shape_rank kids = concat rss ->
     Forall unranked kids ->
     Forall P kids ->
     unranks_to r n (mkRankTree kids n (repeat None (Z.to_nat n)) r None) ->
     compute_shape_rank_of kids n = r ->
     P (mkRankTree kids n (repeat None (Z.to_nat n)) r None)) ->
  forall t, unranked t -> P t.
Proof.
  intros Hleaf Hnode; fix IH 2; intros t [|kids n r part rss H1 H2 H3 H4 H5 H6 H7 H8 H9 H10].
  - exact Hleaf.
  - apply (Hnode kids n r part rss); try assumption.
    clear - IH H8; induction H8 as [|c kids Hc _ IHk]; constructor;
      [apply IH; exact Hc | exact IHk].
Qed.

Lemma unranks_to_fun r n t t' : unranks_to r n t -> unranks_to r n t' -> t = t'.
Proof.
  intros H H'.
  specialize (H (S (Z.to_nat n)) ltac:(lia)); specialize (H' (S (Z.to_nat n)) ltac:(lia)).
  congruence.
Qed.

Lemma unranks_to_shape_unrank r n t :
  unranks_to r n t -> RankTree_shape_unrank r n = Ok t.
Proof. intros H; apply H; lia. Qed.

Lemma in_range_positive r n : 0 <= r < num_shapes n -> 1 <= n.
Proof.
  intros H; destruct (Z_lt_ge_dec n 1) as [Hn | Hn]; [| lia].
  rewrite num_shapes_base in H by lia; lia.
Qed.

Lemma unranks_to_unranked : forall (m : nat) n r t,
  (Z.to_nat n <= m)%nat -> 0 <= r < num_shapes n -> unranks_to r n t -> unranked t.
Proof.
  induction m as [|m IH]; intros n r t Hm Hr Ht;
    pose proof (in_range_positive r n Hr) as Hn; [lia |].
  destruct (shape_unrank_ok (Z.to_nat n) n r (Nat.le_refl _) Hn Hr)
    as (t' & Hu & (F1 & F2 & F3 & F4) & Hleaf & Hnode).
  rewrite (unranks_to_fun r n t t' Ht Hu).
  destruct t' as [kids n' ls r' lr]; cbn [num_leaves _shape_rank labels _label_rank children] in *.
  subst n' r' ls lr.
  destruct (Z.eq_dec n 1) as [-> | Hn1].
  - rewrite (Hleaf eq_refl).
    change (num_shapes 1) with 1 in Hr; assert (r = 0) by lia; subst r.
    apply unranked_leaf.
  - destruct (Hnode ltac:(lia)) as (part & rss & H1 & H2 & H3 & H4 & H5 & H6 & H7).
    apply (unranked_node kids n r part rss); try assumption; try lia.
    eapply Forall_impl; [| exact H6].
    intros c (Hc & _ & Hrc & Hk); apply (IH (num_leaves c) (_shape_rank c)); auto; lia.
Qed.

(** The tree of every shape rank of [n] leaves. *)
Lemma shape_unrank_unranked r n :
  0 <= r < num_shapes n ->
  exists t, RankTree_shape_unrank r n = Ok t /\ unranked t /\
            num_leaves t = n /\ _shape_rank t = r.
Proof.
  intros Hr; pose proof (in_range_positive r n Hr) as Hn.
  destruct (shape_unrank_ok (Z.to_nat n) n r (Nat.le_refl _) Hn Hr)
    as (t & Hu & (F1 & F2 & _) & _).
  exists t; repeat split; try assumption.
  - apply unranks_to_shape_unrank; assumption.
  - apply (unranks_to_unranked (Z.to_nat n) n r); auto.
Qed.

Lemma unranked_kids_fields kids n part :
  In part (partition n) -> map num_leaves kids = part ->
  (2 <= length kids)%nat /\ sum (map num_leaves kids) = n /\
  Forall (fun c => 1 <= num_leaves c < n) kids.
Proof.
  intros Hin Hp.
  pose proof (proj1 (partition_In n part) Hin) as (Hl & _ & Hs).
  rewrite <- Hp, length_map in Hl; rewrite <- Hp in Hs.
  repeat split; try assumption.
  rewrite Forall_forall; intros c Hc.
  apply (partition_parts n part (num_leaves c) Hin).
  rewrite <- Hp; apply in_map; assumption.
Qed.

(** What an unranked shape is. *)
Lemma unranked_fields t :
  unranked t ->
  0 <= _shape_rank t < num_shapes (num_leaves t) /\
  1 <= num_leaves t /\
  unranks_to (_shape_rank t) (num_leaves t) t /\
  shape_fields (_shape_rank t) (num_leaves t) t /\
  compute_shape_rank t = _shape_rank t.
Proof.
  intros H; destruct H as [|kids n r part rss H1 H2 H3 H4 H5 H6 H7 H8 H9 H10];
    cbn [_shape_rank num_leaves].
  - change (num_shapes 1) with 1; repeat split; try lia.
    intros [|fuel] Hf; [lia | reflexivity].
  - repeat split; try assumption; lia.
Qed.

Lemma unranked_kids kids n part :
  In part (partition n) ->
  map num_leaves kids = part ->
  Forall unranked kids ->
  Forall (fun c => unranked c /\ 1 <= num_leaves c < n /\
                   labels c = repeat None (Z.to_nat (num_leaves c)) /\
                   0 <= _shape_rank c < num_shapes (num_leaves c)) kids.
Proof.
  intros Hin Hp Hk.
  destruct (unranked_kids_fields kids n part Hin Hp) as (_ & _ & Hb).
  rewrite Forall_forall in *; intros c Hc.
  destruct (unranked_fields c (Hk c Hc)) as (H1 & _ & _ & (_ & _ & H3 & _) & _).
  pose proof (Hb c Hc); repeat split; auto; lia.
Qed.

(** * Unranked shapes are canonical *)

Lemma app_inj_length {A} (l1 : list A) : forall l1' l2 l2',
  length l1 = length l1' -> l1 ++ l2 = l1' ++ l2' -> l1 = l1' /\ l2 = l2'.
Proof.
  induction l1 as [|a l1 IH]; intros [|b l1'] l2 l2' Hl E; simpl in *; try lia;
    [auto |].
  injection E as -> E; destruct (IH l1' l2 l2' ltac:(lia) E) as [-> ->]; auto.
Qed.

Lemma shape_ordered_run k hi rest : forall kg r,
  Forall (fun c => num_leaves c = k) kg ->
  nondecreasing r hi (map _shape_rank kg) ->
  (forall r', shape_ordered k r' rest) ->
  shape_ordered k r (kg ++ rest).
Proof.
  induction kg as [|c kg IH]; intros r Hk Hnd Hrest; [apply Hrest |].
  inversion Hk as [|? ? Hc Hk']; subst.
  destruct Hnd as [Hr Hnd]; cbn [app shape_ordered].
  split; [right; split; [reflexivity | lia] |].
  apply IH; assumption.
Qed.

Lemma ascending_run c0 rest : forall c',
  Forall (fun y => (y =? c0) = true) c' ->
  ascending c0 (c' ++ rest) -> ascending c0 rest.
Proof.
  induction c' as [|y c' IH]; intros Hf Ha; [exact Ha |].
  inversion Hf as [|? ? Hy Hf']; subst; apply Z.eqb_eq in Hy.
  destruct Ha as [_ Ha]; rewrite Hy in Ha; apply IH; assumption.
Qed.

Lemma shape_ordered_groups : forall gs rss kids k0 r0,
  maximal_runs Z.eqb gs ->
  ascending k0 (concat gs) ->
  Forall2 (fun g rg => length rg = length g /\
                       nondecreasing 0 (num_shapes (hd 0 g)) rg) gs rss ->
  map num_leaves kids = concat gs ->
  map _shape_rank kids = concat rss ->
  match gs with (x :: _) :: _ => k0 < x | _ => True end ->
  shape_ordered k0 r0 kids.
Proof.
  induction gs as [|g gs IH]; intros rss kids k0 r0 Hm Ha HF Hn Hs Hlt.
  - destruct kids; [exact I | discriminate].
  - inversion HF as [|? rg ? rss' [Hl Hnd] HF']; subst.
    destruct g as [|c0 c']; [destruct Hm as [[] _] |].
    cbn [concat] in Hn, Hs, Ha.
    apply map_eq_app in Hn; destruct Hn as (kg & kids' & -> & Hkg & Hkids').
    rewrite map_app in Hs.
    apply app_inj_length in Hs;
      [| rewrite length_map, Hl, <- Hkg, length_map; reflexivity].
    destruct Hs as [Hrg Hrss].
    destruct Hm as [[Hf Hh] Hm'].
    assert (Hall : Forall (fun c => num_leaves c = c0) kg).
    { assert (G : Forall (fun y => y = c0) (map num_leaves kg)).
      { rewrite Hkg; constructor; [reflexivity |].
        eapply Forall_impl; [| exact Hf]; intros y Hy; apply Z.eqb_eq; exact Hy. }
      rewrite Forall_map in G; exact G. }
    destruct kg as [|c kg]; [discriminate |].
    cbn [map] in Hkg, Hrg; injection Hkg as Hc Hkg.
    cbn [hd] in Hnd; rewrite <- Hrg in Hnd; destruct Hnd as [Hr Hnd].
    cbn [app shape_ordered]; split; [left; lia |].
    rewrite Hc.
    apply (shape_ordered_run c0 (num_shapes c0)); [inversion Hall; assumption | exact Hnd |].
    intros r'.
    cbn [app] in Ha; destruct Ha as [Hk0 Ha].
    pose proof (ascending_run c0 (concat gs) c' Hf Ha) as Ha'.
    apply (IH rss' kids' c0 r'); try assumption.
    destruct gs as [|[|x g'] gs']; [exact I | exact I |].
    destruct Ha' as [Hx _]; apply Z.eqb_neq in Hh; lia.
Qed.

Lemma unranked_shape_ordered kids n part rss :
  In part (partition n) ->
  Forall2 (fun g rg => length rg = length g /\
                       nondecreasing 0 (num_shapes (hd 0 g)) rg)
          (group_partition part) rss ->
  map num_leaves kids = part ->
  map _shape_rank kids = concat rss ->
  forall r0, shape_ordered 0 r0 kids.
Proof.
  intros Hin HF Hn Hs r0.
  apply (shape_ordered_groups (group_partition part) rss); try assumption.
  - apply group_by_maximal_runs.
  - unfold group_partition; rewrite group_by_concat.
    apply partition_In in Hin; destruct Hin as (_ & Ha & _).
    eapply ascending_weaken; [| exact Ha]; lia.
  - unfold group_partition; rewrite group_by_concat; exact Hn.
  - destruct (group_partition part) as [|[|x g] gs] eqn:E; try exact I.
    assert (Hx : In x part).
    { apply (group_by_In part Z.eqb (x :: g) x); [| simpl; auto].
      fold (group_partition part); rewrite E; simpl; auto. }
    pose proof (partition_parts n part x Hin Hx); lia.
Qed.

Lemma pairs_in_order_unlabelled : forall kids k0 r0,
  shape_ordered k0 r0 kids ->
  Forall (fun c => 1 <= num_leaves c /\
                   labels c = repeat None (Z.to_nat (num_leaves c))) kids ->
  pairs_in_order kids = Ok true.
Proof.
  assert (Hmin : forall c, 1 <= num_leaves c /\
                   labels c = repeat None (Z.to_nat (num_leaves c)) ->
                   canonical_order c = Ok (num_leaves c, _shape_rank c, None)).
  { intros c [Hn Hl]; unfold canonical_order, min_label; rewrite Hl.
    destruct (Z.to_nat (num_leaves c)) as [|k] eqn:E; [lia |].
    cbn [repeat]; rewrite py_get_0; reflexivity. }
  induction kids as [|c1 kids IH]; intros k0 r0 Ho Hf; [reflexivity |].
  cbn [pairs_in_order]; destruct kids as [|c2 kids]; [reflexivity |].
  inversion Hf as [|? ? H1 Hf']; subst; inversion Hf' as [|? ? H2 _]; subst.
  rewrite (Hmin c1 H1), (Hmin c2 H2); cbn [bind].
  destruct Ho as [_ Ho]; pose proof Ho as [Hlt _].
  unfold key_lt.
  destruct (Z.eqb_spec (num_leaves c2) (num_leaves c1)) as [E | E]; cbn [negb].
  - destruct (Z.eqb_spec (_shape_rank c2) (_shape_rank c1)) as [E' | E']; cbn [negb bind].
    + apply (IH _ _ Ho Hf').
    + destruct (Z.ltb_spec (_shape_rank c2) (_shape_rank c1)); [lia |].
      cbn [bind]; apply (IH _ _ Ho Hf').
  - destruct (Z.ltb_spec (num_leaves c2) (num_leaves c1)); [lia |].
    cbn [bind]; apply (IH _ _ Ho Hf').
Qed.

Lemma is_canonical_eq t :
  is_canonical t =
  if is_leaf t then Ok true
  else
    ordered <- pairs_in_order (children t) ;;
    if ordered then
      (fix all_canonical (cs : list RankTree) : result bool :=
         match cs with
         | [] => Ok true
         | c :: cs' =>
             b <- is_canonical c ;;
             if b then all_canonical cs' else Ok false
         end) (children t)
    else Ok false.
Proof. destruct t; reflexivity. Qed.

Lemma is_canonical_unranked t : unranked t -> is_canonical t = Ok true.
Proof.
  induction 1 as [|kids n r part rss H1 H2 H3 H4 H5 H6 H7 H8 IH H9 H10]
    using unranked_ind'; [reflexivity |].
  rewrite is_canonical_eq.
  destruct (unranked_kids_fields kids n part H3 H6) as (Hl & _ & _).
  unfold is_leaf, len; cbn [children].
  destruct (Z.eqb_spec (Z.of_nat (length kids)) 0) as [? | _]; [lia |].
  rewrite (pairs_in_order_unlabelled kids 0 0).
  - cbn [bind]; clear - IH.
    induction IH as [|c kids Hc _ IHk]; [reflexivity |].
    rewrite Hc; cbn [bind]; exact IHk.
  - apply (unranked_shape_ordered kids n part rss); assumption.
  - pose proof (unranked_kids kids n part H3 H6 H8) as Hk.
    eapply Forall_impl; [| exact Hk]; cbv beta; intros c (_ & ? & ? & _); split; [lia | assumption].
Qed.

(** * Unranked shapes of equal shape are the same tree *)

Lemma all_shape_equal_Forall2 cs : forall os,
  length cs = length os -> all_shape_equal cs os = true ->
  Forall2 (fun c o => shape_equal c o = true) cs os.
Proof.
  induction cs as [|c cs IH]; intros [|o os] Hl H; simpl in *; try lia; constructor.
  - destruct (shape_equal c o); [reflexivity | discriminate].
  - apply IH; [lia |]; destruct (shape_equal c o); [exact H | discriminate].
Qed.

Lemma unranked_node_not_leaf kids n part :
  In part (partition n) -> map num_leaves kids = part ->
  len kids <> 0 /\ kids <> [].
Proof.
  intros Hin Hp; destruct (unranked_kids_fields kids n part Hin Hp) as (Hl & _).
  unfold len; split; [lia | destruct kids; [simpl in Hl; lia | discriminate]].
Qed.

Lemma unranked_shape_equal t :
  unranked t -> forall t', unranked t' -> shape_equal t t' = true -> t = t'.
Proof.
  induction 1 as [|kids n r part rss H1 H2 H3 H4 H5 H6 H7 H8 IH H9 H10]
    using unranked_ind';
    intros t' Ht' Heq;
    destruct Ht' as [|kids' n' r' part' rss' H1' H2' H3' H4' H5' H6' H7' H8' H9' H10'];
    try reflexivity; rewrite shape_equal_eq in Heq; unfold is_leaf in Heq;
    cbn [children] in Heq.
  - destruct (unranked_node_not_leaf kids' n' part' H3' H6') as [Hne _].
    change (len (@nil RankTree)) with 0 in Heq.
    destruct (Z.eqb_spec (len kids') 0) as [? | _]; [lia |].
    rewrite andb_false_r in Heq.
    destruct (Z.eqb_spec 0 (len kids')) as [? | _]; [lia | discriminate].
  - destruct (unranked_node_not_leaf kids n part H3 H6) as [Hne _].
    change (len (@nil RankTree)) with 0 in Heq.
    destruct (Z.eqb_spec (len kids) 0) as [? | _]; [lia |].
    cbn [andb negb] in Heq; discriminate.
  - destruct (unranked_node_not_leaf kids n part H3 H6) as [Hne _].
    destruct (Z.eqb_spec (len kids) 0) as [? | _]; [lia |].
    cbn [andb] in Heq.
    destruct (Z.eqb_spec (len kids) (len kids')) as [Hl | _]; [| discriminate].
    cbn [negb] in Heq.
    assert (Hk : kids = kids').
    { apply all_shape_equal_Forall2 in Heq; [| unfold len in Hl; lia].
      clear - Heq IH H8'.
      revert H8' IH; induction Heq as [|c c' kids kids' Hc _ IHk]; intros H8' IH;
        [reflexivity |].
      inversion H8'; subst; inversion IH; subst.
      f_equal; auto. }
    subst kids'.
    assert (n = n').
    { destruct (unranked_kids_fields kids n part H3 H6) as (_ & <- & _).
      destruct (unranked_kids_fields kids n' part' H3' H6') as (_ & <- & _).
      reflexivity. }
    subst n'; congruence.
Qed.

(** * Building an unranked shape again from its children *)

Lemma unranked_init t :
  unranked t ->
  if is_leaf t then RankTree_init None None None None = Ok t
  else RankTree_init None None (Some (children t)) None = Ok t.
Proof.
  intros H; destruct H as [|kids n r part rss H1 H2 H3 H4 H5 H6 H7 H8 H9 H10];
    [reflexivity |].
  destruct (unranked_node_not_leaf kids n part H3 H6) as [Hne _].
  unfold is_leaf; cbn [children].
  destruct (Z.eqb_spec (len kids) 0) as [? | _]; [lia |].
  destruct (unranked_kids_fields kids n part H3 H6) as (_ & Hs & _).
  destruct (unlabelled_merge kids) as [Hmerge _].
  { pose proof (unranked_kids kids n part H3 H6 H8) as Hk.
    eapply Forall_impl; [| exact Hk]; cbv beta; intros c (_ & ? & ? & _); split; [assumption | lia]. }
  unfold RankTree_init; rewrite Hmerge; cbn [bind]; rewrite Hs, H10; reflexivity.
Qed.

(** * [num_assignments_in_group] *)

Lemma range_shift a b : range (a + 1) (b + 1) = map (fun i => i + 1) (range a b).
Proof.
  unfold range; replace (b + 1 - (a + 1)) with (b - a) by lia.
  rewrite map_map; apply map_ext; intros; lia.
Qed.

Lemma range_step_down k X :
  1 <= k -> 0 <= X ->
  range_step (k * X) 0 (- k) = map (fun i => k * (X - i)) (range 0 X).
Proof.
  intros Hk HX; unfold range_step.
  destruct (Z.ltb_spec 0 (- k)) as [? | _]; [lia |].
  replace ((k * X - 0 - - k - 1) / - - k) with X.
  - apply map_ext; intros; lia.
  - replace (- - k) with k by lia.
    replace (k * X - 0 - - k - 1) with (X * k + (k - 1)) by lia.
    rewrite Z.div_add_l by lia.
    rewrite Z.div_small by lia; lia.
Qed.

Lemma fold_assignments k : forall (x : nat),
  fold_left (fun total n => total * Combination.comb (n - 1) (k - 1))
            (map (fun i => k * (Z.of_nat x - i)) (range 0 (Z.of_nat x))) 1
  = assignments k x.
Proof.
  induction x as [|x IH]; [reflexivity |].
  replace (Z.of_nat (S x)) with (Z.of_nat x + 1) by lia.
  rewrite range_cons by lia.
  rewrite (range_shift 0 (Z.of_nat x)).
  cbn [map fold_left]; rewrite map_map.
  rewrite (map_ext _ (fun i => k * (Z.of_nat x - i))) by (intros; f_equal; lia).
  rewrite Z.mul_1_l.
  rewrite <- (Z.mul_1_r (Combination.comb _ _)) at 1.
  rewrite (fold_left_mul_factor (fun n => Combination.comb (n - 1) (k - 1))), IH.
  cbn [assignments]; f_equal; f_equal.
  replace (Z.of_nat (S x)) with (Z.of_nat x + 1) by lia; lia.
Qed.

Lemma first_repeat c x : (1 <= x)%nat -> first (repeat c x) = c.
Proof. destruct x; [lia | reflexivity]. Qed.

Lemma len_repeat {A} (c : A) x : len (repeat c x) = Z.of_nat x.
Proof. unfold len; rewrite repeat_length; reflexivity. Qed.

Lemma num_assignments_repeat c x :
  1 <= num_leaves c ->
  num_assignments_in_group (repeat c x) = Ok (assignments (num_leaves c) x).
Proof.
  intros Hk; unfold num_assignments_in_group; rewrite len_repeat.
  destruct (Z.eqb_spec (Z.of_nat x) 0) as [E | E].
  - destruct x; [reflexivity | lia].
  - rewrite first_repeat by lia.
    destruct (Z.eqb_spec (num_leaves c) 0) as [? | _]; [lia |].
    rewrite range_step_down by lia.
    rewrite fold_assignments; reflexivity.
Qed.

Lemma assignments_pos k x : 0 < assignments k x.
Proof.
  induction x as [|x IH]; [reflexivity |].
  cbn [assignments]; apply Z.mul_pos_pos; [apply comb_pos | exact IH].
Qed.

Lemma identical_repeat g : identical g -> g = repeat (first g) (length g).
Proof.
  intros (_ & H & _); generalize (first g) H; clear; intros c H.
  induction H as [|x g Hx _ IH]; [reflexivity |].
  subst x; cbn [length repeat]; f_equal; exact IH.
Qed.

(** * [num_list_of_group_labellings] *)

Lemma num_list_loop_acc f : forall groups R total,
  num_list_of_group_labellings_loop f groups R total =
  (t <- num_list_of_group_labellings_loop f groups R 1 ;; Ok (total * t)).
Proof.
  induction groups as [|g groups IH]; intros R total;
    cbn [num_list_of_group_labellings_loop]; cbv zeta.
  - cbn [bind]; f_equal; lia.
  - destruct (num_group_labellings_with f g) as [ngl | e]; cbn [bind]; [| reflexivity].
    rewrite IH, (IH _ (1 * _)).
    destruct (num_list_of_group_labellings_loop f groups _ 1); cbn [bind];
      [f_equal; lia | reflexivity].
Qed.

Lemma leaves_of_cons g groups :
  leaves_of (g :: groups) = len g * num_leaves (first g) + leaves_of groups.
Proof. unfold leaves_of; cbn [map]; apply sum_cons. Qed.

Lemma num_list_with_cons f g groups :
  num_list_of_group_labellings_with f (g :: groups) =
  (ngl <- num_group_labellings_with f g ;;
   t <- num_list_of_group_labellings_with f groups ;;
   Ok (Combination.comb (leaves_of (g :: groups)) (len g * num_leaves (first g))
       * ngl * t)).
Proof.
  unfold num_list_of_group_labellings_with.
  fold (leaves_of (g :: groups)); fold (leaves_of groups).
  cbn [num_list_of_group_labellings_loop]; cbv zeta.
  destruct (num_group_labellings_with f g) as [ngl | e]; cbn [bind]; [| reflexivity].
  rewrite num_list_loop_acc, leaves_of_cons.
  replace (len g * num_leaves (first g) + leaves_of groups
           - len g * num_leaves (first g)) with (leaves_of groups) by lia.
  destruct (num_list_of_group_labellings_loop f groups _ 1); cbn [bind];
    [f_equal; lia | reflexivity].
Qed.

Lemma num_group_with_ext f f' g :
  f (first g) = f' (first g) ->
  num_group_labellings_with f g = num_group_labellings_with f' g.
Proof. intros H; unfold num_group_labellings_with; rewrite H; reflexivity. Qed.

Lemma num_list_loop_ext f f' : forall groups R total,
  (forall g, In g groups -> f (first g) = f' (first g)) ->
  num_list_of_group_labellings_loop f groups R total =
  num_list_of_group_labellings_loop f' groups R total.
Proof.
  induction groups as [|g groups IH]; intros R total H; [reflexivity |].
  cbn [num_list_of_group_labellings_loop]; cbv zeta.
  rewrite (num_group_with_ext f f' g) by (apply H; simpl; auto).
  destruct (num_group_labellings_with f' g); cbn [bind]; [| reflexivity].
  apply IH; intros; apply H; simpl; auto.
Qed.

Lemma num_list_with_ext f f' groups :
  (forall g, In g groups -> f (first g) = f' (first g)) ->
  num_list_of_group_labellings_with f groups =
  num_list_of_group_labellings_with f' groups.
Proof. intros H; apply num_list_loop_ext; exact H. Qed.

(** * Enough depth for [num_labellings] *)

Lemma depth_child c cs n ls sr lr :
  In c cs -> (depth c < depth (mkRankTree cs n ls sr lr))%nat.
Proof.
  intros H; cbn [depth].
  induction cs as [|c' cs IH]; [destruct H |].
  cbn [fold_right]; destruct H as [-> | H]; [lia |].
  specialize (IH H); lia.
Qed.

Lemma group_first_In {A} (l : list A) equal g d :
  In g (group_by l equal) -> In (hd d g) l.
Proof. apply group_by_hd. Qed.

Lemma num_labellings_fuel_S fuel t :
  num_labellings_fuel (S fuel) t =
  if is_leaf t then Ok 1
  else num_list_of_group_labellings_with (num_labellings_fuel fuel)
         (group_children_by_shape t).
Proof. reflexivity. Qed.

Lemma num_labellings_fuel_enough : forall fuel fuel' t,
  (depth t <= fuel)%nat -> (depth t <= fuel')%nat ->
  num_labellings_fuel fuel t = num_labellings_fuel fuel' t.
Proof.
  induction fuel as [|fuel IH]; intros fuel' t Hd Hd';
    [destruct t; cbn [depth] in Hd; lia |].
  destruct fuel' as [|fuel']; [destruct t; cbn [depth] in Hd'; lia |].
  rewrite !num_labellings_fuel_S.
  destruct (is_leaf t); [reflexivity |].
  apply num_list_with_ext; intros g Hg.
  assert (Hin : In (first g) (children t)) by (apply (group_by_hd _ _ _ no_tree Hg)).
  assert (Hlt : (depth (first g) < depth t)%nat)
    by (destruct t; apply depth_child; exact Hin).
  apply IH; lia.
Qed.

(** [num_labellings] on a tree that is not a leaf, over [num_labellings] of
    its children. *)
Lemma RankTree_num_labellings_eq t :
  RankTree_num_labellings t =
  if is_leaf t then Ok 1
  else num_list_of_group_labellings (group_children_by_shape t).
Proof.
  unfold RankTree_num_labellings.
  destruct (depth t) as [|d] eqn:Ed; [destruct t; discriminate |].
  rewrite num_labellings_fuel_S.
  destruct (is_leaf t); [reflexivity |].
  apply num_list_with_ext; intros g Hg.
  assert (Hin : In (first g) (children t)) by (apply (group_by_hd _ _ _ no_tree Hg)).
  assert (Hlt : (depth (first g) < depth t)%nat)
    by (destruct t; apply depth_child; exact Hin).
  apply num_labellings_fuel_enough; lia.
Qed.

(** * The groups of the children of an unranked shape *)

Lemma same_shape_unranked c1 c2 :
  unranked c1 -> unranked c2 -> same_shape c1 c2 = true -> c1 = c2.
Proof.
  intros H1 H2 Hs; unfold same_shape in Hs.
  apply andb_true_iff in Hs; destruct Hs as [Hn Hr].
  apply Z.eqb_eq in Hn, Hr.
  destruct (unranked_fields c1 H1) as (_ & _ & Hu1 & _).
  destruct (unranked_fields c2 H2) as (_ & _ & Hu2 & _).
  rewrite Hn, Hr in Hu1; exact (unranks_to_fun _ _ _ _ Hu1 Hu2).
Qed.

Lemma unranked_groups_identical kids g :
  Forall unranked kids -> In g (group_by kids same_shape) -> identical g.
Proof.
  intros Hk Hg; rewrite Forall_forall in Hk.
  pose proof (group_by_maximal_runs kids same_shape) as Hm.
  pose proof (group_by_nonempty kids same_shape) as Hne.
  rewrite Forall_forall in Hne; specialize (Hne g Hg).
  destruct g as [|c0 c']; [congruence |].
  assert (Hc0 : unranked c0)
    by (apply Hk, (group_by_In kids same_shape (c0 :: c')); simpl; auto).
  split; [discriminate | split; [| exact Hc0]].
  cbn [first hd]; constructor; [reflexivity |].
  rewrite Forall_forall; intros x Hx.
  symmetry; apply same_shape_unranked; try assumption.
  - apply Hk, (group_by_In kids same_shape (c0 :: c')); simpl; auto.
  - exact (maximal_runs_In same_shape _ (c0 :: c') c0 c' x Hm Hg eq_refl Hx).
Qed.

Lemma identical_first_In g : identical g -> In (first g) g.
Proof. intros (Hne & _); destruct g; [congruence | simpl; auto]. Qed.


(** * The counts of an unranked shape *)

Lemma num_group_labellings_identical g y :
  identical g -> RankTree_num_labellings (first g) = Ok y -> 1 <= y ->
  num_group_labellings g =
    Ok (assignments (num_leaves (first g)) (length g) * y ^ len g) /\
  1 <= assignments (num_leaves (first g)) (length g) * y ^ len g.
Proof.
  intros Hi Hy Hy1.
  unfold num_group_labellings, num_group_labellings_with; rewrite Hy; cbn [bind].
  destruct Hi as (Hne & Hall & Hu).
  destruct (unranked_fields _ Hu) as (_ & Hk & _).
  rewrite (identical_repeat g (conj Hne (conj Hall Hu))) at 1.
  rewrite num_assignments_repeat by assumption; cbn [bind].
  split; [f_equal; lia |].
  pose proof (assignments_pos (num_leaves (first g)) (length g)).
  pose proof (len_nonneg g).
  assert (0 < y ^ len g) by (apply Z.pow_pos_nonneg; lia).
  nia.
Qed.

Lemma num_list_identical : forall groups,
  (forall g, In g groups ->
     identical g /\
     exists y, RankTree_num_labellings (first g) = Ok y /\ 1 <= y) ->
  exists v, num_list_of_group_labellings groups = Ok v /\ 1 <= v.
Proof.
  induction groups as [|g groups IH]; intros H; [exists 1; split; [reflexivity | lia] |].
  destruct (H g (or_introl eq_refl)) as (Hi & y & Hy & Hy1).
  destruct (IH (fun g' Hg' => H g' (or_intror Hg'))) as (v & Hv & Hv1).
  destruct (num_group_labellings_identical g y Hi Hy Hy1) as [Hg Hg1].
  unfold num_list_of_group_labellings in *; rewrite num_list_with_cons.
  fold num_group_labellings; rewrite Hg, Hv; cbn [bind].
  eexists; split; [reflexivity |].
  pose proof (comb_pos (leaves_of (g :: groups)) (len g * num_leaves (first g))).
  nia.
Qed.

Lemma num_labellings_unranked t :
  unranked t ->
  RankTree_num_labellings t = Ok (count_labellings t) /\ 1 <= count_labellings t.
Proof.
  induction 1 as [|kids n r part rss H1 H2 H3 H4 H5 H6 H7 H8 IH H9 H10]
    using unranked_ind'; [split; [reflexivity | cbv; discriminate] |].
  unfold count_labellings.
  rewrite RankTree_num_labellings_eq.
  destruct (unranked_node_not_leaf kids n part H3 H6) as [Hne _].
  unfold is_leaf; cbn [children].
  destruct (Z.eqb_spec (len kids) 0) as [? | _]; [lia |].
  destruct (num_list_identical (group_children_by_shape
              (mkRankTree kids n (repeat None (Z.to_nat n)) r None)))
    as (v & Hv & Hv1).
  - intros g Hg; unfold group_children_by_shape in Hg; cbn [children] in Hg.
    pose proof (unranked_groups_identical kids g H8 Hg) as Hi.
    split; [exact Hi |].
    rewrite Forall_forall in IH.
    destruct (IH (first g)) as [Hy Hy1]; [| eauto].
    apply (group_by_In kids same_shape g); [exact Hg | apply identical_first_In; exact Hi].
  - rewrite Hv; cbn [value]; auto.
Qed.

Lemma num_group_labellings_ok g :
  identical g ->
  num_group_labellings g = Ok (count_group g) /\
  count_group g =
    assignments (num_leaves (first g)) (length g) * count_labellings (first g) ^ len g /\
  1 <= count_group g.
Proof.
  intros Hi; pose proof Hi as (_ & _ & Hu).
  destruct (num_labellings_unranked _ Hu) as [Hy Hy1].
  destruct (num_group_labellings_identical g _ Hi Hy Hy1) as [Hg Hg1].
  unfold count_group; rewrite Hg; cbn [value]; auto.
Qed.

Lemma num_list_of_group_labellings_ok groups :
  Forall identical groups ->
  num_list_of_group_labellings groups = Ok (count_groups groups) /\
  1 <= count_groups groups.
Proof.
  intros H; rewrite Forall_forall in H.
  destruct (num_list_identical groups) as (v & Hv & Hv1).
  - intros g Hg; split; [apply H; exact Hg |].
    destruct (H g Hg) as (_ & _ & Hu).
    destruct (num_labellings_unranked _ Hu); eauto.
  - unfold count_groups; rewrite Hv; cbn [value]; auto.
Qed.

Lemma count_groups_nil : count_groups [] = 1.
Proof. reflexivity. Qed.

Lemma count_groups_cons g groups :
  Forall identical (g :: groups) ->
  count_groups (g :: groups) =
  Combination.comb (leaves_of (g :: groups)) (len g * num_leaves (first g))
  * count_group g * count_groups groups.
Proof.
  intros H; inversion H as [|? ? Hg Hgs]; subst.
  destruct (num_group_labellings_ok g Hg) as (Eg & _).
  destruct (num_list_of_group_labellings_ok groups Hgs) as (Egs & _).
  unfold count_groups at 1, num_list_of_group_labellings.
  rewrite num_list_with_cons.
  fold num_group_labellings; fold (num_list_of_group_labellings groups).
  rewrite Eg, Egs; reflexivity.
Qed.

Lemma count_labellings_node t :
  unranked t -> is_leaf t = false ->
  count_labellings t = count_groups (group_children_by_shape t).
Proof.
  intros _ Hl; unfold count_labellings, count_groups.
  rewrite RankTree_num_labellings_eq, Hl; reflexivity.
Qed.

Lemma count_labellings_leaf t : is_leaf t = true -> count_labellings t = 1.
Proof.
  intros Hl; unfold count_labellings.
  rewrite RankTree_num_labellings_eq, Hl; reflexivity.
Qed.

(** * Merging lists of integer labels *)

Lemma nth_map_Some (hs : list Z) j :
  (j < length hs)%nat -> nth j (map Some hs) None = Some (nth j hs 0).
Proof.
  revert j; induction hs as [|h hs IH]; intros [|j] H; simpl in *; try lia;
    [reflexivity | apply IH; lia].
Qed.

Lemma least_cons2 h h' hs :
  least (h :: h' :: hs) =
  (j <- least (h' :: hs) ;;
   b <- label_le h (nth j (h' :: hs) None) ;;
   Ok (if b then O else S j)).
Proof. reflexivity. Qed.

Lemma least_Some : forall hs : list Z,
  hs <> [] ->
  exists j, least (map Some hs) = Ok j /\ (j < length hs)%nat /\
            Forall (fun h => nth j hs 0 <= h) hs.
Proof.
  induction hs as [|h hs IH]; intros Hne; [congruence |].
  destruct hs as [|h' hs].
  - exists O; repeat split; [simpl; lia | constructor; [simpl; lia | constructor]].
  - destruct (IH ltac:(discriminate)) as (j & Hj & Hlt & Hmin).
    change (map Some (h :: h' :: hs)) with (Some h :: Some h' :: map Some hs).
    rewrite least_cons2; change (Some h' :: map Some hs) with (map Some (h' :: hs)).
    rewrite Hj; cbn [bind]; rewrite nth_map_Some by exact Hlt.
    cbn [label_le bind].
    destruct (Z.leb_spec h (nth j (h' :: hs) 0)) as [Hle | Hgt].
    + exists O; split; [reflexivity | split; [simpl; lia |]].
      cbn [nth]; constructor; [lia |].
      eapply Forall_impl; [| exact Hmin]; cbv beta; intros; lia.
    + exists (S j); split; [reflexivity | split; [simpl in *; lia |]].
      change (nth (S j) (h :: h' :: hs) 0) with (nth j (h' :: hs) 0).
      constructor; [lia | exact Hmin].
Qed.

Lemma filter_nonnil_map (zs : list (list Z)) :
  filter (fun l : list label => negb (is_nil l)) (map (map Some) zs) =
  map (map Some) (filter (fun l => negb (is_nil l)) zs).
Proof.
  induction zs as [|l zs IH]; [reflexivity |].
  cbn [map filter]; destruct l; cbn [map is_nil negb]; rewrite IH; reflexivity.
Qed.

Lemma heads_map_Some (zs : list (list Z)) :
  Forall (fun l => l <> []) zs ->
  map (hd None) (map (map Some) zs) = map Some (map (hd 0) zs).
Proof.
  induction 1 as [|l zs Hl _ IH]; [reflexivity |].
  cbn [map]; rewrite IH; destruct l; [congruence | reflexivity].
Qed.

Lemma update_map {A B} (f : A -> B) l : forall j v,
  update (map f l) j (f v) = map f (update l j v).
Proof.
  induction l as [|x l IH]; intros [|j] v; cbn [map update]; try reflexivity.
  rewrite IH; reflexivity.
Qed.

Lemma nth_map_map (zs : list (list Z)) j :
  nth j (map (map Some) zs) [] = map Some (nth j zs []).
Proof.
  revert j; induction zs as [|l zs IH]; intros [|j]; cbn [map nth]; try reflexivity.
  apply IH.
Qed.

Lemma concat_update_perm (zs : list (list Z)) : forall j m tl,
  nth_error zs j = Some (m :: tl) ->
  Permutation (m :: concat (update zs j tl)) (concat zs).
Proof.
  induction zs as [|l zs IH]; intros [|j] m tl H; cbn [nth_error] in H; try discriminate.
  - injection H as ->; reflexivity.
  - cbn [update concat].
    apply Permutation_trans with (l ++ m :: concat (update zs j tl));
      [apply Permutation_middle | apply Permutation_app_head, IH; exact H].
Qed.

Lemma concat_update_length (zs : list (list Z)) j m tl :
  nth_error zs j = Some (m :: tl) ->
  length (concat zs) = S (length (concat (update zs j tl))).
Proof.
  intros H; apply concat_update_perm in H.
  apply Permutation_length in H; simpl in H; lia.
Qed.

Lemma Forall_update {A} (P : A -> Prop) l : forall j v,
  Forall P l -> P v -> Forall P (update l j v).
Proof.
  induction l as [|x l IH]; intros [|j] v H Hv; cbn [update]; try exact H;
    inversion H; subst; constructor; auto.
Qed.

Lemma nth_nth_error {A} (l : list (list A)) j :
  (j < length l)%nat -> nth_error l j = Some (nth j l []).
Proof.
  revert j; induction l as [|x l IH]; intros [|j] H; simpl in *; try lia;
    [reflexivity | apply IH; lia].
Qed.

Lemma nth_hd_map (zs : list (list Z)) j :
  nth j (map (hd 0) zs) 0 = hd 0 (nth j zs []).
Proof.
  revert j; induction zs as [|l zs IH]; intros [|j]; cbn [map nth]; try reflexivity.
  apply IH.
Qed.

Lemma StronglySorted_hd_le l :
  StronglySorted Z.le l -> Forall (fun e => hd 0 l <= e) l.
Proof.
  intros H; destruct l as [|x l]; [constructor |].
  apply StronglySorted_inv in H; destruct H as [_ H].
  constructor; [simpl; lia | exact H].
Qed.

Lemma heapq_merge_fuel_Some : forall fuel (zs : list (list Z)),
  (length (concat zs) < fuel)%nat ->
  exists out,
    heapq_merge_fuel fuel (map (map Some) zs) = Ok (map Some out) /\
    Permutation out (concat zs) /\
    (Forall (StronglySorted Z.le) zs -> StronglySorted Z.le out).
Proof.
  induction fuel as [|fuel IH]; intros zs Hf; [lia |].
  cbn [heapq_merge_fuel]; cbv zeta.
  rewrite filter_nonnil_map.
  rewrite <- (filter_nonnil_concat zs) in *.
  assert (Hs : Forall (StronglySorted Z.le) zs ->
               Forall (StronglySorted Z.le) (filter (fun l => negb (is_nil l)) zs)).
  { rewrite !Forall_forall; intros H l Hl; apply filter_In in Hl; apply H, Hl. }
  assert (Hn : Forall (fun l => l <> []) (filter (fun l : list Z => negb (is_nil l)) zs)).
  { rewrite Forall_forall; intros l Hl; apply filter_In in Hl.
    destruct Hl as [_ Hl]; destruct l; discriminate. }
  revert Hf Hs Hn; generalize (filter (fun l : list Z => negb (is_nil l)) zs).
  intros ys Hf Hs Hn.
  destruct ys as [|l1 [|l2 rest]].
  - exists []; repeat split; constructor.
  - exists l1; cbn [map concat]; rewrite app_nil_r.
    repeat split; [reflexivity |].
    intros H; specialize (Hs H); inversion Hs; assumption.
  - set (ys := l1 :: l2 :: rest) in *.
    change (map (map Some) ys) with
      (map Some l1 :: map Some l2 :: map (map Some) rest).
    cbv iota beta.
    change (map Some l1 :: map Some l2 :: map (map Some) rest)
      with (map (map Some) ys).
    rewrite heads_map_Some by exact Hn.
    destruct (least_Some (map (hd 0) ys)) as (j & Hj & Hlt & Hmin);
      [discriminate |].
    rewrite Hj; cbn [bind]; rewrite length_map in Hlt.
    rewrite nth_map_map.
    pose proof (nth_nth_error ys j Hlt) as Hnth.
    assert (Hjne : nth j ys [] <> []).
    { rewrite Forall_forall in Hn; apply Hn.
      eapply nth_error_In; exact Hnth. }
    destruct (nth j ys []) as [|m tail] eqn:El; [congruence |].
    cbn [map List.tl hd].
    unfold label in *; rewrite (update_map (map Some) ys j tail).
    destruct (IH (update ys j tail)) as (out & Hout & Hperm & Hsorted).
    { rewrite (concat_update_length ys j m tail Hnth) in Hf; lia. }
    rewrite Hout; cbn [bind].
    exists (m :: out); split; [reflexivity | split].
    + rewrite <- (concat_update_perm ys j m tail Hnth); constructor; exact Hperm.
    + intros Hall; specialize (Hs Hall).
      assert (Htl : StronglySorted Z.le (m :: tail)).
      { rewrite Forall_forall in Hs; apply Hs.
        eapply nth_error_In; exact Hnth. }
      constructor.
      * apply Hsorted, Forall_update; [exact Hs |].
        apply StronglySorted_inv in Htl; tauto.
      * assert (Hge : Forall (fun e => m <= e) (concat ys)).
        { rewrite Forall_forall; intros e He.
          apply in_concat in He; destruct He as (l & Hl & He).
          rewrite Forall_forall in Hs, Hmin.
          pose proof (StronglySorted_hd_le l (Hs l Hl)) as Hhd.
          rewrite Forall_forall in Hhd; specialize (Hhd e He).
          specialize (Hmin (hd 0 l) (in_map _ _ _ Hl)).
          rewrite nth_hd_map, El in Hmin; simpl in Hmin; lia. }
        rewrite Forall_forall in *; intros e He.
        apply Hge.
        rewrite <- (concat_update_perm ys j m tail Hnth).
        right; apply (Permutation_in _ Hperm); exact He.
Qed.

Lemma heapq_merge_Some (zs : list (list Z)) :
  exists out,
    heapq_merge (map (map Some) zs) = Ok (map Some out) /\
    Permutation out (concat zs) /\
    (Forall (StronglySorted Z.le) zs -> StronglySorted Z.le out).
Proof.
  unfold heapq_merge, label; apply heapq_merge_fuel_Some.
  rewrite <- concat_map, length_map; lia.
Qed.

(** * Sorted lists *)

Lemma sorted_perm_eq : forall l1 l2,
  StronglySorted Z.le l1 -> StronglySorted Z.le l2 -> Permutation l1 l2 -> l1 = l2.
Proof.
  induction l1 as [|a l1 IH]; intros l2 H1 H2 P.
  - apply Permutation_nil in P; congruence.
  - destruct l2 as [|b l2]; [apply Permutation_sym, Permutation_nil in P; discriminate |].
    apply StronglySorted_inv in H1, H2; destruct H1 as [H1 Ha], H2 as [H2 Hb].
    rewrite Forall_forall in Ha, Hb.
    assert (a = b).
    { assert (Hb' : In b (a :: l1)) by (apply (Permutation_in _ (Permutation_sym P)); simpl; auto).
      assert (Ha' : In a (b :: l2)) by (apply (Permutation_in _ P); simpl; auto).
      destruct Hb' as [-> | Hb']; [reflexivity |].
      destruct Ha' as [-> | Ha']; [reflexivity |].
      specialize (Ha b Hb'); specialize (Hb a Ha'); lia. }
    subst b; f_equal; apply IH; try assumption.
    eapply Permutation_cons_inv; exact P.
Qed.

Lemma increasing_le l : StronglySorted Z.lt l -> StronglySorted Z.le l.
Proof.
  induction 1 as [|a l H IH Ha]; constructor; [exact IH |].
  eapply Forall_impl; [| exact Ha]; cbv beta; intros; lia.
Qed.

Lemma increasing_NoDup l : StronglySorted Z.lt l -> NoDup l.
Proof.
  induction 1 as [|a l H IH Ha]; constructor; [| exact IH].
  intros Hin; rewrite Forall_forall in Ha; specialize (Ha a Hin); lia.
Qed.

Lemma subseq_increasing (x l : list Z) :
  subseq x l -> StronglySorted Z.lt l -> StronglySorted Z.lt x.
Proof.
  induction 1 as [|x e l H IH|x e l H IH]; intros Hs; [constructor | |];
    apply StronglySorted_inv in Hs; destruct Hs as [Hs He]; [apply IH; exact Hs |].
  constructor; [apply IH; exact Hs |].
  rewrite Forall_forall in *; intros y Hy; apply He, (subseq_In _ _ H); exact Hy.
Qed.

(** The merge of increasing lists that divide an increasing list [L] is
    [L]. *)
Lemma heapq_merge_increasing (zs : list (list Z)) L :
  StronglySorted Z.lt L -> Permutation (concat zs) L ->
  Forall (StronglySorted Z.lt) zs ->
  heapq_merge (map (map Some) zs) = Ok (map Some L).
Proof.
  intros HL HP Hzs.
  destruct (heapq_merge_Some zs) as (out & Hout & Hperm & Hsorted).
  rewrite Hout; f_equal; f_equal.
  apply sorted_perm_eq.
  - apply Hsorted; eapply Forall_impl; [| exact Hzs]; apply increasing_le.
  - apply increasing_le; exact HL.
  - eapply Permutation_trans; eassumption.
Qed.

(** * Trees of the same shape with other labels *)

Lemma relabelled_ind' (P : RankTree -> RankTree -> Prop) :
  (forall cs cs' n ls ls' sr lr lr',
     Forall2 relabelled cs cs' -> Forall2 P cs cs' ->
     P (mkRankTree cs n ls sr lr) (mkRankTree cs' n ls' sr lr')) ->
  forall t t', relabelled t t' -> P t t'.
Proof.
  intros H; fix IH 3; intros t t' [cs cs' n ls ls' sr lr lr' Hcs].
  apply H; [exact Hcs |].
  induction Hcs as [|c c' cs cs' Hc _ IHcs]; constructor; [apply IH; exact Hc | exact IHcs].
Qed.

Lemma Forall2_len {A B} (R : A -> B -> Prop) l ys :
  Forall2 R l ys -> len ys = len l.
Proof. intros H; unfold len; induction H; simpl; lia. Qed.

Lemma relabelled_fields t t' :
  relabelled t t' ->
  num_leaves t' = num_leaves t /\ _shape_rank t' = _shape_rank t /\
  Forall2 relabelled (children t) (children t') /\ is_leaf t' = is_leaf t.
Proof.
  intros [cs cs' n ls ls' sr lr lr' Hcs]; cbn [num_leaves _shape_rank children].
  repeat split; try assumption.
  unfold is_leaf; cbn [children]; rewrite (Forall2_len _ _ _ Hcs); reflexivity.
Qed.

Lemma same_shape_relabelled a a' b b' :
  relabelled a a' -> relabelled b b' -> same_shape a b = same_shape a' b'.
Proof.
  intros Ha Hb.
  destruct (relabelled_fields _ _ Ha) as (A1 & A2 & _).
  destruct (relabelled_fields _ _ Hb) as (B1 & B2 & _).
  unfold same_shape; rewrite A1, A2, B1, B2; reflexivity.
Qed.

(** Grouping lists that are related element by element, by predicates
    that agree on related elements. *)
Lemma grp_Forall2 {A B} (R : A -> B -> Prop) eq1 eq2 :
  (forall a a' b b', R a a' -> R b b' -> eq1 a b = eq2 a' b') ->
  forall l l', Forall2 R l l' ->
  forall c c', Forall2 R c c' ->
  Forall2 (Forall2 R) (grp eq1 c l) (grp eq2 c' l').
Proof.
  intros Heq l l' Hl; induction Hl as [|x x' l l' Hx Hl IH]; intros c c' Hc.
  - rewrite !grp_nil; destruct Hc; constructor; [constructor; assumption | constructor].
  - destruct Hc as [|c0 c0' c c' Hc0 Hc].
    + rewrite !grp_start; apply IH; constructor; [assumption | constructor].
    + rewrite !grp_cons, (Heq x x' c0 c0' Hx Hc0).
      destruct (eq2 x' c0').
      * apply IH; apply Forall2_app; constructor; (assumption || constructor).
      * constructor; [constructor; assumption |].
        apply IH; constructor; [assumption | constructor].
Qed.

Lemma group_by_Forall2 {A B} (R : A -> B -> Prop) eq1 eq2 l l' :
  (forall a a' b b', R a a' -> R b b' -> eq1 a b = eq2 a' b') ->
  Forall2 R l l' ->
  Forall2 (Forall2 R) (group_by l eq1) (group_by l' eq2).
Proof.
  intros Heq Hl; rewrite !group_by_grp.
  apply (grp_Forall2 R eq1 eq2 Heq l l' Hl [] []); constructor.
Qed.

Lemma group_by_relabelled kids kids' :
  Forall2 relabelled kids kids' ->
  Forall2 (Forall2 relabelled) (group_by kids same_shape) (group_by kids' same_shape).
Proof.
  apply group_by_Forall2; intros; apply same_shape_relabelled; assumption.
Qed.

(** * The counts of a relabelled tree *)

Lemma first_relabelled g g' :
  Forall2 relabelled g g' -> g <> [] -> relabelled (first g) (first g').
Proof. intros H Hne; destruct H; [congruence | assumption]. Qed.

Lemma num_assignments_relabelled g g' :
  Forall2 relabelled g g' ->
  num_assignments_in_group g' = num_assignments_in_group g.
Proof.
  intros H; unfold num_assignments_in_group.
  rewrite (Forall2_len _ _ _ H).
  destruct H as [|c c' g g' Hc Hg]; [reflexivity |].
  cbn [first hd]; destruct (relabelled_fields _ _ Hc) as (-> & _); reflexivity.
Qed.

Lemma num_group_relabelled g g' :
  Forall2 relabelled g g' -> g <> [] ->
  RankTree_num_labellings (first g') = RankTree_num_labellings (first g) ->
  num_group_labellings g' = num_group_labellings g.
Proof.
  intros H Hne Hy; unfold num_group_labellings, num_group_labellings_with.
  rewrite Hy, (Forall2_len _ _ _ H), (num_assignments_relabelled g g' H).
  reflexivity.
Qed.

Lemma leaves_of_relabelled groups groups' :
  Forall2 (Forall2 relabelled) groups groups' ->
  leaves_of groups' = leaves_of groups.
Proof.
  induction 1 as [|g g' groups groups' Hg _ IH]; [reflexivity |].
  rewrite !leaves_of_cons, IH, (Forall2_len _ _ _ Hg); f_equal; f_equal.
  destruct Hg as [|c c' g g' Hc _]; [reflexivity |].
  cbn [first hd]; destruct (relabelled_fields _ _ Hc) as (-> & _); reflexivity.
Qed.

Lemma num_list_relabelled groups groups' :
  Forall2 (Forall2 relabelled) groups groups' ->
  Forall (fun g => g <> []) groups ->
  Forall2 (fun g g' => RankTree_num_labellings (first g')
                       = RankTree_num_labellings (first g)) groups groups' ->
  num_list_of_group_labellings groups' = num_list_of_group_labellings groups.
Proof.
  intros H; induction H as [|g g' groups groups' Hg Hgs IH]; intros Hne Hy;
    [reflexivity |].
  inversion Hne; subst; inversion Hy; subst.
  unfold num_list_of_group_labellings in *; rewrite !num_list_with_cons.
  fold num_group_labellings.
  rewrite (num_group_relabelled g g') by assumption.
  rewrite IH by assumption.
  rewrite (leaves_of_relabelled (g :: groups) (g' :: groups'))
    by (constructor; assumption).
  rewrite (Forall2_len _ _ _ Hg).
  destruct (relabelled_fields _ _ (first_relabelled g g' Hg ltac:(assumption)))
    as (-> & _).
  reflexivity.
Qed.

Lemma num_labellings_relabelled t t' :
  relabelled t t' -> RankTree_num_labellings t' = RankTree_num_labellings t.
Proof.
  induction 1 as [cs cs' n ls ls' sr lr lr' Hcs IH] using relabelled_ind'.
  rewrite !RankTree_num_labellings_eq.
  assert (Hl : is_leaf (mkRankTree cs' n ls' sr lr') = is_leaf (mkRankTree cs n ls sr lr)).
  { unfold is_leaf; cbn [children]; rewrite (Forall2_len _ _ _ Hcs); reflexivity. }
  rewrite Hl; clear Hl; destruct (is_leaf (mkRankTree cs n ls sr lr)); [reflexivity |].
  unfold group_children_by_shape; cbn [children].
  apply num_list_relabelled.
  - apply group_by_relabelled; exact Hcs.
  - apply group_by_nonempty.
  - assert (G : Forall2 (fun c c' => relabelled c c' /\
                RankTree_num_labellings c' = RankTree_num_labellings c) cs cs').
    { clear - Hcs IH; induction Hcs; inversion IH; subst; constructor; auto. }
    pose proof (group_by_Forall2 _ same_shape same_shape cs cs'
                  (fun a a' b b' Ha Hb =>
                     same_shape_relabelled a a' b b' (proj1 Ha) (proj1 Hb)) G) as HG.
    pose proof (group_by_nonempty cs same_shape) as Hne.
    revert Hne; induction HG as [|g g' gs gs' Hg _ IHg]; intros Hne; constructor.
    + inversion Hne; subst; destruct Hg; [congruence | cbn [first hd]; tauto].
    + apply IHg; inversion Hne; assumption.
Qed.

Lemma num_group_labellings_relabelled g g' :
  Forall2 relabelled g g' -> g <> [] ->
  num_group_labellings g' = num_group_labellings g.
Proof.
  intros H Hne; apply num_group_relabelled; try assumption.
  apply num_labellings_relabelled, first_relabelled; assumption.
Qed.

Lemma num_list_of_group_labellings_relabelled groups groups' :
  Forall2 (Forall2 relabelled) groups groups' ->
  Forall (fun g => g <> []) groups ->
  num_list_of_group_labellings groups' = num_list_of_group_labellings groups.
Proof.
  intros H Hne; apply num_list_relabelled; try assumption.
  induction H as [|g g' gs gs' Hg _ IH]; constructor; inversion Hne; subst.
  - apply num_labellings_relabelled, first_relabelled; assumption.
  - apply IH; assumption.
Qed.

(** * The shape rank computed from relabelled children *)

Lemma shape_rank_groups_relabelled part : forall groups groups' idx total,
  Forall2 (Forall2 relabelled) groups groups' ->
  shape_rank_groups part groups' idx total = shape_rank_groups part groups idx total.
Proof.
  intros groups groups' idx total H; revert idx total.
  induction H as [|g g' groups groups' Hg _ IH]; intros idx total; [reflexivity |].
  cbn [shape_rank_groups]; cbv zeta.
  rewrite (Forall2_len _ _ _ Hg).
  assert (E1 : num_leaves (first g') = num_leaves (first g)).
  { destruct Hg as [|c c' g g' Hc _]; [reflexivity |].
    cbn [first hd]; apply (relabelled_fields _ _ Hc). }
  assert (E2 : map _shape_rank g' = map _shape_rank g).
  { apply Forall2_map_eq; eapply Forall2_impl; [| exact Hg]; cbv beta.
    intros c c' Hc; apply (relabelled_fields _ _ Hc). }
  rewrite E1, E2; apply IH.
Qed.

Lemma compute_shape_rank_of_relabelled cs cs' n :
  Forall2 relabelled cs cs' ->
  compute_shape_rank_of cs' n = compute_shape_rank_of cs n.
Proof.
  intros H; unfold compute_shape_rank_of.
  assert (E : map num_leaves cs' = map num_leaves cs).
  { apply Forall2_map_eq; eapply Forall2_impl; [| exact H]; cbv beta.
    intros c c' Hc; apply (relabelled_fields _ _ Hc). }
  rewrite E; apply shape_rank_groups_relabelled.
  apply group_by_Forall2; [| exact H].
  intros a a' b b' Ha Hb; unfold same_num_leaves.
  destruct (relabelled_fields _ _ Ha) as (-> & _).
  destruct (relabelled_fields _ _ Hb) as (-> & _); reflexivity.
Qed.

(** * Ranking lists of integer labels *)

Lemma index_map_Some x E :
  Combination.index label_eqb (Some x) (map Some E) = Combination.index Z.eqb x E.
Proof.
  induction E as [|y E IH]; [reflexivity |].
  cbn [map Combination.index label_eqb]; rewrite IH; reflexivity.
Qed.

Lemma mapM_index_map_Some c E :
  mapM (fun x => Combination.index label_eqb x (map Some E)) (map Some c) =
  mapM (fun x => Combination.index Z.eqb x E) c.
Proof.
  induction c as [|x c IH]; [reflexivity |].
  cbn [map mapM]; rewrite index_map_Some, IH; reflexivity.
Qed.

Lemma rank_map_Some c E :
  Combination.rank label_eqb (map Some c) (map Some E) = Combination.rank Z.eqb c E.
Proof.
  unfold Combination.rank; rewrite mapM_index_map_Some.
  unfold label; rewrite len_map; reflexivity.
Qed.

Lemma set_minus_map_Some L tl :
  set_minus label_eqb (map Some L) (map Some tl) = map Some (set_minus Z.eqb L tl).
Proof.
  unfold set_minus; induction L as [|x L IH]; [reflexivity |].
  cbn [map filter].
  assert (E : existsb (label_eqb (Some x)) (map Some tl) = existsb (Z.eqb x) tl).
  { clear; induction tl as [|y tl IH]; [reflexivity |].
    cbn [map existsb label_eqb]; rewrite IH; reflexivity. }
  rewrite E; destruct (negb (existsb (Z.eqb x) tl)); cbn [map]; rewrite IH; reflexivity.
Qed.

(** * More depth for [Combination.unrank] *)

Lemma unrank_fuel_mono {A} : forall fuel fuel' rank (E : list A) k x,
  Combination.unrank_fuel fuel rank E k = Ok x -> (fuel <= fuel')%nat ->
  Combination.unrank_fuel fuel' rank E k = Ok x.
Proof.
  induction fuel as [|fuel IH]; intros fuel' rank E k x H Hf; [discriminate |].
  destruct fuel' as [|fuel']; [lia |].
  rewrite unrank_fuel_S in *.
  destruct (k =? 0); [exact H |].
  destruct (rank <? _).
  - destruct (Combination.unrank_fuel fuel rank (slice_from 1 E) (k - 1)) as [y | e] eqn:Ey;
      [| discriminate].
    rewrite (IH fuel' _ _ _ _ Ey) by lia; exact H.
  - apply IH; [exact H | lia].
Qed.

(** The rank of a combination that starts with the first element. *)
Lemma rank_unranked_cons (m : Z) L1 k cr xs :
  NoDup (m :: L1) -> 1 <= k <= len L1 + 1 ->
  0 <= cr < Combination.comb (len L1) (k - 1) ->
  Combination.unrank cr L1 (k - 1) = Ok xs ->
  Combination.rank Z.eqb (m :: xs) (m :: L1) = Ok cr.
Proof.
  intros Hnd Hk Hcr Hu.
  pose proof (len_nonneg L1) as HL.
  assert (Hu' : Combination.unrank cr (m :: L1) k = Ok (m :: xs)).
  { unfold Combination.unrank in *.
    replace (length (m :: L1) + Z.to_nat k + Z.to_nat cr + 1)%nat
      with (S (length L1 + Z.to_nat k + Z.to_nat cr + 1)) by (simpl; lia).
    rewrite unrank_fuel_S, len_cons, slice_from_1, slice_to_1.
    destruct (Z.eqb_spec k 0) as [? | _]; [lia |].
    replace (len L1 + 1 - 1) with (len L1) by lia.
    destruct (Z.ltb_spec cr (Combination.comb (len L1) (k - 1))) as [_ | ?]; [| lia].
    rewrite (unrank_fuel_mono _ _ _ _ _ _ Hu) by lia; reflexivity. }
  destruct (rank_unrank Z.eqb Z.eqb_eq (m :: L1) k cr Hnd) as (x & Hx & _ & _ & Hr).
  - rewrite len_cons; lia.
  - rewrite len_cons.
    rewrite comb_C in Hcr by lia; rewrite comb_C by lia.
    replace k with (k - 1 + 1) at 1 by lia.
    rewrite C_pascal by lia.
    pose proof (C_nonneg (len L1) (k - 1 + 1)); lia.
  - rewrite Hu' in Hx; injection Hx as <-; exact Hr.
Qed.

(** * The combinations left to the rest of a group *)

Lemma fold_left_map' {A B C} (f : A -> B -> A) (g : C -> B) l : forall a,
  fold_left f (map g l) a = fold_left (fun acc j => f acc (g j)) l a.
Proof. induction l as [|x l IH]; intros a; [reflexivity | apply IH]. Qed.

Lemma num_rest_combs_assignments k (x : nat) :
  num_rest_combs_of (k * Z.of_nat x) k (Z.of_nat x + 1) = assignments k x.
Proof.
  unfold num_rest_combs_of.
  replace (Z.of_nat x + 1 - 1) with (Z.of_nat x) by lia.
  rewrite <- fold_assignments, fold_left_map'.
  apply fold_left_ext_in; intros acc j _; f_equal; f_equal; lia.
Qed.

(** * Arithmetic of mixed radix ranks *)

Lemma div_mod_bounds s a b :
  0 < b -> 0 <= s < a * b -> 0 <= s / b < a /\ 0 <= s mod b < b.
Proof.
  intros Hb Hs; split; [| apply Z.mod_pos_bound; assumption].
  split; [apply Z.div_pos; lia |].
  apply Z.div_lt_upper_bound; [assumption | lia].
Qed.

Lemma mixed_radix s y b :
  0 < y -> 0 < b ->
  s / (y * b) * (y * b) + s mod (y * b) / b * b + s mod b = s.
Proof.
  intros Hy Hb.
  pose proof (Z_div_mod_eq_full s (y * b)) as E1.
  pose proof (Z_div_mod_eq_full (s mod (y * b)) b) as E2.
  assert (E3 : (s mod (y * b)) mod b = s mod b).
  { apply (Z.mod_unique s b (y * (s / (y * b)) + s mod (y * b) / b)).
    - left; apply Z.mod_pos_bound; lia.
    - lia. }
  rewrite <- E3; lia.
Qed.

Lemma floordiv_ok a b : b <> 0 -> floordiv a b = Ok (a / b).
Proof. intros H; unfold floordiv; destruct (Z.eqb_spec b 0); [lia | reflexivity]. Qed.

Lemma pymod_ok a b : b <> 0 -> pymod a b = Ok (a mod b).
Proof. intros H; unfold pymod; destruct (Z.eqb_spec b 0); [lia | reflexivity]. Qed.

(** * Removing labels *)

Lemma Zeqb_eq : forall x y : Z, (x =? y) = true <-> x = y.
Proof. intros; apply Z.eqb_eq. Qed.

Lemma subseq_NoDup {A} (x l : list A) : subseq x l -> NoDup l -> NoDup x.
Proof.
  induction 1 as [|x e l H IH|x e l H IH]; intros Hn; [constructor | |];
    inversion Hn; subst; [auto |].
  constructor; [| auto].
  intros Hin; apply (subseq_In _ _ H) in Hin; contradiction.
Qed.

Lemma set_minus_increasing L tl :
  StronglySorted Z.lt L -> subseq tl L ->
  StronglySorted Z.lt (set_minus Z.eqb L tl) /\
  len (set_minus Z.eqb L tl) = len L - len tl /\
  Permutation (tl ++ set_minus Z.eqb L tl) L.
Proof.
  intros HL Hs.
  pose proof (increasing_NoDup L HL) as Hnd.
  pose proof (subseq_NoDup tl L Hs Hnd) as Hnd'.
  split; [| split].
  - apply (subseq_increasing _ L); [apply set_minus_subseq | exact HL].
  - apply set_minus_length; try assumption; [exact Zeqb_eq |].
    intros e He; apply (subseq_In _ _ Hs); exact He.
  - apply NoDup_Permutation; [| assumption |].
    + apply NoDup_app; [assumption | apply set_minus_NoDup; assumption |].
      intros e He He'; apply (set_minus_In Z.eqb Zeqb_eq) in He'; tauto.
    + intros e; rewrite in_app_iff, (set_minus_In Z.eqb Zeqb_eq); split.
      * intros [He | [He _]]; [apply (subseq_In _ _ Hs) |]; assumption.
      * intros He; destruct (in_dec Z.eq_dec e tl); auto.
Qed.

Lemma set_minus_firstn (L : list Z) : forall j,
  NoDup L -> set_minus Z.eqb L (firstn j L) = skipn j L.
Proof.
  intros j Hnd; unfold set_minus.
  revert j; induction Hnd as [|a L Ha Hnd IH]; intros [|j]; cbn [firstn skipn].
  - reflexivity.
  - reflexivity.
  - exact (set_minus_nil_r Z.eqb (a :: L)).
  - cbn [filter existsb]; rewrite Z.eqb_refl; cbn [orb negb].
    rewrite <- (IH j); apply filter_ext_in; intros e He.
    destruct (Z.eqb_spec e a) as [-> | _]; [contradiction | reflexivity].
Qed.

(** * The loop of [group_label_ranks] on copies of a shape *)

Lemma group_label_ranks_loop_S rank_tree rest_trees rank labels cl cr :
  group_label_ranks_loop (rank_tree :: rest_trees) rank labels cl cr =
  (let k := num_leaves rank_tree in
   num_t_labellings <- RankTree_num_labellings rank_tree ;;
   num_rest_assignments <- num_assignments_in_group rest_trees ;;
   let num_rest_labellings :=
     num_rest_assignments * num_t_labellings ^ len rest_trees in
   let num_labellings_per_label_comb := num_t_labellings * num_rest_labellings in
   comb_rank <- floordiv rank num_labellings_per_label_comb ;;
   rank_given_comb <- pymod rank num_labellings_per_label_comb ;;
   t_rank <- floordiv rank_given_comb num_rest_labellings ;;
   rank <- pymod rank num_rest_labellings ;;
   min_label <- py_get labels 0 ;;
   rest_labels <- Combination.unrank comb_rank (slice_from 1 labels) (k - 1) ;;
   let t_labels := [min_label] ++ rest_labels in
   let labels := set_minus Z.eqb labels t_labels in
   group_label_ranks_loop rest_trees rank labels
     (cl ++ [t_labels]) (cr ++ [t_rank])).
Proof. reflexivity. Qed.

Lemma group_label_ranks_loop_ok c :
  unranked c ->
  forall (x : nat) s L cl cr,
  StronglySorted Z.lt L ->
  len L = num_leaves c * Z.of_nat x ->
  0 <= s < assignments (num_leaves c) x * count_labellings c ^ Z.of_nat x ->
  exists tls trs,
    group_label_ranks_loop (repeat c x) s L cl cr = Ok (cl ++ tls, cr ++ trs) /\
    length tls = x /\ length trs = x /\
    Forall (fun tl => len tl = num_leaves c /\ StronglySorted Z.lt tl) tls /\
    Forall (fun r => 0 <= r < count_labellings c) trs /\
    Permutation (concat tls) L /\
    StronglySorted (fun a b => hd 0 a < hd 0 b) tls /\
    (s = 0 -> concat tls = L /\ Forall (eq 0) trs) /\
    (forall g' lg i acc,
       lg - i = Z.of_nat x ->
       map labels g' = map (map Some) tls ->
       map _label_rank g' = map Some trs ->
       group_rank_loop lg (num_leaves c) (lg * num_leaves c) (count_labellings c)
         g' i (map Some L) acc = Ok (acc + s)).
Proof.
  intros Hc.
  destruct (unranked_fields c Hc) as (_ & Hk & _).
  destruct (num_labellings_unranked c Hc) as [Hy Hy1].
  set (k := num_leaves c) in *; set (y := count_labellings c) in *.
  induction x as [|x IH]; intros s L cl cr HL Hlen Hs.
  - exists [], []; cbn [repeat group_label_ranks_loop]; rewrite !app_nil_r.
    replace (k * Z.of_nat 0) with 0 in Hlen by lia.
    apply len_zero_inv in Hlen; subst L.
    cbn [assignments] in Hs; rewrite Z.pow_0_r in Hs.
    repeat split; try constructor.
    intros g' lg i acc _ Hg' _; destruct g'; [| discriminate].
    cbn [group_rank_loop]; f_equal; lia.
  - cbn [repeat]; rewrite group_label_ranks_loop_S; cbv zeta.
    fold k; rewrite Hy; cbn [bind].
    rewrite num_assignments_repeat by exact Hk; cbn [bind]; fold k.
    rewrite len_repeat.
    cbn [assignments] in Hs.
    set (a' := assignments k x) in *.
    pose proof (assignments_pos k x) as Ha'; fold a' in Ha'.
    assert (Hyx : 0 < y ^ Z.of_nat x) by (apply Z.pow_pos_nonneg; lia).
    set (nrl := a' * y ^ Z.of_nat x) in *.
    assert (Hnrl : 0 < nrl) by (unfold nrl; nia).
    assert (Hper : 0 < y * nrl) by nia.
    repeat (rewrite ?floordiv_ok, ?pymod_ok by lia; cbn [bind]).
    set (cmb := Combination.comb (k * Z.of_nat (S x) - 1) (k - 1)) in *.
    assert (Hs' : 0 <= s < cmb * (y * nrl)).
    { replace (Z.of_nat (S x)) with (Z.of_nat x + 1) in Hs by lia.
      rewrite Z.pow_add_r, Z.pow_1_r in Hs by lia.
      unfold nrl; replace (cmb * (y * (a' * y ^ Z.of_nat x)))
        with (cmb * a' * (y ^ Z.of_nat x * y)) by ring; exact Hs. }
    destruct (div_mod_bounds s cmb (y * nrl) Hper Hs') as [Hq Hm].
    assert (Hm' : 0 <= s mod (y * nrl) < y * nrl) by exact Hm.
    destruct (div_mod_bounds (s mod (y * nrl)) y nrl Hnrl Hm') as [Ht _].
    pose proof (Z.mod_pos_bound s nrl Hnrl) as Hs2.
    destruct L as [|m L1]; [rewrite len_nil in Hlen; lia |].
    rewrite py_get_0, slice_from_1; cbn [bind].
    rewrite len_cons in Hlen.
    apply StronglySorted_inv in HL as HL'; destruct HL' as [HL1 Hm1].
    destruct (rank_unrank Z.eqb Zeqb_eq L1 (k - 1) (s / (y * nrl)))
      as (xs & Hu & Hsub & Hlx & _).
    { apply increasing_NoDup; exact HL1. }
    { lia. }
    { unfold cmb in Hq; replace (len L1) with (k * Z.of_nat (S x) - 1) by lia.
      exact Hq. }
    assert (Hrk : Combination.rank Z.eqb (m :: xs) (m :: L1) = Ok (s / (y * nrl))).
    { apply (rank_unranked_cons m L1 k); [apply increasing_NoDup; exact HL | lia | | exact Hu].
      unfold cmb in Hq; replace (len L1) with (k * Z.of_nat (S x) - 1) by lia.
      exact Hq. }
    rewrite Hu; cbn [bind app].
    assert (Hsub' : subseq (m :: xs) (m :: L1)) by (apply subseq_take; exact Hsub).
    destruct (set_minus_increasing (m :: L1) (m :: xs) HL Hsub') as (HL' & Hlen' & HP).
    rewrite !len_cons in Hlen'.
    destruct (IH (s mod nrl) (set_minus Z.eqb (m :: L1) (m :: xs))
                (cl ++ [m :: xs]) (cr ++ [s mod (y * nrl) / nrl]) HL')
      as (tls & trs & Hloop & Hl1 & Hl2 & Htl & Htr & Hperm & Hmins & Hzero & Henc).
    { lia. }
    { exact Hs2. }
    rewrite Hloop, <- !app_assoc; cbn [app].
    exists ((m :: xs) :: tls), (s mod (y * nrl) / nrl :: trs).
    split; [reflexivity |].
    split; [simpl; lia | split; [simpl; lia |]].
    split; [| split; [| split; [| split; [| split]]]].
    + constructor; [| exact Htl].
      split; [rewrite len_cons; lia |].
      apply (subseq_increasing _ (m :: L1)); assumption.
    + constructor; assumption.
    + cbn [concat]; rewrite <- HP.
      apply Permutation_app_head; exact Hperm.
    + constructor; [exact Hmins |].
      rewrite Forall_forall; intros tl Htl'.
      rewrite Forall_forall in Htl; destruct (Htl tl Htl') as [Hlt _].
      destruct tl as [|e tl]; [rewrite len_nil in Hlt; lia |].
      cbn [hd].
      assert (He : In e (set_minus Z.eqb (m :: L1) (m :: xs))).
      { apply (Permutation_in _ Hperm), in_concat; exists (e :: tl); simpl; auto. }
      apply (set_minus_In Z.eqb Zeqb_eq) in He; destruct He as [[<- | He] Hn];
        [exfalso; apply Hn; simpl; auto |].
      rewrite Forall_forall in Hm1; apply Hm1; exact He.
    + intros ->.
      rewrite Z.div_0_l in Hu by lia.
      rewrite unrank_zero in Hu by lia; injection Hu as <-.
      rewrite !Z.mod_0_l, Z.div_0_l by lia.
      destruct (Hzero ltac:(apply Z.mod_0_l; lia)) as [Hcat Hz].
      split; [| constructor; [reflexivity | exact Hz]].
      cbn [concat]; rewrite Hcat.
      change (m :: firstn (Z.to_nat (k - 1)) L1)
        with (firstn (S (Z.to_nat (k - 1))) (m :: L1)).
      rewrite set_minus_firstn by (apply increasing_NoDup; exact HL).
      apply firstn_skipn.
    + intros g' lg i acc Hlg Hlab Hlr.
      destruct g' as [|t' g'']; [discriminate |].
      cbn [map] in Hlab, Hlr; injection Hlab as Hlab1 Hlab2; injection Hlr as Hlr1 Hlr2.
      cbn [group_rank_loop]; cbv zeta.
      rewrite Hlab1.
      change (Some m :: map Some xs) with (map Some (m :: xs)).
      rewrite rank_map_Some, Hrk; cbn [bind].
      unfold label_rank_int; rewrite Hlr1; cbn [bind].
      rewrite set_minus_map_Some.
      rewrite (Henc g'' lg (i + 1) _ ltac:(lia) Hlab2 Hlr2).
      f_equal.
      replace (lg * k - (i + 1) * k) with (k * Z.of_nat x) by nia.
      replace (lg - i) with (Z.of_nat x + 1) by lia.
      rewrite num_rest_combs_assignments; fold a'.
      replace (Z.of_nat x + 1 - 1) with (Z.of_nat x) by lia.
      rewrite Z.pow_add_r, Z.pow_1_r by lia.
      pose proof (mixed_radix s y nrl ltac:(lia) Hnrl) as Hmr.
      unfold nrl in *; nia.
Qed.

(** * The loop of [children_label_ranks] on the groups of an unranked shape *)

Lemma children_label_ranks_loop_S g rest_groups rank labels cl cr :
  children_label_ranks_loop (g :: rest_groups) rank labels cl cr =
  (let k := num_leaves (first g) in
   let g_num_leaves := k * len g in
   num_g_labellings <- num_group_labellings g ;;
   num_rest_labellings <- num_list_of_group_labellings rest_groups ;;
   let num_labellings_per_label_comb := num_g_labellings * num_rest_labellings in
   comb_rank <- floordiv rank num_labellings_per_label_comb ;;
   rank_given_label_comb <- pymod rank num_labellings_per_label_comb ;;
   g_rank <- floordiv rank_given_label_comb num_rest_labellings ;;
   g_labels <- Combination.unrank comb_rank labels g_num_leaves ;;
   '(g_child_labels, g_child_ranks) <- group_label_ranks g_rank g g_labels ;;
   let labels := set_minus Z.eqb labels g_labels in
   rank <- pymod rank num_rest_labellings ;;
   children_label_ranks_loop rest_groups rank labels
     (cl ++ g_child_labels) (cr ++ g_child_ranks)).
Proof. reflexivity. Qed.

Lemma leaves_of_nonneg groups : Forall identical groups -> 0 <= leaves_of groups.
Proof.
  induction 1 as [|g groups Hg _ IH]; [unfold leaves_of; simpl; rewrite sum_nil; lia |].
  rewrite leaves_of_cons.
  destruct Hg as (_ & _ & Hu); destruct (unranked_fields _ Hu) as (_ & Hk & _).
  pose proof (len_nonneg g); nia.
Qed.

Lemma children_label_ranks_loop_ok : forall groups s L cl cr,
  Forall identical groups ->
  StronglySorted Z.lt L ->
  len L = leaves_of groups ->
  0 <= s < count_groups groups ->
  exists clss crss,
    children_label_ranks_loop groups s L cl cr
      = Ok (cl ++ concat clss, cr ++ concat crss) /\
    Forall2 (fun g tls =>
               length tls = length g /\
               Forall (fun tl => len tl = num_leaves (first g) /\
                                 StronglySorted Z.lt tl) tls /\
               StronglySorted (fun a b => hd 0 a < hd 0 b) tls) groups clss /\
    Forall2 (fun g trs =>
               length trs = length g /\
               Forall (fun r => 0 <= r < count_labellings (first g)) trs)
            groups crss /\
    Permutation (concat (concat clss)) L /\
    (s = 0 -> concat (concat clss) = L /\ Forall (Forall (eq 0)) crss) /\
    (forall groups' total,
       Forall2 (Forall2 relabelled) groups groups' ->
       map (map labels) groups' = map (map (map Some)) clss ->
       map (map _label_rank) groups' = map (map Some) crss ->
       add_label_ranks_loop groups' (map Some L) total = Ok (total + s)).
Proof.
  induction groups as [|g groups IH]; intros s L cl cr Hid HL Hlen Hs.
  - exists [], []; cbn [children_label_ranks_loop concat]; rewrite !app_nil_r.
    change (leaves_of []) with 0 in Hlen.
    apply len_zero_inv in Hlen; subst L.
    rewrite count_groups_nil in Hs.
    repeat split; try constructor.
    intros groups' total Hg' _ _; inversion Hg'; subst.
    cbn [add_label_ranks_loop]; f_equal; lia.
  - rewrite children_label_ranks_loop_S; cbv zeta.
    inversion Hid as [|? ? Hg Hgs]; subst.
    destruct (num_group_labellings_ok g Hg) as (Eg & Eg' & Hg1).
    destruct (num_list_of_group_labellings_ok groups Hgs) as (Egs & Hgs1).
    rewrite Eg, Egs; cbn [bind].
    rewrite (count_groups_cons g groups Hid) in Hs.
    set (k := num_leaves (first g)) in *.
    set (ng := count_group g) in *; set (nr := count_groups groups) in *.
    pose proof (leaves_of_nonneg groups Hgs) as Hrest.
    rewrite leaves_of_cons in Hlen; fold k in Hlen.
    destruct Hg as (Hne & Hall & Hu).
    destruct (unranked_fields _ Hu) as (_ & Hk & _); fold k in Hk.
    pose proof (len_nonneg g) as Hlg.
    repeat (rewrite ?floordiv_ok, ?pymod_ok by nia; cbn [bind]).
    set (cmb := Combination.comb (leaves_of (g :: groups)) (len g * k)) in *.
    assert (Hs' : 0 <= s < cmb * (ng * nr))
      by (replace (cmb * (ng * nr)) with (cmb * ng * nr) by ring; exact Hs).
    destruct (div_mod_bounds s cmb (ng * nr) ltac:(nia) Hs') as [Hq Hm].
    destruct (div_mod_bounds (s mod (ng * nr)) ng nr ltac:(lia) Hm) as [Ht _].
    pose proof (Z.mod_pos_bound s nr ltac:(lia)) as Hs2.
    destruct (rank_unrank Z.eqb Zeqb_eq L (k * len g) (s / (ng * nr)))
      as (gl & Hu' & Hsub & Hlgl & Hrk).
    { apply increasing_NoDup; exact HL. }
    { nia. }
    { unfold cmb in Hq; rewrite leaves_of_cons in Hq; fold k in Hq.
      rewrite Hlen, (Z.mul_comm k (len g)); exact Hq. }
    rewrite Hu'; cbn [bind].
    pose proof (subseq_increasing gl L Hsub HL) as Hgl.
    unfold group_label_ranks.
    destruct (group_label_ranks_loop_ok (first g) Hu (length g)
                (s mod (ng * nr) / nr) gl [] [] Hgl)
      as (tls & trs & Hloop & Hl1 & Hl2 & Htl & Htr & Hperm & Hmins & Hzero & HencA).
    { fold k; rewrite Hlgl; reflexivity. }
    { fold k; change (Z.of_nat (length g)) with (len g); rewrite <- Eg'; exact Ht. }
    rewrite <- (identical_repeat g (conj Hne (conj Hall Hu))) in Hloop.
    rewrite Hloop; cbn [bind app].
    destruct (set_minus_increasing L gl HL Hsub) as (HL' & Hlen' & HP).
    destruct (IH (s mod nr) (set_minus Z.eqb L gl) (cl ++ tls) (cr ++ trs)
                Hgs HL' ltac:(lia) Hs2)
      as (clss & crss & Hrec & Hc1 & Hc2 & Hperm' & Hzero' & HencB).
    rewrite Hrec, <- !app_assoc.
    exists (tls :: clss), (trs :: crss); cbn [concat].
    split; [reflexivity | split; [| split; [| split; [| split]]]].
    + constructor; [| exact Hc1]; repeat split; assumption.
    + constructor; [| exact Hc2]; split; assumption.
    + rewrite concat_app, <- HP; apply Permutation_app; assumption.
    + intros ->.
      rewrite Z.div_0_l in Hu' by nia.
      rewrite unrank_zero in Hu' by nia; injection Hu' as <-.
      rewrite Z.mod_0_l, Z.div_0_l in Hzero by nia.
      destruct (Hzero eq_refl) as [Hcat Hz].
      destruct (Hzero' ltac:(apply Z.mod_0_l; lia)) as [Hcat' Hz'].
      split; [| constructor; assumption].
      rewrite concat_app, Hcat, Hcat'.
      rewrite set_minus_firstn by (apply increasing_NoDup; exact HL).
      apply firstn_skipn.
    + intros groups' total Hg' Hlab Hlr.
      inversion Hg' as [|? g' ? rest' Hgg' Hrest']; subst.
      cbn [map] in Hlab, Hlr; injection Hlab as Hlab1 Hlab2; injection Hlr as Hlr1 Hlr2.
      cbn [add_label_ranks_loop].
      assert (Hmerge : heapq_merge (map labels g') = Ok (map Some gl)).
      { rewrite Hlab1; apply heapq_merge_increasing; [exact Hgl | exact Hperm |].
        eapply Forall_impl; [| exact Htl]; cbv beta; tauto. }
      rewrite Hmerge; cbn [bind].
      rewrite (num_list_of_group_labellings_relabelled groups rest' Hrest')
        by (eapply Forall_impl; [| exact Hgs]; cbv beta; intros ? (? & _); assumption).
      rewrite Egs; cbn [bind].
      rewrite rank_map_Some, Hrk; cbn [bind].
      rewrite (num_group_labellings_relabelled g g' Hgg' Hne), Eg; cbn [bind].
      unfold group_rank.
      destruct (relabelled_fields _ _ (first_relabelled g g' Hgg' Hne)) as (Hnl' & _).
      rewrite Hnl'; fold k.
      rewrite (num_labellings_relabelled _ _ (first_relabelled g g' Hgg' Hne)).
      destruct (num_labellings_unranked _ Hu) as [Hy _]; rewrite Hy; cbn [bind].
      rewrite Hmerge; cbn [bind].
      fold k in HencA.
      rewrite (HencA g' (len g') 0 0); [| | exact Hlab1 | exact Hlr1].
      2:{ rewrite (Forall2_len _ _ _ Hgg'); unfold len; lia. }
      cbn [bind]; rewrite set_minus_map_Some.
      rewrite (HencB rest' _ Hrest' Hlab2 Hlr2); f_equal.
      pose proof (mixed_radix s ng nr ltac:(lia) ltac:(lia)) as Hmr.
      fold ng nr; nia.
Qed.

(** * From groups to children *)

Lemma leaves_of_identical groups :
  Forall identical groups ->
  leaves_of groups = sum (map num_leaves (concat groups)).
Proof.
  induction 1 as [|g groups Hg _ IH]; [reflexivity |].
  rewrite leaves_of_cons, IH; cbn [concat]; rewrite map_app, sum_app.
  f_equal.
  rewrite (identical_repeat g Hg) at 3.
  generalize (first g) as c; intros c.
  unfold len; induction (length g) as [|x IHx];
    [cbn [repeat map]; rewrite sum_nil; lia |].
  cbn [repeat map]; rewrite sum_cons, <- IHx; lia.
Qed.

Lemma Forall2_copies {B} (Q : RankTree -> B -> Prop) c : forall g xs,
  Forall (eq c) g -> length xs = length g -> Forall (Q c) xs ->
  Forall2 Q g xs.
Proof.
  induction g as [|c' g IH]; intros [|x xs] Hg Hl Hx; simpl in Hl; try lia;
    constructor; inversion Hg; inversion Hx; subst; auto.
Qed.

Lemma Forall2_group_elems {B} (Q : RankTree -> B -> Prop) groups xss :
  Forall identical groups ->
  Forall2 (fun g xs => length xs = length g /\ Forall (Q (first g)) xs) groups xss ->
  Forall2 Q (concat groups) (concat xss).
Proof.
  intros Hid H; induction H as [|g xs groups xss [Hl Hq] _ IH]; [constructor |].
  inversion Hid as [|? ? Hg Hgs]; subst.
  cbn [concat]; apply Forall2_app; [| apply IH; exact Hgs].
  destruct Hg as (_ & Hall & _).
  apply (Forall2_copies Q (first g)); assumption.
Qed.

(** * The children of [label_unrank] *)

Lemma label_unrank_on_eq t label_rank L :
  label_unrank_on t label_rank L =
  if is_leaf t then
    _ <- assert (label_rank =? 0) ;;
    _ <- assert (len L =? 1) ;;
    l0 <- py_get L 0 ;;
    RankTree_init None (Some label_rank) None (Some l0)
  else
    '(child_labels, child_label_ranks) <-
      children_label_ranks (group_children_by_shape t) label_rank L ;;
    labelled_children <-
      (fix go (cs : list RankTree) (rks : list Z) (lss : list (list Z))
         : result (list RankTree) :=
         match cs, rks, lss with
         | c :: cs', c_rank :: rks', c_labels :: lss' =>
             c' <- label_unrank_on c c_rank c_labels ;;
             rest <- go cs' rks' lss' ;;
             Ok (c' :: rest)
         | _, _, _ => Ok []
         end) (children t) child_label_ranks child_labels ;;
    RankTree_init (Some (_shape_rank t)) (Some label_rank)
      (Some labelled_children) None.
Proof. destruct t; reflexivity. Qed.

Lemma label_children_ok : forall cs rks lss cs',
  Forall2 (fun x c' =>
             label_unrank_on (fst (fst x)) (snd (fst x)) (snd x) = Ok c')
          (zip3 cs rks lss) cs' ->
  (fix go (cs : list RankTree) (rks : list Z) (lss : list (list Z))
     : result (list RankTree) :=
     match cs, rks, lss with
     | c :: cs', c_rank :: rks', c_labels :: lss' =>
         c' <- label_unrank_on c c_rank c_labels ;;
         rest <- go cs' rks' lss' ;;
         Ok (c' :: rest)
     | _, _, _ => Ok []
     end) cs rks lss = Ok cs'.
Proof.
  induction cs as [|c cs IH]; intros rks lss cs' H.
  - inversion H; reflexivity.
  - destruct rks as [|r rks]; [inversion H; reflexivity |].
    destruct lss as [|tl lss]; [inversion H; reflexivity |].
    cbn [zip3] in H; inversion H as [|? c' ? cs'' Hc Hrest]; subst.
    cbn [fst snd] in Hc; rewrite Hc; cbn [bind].
    rewrite (IH rks lss cs'' Hrest); reflexivity.
Qed.

Lemma zip3_maps {A B C} (P : A -> C -> Prop) (Q : A -> B -> Prop) :
  forall (cs : list A) (rks : list B) (lss : list C),
  Forall2 P cs lss -> Forall2 Q cs rks ->
  map (fun x => fst (fst x)) (zip3 cs rks lss) = cs /\
  map (fun x => snd (fst x)) (zip3 cs rks lss) = rks /\
  map snd (zip3 cs rks lss) = lss /\
  Forall (fun x => In (fst (fst x)) cs /\ P (fst (fst x)) (snd x) /\
                   Q (fst (fst x)) (snd (fst x))) (zip3 cs rks lss).
Proof.
  induction cs as [|c cs IH]; intros rks lss HP HQ;
    inversion HP as [|? tl ? lss' Hp HP']; inversion HQ as [|? r ? rks' Hq HQ']; subst.
  - repeat split; constructor.
  - destruct (IH rks' lss' HP' HQ') as (E1 & E2 & E3 & F).
    cbn [zip3 map fst snd]; rewrite E1, E2, E3.
    repeat split; constructor; [simpl; auto |].
    eapply Forall_impl; [| exact F]; cbv beta.
    intros x (H1 & H2 & H3); simpl; auto.
Qed.

Lemma Forall2_map_l {A B C} (f : A -> B) (R : B -> C -> Prop) l ys :
  Forall2 (fun x y => R (f x) y) l ys -> Forall2 R (map f l) ys.
Proof. induction 1; constructor; auto. Qed.

Lemma Forall2_length' {A B} (R : A -> B -> Prop) l ys :
  Forall2 R l ys -> length l = length ys.
Proof. induction 1; simpl; lia. Qed.

(** * The order of the keys of labelled children *)

Lemma shape_ordered_copies c rest : forall g k0 r0,
  Forall (eq c) g -> g <> [] ->
  shape_ordered k0 r0 (g ++ rest) ->
  shape_ordered (num_leaves c) (_shape_rank c) rest.
Proof.
  induction g as [|c' g IH]; intros k0 r0 Hg Hne Ho; [congruence |].
  inversion Hg; subst c'; subst.
  destruct Ho as [_ Ho]; cbn [app] in *.
  destruct g as [|c'' g]; [exact Ho |].
  apply (IH _ _ ltac:(assumption) ltac:(discriminate) Ho).
Qed.

Lemma key_chain_copies c rest : forall tls m0,
  StronglySorted (fun a b => hd 0 a < hd 0 b) tls ->
  Forall (fun tl => m0 < hd 0 tl) tls ->
  (forall m, key_chain (num_leaves c) (_shape_rank c) m rest) ->
  key_chain (num_leaves c) (_shape_rank c) m0
    (map (fun tl => (num_leaves c, _shape_rank c, hd 0 tl)) tls ++ rest).
Proof.
  induction tls as [|tl tls IH]; intros m0 Hs Hm Hrest; [apply Hrest |].
  apply StronglySorted_inv in Hs; destruct Hs as [Hs Hhd].
  inversion Hm as [|? ? Hm1 _]; subst.
  cbn [map app key_chain]; split; [right; right; repeat split; exact Hm1 |].
  apply IH; assumption.
Qed.

Lemma combine_copies {B} (c : RankTree) : forall g (tls : list B),
  Forall (eq c) g -> length tls = length g ->
  combine g tls = map (fun tl => (c, tl)) tls.
Proof.
  induction g as [|c' g IH]; intros [|tl tls] Hg Hl; simpl in Hl; try lia;
    [reflexivity |].
  inversion Hg; subst; cbn [combine map]; f_equal; apply IH; [assumption | lia].
Qed.

Lemma key_chain_groups :
  forall (groups : list (list RankTree)) (clss : list (list (list Z))),
  Forall2 (fun g tls =>
             length tls = length g /\
             Forall (fun tl => len tl = num_leaves (first g) /\
                               StronglySorted Z.lt tl) tls /\
             StronglySorted (fun a b => hd 0 a < hd 0 b) tls) groups clss ->
  Forall identical groups ->
  maximal_runs same_shape groups ->
  forall k0 r0 m0,
  shape_ordered k0 r0 (concat groups) ->
  match groups with
  | (c :: _) :: _ => k0 < num_leaves c \/ (k0 = num_leaves c /\ r0 < _shape_rank c)
  | _ => True
  end ->
  key_chain k0 r0 m0
    (map (fun x => (num_leaves (fst x), _shape_rank (fst x), hd 0 (snd x)))
         (combine (concat groups) (concat clss))).
Proof.
  induction 1 as [|g tls groups clss (Hl & Hq & Hs) HF IH];
    intros Hid Hm k0 r0 m0 Ho Hentry; [exact I |].
  inversion Hid as [|? ? Hg Hgs]; subst.
  pose proof Hg as (Hne & Hall & Hu).
  cbn [concat]; rewrite combine_app' by (symmetry; exact Hl).
  rewrite map_app, (combine_copies (first g) g tls Hall Hl), map_map; cbn [fst snd].
  destruct g as [|c g']; [congruence |].
  destruct tls as [|tl1 tls']; [simpl in Hl; lia |].
  cbn [first hd] in *.
  cbn [map app key_chain]; split; [tauto |].
  apply StronglySorted_inv in Hs; destruct Hs as [Hs Hhd].
  apply key_chain_copies; [exact Hs | exact Hhd |].
  intros m.
  pose proof (shape_ordered_copies c (concat groups) (c :: g') k0 r0 Hall
                ltac:(discriminate) Ho) as Ho'.
  apply IH; [exact Hgs | exact (maximal_runs_tail _ _ _ Hm) | exact Ho' |].
  destruct groups as [|[|c2 g2] groups']; [exact I | exact I |].
  destruct Hm as [[_ Hdiff] _].
  cbn [concat app shape_ordered] in Ho'; destruct Ho' as [Hle _].
  unfold same_shape in Hdiff.
  apply andb_false_iff in Hdiff.
  destruct Hdiff as [Hd | Hd]; apply Z.eqb_neq in Hd; lia.
Qed.

Lemma canonical_order_labelled c m ls :
  labels c = Some m :: ls ->
  canonical_order c = Ok (num_leaves c, _shape_rank c, Some (min_of c)).
Proof.
  intros H; unfold canonical_order, min_label, min_of; rewrite H, py_get_0.
  reflexivity.
Qed.

Lemma pairs_in_order_labelled : forall kids k0 r0 m0,
  key_chain k0 r0 m0 (map key_of kids) ->
  Forall (fun c => exists m ls, labels c = Some m :: ls) kids ->
  pairs_in_order kids = Ok true.
Proof.
  induction kids as [|c1 kids IH]; intros k0 r0 m0 Hc Hf; [reflexivity |].
  cbn [pairs_in_order]; destruct kids as [|c2 kids]; [reflexivity |].
  inversion Hf as [|? ? (m1 & ls1 & H1) Hf']; subst.
  inversion Hf' as [|? ? (m2 & ls2 & H2) _]; subst.
  rewrite (canonical_order_labelled c1 m1 ls1 H1),
          (canonical_order_labelled c2 m2 ls2 H2); cbn [bind].
  cbn [map] in Hc; unfold key_of at 1 in Hc; cbn [key_chain] in Hc.
  destruct Hc as [_ Hc]; pose proof Hc as Hc'.
  unfold key_of at 1 in Hc'; destruct Hc' as [Hlt _].
  unfold key_lt.
  destruct (Z.eqb_spec (num_leaves c2) (num_leaves c1)) as [E | E]; cbn [negb].
  - destruct (Z.eqb_spec (_shape_rank c2) (_shape_rank c1)) as [E' | E']; cbn [negb].
    + destruct (Z.ltb_spec (min_of c2) (min_of c1)); [lia |].
      cbn [bind]; apply (IH _ _ _ Hc Hf').
    + destruct (Z.ltb_spec (_shape_rank c2) (_shape_rank c1)); [lia |].
      cbn [bind]; apply (IH _ _ _ Hc Hf').
  - destruct (Z.ltb_spec (num_leaves c2) (num_leaves c1)); [lia |].
    cbn [bind]; apply (IH _ _ _ Hc Hf').
Qed.

Lemma all_shape_equal_of_Forall2 cs cs' :
  Forall2 (fun c c' => shape_equal c c' = true) cs cs' ->
  all_shape_equal cs cs' = true.
Proof.
  induction 1 as [|c c' cs cs' H _ IH]; [reflexivity |].
  cbn [all_shape_equal]; rewrite H; exact IH.
Qed.

Lemma all_canonical_of_Forall cs :
  Forall (fun c => is_canonical c = Ok true) cs ->
  (fix all_canonical (cs : list RankTree) : result bool :=
     match cs with
     | [] => Ok true
     | c :: cs' =>
         b <- is_canonical c ;;
         if b then all_canonical cs' else Ok false
     end) cs = Ok true.
Proof.
  induction 1 as [|c cs H _ IH]; [reflexivity |].
  rewrite H; cbn [bind]; exact IH.
Qed.

Lemma leaf_labels_eq t :
  leaf_labels t =
  match children t with
  | [] => labels t
  | _ :: _ => flat_map leaf_labels (children t)
  end.
Proof. destruct t; reflexivity. Qed.

Lemma flat_map_Forall2_perm {A} (f : RankTree -> list A) cs (lss : list (list A)) :
  Forall2 (fun ls c => Permutation (f c) ls) lss cs ->
  Permutation (flat_map f cs) (concat lss).
Proof.
  induction 1 as [|ls c lss cs H _ IH]; [constructor |].
  cbn [flat_map concat]; apply Permutation_app; assumption.
Qed.

Lemma flat_map_Forall2_eq {A} (f : RankTree -> list A) cs (lss : list (list A)) :
  Forall2 (fun ls c => f c = ls) lss cs ->
  flat_map f cs = concat lss.
Proof.
  induction 1 as [|ls c lss cs H _ IH]; [reflexivity |].
  cbn [flat_map concat]; rewrite H, IH; reflexivity.
Qed.

(** * [label_unrank] on an unranked shape *)

Lemma zip3_combine {A B C} : forall (cs : list A) (rks : list B) (lss : list C),
  length rks = length cs ->
  map (fun x => (fst (fst x), snd x)) (zip3 cs rks lss) = combine cs lss.
Proof.
  induction cs as [|c cs IH]; intros [|r rks] [|tl lss] H; simpl in *; try lia;
    try reflexivity.
  f_equal; apply IH; lia.
Qed.

Lemma Forall2_Forall_l {A B} (R S : A -> B -> Prop) (P : A -> Prop) l ys :
  (forall x y, P x -> R x y -> S x y) ->
  Forall P l -> Forall2 R l ys -> Forall2 S l ys.
Proof.
  intros H HP HR; induction HR as [|x y l ys Hx _ IH]; constructor;
    inversion HP; subst; auto.
Qed.

Lemma label_unrank_on_leaf l :
  label_unrank_on (mkRankTree [] 1 [None] 0 None) 0 [l] =
  Ok (mkRankTree [] 1 [Some l] 0 (Some 0)).
Proof. vm_compute; reflexivity. Qed.

Lemma labelled_as_leaf l :
  labelled_as (mkRankTree [] 1 [None] 0 None) [l] 0
              (mkRankTree [] 1 [Some l] 0 (Some 0)).
Proof. repeat split; try reflexivity; repeat constructor. Qed.

Lemma add_label_ranks_eq t :
  add_label_ranks t =
  (cs' <- (fix go (cs : list RankTree) : result (list RankTree) :=
             match cs with
             | [] => Ok []
             | c :: cs0 =>
                 c' <- add_label_ranks c ;;
                 cs0' <- go cs0 ;;
                 Ok (c' :: cs0')
             end) (children t) ;;
   total <- add_label_ranks_loop (group_by cs' same_shape) (labels t) 0 ;;
   Ok (mkRankTree cs' (num_leaves t) (labels t) (_shape_rank t) (Some total))).
Proof. destruct t; reflexivity. Qed.

Lemma add_label_ranks_children cs :
  Forall (fun c => add_label_ranks c = Ok c) cs ->
  (fix go (cs : list RankTree) : result (list RankTree) :=
     match cs with
     | [] => Ok []
     | c :: cs0 =>
         c' <- add_label_ranks c ;;
         cs0' <- go cs0 ;;
         Ok (c' :: cs0')
     end) cs = Ok cs.
Proof.
  induction 1 as [|c cs H _ IH]; [reflexivity |].
  rewrite H; cbn [bind]; rewrite IH; reflexivity.
Qed.

Lemma groups_map_eq {A B} (f : A -> B) (gs : list (list A)) (xss : list (list B)) :
  Forall2 (fun g xs => length g = length xs) gs xss ->
  map f (concat gs) = concat xss -> map (map f) gs = xss.
Proof.
  intros Hl Hc; apply concat_inj_lengths.
  - clear Hc; induction Hl; constructor; [rewrite length_map |]; assumption.
  - rewrite <- concat_map; exact Hc.
Qed.

Lemma Forall2_map_r' {A B C} (f : B -> C) (l : list (list A)) (ys : list (list B)) :
  Forall2 (fun g xs => length g = length xs) l ys ->
  Forall2 (fun g xs => length g = length xs) l (map (map f) ys).
Proof. induction 1; constructor; [rewrite length_map |]; assumption. Qed.

Lemma Forall2_lengths_trans {A B C} (R1 : list A -> list B -> Prop)
  (R2 : list A -> list C -> Prop) gs gs' xss :
  (forall g g', R1 g g' -> length g' = length g) ->
  (forall g xs, R2 g xs -> length xs = length g) ->
  Forall2 R1 gs gs' -> Forall2 R2 gs xss ->
  Forall2 (fun g' xs => length g' = length xs) gs' xss.
Proof.
  intros H1 H2 HR1; revert xss; induction HR1 as [|g g' gs gs' Hg _ IH];
    intros xss HR2; inversion HR2; subst; constructor.
  - rewrite (H1 _ _ Hg); symmetry; apply H2; assumption.
  - apply IH; assumption.
Qed.

Lemma label_unrank_on_ok t :
  unranked t ->
  forall L rank,
  StronglySorted Z.lt L -> len L = num_leaves t ->
  0 <= rank < count_labellings t ->
  exists t', label_unrank_on t rank L = Ok t' /\ labelled_as t L rank t'.
Proof.
  induction 1 as [|kids n r part rss H1 H2 H3 H4 H5 H6 H7 H8 IH H9 H10]
    using unranked_ind'; intros L rank HL Hlen Hrank.
  - change (count_labellings (mkRankTree [] 1 [None] 0 None)) with 1 in Hrank.
    assert (rank = 0) by lia; subst rank.
    cbn [num_leaves] in Hlen.
    destruct L as [|l [|l' L]]; try (rewrite ?len_cons, ?len_nil in Hlen; lia).
    + exists (mkRankTree [] 1 [Some l] 0 (Some 0)).
      split; [apply label_unrank_on_leaf | apply labelled_as_leaf].
    + pose proof (len_nonneg L); rewrite !len_cons in Hlen; lia.
  - set (t := mkRankTree kids n (repeat None (Z.to_nat n)) r None) in *.
    assert (Hu : unranked t)
      by (apply (unranked_node kids n r part rss); assumption).
    destruct (unranked_node_not_leaf kids n part H3 H6) as [Hne Hne'].
    assert (Hleaf : is_leaf t = false).
    { unfold is_leaf, t; cbn [children]; apply Z.eqb_neq; exact Hne. }
    set (groups := group_by kids same_shape).
    assert (Hid : Forall identical groups).
    { rewrite Forall_forall; intros g Hg; apply (unranked_groups_identical kids g H8 Hg). }
    pose proof (group_by_concat kids same_shape) as Hcat; fold groups in Hcat.
    destruct (unranked_kids_fields kids n part H3 H6) as (Hl2 & Hsum & Hk).
    assert (Hleaves : leaves_of groups = n)
      by (rewrite (leaves_of_identical groups Hid), Hcat; exact Hsum).
    rewrite (count_labellings_node t Hu Hleaf) in Hrank.
    unfold group_children_by_shape in Hrank; cbn [children t] in Hrank.
    fold groups in Hrank.
    cbn [num_leaves t] in Hlen.
    destruct (children_label_ranks_loop_ok groups rank L [] [] Hid HL
                ltac:(lia) Hrank)
      as (clss & crss & Hloop & Hc1 & Hc2 & Hperm & Hzero & Henc).
    cbn [app] in Hloop.
    set (cls := concat clss) in *; set (crs := concat crss) in *.
    assert (E1 : Forall2 (fun c tl => len tl = num_leaves c /\ StronglySorted Z.lt tl)
                         kids cls).
    { rewrite <- Hcat; apply Forall2_group_elems; [exact Hid |].
      eapply Forall2_impl; [| exact Hc1]; cbv beta; tauto. }
    assert (E2 : Forall2 (fun c rk => 0 <= rk < count_labellings c) kids crs).
    { rewrite <- Hcat; apply Forall2_group_elems; [exact Hid |].
      eapply Forall2_impl; [| exact Hc2]; cbv beta; tauto. }
    destruct (zip3_maps _ _ kids crs cls E1 E2) as (M1 & M2 & M3 & MF).
    rewrite Forall_forall in IH, MF.
    destruct (Forall2_exists
                (fun x c' =>
                   label_unrank_on (fst (fst x)) (snd (fst x)) (snd x) = Ok c' /\
                   labelled_as (fst (fst x)) (snd x) (snd (fst x)) c')
                (zip3 kids crs cls)) as [kids' Hkids'].
    { intros x Hx; destruct (MF x Hx) as (Hin & (Hp1 & Hp2) & Hq).
      apply (IH _ Hin); assumption. }
    assert (Hgo : Forall2 (fun x c' =>
                     label_unrank_on (fst (fst x)) (snd (fst x)) (snd x) = Ok c')
                          (zip3 kids crs cls) kids')
      by (eapply Forall2_impl; [| exact Hkids']; cbv beta; tauto).
    assert (Fa : Forall2 (fun c c' => num_leaves c' = num_leaves c /\
                                      _shape_rank c' = _shape_rank c /\
                                      shape_equal c c' = true) kids kids').
    { rewrite <- M1; apply Forall2_map_l.
      eapply Forall2_impl; [| exact Hkids']; cbv beta.
      intros x c' (_ & A1 & A2 & _ & _ & A5 & _); auto. }
    assert (Fb : Forall2 (fun tl c' => labels c' = map Some tl /\
                                       Permutation (leaf_labels c') (map Some tl) /\
                                       is_canonical c' = Ok true) cls kids').
    { rewrite <- M3; apply Forall2_map_l.
      eapply Forall2_impl; [| exact Hkids']; cbv beta.
      intros x c' (_ & _ & _ & _ & A4 & _ & A6 & A7 & _); auto. }
    assert (Frel : Forall2 relabelled kids kids').
    { rewrite <- M1; apply Forall2_map_l.
      eapply Forall2_impl; [| exact Hkids']; cbv beta.
      intros x c' (_ & _ & _ & _ & _ & _ & _ & _ & _ & A9 & _); exact A9. }
    assert (Hlrk : map _label_rank kids' = map Some crs).
    { rewrite <- M2, map_map; apply Forall2_map_eq.
      eapply Forall2_impl; [| exact Hkids']; cbv beta.
      intros x c' (_ & _ & _ & A3 & _); exact A3. }
    assert (Hnl : map num_leaves kids' = map num_leaves kids).
    { apply Forall2_map_eq; eapply Forall2_impl; [| exact Fa]; cbv beta; tauto. }
    assert (Hlab : map labels kids' = map (map Some) cls).
    { apply Forall2_map_eq; eapply Forall2_impl; [| exact Fb]; cbv beta; tauto. }
    assert (Hmerge : heapq_merge (map labels kids') = Ok (map Some L)).
    { rewrite Hlab; apply heapq_merge_increasing; [exact HL | exact Hperm |].
      eapply Forall2_Forall_r; [| exact E1]; cbv beta; intros c tl _ [_ Hs]; exact Hs. }
    assert (Hlen' : length kids' = length kids)
      by (symmetry; apply (Forall2_length' _ _ _ Fa)).
    assert (Hne'' : kids' <> []) by (destruct kids'; [simpl in Hlen'; lia | discriminate]).
    assert (Hchain : key_chain 0 0 0 (map key_of kids')).
    { assert (Hkeys : map key_of kids' =
                 map (fun x => (num_leaves (fst x), _shape_rank (fst x), hd 0 (snd x)))
                     (combine kids cls)).
       { rewrite <- (zip3_combine kids crs cls), map_map; cbn [fst snd].
         - apply Forall2_map_eq.
           eapply Forall2_Forall_l; [| exact (proj2 (Forall_forall _ _) MF) | exact Hkids'].
           cbv beta; intros x c' (Hin & (Hp1 & _) & _) (_ & A1 & A2 & _ & A4 & _).
           unfold key_of, min_of; rewrite A1, A2, A4.
           destruct (snd x) as [|m tl]; [| reflexivity].
           rewrite Forall_forall in Hk; specialize (Hk _ Hin).
           rewrite len_nil in Hp1; lia.
         - symmetry; apply (Forall2_length' _ _ _ E2). }
       rewrite Hkeys; unfold cls; rewrite <- Hcat.
       apply key_chain_groups; try assumption.
       ++ apply group_by_maximal_runs.
       ++ rewrite Hcat; apply (unranked_shape_ordered kids n part rss); assumption.
       ++ destruct groups as [|[|c g] groups'] eqn:Eg; try exact I.
          left.
          assert (Hin : In c kids).
          { rewrite <- Hcat; cbn [concat app]; simpl; auto. }
          rewrite Forall_forall in Hk; specialize (Hk _ Hin); lia. }
    assert (Hheads : Forall (fun c => exists m ls, labels c = Some m :: ls) kids').
    { eapply Forall2_Forall_r with (l := cls);
         [| eapply Forall2_Forall_l with (P := fun tl => tl <> []);
            [| | exact Fb]].
       ++ cbv beta; intros tl c' _ H; exact H.
       ++ cbv beta; intros tl c' Htl (A & _).
          destruct tl as [|m tl]; [congruence |].
          exists m, (map Some tl); exact A.
       ++ eapply Forall2_Forall_r; [| exact E1]; cbv beta.
          intros c tl Hin [Hp _] ->.
          rewrite Forall_forall in Hk; specialize (Hk _ Hin).
          rewrite len_nil in Hp; lia. }
    exists (mkRankTree kids' n (map Some L) r (Some rank)).
    split.
    + rewrite label_unrank_on_eq, Hleaf.
      unfold group_children_by_shape, children_label_ranks; cbn [children t].
      fold groups; rewrite Hloop; cbn [bind].
      rewrite (label_children_ok kids crs cls kids' Hgo); cbn [bind].
      unfold RankTree_init; rewrite Hmerge; cbn [bind].
      rewrite Hnl, Hsum; reflexivity.
    + unfold labelled_as; cbn [num_leaves _shape_rank _label_rank labels t].
      split; [reflexivity | split; [reflexivity | split; [reflexivity |
        split; [reflexivity |]]]].
      split; [| split; [| split; [| split; [| split; [| split]]]]].
      * rewrite shape_equal_eq, Hleaf; cbn [andb children t].
        unfold len; rewrite Hlen', Z.eqb_refl; cbn [negb].
        apply all_shape_equal_of_Forall2.
        eapply Forall2_impl; [| exact Fa]; cbv beta; tauto.
      * rewrite is_canonical_eq; unfold is_leaf, len; cbn [children].
        destruct (Z.eqb_spec (Z.of_nat (length kids')) 0) as [? | _]; [lia |].
        rewrite (pairs_in_order_labelled kids' 0 0 0).
        -- cbn [bind]; apply all_canonical_of_Forall.
           eapply Forall2_Forall_r; [| exact Fb]; cbv beta; tauto.
        -- exact Hchain.
        -- exact Hheads.
      * rewrite leaf_labels_eq; cbn [children].
        destruct kids' as [|c0' ks'] eqn:Ek; [congruence |]; rewrite <- Ek in *.
        apply Permutation_trans with (concat (map (map Some) cls)).
        -- apply flat_map_Forall2_perm, Forall2_map_l.
           eapply Forall2_impl; [| exact Fb]; cbv beta; tauto.
        -- rewrite <- concat_map; apply Permutation_map; exact Hperm.
      * intros ->; destruct (Hzero eq_refl) as [Hcat0 Hz].
        rewrite leaf_labels_eq; cbn [children].
        destruct kids' as [|c0' ks'] eqn:Ek; [congruence |]; rewrite <- Ek in *.
        rewrite (flat_map_Forall2_eq leaf_labels kids' (map (map Some) cls)).
        -- rewrite <- concat_map; f_equal; exact Hcat0.
        -- apply Forall2_map_l; rewrite <- M3; apply Forall2_map_l.
           eapply Forall2_Forall_l with (P := fun x => snd (fst x) = 0);
             [| | exact Hkids'].
           ++ cbv beta; intros x c' Hx (_ & _ & _ & _ & _ & _ & _ & _ & A8 & _).
              apply A8; exact Hx.
           ++ assert (Hz' : Forall (eq 0) crs).
              { unfold crs; clear - Hz.
                induction Hz as [|rs crss Hrs _ IHz]; [constructor |].
                cbn [concat]; apply Forall_app; auto. }
              rewrite <- M2 in Hz'; rewrite Forall_map in Hz'.
              eapply Forall_impl; [| exact Hz']; cbv beta; intros; congruence.
      * unfold t; constructor; exact Frel.
      * rewrite add_label_ranks_eq; cbn [children labels num_leaves _shape_rank].
        rewrite (add_label_ranks_children kids').
        2:{ eapply Forall2_Forall_r; [| exact Hkids']; cbv beta.
            intros x c' _ (_ & _ & _ & _ & _ & _ & _ & _ & _ & _ & A10 & _); exact A10. }
        cbn [bind].
        pose proof (group_by_relabelled kids kids' Frel) as Hgrp; fold groups in Hgrp.
        pose proof (group_by_concat kids' same_shape) as Hcat'.
        rewrite (Henc (group_by kids' same_shape) 0 Hgrp).
        -- cbn [bind]; reflexivity.
        -- apply groups_map_eq.
           ++ apply Forall2_map_r'.
              eapply (Forall2_lengths_trans (Forall2 relabelled)); [| | exact Hgrp | exact Hc1].
              ** intros g g' Hg; symmetry; apply (Forall2_length' _ _ _ Hg).
              ** cbv beta; intros g xs (Hl & _); exact Hl.
           ++ rewrite Hcat', <- concat_map; exact Hlab.
        -- apply groups_map_eq.
           ++ apply Forall2_map_r'.
              eapply (Forall2_lengths_trans (Forall2 relabelled)); [| | exact Hgrp | exact Hc2].
              ** intros g g' Hg; symmetry; apply (Forall2_length' _ _ _ Hg).
              ** cbv beta; intros g xs (Hl & _); exact Hl.
           ++ rewrite Hcat', <- concat_map; exact Hlrk.
      * apply built_node; try assumption.
        -- eapply Forall2_Forall_r; [| exact Hkids']; cbv beta.
           intros x c' _ (_ & _ & _ & _ & _ & _ & _ & _ & _ & _ & _ & A11); exact A11.
        -- rewrite Hnl; exact Hsum.
        -- rewrite (compute_shape_rank_of_relabelled kids kids' n Frel); exact H10.
Qed.

(** * [RankTree.unrank] on the ranks of [n] leaves *)

Lemma range_increasing : forall (k : nat) a b,
  Z.to_nat (b - a) = k -> StronglySorted Z.lt (range a b).
Proof.
  induction k as [|k IH]; intros a b Hk.
  - rewrite range_empty by lia; constructor.
  - rewrite range_cons by lia; constructor; [apply IH; lia |].
    rewrite Forall_forall; intros x Hx; apply in_range in Hx; lia.
Qed.

Lemma len_range n : 0 <= n -> len (range 0 n) = n.
Proof. intros Hn; unfold len; rewrite range_length; lia. Qed.

(** The tree of a shape rank and a label rank in range. *)
Lemma RankTree_unrank_ok shape_rank label_rank n :
  0 <= shape_rank < num_shapes n ->
  exists t N,
    RankTree_shape_unrank shape_rank n = Ok t /\ unranked t /\
    num_leaves t = n /\ _shape_rank t = shape_rank /\
    num_labellings shape_rank n = Ok N /\ 1 <= N /\
    (0 <= label_rank < N ->
     exists t', RankTree_unrank (shape_rank, label_rank) n = Ok t' /\
                labelled_as t (range 0 n) label_rank t').
Proof.
  intros Hr.
  destruct (shape_unrank_unranked shape_rank n Hr) as (t & Ht & Hu & Hn & Hs).
  destruct (num_labellings_unranked t Hu) as [HN HN1].
  exists t, (count_labellings t).
  unfold num_labellings, RankTree_unrank; rewrite Ht; cbn [bind].
  repeat split; try assumption.
  intros Hl; unfold RankTree_label_unrank; rewrite Hn.
  pose proof (in_range_positive _ _ Hr) as Hn1.
  apply label_unrank_on_ok; try assumption.
  - apply (range_increasing (Z.to_nat n)); lia.
  - rewrite Hn; apply len_range; lia.
Qed.

(** * Ranking does not read cached label ranks *)

Lemma forget_label_ranks_fields t :
  children (forget_label_ranks t) = map forget_label_ranks (children t) /\
  num_leaves (forget_label_ranks t) = num_leaves t /\
  labels (forget_label_ranks t) = labels t /\
  _shape_rank (forget_label_ranks t) = _shape_rank t /\
  _label_rank (forget_label_ranks t) = None.
Proof. destruct t; repeat split. Qed.

Lemma add_label_ranks_forget t :
  add_label_ranks (forget_label_ranks t) = add_label_ranks t.
Proof.
  induction t as [cs n ls sr lr IH] using RankTree_ind'.
  rewrite !add_label_ranks_eq.
  cbn [forget_label_ranks children labels num_leaves _shape_rank].
  assert (E : forall l : list RankTree,
            Forall (fun t => add_label_ranks (forget_label_ranks t) = add_label_ranks t) l ->
            (fix go (cs : list RankTree) : result (list RankTree) :=
               match cs with
               | [] => Ok []
               | c :: cs0 =>
                   c' <- add_label_ranks c ;;
                   cs0' <- go cs0 ;;
                   Ok (c' :: cs0')
               end) (map forget_label_ranks l) =
            (fix go (cs : list RankTree) : result (list RankTree) :=
               match cs with
               | [] => Ok []
               | c :: cs0 =>
                   c' <- add_label_ranks c ;;
                   cs0' <- go cs0 ;;
                   Ok (c' :: cs0')
               end) l).
  { induction 1 as [|c l Hc _ IHl]; [reflexivity |].
    cbn [map]; rewrite Hc, IHl; reflexivity. }
  rewrite (E cs IH); reflexivity.
Qed.

(** The rank of a tree whose label ranks [add_label_ranks] finds again,
    computed without them. *)
Lemma RankTree_rank_forget t lr :
  add_label_ranks t = Ok t -> _label_rank t = Some lr ->
  RankTree_rank (forget_label_ranks t) = Ok (_shape_rank t, lr).
Proof.
  intros Ha Hl.
  destruct (forget_label_ranks_fields t) as (_ & _ & _ & Hs & Hn).
  unfold RankTree_rank, RankTree_label_rank, RankTree_shape_rank.
  rewrite Hn, add_label_ranks_forget, Ha; cbn [bind].
  unfold label_rank_int; rewrite Hl, Hs; reflexivity.
Qed.

(** * Label unranking at any label rank *)



Lemma returns_or_rejects_impl {A} (P Q : A -> Prop) (c : result A) :
  returns_or_rejects P c -> (forall a, c = Ok a -> P a -> Q a) ->
  returns_or_rejects Q c.
Proof.
  intros [(a & E & Ha) | H] Hi; [left; exists a; split; auto | right; exact H].
Qed.

Lemma returns_or_rejects_Ok {A} (P : A -> Prop) (c : result A) a :
  returns_or_rejects P c -> c = Ok a -> P a.
Proof.
  intros [(a' & E & Ha) | [E | E]] E'; rewrite E in E';
    [injection E' as <-; exact Ha | discriminate | discriminate].
Qed.




(** * [label_unrank] at any label rank *)






(** * Label unranking at a negative label rank *)

(** A rank that is not positive is below every count of combinations, so
    [Combination.unrank] takes the first [k] elements. *)
Lemma unrank_fuel_nonpos {A} : forall fuel rank (E : list A) k,
  rank <= 0 -> 0 <= k -> (Z.to_nat k + 1 <= fuel)%nat ->
  Combination.unrank_fuel fuel rank E k = Ok (firstn (Z.to_nat k) E).
Proof.
  induction fuel as [|fuel IH]; intros rank E k Hr Hk Hf; [lia |].
  rewrite unrank_fuel_S.
  destruct (Z.eqb_spec k 0) as [-> | Hk0]; [reflexivity |].
  pose proof (comb_pos (len E - 1) (k - 1)) as Hp.
  destruct (Z.ltb_spec rank (Combination.comb (len E - 1) (k - 1))) as [_ | ?]; [| lia].
  rewrite IH by lia; simpl.
  replace (Z.to_nat k) with (S (Z.to_nat (k - 1))) by lia.
  destruct E as [|e E]; [| reflexivity].
  rewrite slice_from_1_nil, slice_to_1_nil, firstn_nil; reflexivity.
Qed.

Lemma unrank_nonpos {A} rank (E : list A) k :
  rank <= 0 -> 0 <= k ->
  Combination.unrank rank E k = Combination.unrank 0 E k.
Proof.
  intros Hr Hk; unfold Combination.unrank.
  rewrite !unrank_fuel_nonpos by lia; reflexivity.
Qed.

(** The first round of the loop of [children_label_ranks] reads a negative
    rank as it reads its remainder by the number of labellings of the groups
    for one choice of the labels of the first group. *)
Lemma children_label_ranks_loop_negative g rest s L cl cr :
  Forall identical (g :: rest) -> s < 0 ->
  children_label_ranks_loop (g :: rest) s L cl cr =
  children_label_ranks_loop (g :: rest)
    (s mod (count_group g * count_groups rest)) L cl cr.
Proof.
  intros Hid Hs.
  rewrite !children_label_ranks_loop_S; cbv zeta.
  inversion Hid as [|? ? Hg Hgs]; subst.
  destruct (num_group_labellings_ok g Hg) as (Eg & Eg' & Hg1).
  destruct (num_list_of_group_labellings_ok rest Hgs) as (Egs & Hgs1).
  rewrite Eg, Egs; cbn [bind].
  set (k := num_leaves (first g)) in *.
  set (ng := count_group g) in *; set (nr := count_groups rest) in *.
  destruct Hg as (Hne & Hall & Hu).
  destruct (unranked_fields _ Hu) as (_ & Hk & _); fold k in Hk.
  pose proof (len_nonneg g) as Hlg.
  assert (Hp : 0 < ng * nr) by nia.
  repeat (rewrite ?floordiv_ok, ?pymod_ok by nia; cbn [bind]).
  rewrite Z.mod_mod by lia.
  rewrite (Z.mod_mod_divide s (ng * nr) nr) by (exists ng; reflexivity).
  rewrite (Z.div_small (s mod (ng * nr)) (ng * nr)) by (apply Z.mod_pos_bound; lia).
  rewrite (unrank_nonpos (s / (ng * nr))); [reflexivity | | nia].
  assert (s / (ng * nr) < 0) by (apply Z.div_lt_upper_bound; lia); lia.
Qed.

Lemma RankTree_init_label_rank sr s s' kids lbl :
  RankTree_init sr (Some s) kids lbl =
  (t' <- RankTree_init sr (Some s') kids lbl ;; Ok (with_label_rank s t')).
Proof.
  unfold RankTree_init; destruct kids as [c |];
    [destruct (heapq_merge (map labels c)) |]; reflexivity.
Qed.

(** [label_unrank] reads a negative label rank, at a node, as it reads
    that remainder, and caches the negative rank on the tree it returns. *)
Lemma label_unrank_on_negative t g rest s L :
  is_leaf t = false -> group_children_by_shape t = g :: rest ->
  Forall identical (g :: rest) -> s < 0 ->
  label_unrank_on t s L =
  (t' <- label_unrank_on t (s mod (count_group g * count_groups rest)) L ;;
   Ok (with_label_rank s t')).
Proof.
  intros Hl Hg Hid Hs; rewrite !label_unrank_on_eq, Hl, Hg.
  unfold children_label_ranks.
  rewrite (children_label_ranks_loop_negative g rest s L [] [] Hid Hs).
  destruct (children_label_ranks_loop _ _ _ _ _) as [[cls crs] | e];
    cbn [bind]; [| reflexivity].
  match goal with |- bind ?c _ = _ => destruct c end; cbn [bind]; [| reflexivity].
  apply RankTree_init_label_rank.
Qed.

(** * Sorting children by the canonical order *)

Lemma key_lt_keyed a b :
  key_lt (fst (keyed a)) (fst (keyed b)) = Ok true /\ key_before (key_of a) (key_of b) \/
  key_lt (fst (keyed a)) (fst (keyed b)) = Ok false /\
    (key_of a = key_of b \/ key_before (key_of b) (key_of a)).
Proof.
  unfold keyed, key_of, key_before, key_lt; cbn [fst].
  destruct (Z.eqb_spec (num_leaves a) (num_leaves b)) as [E1 | E1]; cbn [negb].
  - destruct (Z.eqb_spec (_shape_rank a) (_shape_rank b)) as [E2 | E2]; cbn [negb].
    + destruct (Z.ltb_spec (min_of a) (min_of b)); [left | right]; split;
        try reflexivity; [lia |].
      destruct (Z.eq_dec (min_of a) (min_of b)) as [E3 | E3];
        [left; congruence | right; lia].
    + destruct (Z.ltb_spec (_shape_rank a) (_shape_rank b)); [left | right]; split;
        try reflexivity; lia.
  - destruct (Z.ltb_spec (num_leaves a) (num_leaves b)); [left | right]; split;
      try reflexivity; lia.
Qed.

Lemma key_before_trans a b c :
  key_before a b -> key_before b c -> key_before a c.
Proof.
  destruct a as [[k1 r1] m1], b as [[k2 r2] m2], c as [[k3 r3] m3].
  unfold key_before; lia.
Qed.

Lemma key_before_irrefl a : ~ key_before a a.
Proof. destruct a as [[k1 r1] m1]; unfold key_before; lia. Qed.

Lemma insert_by_key_sorted x : forall s,
  StronglySorted (fun a b => key_before (key_of a) (key_of b)) s ->
  (forall y, In y s -> key_of y <> key_of x) ->
  exists s',
    insert_by_key (keyed x) (map keyed s) = Ok (map keyed s') /\
    Permutation (x :: s) s' /\
    StronglySorted (fun a b => key_before (key_of a) (key_of b)) s'.
Proof.
  induction s as [|y s IH]; intros Hs Hd.
  - exists [x]; repeat split; repeat constructor.
  - cbn [map insert_by_key].
    apply StronglySorted_inv in Hs; destruct Hs as [Hs Hy].
    destruct (key_lt_keyed y x) as [[E Hlt] | [E [Heq | Hlt]]]; rewrite E; cbn [bind].
    + destruct (IH Hs) as (s' & E' & Hp & Hs');
        [intros z Hz; apply Hd; simpl; auto |].
      rewrite E'; cbn [bind].
      exists (y :: s'); split; [reflexivity | split].
      * apply Permutation_trans with (y :: x :: s); [apply perm_swap |].
        apply perm_skip; exact Hp.
      * constructor; [exact Hs' |].
        rewrite Forall_forall in Hy |- *; intros z Hz.
        apply (Permutation_in _ (Permutation_sym Hp)) in Hz.
        destruct Hz as [<- | Hz]; [exact Hlt | apply Hy; exact Hz].
    + exfalso; apply (Hd y); simpl; auto.
    + exists (x :: y :: s); split; [reflexivity | split; [apply Permutation_refl |]].
      constructor; [constructor; assumption |].
      constructor; [exact Hlt |].
      rewrite Forall_forall in Hy |- *; intros z Hz.
      apply (key_before_trans _ (key_of y)); [exact Hlt | apply Hy; exact Hz].
Qed.

Lemma sort_by_key_sorted : forall l,
  NoDup (map key_of l) ->
  exists s',
    sort_by_key (map keyed l) = Ok (map keyed s') /\
    Permutation l s' /\
    StronglySorted (fun a b => key_before (key_of a) (key_of b)) s'.
Proof.
  induction l as [|x l IH]; intros Hnd.
  - exists []; repeat split; constructor.
  - cbn [map] in Hnd; apply NoDup_cons_iff in Hnd; destruct Hnd as [Hx Hnd].
    destruct (IH Hnd) as (s & E & Hp & Hs).
    cbn [map sort_by_key]; rewrite E; cbn [bind].
    destruct (insert_by_key_sorted x s Hs) as (s' & E' & Hp' & Hs').
    { intros y Hy Heq; apply Hx; rewrite <- Heq; apply in_map.
      apply (Permutation_in _ (Permutation_sym Hp)); exact Hy. }
    exists s'; split; [exact E' | split; [| exact Hs']].
    apply Permutation_trans with (x :: s); [apply perm_skip; exact Hp | exact Hp'].
Qed.

Lemma sorted_keys_unique : forall s1 s2 : list RankTree,
  StronglySorted (fun a b => key_before (key_of a) (key_of b)) s1 ->
  StronglySorted (fun a b => key_before (key_of a) (key_of b)) s2 ->
  Permutation s1 s2 -> s1 = s2.
Proof.
  induction s1 as [|a s1 IH]; intros s2 H1 H2 Hp.
  - apply Permutation_nil in Hp; congruence.
  - destruct s2 as [|b s2]; [apply Permutation_sym, Permutation_nil in Hp; discriminate |].
    apply StronglySorted_inv in H1; destruct H1 as [H1 Ha].
    apply StronglySorted_inv in H2; destruct H2 as [H2 Hb].
    rewrite Forall_forall in Ha, Hb.
    assert (a = b).
    { assert (Ia : In a (b :: s2)) by (apply (Permutation_in _ Hp); simpl; auto).
      assert (Ib : In b (a :: s1))
        by (apply (Permutation_in _ (Permutation_sym Hp)); simpl; auto).
      destruct Ia as [-> | Ia]; [reflexivity |].
      destruct Ib as [-> | Ib]; [reflexivity |].
      exfalso; apply (key_before_irrefl (key_of a)).
      apply (key_before_trans _ (key_of b)); [apply Ha | apply Hb]; assumption. }
    subst b; f_equal; apply IH; try assumption.
    apply (Permutation_cons_inv Hp).
Qed.

Lemma key_chain_sorted : forall cs k0 r0 m0,
  key_chain k0 r0 m0 (map key_of cs) ->
  StronglySorted (fun a b => key_before (key_of a) (key_of b)) cs /\
  Forall (fun c => key_before (k0, r0, m0) (key_of c)) cs.
Proof.
  induction cs as [|c cs IH]; intros k0 r0 m0 H; [split; constructor |].
  cbn [map key_chain] in H.
  destruct (key_of c) as [[k r] m] eqn:Ec.
  destruct H as [Hlt H].
  destruct (IH k r m H) as [Hs Hall].
  split; constructor.
  - exact Hs.
  - rewrite Ec; exact Hall.
  - rewrite Ec; exact Hlt.
  - eapply Forall_impl; [| exact Hall]; cbv beta; intros a Ha.
    apply (key_before_trans _ (k, r, m)); [exact Hlt | exact Ha].
Qed.

Lemma sorted_keys_NoDup : forall cs,
  StronglySorted (fun a b => key_before (key_of a) (key_of b)) cs ->
  NoDup (map key_of cs).
Proof.
  induction 1 as [|c cs _ IH Hc]; cbn [map]; constructor; [| exact IH].
  rewrite in_map_iff; intros (y & Ey & Hy).
  rewrite Forall_forall in Hc; specialize (Hc y Hy).
  rewrite Ey in Hc; exact (key_before_irrefl _ Hc).
Qed.

Lemma mapM_canonical_order : forall l,
  Forall (fun c => exists m ls, labels c = Some m :: ls) l ->
  mapM canonical_order l = Ok (map (fun c => fst (keyed c)) l).
Proof.
  induction 1 as [|c l (m & ls & Hc) _ IH]; [reflexivity |].
  cbn [mapM map]; rewrite (canonical_order_labelled c m ls Hc), IH; reflexivity.
Qed.

Lemma combine_keyed l :
  combine (map (fun c => fst (keyed c)) l) l = map keyed l.
Proof. induction l as [|c l IH]; [reflexivity |]; cbn [map combine]; rewrite IH; reflexivity. Qed.

Lemma map_snd_keyed l : map snd (map keyed l) = l.
Proof. induction l as [|c l IH]; [reflexivity |]; cbn [map snd keyed]; rewrite IH; reflexivity. Qed.

(** [sorted(..., key=RankTree.canonical_order)] puts labelled trees whose
    keys differ in the one order in which the keys increase. *)
Lemma sorted_canonical_perm l s :
  Permutation s l ->
  key_chain 0 0 0 (map key_of s) ->
  Forall (fun c => exists m ls, labels c = Some m :: ls) s ->
  sorted_canonical l = Ok s.
Proof.
  intros Hp Hc Hh.
  destruct (key_chain_sorted s 0 0 0 Hc) as [Hs _].
  assert (Hnd : NoDup (map key_of l)).
  { apply (Permutation_NoDup (l := map key_of s));
      [apply Permutation_map; exact Hp | apply sorted_keys_NoDup; exact Hs]. }
  assert (Hh' : Forall (fun c => exists m ls, labels c = Some m :: ls) l).
  { rewrite Forall_forall in Hh |- *; intros c Hin; apply Hh.
    apply (Permutation_in _ (Permutation_sym Hp)); exact Hin. }
  destruct (sort_by_key_sorted l Hnd) as (s' & E & Hp' & Hs').
  unfold sorted_canonical.
  rewrite (mapM_canonical_order l Hh'); cbn [bind].
  rewrite combine_keyed, E; cbn [bind].
  rewrite map_snd_keyed; f_equal.
  apply sorted_keys_unique; try assumption.
  apply Permutation_sym, (Permutation_trans Hp); exact Hp'.
Qed.

(** * Trees of [tskit] that present a labelled tree *)

Lemma built_ind' (P : RankTree -> Prop) :
  (forall l lr, P (mkRankTree [] 1 [Some l] 0 lr)) ->
  (forall cs n ls sr lr,
     cs <> [] -> Forall built cs -> Forall P cs ->
     key_chain 0 0 0 (map key_of cs) ->
     Forall (fun c => exists m ls', labels c = Some m :: ls') cs ->
     heapq_merge (map labels cs) = Ok ls ->
     sum (map num_leaves cs) = n ->
     compute_shape_rank_of cs n = sr ->
     P (mkRankTree cs n ls sr lr)) ->
  forall t, built t -> P t.
Proof.
  intros Hleaf Hnode; fix IH 2; intros t [l lr | cs n ls sr lr H1 H2 H3 H4 H5 H6 H7].
  - apply Hleaf.
  - apply Hnode; try assumption.
    clear - IH H2; induction H2 as [|c cs Hc _ IHk]; constructor;
      [apply IH; exact Hc | exact IHk].
Qed.

Lemma from_tsk_tree_node_eq u kids :
  from_tsk_tree_node (tsk_node u kids) =
  if len kids =? 0 then RankTree_init None None None (Some u)
  else
    cs <- (fix go (kids : list TskNode) : result (list RankTree) :=
             match kids with
             | [] => Ok []
             | c :: kids' =>
                 t <- from_tsk_tree_node c ;;
                 ts <- go kids' ;;
                 Ok (t :: ts)
             end) kids ;;
    cs <- sorted_canonical cs ;;
    RankTree_init None None (Some cs) None.
Proof. reflexivity. Qed.

Lemma from_tsk_tree_children ks : forall cs,
  Forall2 (fun k c => from_tsk_tree_node k = Ok (forget_label_ranks c)) ks cs ->
  (fix go (kids : list TskNode) : result (list RankTree) :=
     match kids with
     | [] => Ok []
     | c :: kids' =>
         t <- from_tsk_tree_node c ;;
         ts <- go kids' ;;
         Ok (t :: ts)
     end) ks = Ok (map forget_label_ranks cs).
Proof.
  induction 1 as [|k c ks cs Hk _ IH]; [reflexivity |].
  rewrite Hk; cbn [bind]; rewrite IH; reflexivity.
Qed.

Lemma relabelled_forget t : relabelled t (forget_label_ranks t).
Proof.
  induction t as [cs n ls sr lr IH] using RankTree_ind'.
  cbn [forget_label_ranks]; constructor.
  induction IH as [|c cs Hc _ IHcs]; constructor; assumption.
Qed.

Lemma key_of_forget t : key_of (forget_label_ranks t) = key_of t.
Proof. destruct t; reflexivity. Qed.

Lemma labels_forget t : labels (forget_label_ranks t) = labels t.
Proof. destruct t; reflexivity. Qed.

Lemma num_leaves_forget t : num_leaves (forget_label_ranks t) = num_leaves t.
Proof. destruct t; reflexivity. Qed.

(** [from_tsk_tree_node] builds, from nodes that present a built tree in
    any order of the children, that tree without its label ranks. *)
Lemma from_tsk_tree_node_presents t :
  built t ->
  forall k, presents k t -> from_tsk_tree_node k = Ok (forget_label_ranks t).
Proof.
  induction 1 as [l lr | cs n ls sr lr H1 H2 IH H3 H4 H5 H6 H7] using built_ind';
    intros k Hk.
  - inversion Hk as [u n0 sr0 lr0 | u ks cs0 cs' n0 ls0 sr0 lr0 Hne]; subst;
      [| congruence].
    vm_compute; reflexivity.
  - inversion Hk as [u n0 sr0 lr0 | u ks cs0 cs' n0 ls0 sr0 lr0 Hne Hp Hks]; subst;
      [congruence |].
    rewrite from_tsk_tree_node_eq.
    assert (Hlen : length ks = length cs).
    { rewrite (Forall2_length Hks); symmetry; apply Permutation_length; exact Hp. }
    destruct (Z.eqb_spec (len ks) 0) as [E | _].
    { unfold len in E; destruct cs; [congruence | simpl in Hlen; lia]. }
    assert (IH' : Forall (fun c => forall k, presents k c ->
                     from_tsk_tree_node k = Ok (forget_label_ranks c)) cs').
    { rewrite Forall_forall in IH |- *; intros c Hc; apply IH.
      apply (Permutation_in _ (Permutation_sym Hp)); exact Hc. }
    rewrite (from_tsk_tree_children ks cs').
    2:{ clear - Hks IH'; induction Hks as [|k c ks cs' Hk _ IHk]; constructor.
        - apply (Forall_inv IH'); exact Hk.
        - apply IHk; exact (Forall_inv_tail IH'). }
    cbn [bind].
    rewrite (sorted_canonical_perm (map forget_label_ranks cs')
               (map forget_label_ranks cs)).
    + cbn [bind]; unfold RankTree_init.
      rewrite map_map, (map_ext _ labels labels_forget), H5; cbn [bind].
      rewrite map_map, (map_ext _ num_leaves num_leaves_forget).
      cbn [forget_label_ranks]; do 2 f_equal.
      apply compute_shape_rank_of_relabelled.
      clear; induction cs as [|c cs IHc]; constructor;
        [apply relabelled_forget | exact IHc].
    + apply Permutation_map; exact Hp.
    + rewrite map_map, (map_ext _ key_of key_of_forget); exact H3.
    + rewrite Forall_map; eapply Forall_impl; [| exact H4]; cbv beta.
      intros c Hc; rewrite labels_forget; exact Hc.
Qed.

(** Every built tree is presented, by the nodes that have the children in
    its own order for one. *)
Lemma presents_exists t : built t -> exists k, presents k t.
Proof.
  induction 1 as [l lr | cs n ls sr lr H1 H2 IH H3 H4 H5 H6 H7] using built_ind'.
  - exists (tsk_node l []); constructor.
  - assert (E : exists ks, Forall2 presents ks cs).
    { clear - IH; induction IH as [|c cs (k & Hk) _ (ks & Hks)];
        [exists []; constructor | exists (k :: ks); constructor; assumption]. }
    destruct E as (ks & Hks).
    exists (tsk_node 0 ks); apply (presents_node 0 ks cs cs); auto.
Qed.

(** * [RankTree.equal] on built trees *)

Lemma equal_eq t other :
  equal t other =
  if is_leaf t && is_leaf other then
    l1 <- min_label t ;;
    l2 <- min_label other ;;
    Ok (label_eqb l1 l2)
  else if negb (len (children t) =? len (children other)) then Ok false
  else
    (fix all_equal (cs os : list RankTree) : result bool :=
       match cs, os with
       | c1 :: cs', c2 :: os' =>
           b <- equal c1 c2 ;;
           if b then all_equal cs' os' else Ok false
       | _, _ => Ok true
       end) (children t) (children other).
Proof. destruct t; reflexivity. Qed.

Lemma all_equal_built : forall cs os,
  Forall (fun c => forall o, built o ->
            exists b, equal c o = Ok b /\
                      (b = true <-> forget_label_ranks c = forget_label_ranks o)) cs ->
  Forall built os ->
  length cs = length os ->
  exists b,
    (fix all_equal (cs os : list RankTree) : result bool :=
       match cs, os with
       | c1 :: cs', c2 :: os' =>
           b <- equal c1 c2 ;;
           if b then all_equal cs' os' else Ok false
       | _, _ => Ok true
       end) cs os = Ok b /\
    (b = true <-> map forget_label_ranks cs = map forget_label_ranks os).
Proof.
  induction cs as [|c cs IH]; intros [|o os] Hcs Hos Hlen; try discriminate.
  - exists true; split; [reflexivity | split; reflexivity].
  - inversion Hcs as [|? ? Hc Hcs']; subst.
    inversion Hos as [|? ? Ho Hos']; subst.
    destruct (Hc o Ho) as (b & E & Hb); rewrite E; cbn [bind].
    destruct b.
    + destruct (IH os Hcs' Hos' ltac:(simpl in Hlen; lia)) as (b' & E' & Hb').
      exists b'; split; [exact E' |].
      cbn [map]; split.
      * intros H; f_equal; [apply Hb; reflexivity | apply Hb'; exact H].
      * intros H; injection H as _ H; apply Hb'; exact H.
    + exists false; split; [reflexivity |].
      cbn [map]; split; [discriminate |].
      intros H; injection H as H _; apply Hb; exact H.
Qed.

Lemma built_node_fields cs n ls sr lr :
  built (mkRankTree cs n ls sr lr) -> cs <> [] ->
  heapq_merge (map labels (map forget_label_ranks cs)) = Ok ls /\
  sum (map num_leaves (map forget_label_ranks cs)) = n /\
  compute_shape_rank_of (map forget_label_ranks cs) n = sr.
Proof.
  intros H Hne; inversion H as [| ? ? ? ? ? H1 H2 H3 H4 H5 H6 H7]; subst;
    [congruence |].
  rewrite !map_map, (map_ext _ labels labels_forget),
    (map_ext _ num_leaves num_leaves_forget).
  repeat split; try assumption.
  apply compute_shape_rank_of_relabelled.
  clear; induction cs as [|c cs IHc]; constructor;
    [apply relabelled_forget | exact IHc].
Qed.

(** [equal] returns on built trees, and returns [True] exactly for trees
    that differ by their label ranks at most. *)
Lemma equal_built t :
  built t ->
  forall o, built o ->
  exists b, equal t o = Ok b /\
            (b = true <-> forget_label_ranks t = forget_label_ranks o).
Proof.
  induction 1 as [l lr | cs n ls sr lr H1 H2 IH H3 H4 H5 H6 H7] using built_ind';
    intros o Ho.
  - destruct Ho as [l' lr' | cs' n' ls' sr' lr' G1 G2 G3 G4 G5 G6 G7].
    + exists (l =? l'); split; [reflexivity |].
      cbn [forget_label_ranks map]; rewrite Z.eqb_eq; split;
        [intros ->; reflexivity | intros H; injection H as ->; reflexivity].
    + rewrite equal_eq; unfold is_leaf; cbn [children].
      destruct cs' as [|c' cs']; [congruence |].
      change (len [] =? 0) with true; cbn [andb].
      destruct (Z.eqb_spec (len (c' :: cs')) 0) as [E | _];
        [rewrite len_cons in E; pose proof (len_nonneg cs'); lia |].
      cbv iota.
      destruct (Z.eqb_spec (len (@nil RankTree)) (len (c' :: cs'))) as [E | _];
        [rewrite len_cons, len_nil in E; pose proof (len_nonneg cs'); lia |].
      exists false; split; [reflexivity | split; discriminate].
  - assert (Hb : built (mkRankTree cs n ls sr lr))
      by (apply built_node; assumption).
    destruct (built_node_fields cs n ls sr lr Hb H1) as (F1 & F2 & F3).
    rewrite equal_eq; unfold is_leaf; cbn [children].
    assert (Hlen : len cs <> 0).
    { destruct cs as [|c0 cs0]; [congruence |].
      rewrite len_cons; pose proof (len_nonneg cs0); lia. }
    destruct (Z.eqb_spec (len cs) 0) as [E | _]; [congruence |].
    cbn [andb]; cbv iota.
    destruct o as [os n' ls' sr' lr'].
    cbn [children].
    destruct (Z.eqb_spec (len cs) (len os)) as [E | E]; cbn [negb].
    + assert (Hos : os <> [])
        by (intros ->; rewrite len_nil in E; congruence).
      destruct (built_node_fields os n' ls' sr' lr' Ho Hos) as (G1 & G2 & G3).
      assert (Hbo : Forall built os)
        by (inversion Ho; subst; [congruence | assumption]).
      destruct (all_equal_built cs os IH Hbo ltac:(unfold len in E; lia))
        as (b & Eb & Hbb).
      exists b; split; [exact Eb |].
      rewrite Hbb; cbn [forget_label_ranks]; split.
      * intros Hm; rewrite Hm in F1, F2, F3 |- *.
        assert (El : ls = ls') by congruence.
        assert (En : n = n') by congruence.
        assert (Es : sr = sr') by (rewrite <- F3, <- G3, En; reflexivity).
        rewrite El, En, Es; reflexivity.
      * intros Hm; injection Hm as Hm _; exact Hm.
    + exists false; split; [reflexivity | split; [discriminate |]].
      cbn [forget_label_ranks]; intros Hm; injection Hm as Hm _.
      exfalso; apply E; unfold len.
      rewrite <- (length_map forget_label_ranks cs), Hm, length_map; reflexivity.
Qed.

(** * The claims of the specification *)

(** * The four rank/unrank pairs are inverses *)

(** C2.  Over a duplicate-free list of elements [E] compared by a
    decidable equality, and over the integers below [n]:
    - ranking a combination [x] of [E] (elements of [E] in their order in
      [E]) gives a rank below [comb (len E) (len x)], and unranking that rank
      gives [x] back;
    - unranking any rank below [comb (len E) k] returns a list whose rank is
      the rank given, a combination of [E] of size [k] when [k <= len E];
    - ranking a non-decreasing list [c] of integers of [[0, n)] gives a rank
      below [comb_with_replacement n (len c)], and unranking it gives [c]
      back;
    - unranking any rank below [comb_with_replacement n k] returns a list of
      length [k] whose rank is the rank given, a non-decreasing list over
      [[0, n)] when [1 <= n].
    None of the calls raises or runs out of fuel. *)
Theorem rank_unrank_inverse {A} (eqb : A -> A -> bool) (E : list A) (n : Z) :
  (forall x y, eqb x y = true <-> x = y) ->
  NoDup E ->
  (forall x, subseq x E ->
     exists r, Combination.rank eqb x E = Ok r /\
               0 <= r < Combination.comb (len E) (len x) /\
               Combination.unrank r E (len x) = Ok x) /\
  (forall k r, 0 <= k -> 0 <= r < Combination.comb (len E) k ->
     exists x, Combination.unrank r E k = Ok x /\
               Combination.rank eqb x E = Ok r /\
               (k <= len E -> subseq x E /\ len x = k)) /\
  (forall c, nondecreasing 0 n c ->
     exists r, Combination.with_replacement_rank_checked c n = Ok r /\
               Combination.with_replacement_rank c n = r /\
               0 <= r < Combination.comb_with_replacement n (len c) /\
               Combination.with_replacement_unrank r n (len c) = Ok c) /\
  (forall k r, 0 <= k -> 0 <= r < Combination.comb_with_replacement n k ->
     exists c, Combination.with_replacement_unrank r n k = Ok c /\
               Combination.with_replacement_rank_checked c n = Ok r /\
               Combination.with_replacement_rank c n = r /\
               len c = k /\
               (1 <= n -> nondecreasing 0 n c)).
Proof.
  intros Heq Hnd; repeat split.
  - intros x Hx; apply unrank_rank; assumption.
  - intros k r Hk Hr.
    destruct (Z_le_gt_dec k (len E)) as [Hle | Hgt].
    + destruct (rank_unrank eqb Heq E k r Hnd ltac:(lia) Hr)
        as (x & Hu & Hs & Hl & Hrk).
      exists x; auto.
    + rewrite comb_out in Hr by lia.
      assert (r = 0) as -> by lia.
      exists E; rewrite unrank_zero by lia.
      rewrite firstn_all2 by (unfold len in Hgt; lia).
      repeat split; try lia.
      apply rank_all; assumption.
  - intros c Hc.
    unfold Combination.with_replacement_rank, Combination.with_replacement_rank_checked, Combination.with_replacement_unrank.
    destruct (with_replacement_unrank_rank (length c) c n (length c + 1)
                (Z.to_nat (len c) + 1) (le_n _) Hc (le_n _))
      as (r & Hr & Hb & Hu); [unfold len; lia |].
    exists r; rewrite Hr; auto.
  - intros k r Hk Hr.
    unfold Combination.with_replacement_rank, Combination.with_replacement_rank_checked, Combination.with_replacement_unrank.
    destruct (Z_le_gt_dec 1 n) as [Hn | Hn].
    + destruct (with_replacement_rank_unrank (Z.to_nat k) n r (Z.to_nat k + 1) Hn)
        as (c & Hu & Hc & Hl & Hrk); [rewrite Z2Nat.id by lia; lia | lia |].
      rewrite Z2Nat.id in Hu by lia.
      exists c; rewrite Hu, Hl, (Hrk _ (le_n _)).
      repeat split; auto; unfold len; lia.
    + rewrite comb_with_replacement_out in Hr by lia.
      assert (r = 0) as -> by lia.
      exists (repeat 0 (Z.to_nat k)).
      pose proof (with_replacement_unrank_zero (Z.to_nat k) n (Z.to_nat k + 1) (le_n _)) as Hu.
      rewrite Z2Nat.id in Hu by lia.
      rewrite Hu, repeat_length, with_replacement_rank_zeros by lia.
      repeat split; auto; try lia.
      unfold len; rewrite repeat_length; lia.
Qed.

(** The theorem at the elements [[10; 20; 30; 40]] and [n = 3]. *)
Lemma rank_unrank_inverse_witness :
  NoDup [10; 20; 30; 40] /\
  (exists r, Combination.rank Z.eqb [20; 40] [10; 20; 30; 40] = Ok r /\
             Combination.unrank r [10; 20; 30; 40] 2 = Ok [20; 40]) /\
  (exists c, Combination.with_replacement_unrank 4 3 2 = Ok c /\
             Combination.with_replacement_rank c 3 = 4).
Proof.
  assert (Hnd : NoDup [10; 20; 30; 40]).
  { repeat constructor; simpl; intros H; repeat destruct H as [H | H];
      try discriminate; assumption. }
  destruct (rank_unrank_inverse Z.eqb [10; 20; 30; 40] 3 Z.eqb_eq Hnd)
    as (H1 & _ & _ & H4).
  split; [exact Hnd | split].
  - destruct (H1 [20; 40]) as (r & Hr & _ & Hu).
    + apply subseq_skip, subseq_take, subseq_skip, subseq_take, subseq_nil.
    + exists r; split; assumption.
  - destruct (H4 2 4) as (c & Hu & _ & Hr & _).
    + lia.
    + vm_compute; split; [discriminate | reflexivity].
    + exists c; split; assumption.
Defined.

(** * The number of shapes *)

(** C3, as the code has it.  [num_shapes 0 = 0] and [num_shapes 1 = 1]; for
    every [n >= 2], [num_shapes n] is the sum of [num_tree_pairings part]
    over the partitions [part] that [partition n] generates; and its values
    at [n = 0, ..., 7] are [0, 1, 1, 2, 5, 12, 33, 90], the numbers of
    unlabelled rooted trees with [n] leaves and no unary node, of any
    branching factor. *)
Theorem num_shapes_recurrence :
  num_shapes 0 = 0 /\
  num_shapes 1 = 1 /\
  (forall n, 2 <= n -> num_shapes n = sum (map num_tree_pairings (partition n))) /\
  map num_shapes (range 0 8) = [0; 1; 1; 2; 5; 12; 33; 90].
Proof.
  split; [reflexivity | split; [reflexivity | split]].
  - apply num_shapes_eq.
  - vm_compute; reflexivity.
Qed.

(** C3 does not hold of the code as stated: the literal sequence of the
    claim counts binary shapes only, and already differs at [n = 3], where
    the code counts the cherry-plus-leaf shape and the three-leaf star. *)
Lemma num_shapes_not_binary_counts :
  num_shapes 3 = 2 /\
  partition 3 = [[1; 1; 1]; [1; 2]] /\
  map num_shapes (range 0 8) <> [0; 1; 1; 1; 2; 3; 6; 11].
Proof.
  split; [vm_compute; reflexivity | split; [vm_compute; reflexivity |]].
  vm_compute; discriminate.
Qed.

(** * The counting functions never raise *)

(** C4, as the code has it.  [Combination.comb] and
    [Combination.comb_with_replacement] do not validate their arguments and
    never raise: they return an integer on all integers [n] and [k], which
    is the binomial coefficient of [n] and [k] when [0 <= k <= n], and for
    [comb_with_replacement] that of [n + k - 1] and [k] when [1 <= n] and
    [0 <= k]. *)
Theorem comb_total (n k : Z) :
  (exists v, Combination.comb_checked n k = Ok v /\
             (0 <= k <= n -> v = C n k)) /\
  (exists v, Combination.comb_with_replacement_checked n k = Ok v /\
             (1 <= n -> 0 <= k -> v = C (n + k - 1) k)).
Proof.
  split.
  - rewrite comb_checked_spec; eexists; split; [reflexivity |].
    intros H.
    destruct (Z.leb_spec 0 k), (Z.leb_spec k n); try lia; reflexivity.
  - unfold Combination.comb_with_replacement_checked; rewrite comb_checked_spec.
    eexists; split; [reflexivity |].
    intros Hn Hk.
    destruct (Z.leb_spec 0 k), (Z.leb_spec k (n + k - 1)); try lia; reflexivity.
Qed.

(** C4 does not hold of the code: [comb(3, 5)] has [k > n], and
    [comb_with_replacement(-2, 1)] has a negative argument; both return [1]
    where the claim has them fail. *)
Lemma comb_out_of_range_returns :
  ~ (forall n k, n < k \/ n < 0 \/ k < 0 ->
                 fails (Combination.comb_checked n k) /\
                 fails (Combination.comb_with_replacement_checked n k)) /\
  Combination.comb_checked 3 5 = Ok 1 /\
  Combination.comb_with_replacement_checked (-2) 1 = Ok 1.
Proof.
  split; [| split; reflexivity].
  intros H; destruct (H 3 5 ltac:(lia)) as [[e He] _].
  vm_compute in He; discriminate.
Qed.

(** * The partitions that [partition] generates *)

(** C7.  For every integer [n] (in particular every [n > 1]), the generator
    [partition(n)] runs to its end without an error, so the sequence it
    yields is finite; a list [c] is yielded exactly when it is an ascending
    composition of [n] (non-empty, non-decreasing, positive parts, sum [n])
    other than [[n]]; and the sequence is strictly increasing in the
    lexicographic order, hence yields each composition once. *)
Theorem partition_ascending_compositions (n : Z) :
  partition_checked n = Ok (partition n) /\
  (forall c, In c (partition n) <-> asc_composition 1 n c /\ c <> [n]) /\
  StronglySorted lex_lt (partition n) /\
  NoDup (partition n).
Proof.
  split; [apply partition_checked_ok |].
  split; [| split; [apply partition_sorted | apply partition_NoDup]].
  intros c; rewrite partition_In; unfold asc_composition; split.
  - intros (Hl & Ha & Hs); repeat split; auto.
    + intros ->; simpl in Hl; lia.
    + intros ->; simpl in Hl; lia.
  - intros ((Hne & Ha & Hs) & Hn); repeat split; auto.
    destruct c as [|p [|q c]]; [congruence | | simpl; lia].
    rewrite sum_cons, sum_nil in Hs; exfalso; apply Hn; f_equal; lia.
Qed.

(** * Further properties of the code *)

(** * Ranking a forest *)

(** X1.  [rank(tree)] raises the error of
    [from_tsk_tree], the [ValueError] "Can't rank trees with multiple
    roots", exactly when the number of roots of the tree is not one: with
    two roots or more, and also with no root at all.  A tree with one root
    is never rejected with this error, whatever else the ranking does. *)
Theorem rank_multiple_roots (tree : TskTree) :
  rank tree = Raise (ValueError "Can't rank trees with multiple roots") <->
  len (roots tree) <> 1.
Proof.
  split.
  - intros H Hone.
    unfold rank in H.
    pose proof (safe_from_tsk_tree tree Hone) as Hs.
    destruct (from_tsk_tree tree) as [t | e] eqn:E.
    + exact (safe_RankTree_rank t H).
    + apply Hs; simpl in H; injection H as ->; reflexivity.
  - intros H; unfold rank, from_tsk_tree.
    destruct (Z.eqb_spec (len (roots tree)) 1) as [E | _]; [contradiction |].
    reflexivity.
Qed.

(** The theorem at a forest of two leaves, which is rejected, and at a
    cherry, which is ranked. *)
Lemma rank_multiple_roots_witness :
  rank {| roots := [tsk_node 0 []; tsk_node 1 []] |} =
    Raise (ValueError "Can't rank trees with multiple roots") /\
  rank {| roots := [tsk_node 2 [tsk_node 0 []; tsk_node 1 []]] |} = Ok (0, 0).
Proof.
  split.
  - apply (proj2 (rank_multiple_roots
                    {| roots := [tsk_node 0 []; tsk_node 1 []] |})).
    vm_compute; discriminate.
  - vm_compute; reflexivity.
Defined.

(** X2.  [group_by] cuts its input into maximal runs: the groups in order
    concatenate to the input, no group is empty, the elements of a group
    are all [equal] to its first element, and the first element of every
    group but the first is not [equal] to the first element of the group
    before it. *)
Theorem group_by_runs {A} (values : list A) (equal : A -> A -> bool) :
  concat (group_by values equal) = values /\
  Forall (fun g => g <> []) (group_by values equal) /\
  maximal_runs equal (group_by values equal).
Proof.
  split; [apply group_by_concat | split].
  - apply group_by_nonempty.
  - apply group_by_maximal_runs.
Qed.

(** X3.  [set_minus(arr, subset)], for elements compared by a decidable
    equality, keeps exactly the elements of [arr] that are not in [subset],
    every occurrence of them, in the order of [arr]: an element is in the
    result exactly when it is in [arr] and not in [subset]; the result is a
    subsequence of [arr]; every subsequence of [arr] without elements of
    [subset] is a subsequence of the result; and the result is the only
    list with these properties.  When [subset] is a duplicate-free part of
    a duplicate-free [arr], the result is shorter than [arr] by the length
    of [subset]. *)
Theorem set_minus_spec {A} (eqb : A -> A -> bool) (arr subset : list A) :
  (forall x y, eqb x y = true <-> x = y) ->
  (forall x, In x (set_minus eqb arr subset) <-> In x arr /\ ~ In x subset) /\
  subseq (set_minus eqb arr subset) arr /\
  (forall r, subseq r arr -> (forall x, In x r -> ~ In x subset) ->
             subseq r (set_minus eqb arr subset)) /\
  (forall res,
     subseq res arr -> (forall x, In x res -> ~ In x subset) ->
     (forall r, subseq r arr -> (forall x, In x r -> ~ In x subset) ->
                subseq r res) ->
     res = set_minus eqb arr subset) /\
  (NoDup arr -> NoDup subset -> incl subset arr ->
   len (set_minus eqb arr subset) = len arr - len subset).
Proof.
  intros Heq.
  assert (Hin : forall x, In x (set_minus eqb arr subset) <-> In x arr /\ ~ In x subset)
    by (intros x; apply set_minus_In; assumption).
  split; [exact Hin | split; [apply set_minus_subseq | split; [| split]]].
  - intros r Hr Hs; apply set_minus_maximal; assumption.
  - intros res Hres Hs Hmax; apply subseq_antisym.
    + apply set_minus_maximal; assumption.
    + apply Hmax; [apply set_minus_subseq |].
      intros x Hx; apply Hin in Hx; tauto.
  - intros Ha Hs Hi; apply set_minus_length; assumption.
Qed.

(** The theorem at [set_minus([1, 1, 2, 3, 3], [2])]: both occurrences of
    [1] and of [3] are kept. *)
Lemma set_minus_spec_witness :
  set_minus Z.eqb [1; 1; 2; 3; 3] [2] = [1; 1; 3; 3] /\
  subseq [1; 1; 3; 3] (set_minus Z.eqb [1; 1; 2; 3; 3] [2]).
Proof.
  split; [reflexivity |].
  apply (proj1 (proj2 (proj2 (set_minus_spec Z.eqb [1; 1; 2; 3; 3] [2] Z.eqb_eq)))).
  - apply subseq_take, subseq_take, subseq_skip, subseq_take, subseq_take, subseq_nil.
  - intros x Hx [E | []]; subst x; simpl in Hx; intuition discriminate.
Defined.

(** X4.  [Combination.unrank(rank, elements, k)] does not check that
    [rank] is below the number of combinations of [k] among
    [len(elements)].  For [k >= 1] and a rank that is not below that number,
    it raises no error of its own: the recursion goes on after [elements]
    is exhausted and is more than [rank - C(len(elements), k)] nested calls
    deep, so that a call which is allowed no more nested calls than this
    excess does not return; and what a call returns, when the depth it is
    allowed is enough (as [len(elements) + k + rank + 1] is), has fewer
    than [k] elements, picked from [elements] in their order.  [depth] is
    the number of nested calls allowed, [OutOfFuel] their exhaustion. *)
Theorem unrank_rank_not_checked {A} (rank : Z) (elements : list A) (k : Z) :
  1 <= k -> C (len elements) k <= rank ->
  (forall depth, Z.of_nat depth <= rank - C (len elements) k ->
     Combination.unrank_fuel depth rank elements k = Raise OutOfFuel) /\
  (forall depth e, Combination.unrank_fuel depth rank elements k = Raise e ->
     e = OutOfFuel) /\
  (forall depth x, Combination.unrank_fuel depth rank elements k = Ok x ->
     subseq x elements /\ len x < k) /\
  (exists x,
     Combination.unrank_fuel
       (length elements + Z.to_nat k + Z.to_nat rank + 1) rank elements k = Ok x).
Proof.
  intros Hk Hr; split; [| split; [| split]].
  - intros depth Hd; apply unrank_fuel_deep; assumption.
  - intros depth e; apply unrank_fuel_raises.
  - intros depth x Hx; split.
    + eapply unrank_fuel_subseq; exact Hx.
    + eapply unrank_fuel_short; eassumption.
  - destruct (unrank_fuel_total (Z.to_nat k + Z.to_nat rank)
                (length elements + Z.to_nat k + Z.to_nat rank + 1) rank elements k)
      as (x & Hx & _); try lia.
    exists x; exact Hx.
Qed.

(** The theorem at rank [10] for the pairs of four elements, of which there
    are [6]: four nested calls are not enough, and the result is empty. *)
Lemma unrank_rank_not_checked_witness :
  Combination.unrank_fuel 4 10 [0; 1; 2; 3] 2 = Raise OutOfFuel /\
  Combination.unrank 10 [0; 1; 2; 3] 2 = Ok [] /\
  exists x, Combination.unrank 10 [0; 1; 2; 3] 2 = Ok x /\ len x < 2.
Proof.
  destruct (unrank_rank_not_checked 10 [0; 1; 2; 3] 2 ltac:(lia)
              ltac:(vm_compute; discriminate)) as (H1 & _ & H3 & _).
  split; [apply H1; vm_compute; discriminate | split; [reflexivity |]].
  exists []; split; [reflexivity |].
  exact (proj2 (H3 (length [0; 1; 2; 3] + Z.to_nat 2 + Z.to_nat 10 + 1)%nat [] eq_refl)).
Defined.

(** X5.  [Combination.rank(combination, elements)], for elements compared
    by a decidable equality, raises a [ValueError] exactly when some element
    of [combination] is not in [elements]: the error of [elements.index]. *)
Theorem rank_missing_element {A} (eqb : A -> A -> bool) (combination elements : list A) :
  (forall x y, eqb x y = true <-> x = y) ->
  (exists msg, Combination.rank eqb combination elements = Raise (ValueError msg)) <->
  ~ incl combination elements.
Proof.
  intros Heq; unfold Combination.rank; split.
  - intros [msg H] Hi.
    destruct (mapM_index_present eqb Heq _ _ Hi) as [l Hl].
    rewrite Hl in H; cbn [bind] in H.
    exact (from_range_rank_fuel_no_ValueError _ _ _ _ H).
  - intros H; rewrite mapM_index_missing by assumption.
    eexists; reflexivity.
Qed.

(** The theorem at the combination [[1; 7]] of [[0; 1; 2]]. *)
Lemma rank_missing_element_witness :
  exists msg, Combination.rank Z.eqb [1; 7] [0; 1; 2] = Raise (ValueError msg).
Proof.
  apply (proj2 (rank_missing_element Z.eqb [1; 7] [0; 1; 2] Z.eqb_eq)).
  intros H; destruct (H 7 ltac:(simpl; auto)) as [E | [E | [E | []]]]; discriminate.
Defined.

(** X6.  A shape rank outside of [[0, num_shapes(n))] is rejected by an
    assertion, for every [n] and every label rank: [RankTree.shape_unrank]
    and [RankTree.unrank] raise [AssertionError].  When [n <= 0] no shape
    rank is in range, so they raise on every rank. *)
Theorem shape_unrank_out_of_range (shape_rank n : Z) :
  ~ (0 <= shape_rank < num_shapes n) ->
  RankTree_shape_unrank shape_rank n = Raise AssertionError /\
  forall label_rank,
    RankTree_unrank (shape_rank, label_rank) n = Raise AssertionError.
Proof.
  intros H.
  assert (G : RankTree_shape_unrank shape_rank n = Raise AssertionError).
  { unfold RankTree_shape_unrank; cbn [shape_unrank_fuel].
    destruct (Z.eqb_spec n 1) as [-> | Hn].
    - change (num_shapes 1) with 1 in H.
      destruct (Z.eqb_spec shape_rank 0) as [-> | _]; [lia | reflexivity].
    - unfold children_shape_ranks.
      destruct (Z.ltb_spec 1 n) as [Hn1 | Hn1]; [| reflexivity].
      cbn [assert bind].
      destruct (Z.leb_spec 0 shape_rank), (Z.ltb_spec shape_rank (num_shapes n));
        try reflexivity; lia. }
  split; [exact G |].
  intros label_rank; unfold RankTree_unrank; rewrite G; reflexivity.
Qed.

(** The theorem at shape rank [2] for three leaves, which have two shapes. *)
Lemma shape_unrank_out_of_range_witness :
  RankTree_shape_unrank 2 3 = Raise AssertionError /\
  forall label_rank, RankTree_unrank (2, label_rank) 3 = Raise AssertionError.
Proof.
  apply shape_unrank_out_of_range; vm_compute; intros [_ H]; discriminate.
Defined.

(** X7.  The counts are positive: [num_tree_pairings(part)] is at least
    [1] for every list [part], the empty list and lists with parts that are
    not positive included, and [num_shapes(n)] is at least [1] for every
    [n >= 1]; so the divisions by [num_tree_pairings] in
    [children_shape_ranks] never divide by zero. *)
Theorem counts_positive :
  (forall part, 1 <= num_tree_pairings part) /\
  (forall n, 1 <= n -> 1 <= num_shapes n) /\
  (forall rank part, exists q r,
     floordiv rank (num_tree_pairings part) = Ok q /\
     pymod rank (num_tree_pairings part) = Ok r /\
     rank = q * num_tree_pairings part + r /\
     0 <= r < num_tree_pairings part).
Proof.
  split; [| split].
  - intros part; pose proof (num_tree_pairings_pos part); lia.
  - intros n Hn; pose proof (num_shapes_pos n Hn); lia.
  - intros rank part; pose proof (num_tree_pairings_pos part) as Hp.
    unfold floordiv, pymod.
    destruct (Z.eqb_spec (num_tree_pairings part) 0) as [E | _]; [lia |].
    eexists; eexists; split; [reflexivity | split; [reflexivity |]].
    split; [| apply Z.mod_pos_bound; assumption].
    rewrite Z.mul_comm; apply Z_div_mod_eq_full.
Qed.

(** X8.  [shape_equal] is reflexive and symmetric on all trees, whatever
    their labels and stored ranks are: it reads the children only. *)
Theorem shape_equal_refl_sym (t other : RankTree) :
  shape_equal t t = true /\
  shape_equal t other = shape_equal other t.
Proof. split; [apply shape_equal_refl | apply shape_equal_sym]. Qed.

(** X9.  For every shape rank in [[0, num_shapes(n))],
    [RankTree.shape_unrank] returns a tree: it has [n] leaves, the given
    shape rank, the labels [[None] * n] and no label rank; it is a leaf when
    [n = 1], and otherwise the numbers of leaves of its children are one of
    the lists that [partition(n)] generates, and every child is itself what
    [shape_unrank] returns for its own shape rank and number of leaves,
    a rank that is in range. *)
Theorem shape_unrank_in_range (shape_rank n : Z) :
  0 <= shape_rank < num_shapes n ->
  exists t,
    RankTree_shape_unrank shape_rank n = Ok t /\
    num_leaves t = n /\ _shape_rank t = shape_rank /\
    labels t = repeat None (Z.to_nat n) /\ _label_rank t = None /\
    (n = 1 -> children t = []) /\
    (2 <= n -> In (leaf_partition t) (partition n)) /\
    Forall (fun c =>
              0 <= _shape_rank c < num_shapes (num_leaves c) /\
              RankTree_shape_unrank (_shape_rank c) (num_leaves c) = Ok c)
           (children t).
Proof.
  intros Hr.
  destruct (shape_unrank_unranked shape_rank n Hr) as (t & Ht & Hu & Hn & Hs).
  exists t; split; [exact Ht |].
  destruct (unranked_fields t Hu) as (_ & _ & _ & (_ & _ & Hl & Hlr) & _).
  rewrite Hn in Hl.
  split; [exact Hn | split; [exact Hs | split; [exact Hl | split; [exact Hlr |]]]].
  destruct Hu as [|kids n' r part rss H1 H2 H3 H4 H5 H6 H7 H8 H9 H10];
    cbn [num_leaves children] in *.
  - split; [reflexivity | split; [lia | constructor]].
  - subst n'; split; [lia | split].
    + intros _; unfold leaf_partition; cbn [children]; rewrite H6; exact H3.
    + eapply Forall_impl; [| exact H8].
      intros c Hc; destruct (unranked_fields c Hc) as (Hrc & _ & Huc & _).
      split; [exact Hrc | apply unranks_to_shape_unrank; exact Huc].
Qed.

(** The theorem at shape rank [1] of four leaves. *)
Lemma shape_unrank_in_range_witness :
  exists t,
    RankTree_shape_unrank 1 4 = Ok t /\
    num_leaves t = 4 /\ _shape_rank t = 1 /\
    labels t = repeat None (Z.to_nat 4) /\ _label_rank t = None /\
    (4 = 1 -> children t = []) /\
    (2 <= 4 -> In (leaf_partition t) (partition 4)) /\
    Forall (fun c =>
              0 <= _shape_rank c < num_shapes (num_leaves c) /\
              RankTree_shape_unrank (_shape_rank c) (num_leaves c) = Ok c)
           (children t).
Proof.
  apply shape_unrank_in_range; split; [lia | vm_compute; reflexivity].
Defined.

(** X10.  Unranking a shape and ranking it again gives the rank back: for
    the tree [t] that [RankTree.shape_unrank] returns for a shape rank in
    [[0, num_shapes(n))], [compute_shape_rank] on [t] is that rank, and
    building a tree from the children of [t] with no shape rank given (from
    nothing, when [t] is a leaf) returns [t] itself, with the rank that
    [__init__] computes. *)
Theorem shape_rank_of_shape_unrank (shape_rank n : Z) :
  0 <= shape_rank < num_shapes n ->
  exists t,
    RankTree_shape_unrank shape_rank n = Ok t /\
    compute_shape_rank t = shape_rank /\
    RankTree_shape_rank t = shape_rank /\
    (if is_leaf t then RankTree_init None None None None
     else RankTree_init None None (Some (children t)) None) = Ok t.
Proof.
  intros Hr.
  destruct (shape_unrank_unranked shape_rank n Hr) as (t & Ht & Hu & Hn & Hs).
  exists t; split; [exact Ht |].
  destruct (unranked_fields t Hu) as (_ & _ & _ & _ & Hc).
  split; [congruence | split; [exact Hs |]].
  pose proof (unranked_init t Hu) as Hi.
  destruct (is_leaf t); exact Hi.
Qed.

(** The theorem at shape rank [3] of five leaves. *)
Lemma shape_rank_of_shape_unrank_witness :
  exists t,
    RankTree_shape_unrank 3 5 = Ok t /\
    compute_shape_rank t = 3 /\
    RankTree_shape_rank t = 3 /\
    (if is_leaf t then RankTree_init None None None None
     else RankTree_init None None (Some (children t)) None) = Ok t.
Proof.
  apply shape_rank_of_shape_unrank; split; [lia | vm_compute; reflexivity].
Defined.

(** X11.  The tree that [RankTree.shape_unrank] returns for a shape rank in
    [[0, num_shapes(n))] is canonical: [is_canonical] returns [True] on it,
    comparing the keys of unlabelled children without an error. *)
Theorem shape_unrank_is_canonical (shape_rank n : Z) :
  0 <= shape_rank < num_shapes n ->
  exists t,
    RankTree_shape_unrank shape_rank n = Ok t /\ is_canonical t = Ok true.
Proof.
  intros Hr.
  destruct (shape_unrank_unranked shape_rank n Hr) as (t & Ht & Hu & _).
  exists t; split; [exact Ht | apply is_canonical_unranked; exact Hu].
Qed.

(** The theorem at shape rank [2] of five leaves. *)
Lemma shape_unrank_is_canonical_witness :
  exists t, RankTree_shape_unrank 2 5 = Ok t /\ is_canonical t = Ok true.
Proof.
  apply shape_unrank_is_canonical; split; [lia | vm_compute; reflexivity].
Defined.

(** X12.  Different shape ranks are different shapes: the trees that
    [RankTree.shape_unrank] returns for two shape ranks, each in the range
    of its number of leaves, are [shape_equal] exactly when the numbers of
    leaves are the same and so are the ranks. *)
Theorem shape_unrank_injective (r1 n1 r2 n2 : Z) (t1 t2 : RankTree) :
  0 <= r1 < num_shapes n1 -> 0 <= r2 < num_shapes n2 ->
  RankTree_shape_unrank r1 n1 = Ok t1 ->
  RankTree_shape_unrank r2 n2 = Ok t2 ->
  shape_equal t1 t2 = true <-> n1 = n2 /\ r1 = r2.
Proof.
  intros Hr1 Hr2 H1 H2.
  destruct (shape_unrank_unranked r1 n1 Hr1) as (t1' & Ht1 & Hu1 & Hn1 & Hs1).
  destruct (shape_unrank_unranked r2 n2 Hr2) as (t2' & Ht2 & Hu2 & Hn2 & Hs2).
  assert (t1' = t1) by congruence; assert (t2' = t2) by congruence; subst t1' t2'.
  split.
  - intros Heq.
    pose proof (unranked_shape_equal t1 Hu1 t2 Hu2 Heq); subst t2.
    split; congruence.
  - intros [-> ->].
    assert (t1 = t2) by congruence; subst t2; apply shape_equal_refl.
Qed.

(** The theorem at the shape ranks [1] and [0] of four leaves. *)
Lemma shape_unrank_injective_witness :
  shape_equal (value no_tree (RankTree_shape_unrank 1 4))
              (value no_tree (RankTree_shape_unrank 0 4)) = true <->
  4 = 4 /\ 1 = 0.
Proof.
  apply (shape_unrank_injective 1 4 0 4);
    try (split; [lia | vm_compute; reflexivity]); vm_compute; reflexivity.
Defined.

(** X13.  [num_labellings(shape_rk, n)] returns a positive number for every
    shape rank in [[0, num_shapes(n))]: the counting functions it goes
    through raise no error on an unranked shape, and no group of children
    contributes a factor [0]. *)
Theorem num_labellings_positive (shape_rk n : Z) :
  0 <= shape_rk < num_shapes n ->
  exists N, num_labellings shape_rk n = Ok N /\ 1 <= N.
Proof.
  intros Hr.
  destruct (RankTree_unrank_ok shape_rk 0 n Hr) as (t & N & _ & _ & _ & _ & HN & HN1 & _).
  exists N; split; assumption.
Qed.

(** The theorem at shape rank [2] of five leaves. *)
Lemma num_labellings_positive_witness :
  exists N, num_labellings 2 5 = Ok N /\ 1 <= N.
Proof.
  apply num_labellings_positive; split; [lia | vm_compute; reflexivity].
Defined.

(** X14.  [RankTree.unrank] returns a tree for every rank in range: when
    the shape rank is in [[0, num_shapes(n))] and the label rank is in
    [[0, N)] for the number [N] that [num_labellings] returns for that
    shape, the result has [n] leaves, its [rank()] is the pair it was made
    from, its labels are [0, ..., n - 1] in this order, and every one of
    these labels is on exactly one leaf. *)
Theorem unrank_in_range (shape_rank label_rank n N : Z) :
  0 <= shape_rank < num_shapes n ->
  num_labellings shape_rank n = Ok N ->
  0 <= label_rank < N ->
  exists t,
    RankTree_unrank (shape_rank, label_rank) n = Ok t /\
    num_leaves t = n /\
    RankTree_rank t = Ok (shape_rank, label_rank) /\
    labels t = map Some (range 0 n) /\
    Permutation (leaf_labels t) (map Some (range 0 n)).
Proof.
  intros Hr HN Hl.
  destruct (RankTree_unrank_ok shape_rank label_rank n Hr)
    as (u & N' & _ & _ & Hn & Hs & HN' & _ & Hex).
  assert (N' = N) by congruence; subst N'.
  destruct (Hex Hl) as (t & Ht & F1 & F2 & F3 & F4 & _ & _ & F7 & _).
  exists t; split; [exact Ht |].
  split; [congruence | split; [| split; assumption]].
  unfold RankTree_rank, RankTree_label_rank, RankTree_shape_rank.
  rewrite F3; cbn [bind]; congruence.
Qed.

(** The theorem at the shape rank [1] and the label rank [5] of four
    leaves. *)
Lemma unrank_in_range_witness :
  exists t,
    RankTree_unrank (1, 5) 4 = Ok t /\
    num_leaves t = 4 /\
    RankTree_rank t = Ok (1, 5) /\
    labels t = map Some (range 0 4) /\
    Permutation (leaf_labels t) (map Some (range 0 4)).
Proof.
  apply (unrank_in_range 1 5 4 6);
    [split; [lia | vm_compute; reflexivity] | vm_compute; reflexivity | lia].
Defined.

(** X15.  The tree that [RankTree.unrank] returns for a rank in range is
    canonical: [is_canonical] returns [True] on it, the children of every
    node being in the order of [canonical_order], by number of leaves, then
    shape rank, then least label. *)
Theorem unrank_is_canonical (shape_rank label_rank n N : Z) :
  0 <= shape_rank < num_shapes n ->
  num_labellings shape_rank n = Ok N ->
  0 <= label_rank < N ->
  exists t,
    RankTree_unrank (shape_rank, label_rank) n = Ok t /\
    is_canonical t = Ok true.
Proof.
  intros Hr HN Hl.
  destruct (RankTree_unrank_ok shape_rank label_rank n Hr)
    as (u & N' & _ & _ & _ & _ & HN' & _ & Hex).
  assert (N' = N) by congruence; subst N'.
  destruct (Hex Hl) as (t & Ht & _ & _ & _ & _ & _ & F6 & _).
  exists t; split; assumption.
Qed.

(** The theorem at the shape rank [2] and the label rank [7] of five
    leaves. *)
Lemma unrank_is_canonical_witness :
  exists t, RankTree_unrank (2, 7) 5 = Ok t /\ is_canonical t = Ok true.
Proof.
  apply (unrank_is_canonical 2 7 5 10);
    [split; [lia | vm_compute; reflexivity] | vm_compute; reflexivity | lia].
Defined.

(** X16.  Labelling keeps the shape: the tree that [RankTree.unrank]
    returns for a rank in range is [shape_equal] to the unlabelled tree
    that [RankTree.shape_unrank] returns for its shape rank, and has the
    same shape rank. *)
Theorem unrank_same_shape (shape_rank label_rank n N : Z) :
  0 <= shape_rank < num_shapes n ->
  num_labellings shape_rank n = Ok N ->
  0 <= label_rank < N ->
  exists u t,
    RankTree_shape_unrank shape_rank n = Ok u /\
    RankTree_unrank (shape_rank, label_rank) n = Ok t /\
    shape_equal u t = true /\
    RankTree_shape_rank t = RankTree_shape_rank u.
Proof.
  intros Hr HN Hl.
  destruct (RankTree_unrank_ok shape_rank label_rank n Hr)
    as (u & N' & Hu & _ & _ & _ & HN' & _ & Hex).
  assert (N' = N) by congruence; subst N'.
  destruct (Hex Hl) as (t & Ht & _ & F2 & _ & _ & F5 & _).
  exists u, t; repeat split; assumption.
Qed.

(** The theorem at the shape rank [1] and the label rank [3] of four
    leaves. *)
Lemma unrank_same_shape_witness :
  exists u t,
    RankTree_shape_unrank 1 4 = Ok u /\
    RankTree_unrank (1, 3) 4 = Ok t /\
    shape_equal u t = true /\
    RankTree_shape_rank t = RankTree_shape_rank u.
Proof.
  apply (unrank_same_shape 1 3 4 6);
    [split; [lia | vm_compute; reflexivity] | vm_compute; reflexivity | lia].
Defined.

(** X17.  The label rank [0] is in range for every shape and labels the
    leaves from left to right: for a shape rank in [[0, num_shapes(n))],
    [RankTree.unrank((shape_rank, 0), n)], which is what the function
    [shape_unrank] of the module converts to a tree of [tskit], returns a
    tree whose leaves carry the labels [0, 1, ..., n - 1] in this order. *)
Theorem unrank_first_labelling (shape_rank n : Z) :
  0 <= shape_rank < num_shapes n ->
  exists t,
    shape_unrank shape_rank n = Ok t /\
    RankTree_unrank (shape_rank, 0) n = Ok t /\
    leaf_labels t = map Some (range 0 n).
Proof.
  intros Hr.
  destruct (RankTree_unrank_ok shape_rank 0 n Hr)
    as (u & N & _ & _ & _ & _ & _ & HN1 & Hex).
  destruct (Hex ltac:(lia)) as (t & Ht & _ & _ & _ & _ & _ & _ & _ & F8 & _).
  exists t; repeat split; [exact Ht | exact Ht | apply F8; reflexivity].
Qed.

(** The theorem at shape rank [4] of six leaves. *)
Lemma unrank_first_labelling_witness :
  exists t,
    shape_unrank 4 6 = Ok t /\
    RankTree_unrank (4, 0) 6 = Ok t /\
    leaf_labels t = map Some (range 0 6).
Proof.
  apply unrank_first_labelling; split; [lia | vm_compute; reflexivity].
Defined.

(** X18.  Ranking finds the rank that a tree was unranked from, without
    the label ranks that [RankTree.unrank] stores in it: for the tree [t]
    that [RankTree.unrank] returns for a rank in range, [add_label_ranks]
    computes, from the labels and shape ranks of [t] alone, the label ranks
    that [t] already has at every node, and [rank()] on the tree that
    differs from [t] by having no label rank at any node returns the pair
    that [t] was made from. *)
Theorem rank_of_unrank (shape_rank label_rank n N : Z) :
  0 <= shape_rank < num_shapes n ->
  num_labellings shape_rank n = Ok N ->
  0 <= label_rank < N ->
  exists t,
    RankTree_unrank (shape_rank, label_rank) n = Ok t /\
    add_label_ranks t = Ok t /\
    RankTree_rank (forget_label_ranks t) = Ok (shape_rank, label_rank).
Proof.
  intros Hr HN Hl.
  destruct (RankTree_unrank_ok shape_rank label_rank n Hr)
    as (u & N' & _ & _ & _ & Hs & HN' & _ & Hex).
  assert (N' = N) by congruence; subst N'.
  destruct (Hex Hl) as (t & Ht & _ & F2 & F3 & _ & _ & _ & _ & _ & _ & F10 & _).
  exists t; split; [exact Ht | split; [exact F10 |]].
  rewrite (RankTree_rank_forget t label_rank F10 F3); congruence.
Qed.

(** The theorem at the shape rank [2] and the label rank [7] of five
    leaves. *)
Lemma rank_of_unrank_witness :
  exists t,
    RankTree_unrank (2, 7) 5 = Ok t /\
    add_label_ranks t = Ok t /\
    RankTree_rank (forget_label_ranks t) = Ok (2, 7).
Proof.
  apply (rank_of_unrank 2 7 5 10);
    [split; [lia | vm_compute; reflexivity] | vm_compute; reflexivity | lia].
Defined.

(** X19.  Different ranks are different trees: the trees that
    [RankTree.unrank] returns for two ranks, each in range for its number
    of leaves, have the same children, labels and shape ranks at every node
    exactly when the numbers of leaves, the shape ranks and the label ranks
    are the same. *)
Theorem unrank_injective (r1 l1 n1 N1 r2 l2 n2 N2 : Z) (t1 t2 : RankTree) :
  0 <= r1 < num_shapes n1 -> num_labellings r1 n1 = Ok N1 -> 0 <= l1 < N1 ->
  0 <= r2 < num_shapes n2 -> num_labellings r2 n2 = Ok N2 -> 0 <= l2 < N2 ->
  RankTree_unrank (r1, l1) n1 = Ok t1 ->
  RankTree_unrank (r2, l2) n2 = Ok t2 ->
  forget_label_ranks t1 = forget_label_ranks t2 <->
  n1 = n2 /\ r1 = r2 /\ l1 = l2.
Proof.
  intros Hr1 HN1 Hl1 Hr2 HN2 Hl2 H1 H2.
  destruct (RankTree_unrank_ok r1 l1 n1 Hr1)
    as (u1 & N1' & _ & _ & Hn1 & Hs1 & HN1' & _ & Hex1).
  destruct (RankTree_unrank_ok r2 l2 n2 Hr2)
    as (u2 & N2' & _ & _ & Hn2 & Hs2 & HN2' & _ & Hex2).
  assert (N1' = N1) by congruence; assert (N2' = N2) by congruence; subst N1' N2'.
  destruct (Hex1 Hl1) as (t1' & Ht1 & A1 & A2 & A3 & _ & _ & _ & _ & _ & _ & A10 & _).
  destruct (Hex2 Hl2) as (t2' & Ht2 & B1 & B2 & B3 & _ & _ & _ & _ & _ & _ & B10 & _).
  assert (t1' = t1) by congruence; assert (t2' = t2) by congruence; subst t1' t2'.
  pose proof (RankTree_rank_forget t1 l1 A10 A3) as R1.
  pose proof (RankTree_rank_forget t2 l2 B10 B3) as R2.
  split.
  - intros E; rewrite E in R1; rewrite R1 in R2.
    injection R2 as E1 E2.
    assert (En : num_leaves t1 = num_leaves t2).
    { destruct (forget_label_ranks_fields t1) as (_ & <- & _).
      destruct (forget_label_ranks_fields t2) as (_ & <- & _).
      rewrite E; reflexivity. }
    repeat split; congruence.
  - intros (-> & -> & ->).
    assert (t1 = t2) by congruence; subst t2; reflexivity.
Qed.

(** The theorem at the label ranks [3] and [4] of the shape rank [1] of
    four leaves. *)
Lemma unrank_injective_witness :
  forget_label_ranks (value no_tree (RankTree_unrank (1, 3) 4)) =
  forget_label_ranks (value no_tree (RankTree_unrank (1, 4) 4)) <->
  4 = 4 /\ 1 = 1 /\ 3 = 4.
Proof.
  apply (unrank_injective 1 3 4 6 1 4 4 6);
    try (split; [lia | vm_compute; reflexivity]);
    try lia; vm_compute; reflexivity.
Defined.



(** X21.  A negative label rank is rejected for one leaf only.  With a
    shape rank in [[0, num_shapes(n))] and a label rank below [0],
    [RankTree.unrank] raises [AssertionError] when [n = 1]; when [n >= 2] it
    raises nothing: it returns the tree of some label rank [r] in [[0, N)],
    for the number [N] that [num_labellings] returns for that shape, with
    the negative rank cached on its root in place of [r], so that [rank()]
    of the result gives the negative label rank back. *)
Theorem unrank_negative_label_rank (shape_rank label_rank n N : Z) :
  0 <= shape_rank < num_shapes n ->
  num_labellings shape_rank n = Ok N ->
  label_rank < 0 ->
  (n = 1 -> RankTree_unrank (shape_rank, label_rank) n = Raise AssertionError) /\
  (2 <= n ->
   exists r t,
     0 <= r < N /\
     RankTree_unrank (shape_rank, r) n = Ok t /\
     RankTree_unrank (shape_rank, label_rank) n
       = Ok (with_label_rank label_rank t) /\
     RankTree_rank (with_label_rank label_rank t) = Ok (shape_rank, label_rank)).
Proof.
  intros Hr HN Hl.
  destruct (shape_unrank_unranked shape_rank n Hr) as (t & Ht & Hu & Hn & Hs).
  destruct (num_labellings_unranked t Hu) as [HN' _].
  unfold num_labellings in HN; rewrite Ht in HN; cbn [bind] in HN.
  assert (N = count_labellings t) by congruence; subst N.
  split.
  - intros ->.
    unfold RankTree_unrank; rewrite Ht; cbn [bind].
    unfold RankTree_label_unrank; rewrite label_unrank_on_eq.
    destruct Hu as [|kids n r part rss H1 H2 H3 H4 H5 H6 H7 H8 H9 H10];
      [| cbn [num_leaves] in Hn; lia].
    change (is_leaf (mkRankTree [] 1 [None] 0 None)) with true; cbv iota.
    unfold assert.
    destruct (Z.eqb_spec label_rank 0) as [? | _]; [lia | reflexivity].
  - intros Hn2.
    destruct Hu as [|kids n' r part rss H1 H2 H3 H4 H5 H6 H7 H8 H9 H10];
      [cbn [num_leaves] in Hn; lia |].
    set (t := mkRankTree kids n' (repeat None (Z.to_nat n')) r None) in *.
    assert (Hu : unranked t)
      by (apply (unranked_node kids n' r part rss); assumption).
    destruct (unranked_node_not_leaf kids n' part H3 H6) as [Hne Hne'].
    assert (Hleaf : is_leaf t = false).
    { unfold is_leaf, t; cbn [children]; apply Z.eqb_neq; exact Hne. }
    assert (Hid : Forall identical (group_children_by_shape t)).
    { rewrite Forall_forall; intros g Hg; apply (unranked_groups_identical kids g H8 Hg). }
    pose proof (group_by_concat kids same_shape) as Hcat.
    destruct (group_children_by_shape t) as [|g rest] eqn:Eg.
    { unfold group_children_by_shape in Eg; cbn [children t] in Eg.
      rewrite Eg in Hcat; cbn [concat] in Hcat; congruence. }
    pose proof (count_labellings_node t Hu Hleaf) as Hcount.
    rewrite Eg, (count_groups_cons g rest Hid) in Hcount.
    destruct (num_group_labellings_ok g (Forall_inv Hid)) as (_ & _ & Hg1).
    destruct (num_list_of_group_labellings_ok rest (Forall_inv_tail Hid))
      as (_ & Hgs1).
    set (p := count_group g * count_groups rest) in *.
    pose proof (comb_pos (leaves_of (g :: rest)) (len g * num_leaves (first g)))
      as Hc.
    assert (Hp : 0 < p) by (unfold p; nia).
    pose proof (Z.mod_pos_bound label_rank p Hp) as Hm.
    assert (Hin : 0 <= label_rank mod p < count_labellings t).
    { rewrite Hcount, <- Z.mul_assoc; fold p; nia. }
    destruct (RankTree_unrank_ok shape_rank (label_rank mod p) n Hr)
      as (t0 & N' & Ht0 & _ & _ & _ & HN0 & _ & Hex).
    assert (t0 = t) by congruence; subst t0.
    unfold num_labellings in HN0; rewrite Ht in HN0; cbn [bind] in HN0.
    assert (N' = count_labellings t) by congruence; subst N'.
    destruct (Hex Hin) as (t' & Ht' & F1 & F2 & F3 & _).
    exists (label_rank mod p), t'.
    split; [exact Hin | split; [exact Ht' |]].
    unfold RankTree_unrank in Ht' |- *; rewrite Ht in Ht' |- *; cbn [bind] in Ht' |- *.
    unfold RankTree_label_unrank in Ht' |- *.
    rewrite (label_unrank_on_negative t g rest label_rank _ Hleaf Eg Hid Hl).
    fold p; rewrite Ht'; cbn [bind].
    split; [reflexivity |].
    destruct t' as [cs m ls sr lr]; cbn [_shape_rank] in F2.
    unfold RankTree_rank, RankTree_label_rank, RankTree_shape_rank.
    cbn [with_label_rank _label_rank _shape_rank bind].
    rewrite F2, Hs; reflexivity.
Qed.

(** The theorem at the shape rank [1] of four leaves, which has six
    labellings, and the label rank [-1]. *)
Lemma unrank_negative_label_rank_witness :
  (4 = 1 -> RankTree_unrank (1, -1) 4 = Raise AssertionError) /\
  (2 <= 4 ->
   exists r t,
     0 <= r < 6 /\
     RankTree_unrank (1, r) 4 = Ok t /\
     RankTree_unrank (1, -1) 4 = Ok (with_label_rank (-1) t) /\
     RankTree_rank (with_label_rank (-1) t) = Ok (1, -1)).
Proof.
  apply (unrank_negative_label_rank 1 (-1) 4 6);
    [split; [lia | vm_compute; reflexivity] | vm_compute; reflexivity | lia].
Defined.

(** X22.  The functions [rank], [shape_rank] and [label_rank] of the module
    find the rank of a tree of [tskit] whatever the order of its children:
    for the tree [t] that [RankTree.unrank] returns for a rank in range and
    every tree of one root whose nodes present [t], a leaf of [t] by the
    node that is its label and an inner node by a node over presentations of
    its children in any order, [RankTree.from_tsk_tree] sorts the children
    back into the canonical order and returns [t] itself, label ranks
    included, and [rank] returns the pair that [t] was made from.  There is
    such a tree of [tskit] for every [t]. *)
Theorem rank_of_presented (sr lr n N : Z) :
  0 <= sr < num_shapes n ->
  num_labellings sr n = Ok N ->
  0 <= lr < N ->
  exists t,
    RankTree_unrank (sr, lr) n = Ok t /\
    (exists k, presents k t) /\
    forall k, presents k t ->
      from_tsk_tree {| roots := [k] |} = Ok t /\
      rank {| roots := [k] |} = Ok (sr, lr) /\
      shape_rank {| roots := [k] |} = Ok sr /\
      label_rank {| roots := [k] |} = Ok lr.
Proof.
  intros Hr HN Hl.
  destruct (RankTree_unrank_ok sr lr n Hr)
    as (u & N' & _ & _ & _ & Hs & HN' & _ & Hex).
  assert (N' = N) by congruence; subst N'.
  destruct (Hex Hl) as (t & Ht & _ & F2 & F3 & _ & _ & _ & _ & _ & _ & F10 & F11).
  exists t; split; [exact Ht |].
  split; [apply presents_exists; exact F11 |].
  intros k Hk.
  assert (E : from_tsk_tree {| roots := [k] |} = Ok t).
  { unfold from_tsk_tree; cbn [roots].
    change (negb (len [k] =? 1)) with false; cbv iota.
    rewrite py_get_0; cbn [bind].
    rewrite (from_tsk_tree_node_presents t F11 k Hk); cbn [bind].
    rewrite add_label_ranks_forget; exact F10. }
  unfold rank, shape_rank, label_rank; rewrite E; cbn [bind].
  unfold RankTree_rank, RankTree_label_rank, RankTree_shape_rank.
  rewrite F3; cbn [bind].
  repeat split; congruence.
Qed.

(** The theorem at the shape rank [2] and the label rank [7] of five
    leaves. *)
Lemma rank_of_presented_witness :
  exists t,
    RankTree_unrank (2, 7) 5 = Ok t /\
    (exists k, presents k t) /\
    forall k, presents k t ->
      from_tsk_tree {| roots := [k] |} = Ok t /\
      rank {| roots := [k] |} = Ok (2, 7) /\
      shape_rank {| roots := [k] |} = Ok 2 /\
      label_rank {| roots := [k] |} = Ok 7.
Proof.
  apply (rank_of_presented 2 7 5 10);
    [split; [lia | vm_compute; reflexivity] | vm_compute; reflexivity | lia].
Defined.

(** X23.  [RankTree.equal] decides whether two unranked trees have the same
    rank: on the trees that [RankTree.unrank] returns for two ranks, each in
    range for its number of leaves, [equal] raises nothing and returns
    [True] exactly when the numbers of leaves, the shape ranks and the label
    ranks are the same. *)
Theorem equal_decides_rank (r1 l1 n1 N1 r2 l2 n2 N2 : Z) (t1 t2 : RankTree) :
  0 <= r1 < num_shapes n1 -> num_labellings r1 n1 = Ok N1 -> 0 <= l1 < N1 ->
  0 <= r2 < num_shapes n2 -> num_labellings r2 n2 = Ok N2 -> 0 <= l2 < N2 ->
  RankTree_unrank (r1, l1) n1 = Ok t1 ->
  RankTree_unrank (r2, l2) n2 = Ok t2 ->
  exists b, equal t1 t2 = Ok b /\ (b = true <-> n1 = n2 /\ r1 = r2 /\ l1 = l2).
Proof.
  intros Hr1 HN1 Hl1 Hr2 HN2 Hl2 H1 H2.
  destruct (RankTree_unrank_ok r1 l1 n1 Hr1)
    as (u1 & N1' & _ & _ & Hn1 & Hs1 & HN1' & _ & Hex1).
  destruct (RankTree_unrank_ok r2 l2 n2 Hr2)
    as (u2 & N2' & _ & _ & Hn2 & Hs2 & HN2' & _ & Hex2).
  assert (N1' = N1) by congruence; assert (N2' = N2) by congruence; subst N1' N2'.
  destruct (Hex1 Hl1)
    as (t1' & Ht1 & A1 & A2 & A3 & _ & _ & _ & _ & _ & _ & A10 & A11).
  destruct (Hex2 Hl2)
    as (t2' & Ht2 & B1 & B2 & B3 & _ & _ & _ & _ & _ & _ & B10 & B11).
  assert (t1' = t1) by congruence; assert (t2' = t2) by congruence; subst t1' t2'.
  destruct (equal_built t1 A11 t2 B11) as (b & Eb & Hb).
  exists b; split; [exact Eb |].
  rewrite Hb.
  pose proof (RankTree_rank_forget t1 l1 A10 A3) as R1.
  pose proof (RankTree_rank_forget t2 l2 B10 B3) as R2.
  split.
  - intros E; rewrite E in R1; rewrite R1 in R2.
    injection R2 as E1 E2.
    assert (En : num_leaves t1 = num_leaves t2).
    { destruct (forget_label_ranks_fields t1) as (_ & <- & _).
      destruct (forget_label_ranks_fields t2) as (_ & <- & _).
      rewrite E; reflexivity. }
    repeat split; congruence.
  - intros (-> & -> & ->).
    assert (t1 = t2) by congruence; subst t2; reflexivity.
Qed.

(** The theorem at the label ranks [3] and [4] of the shape rank [1] of
    four leaves. *)
Lemma equal_decides_rank_witness :
  exists b,
    equal (value no_tree (RankTree_unrank (1, 3) 4))
          (value no_tree (RankTree_unrank (1, 4) 4)) = Ok b /\
    (b = true <-> 4 = 4 /\ 1 = 1 /\ 3 = 4).
Proof.
  apply (equal_decides_rank 1 3 4 6 1 4 4 6);
    try (split; [lia | vm_compute; reflexivity]);
    try lia; vm_compute; reflexivity.
Defined.
